(** * Vector kernel: Euclidean distance, cosine similarity, in-place normalize

    A shallow embedding of the two implementations of the kernel,

      - [src/wasm/vector_simd.c]   (explicit WebAssembly SIMD, 4 lanes), module [SimdC];
      - [src/wasm/vector_simd.cpp] (scalar loops),                        module [ScalarCpp];

    over IEEE-754 binary32 arithmetic (the standard library's executable
    [SpecFloat] operations at precision 24 and maximal exponent 128) and a
    WebAssembly-style linear memory of single-precision cells.  Every memory
    access is recorded in an access log, so that read-only behaviour and
    in-range access are statements about the run of the code. *)

From Stdlib Require Import ZArith List Lia Bool QArith Qabs.
From Stdlib Require Import SpecFloat.
From Stdlib Require Import Reals Lra Psatz.
From stdpp Require Import base list.

Local Open Scope Z_scope.

(** ** Single-precision floating point *)

Module F32.

Definition prec : Z := 24.
Definition emax : Z := 128.

(** A C [float]: sign, mantissa, exponent; signed zeros, infinities, one NaN. *)
Definition float : Type := spec_float.

Definition add : float -> float -> float := SFadd prec emax.
Definition sub : float -> float -> float := SFsub prec emax.
Definition mul : float -> float -> float := SFmul prec emax.
Definition div : float -> float -> float := SFdiv prec emax.
Definition sqrt : float -> float := SFsqrt prec emax.
Definition ltb : float -> float -> bool := SFltb.
Definition eqb : float -> float -> bool := SFeqb.

(** Integer literals such as [0.0f], [1.0f], [3.0f]. *)
Definition of_Z (z : Z) : float := binary_normalize prec emax z 0 false.

(** The binary32 value [m * 2^e], rounded if necessary. *)
Definition of_scaled (m e : Z) : float := binary_normalize prec emax m e false.

Definition zero : float := of_Z 0.
Definition nan : float := S754_nan.
Definition infinity : float := S754_infinity false.

(** A well-formed binary32 datum. *)
Definition valid (x : float) : bool := SpecFloat.valid_binary prec emax x.

Definition is_zero (x : float) : bool :=
  match x with S754_zero _ => true | _ => false end.

(** Finite: a zero or a nonzero finite number ([isfinite] in C). *)
Definition is_finite (x : float) : bool :=
  match x with S754_zero _ | S754_finite _ _ _ => true | _ => false end.

(** Strictly below zero: a negative number or minus infinity. *)
Definition is_negative (x : float) : bool := ltb x zero.

(** The exact rational value of a finite datum. *)
Definition to_Q (x : float) : option Q :=
  match x with
  | S754_zero _ => Some 0%Q
  | S754_finite s m e =>
      let v := (inject_Z (Zpos m) * Qpower 2 e)%Q in
      Some (if s then Qopp v else v)
  | _ => None
  end.

End F32.

Abbreviation float := F32.float.

(** ** Linear memory, access log, outcomes *)

(** One access to a memory cell, by cell address (address of a [float]
    divided by its size). *)
Inductive event : Type :=
  | EvLoad (addr : Z)
  | EvStore (addr : Z).

Definition event_addr (e : event) : Z :=
  match e with EvLoad a | EvStore a => a end.

(** The linear memory and the log of accesses, most recent first. *)
Record state : Type := mkState {
  mem : list float;
  trace : list event
}.

Inductive outcome (A : Type) : Type :=
  | Ok (a : A)
  | Trap               (* access outside the linear memory *)
  | SignedOverflow     (* [int] arithmetic overflow: undefined behaviour *)
  | OutOfFuel.
Arguments Ok {A} a.
Arguments Trap {A}.
Arguments SignedOverflow {A}.
Arguments OutOfFuel {A}.

Definition M (A : Type) : Type := state -> outcome (A * state).

Definition ret {A} (a : A) : M A := fun s => Ok (a, s).

Definition bind {A B} (m : M A) (k : A -> M B) : M B :=
  fun s =>
    match m s with
    | Ok (a, s') => k a s'
    | Trap => Trap
    | SignedOverflow => SignedOverflow
    | OutOfFuel => OutOfFuel
    end.

Definition fail_overflow {A} : M A := fun _ => SignedOverflow.
Definition fail_fuel {A} : M A := fun _ => OutOfFuel.

Declare Scope kernel_scope.
Delimit Scope kernel_scope with kernel.
Notation "x <- c1 ;; c2" := (bind c1 (fun x => c2))
  (at level 100, c1 at next level, right associativity) : kernel_scope.
Notation "c1 ;;; c2" := (bind c1 (fun _ => c2))
  (at level 100, right associativity) : kernel_scope.
Local Open Scope kernel_scope.

Definition mem_read (m : list float) (addr : Z) : option float :=
  if addr <? 0 then None else m !! Z.to_nat addr.

Definition mem_write (m : list float) (addr : Z) (x : float) : option (list float) :=
  if addr <? 0 then None
  else if addr <? Z.of_nat (length m) then Some (<[Z.to_nat addr := x]> m)
  else None.

(** [p[0]] read as an rvalue, [p] a [float*] given as a cell address. *)
Definition load_f32 (addr : Z) : M float :=
  fun s =>
    match mem_read (mem s) addr with
    | Some x => Ok (x, mkState (mem s) (EvLoad addr :: trace s))
    | None => Trap
    end.

(** [p[0] = x]. *)
Definition store_f32 (addr : Z) (x : float) : M unit :=
  fun s =>
    match mem_write (mem s) addr x with
    | Some m' => Ok (tt, mkState m' (EvStore addr :: trace s))
    | None => Trap
    end.

Definition INT_MAX : Z := 2147483647.

(** [for (int i = start; i < len; i += step) acc = body(i, acc);]
    The recursion is on [fuel]; the counter update is checked against
    [INT_MAX]. *)
Fixpoint for_loop_fuel {A} (fuel : nat) (len step i : Z)
    (body : Z -> A -> M A) (acc : A) : M A :=
  if i <? len then
    match fuel with
    | O => fail_fuel
    | S fuel' =>
        acc' <- body i acc;;
        if INT_MAX <? i + step then fail_overflow
        else for_loop_fuel fuel' len step (i + step) body acc'
    end
  else ret acc.

(** The loops of the kernel start at 0 and advance by a positive step, so
    [len] iterations always suffice. *)
Definition for_loop {A} (len step : Z) (body : Z -> A -> M A) (acc : A) : M A :=
  for_loop_fuel (Z.to_nat len) len step 0 body acc.

(** ** [vector_simd.c]: explicit 4-lane SIMD *)

Module SimdC.

(** [v128_t] viewed as four [float] lanes. *)
Record v128 : Type := V128 { lane0 : float; lane1 : float; lane2 : float; lane3 : float }.

Definition wasm_f32x4_splat (x : float) : v128 := V128 x x x x.

Definition lanewise (f : float -> float -> float) (x y : v128) : v128 :=
  V128 (f (lane0 x) (lane0 y)) (f (lane1 x) (lane1 y))
       (f (lane2 x) (lane2 y)) (f (lane3 x) (lane3 y)).

Definition wasm_f32x4_add : v128 -> v128 -> v128 := lanewise F32.add.
Definition wasm_f32x4_sub : v128 -> v128 -> v128 := lanewise F32.sub.
Definition wasm_f32x4_mul : v128 -> v128 -> v128 := lanewise F32.mul.

Definition wasm_f32x4_extract_lane (x : v128) (k : nat) : float :=
  match k with
  | 0%nat => lane0 x
  | 1%nat => lane1 x
  | 2%nat => lane2 x
  | _ => lane3 x
  end.

(** [wasm_v128_load(&p[i])]: the four cells from [addr] on. *)
Definition wasm_v128_load (addr : Z) : M v128 :=
  x0 <- load_f32 addr;;
  x1 <- load_f32 (addr + 1);;
  x2 <- load_f32 (addr + 2);;
  x3 <- load_f32 (addr + 3);;
  ret (V128 x0 x1 x2 x3).

(** [wasm_v128_store(&p[i], x)].  A trap discards the state, so a store
    that is only partly in bounds leaves nothing behind. *)
Definition wasm_v128_store (addr : Z) (x : v128) : M unit :=
  store_f32 addr (lane0 x);;;
  store_f32 (addr + 1) (lane1 x);;;
  store_f32 (addr + 2) (lane2 x);;;
  store_f32 (addr + 3) (lane3 x).

(** [extract_lane(x,0) + extract_lane(x,1) + extract_lane(x,2) + extract_lane(x,3)] *)
Definition horizontal_sum (x : v128) : float :=
  F32.add (F32.add (F32.add (wasm_f32x4_extract_lane x 0)
                            (wasm_f32x4_extract_lane x 1))
                   (wasm_f32x4_extract_lane x 2))
          (wasm_f32x4_extract_lane x 3).

Definition euclideanDistance (a b len : Z) : M float :=
  sum <- for_loop len 4 (fun i sum =>
           va <- wasm_v128_load (a + i);;
           vb <- wasm_v128_load (b + i);;
           let diff := wasm_f32x4_sub va vb in
           ret (wasm_f32x4_add sum (wasm_f32x4_mul diff diff)))
         (wasm_f32x4_splat (F32.of_Z 0));;
  let final_sum := horizontal_sum sum in
  ret (F32.sqrt final_sum).

(** The three accumulators of [cosineSimilarity]. *)
Record cos_acc : Type := CosAcc { dot : v128; normA : v128; normB : v128 }.

Definition cosineSimilarity (a b len : Z) : M float :=
  acc <- for_loop len 4 (fun i acc =>
           va <- wasm_v128_load (a + i);;
           vb <- wasm_v128_load (b + i);;
           ret (CosAcc (wasm_f32x4_add (dot acc) (wasm_f32x4_mul va vb))
                       (wasm_f32x4_add (normA acc) (wasm_f32x4_mul va va))
                       (wasm_f32x4_add (normB acc) (wasm_f32x4_mul vb vb))))
         (CosAcc (wasm_f32x4_splat (F32.of_Z 0))
                 (wasm_f32x4_splat (F32.of_Z 0))
                 (wasm_f32x4_splat (F32.of_Z 0)));;
  let dotProduct := horizontal_sum (dot acc) in
  let normASum := horizontal_sum (normA acc) in
  let normBSum := horizontal_sum (normB acc) in
  ret (F32.div dotProduct (F32.mul (F32.sqrt normASum) (F32.sqrt normBSum))).

Definition normalize (v len : Z) : M unit :=
  sum <- for_loop len 4 (fun i sum =>
           vec <- wasm_v128_load (v + i);;
           ret (wasm_f32x4_add sum (wasm_f32x4_mul vec vec)))
         (wasm_f32x4_splat (F32.of_Z 0));;
  let normSum := horizontal_sum sum in
  let norm := F32.sqrt normSum in
  let normVec := wasm_f32x4_splat (F32.div (F32.of_Z 1) norm) in
  for_loop len 4 (fun i (_ : unit) =>
    vec <- wasm_v128_load (v + i);;
    wasm_v128_store (v + i) (wasm_f32x4_mul vec normVec))
  tt.

End SimdC.

(** ** [vector_simd.cpp]: scalar loops

    The loops are taken as written, one element after the other from index
    0 upwards; the [omp simd] pragmas, which allow a compiler to reassociate
    the reductions, are not part of the embedding. *)

Module ScalarCpp.

Definition euclideanDistance (a b len : Z) : M float :=
  sum <- for_loop len 1 (fun i sum =>
           ai <- load_f32 (a + i);;
           bi <- load_f32 (b + i);;
           let diff := F32.sub ai bi in
           ret (F32.add sum (F32.mul diff diff)))
         (F32.of_Z 0);;
  ret (F32.sqrt sum).

Record cos_acc : Type := CosAcc { dot : float; normA : float; normB : float }.

(** [dot += a[i] * b[i]; normA += a[i] * a[i]; normB += b[i] * b[i];]
    with every array read performed as written. *)
Definition cosineSimilarity (a b len : Z) : M float :=
  acc <- for_loop len 1 (fun i acc =>
           a1 <- load_f32 (a + i);;
           b1 <- load_f32 (b + i);;
           let dot' := F32.add (dot acc) (F32.mul a1 b1) in
           a2 <- load_f32 (a + i);;
           a3 <- load_f32 (a + i);;
           let normA' := F32.add (normA acc) (F32.mul a2 a3) in
           b2 <- load_f32 (b + i);;
           b3 <- load_f32 (b + i);;
           let normB' := F32.add (normB acc) (F32.mul b2 b3) in
           ret (CosAcc dot' normA' normB'))
         (CosAcc (F32.of_Z 0) (F32.of_Z 0) (F32.of_Z 0));;
  ret (F32.div (dot acc) (F32.mul (F32.sqrt (normA acc)) (F32.sqrt (normB acc)))).

Definition normalize (v len : Z) : M unit :=
  sum <- for_loop len 1 (fun i sum =>
           v1 <- load_f32 (v + i);;
           v2 <- load_f32 (v + i);;
           ret (F32.add sum (F32.mul v1 v2)))
         (F32.of_Z 0);;
  let norm := F32.sqrt sum in
  if F32.ltb (F32.of_Z 0) norm then
    for_loop len 1 (fun i (_ : unit) =>
      vi <- load_f32 (v + i);;
      store_f32 (v + i) (F32.div vi norm))
    tt
  else ret tt.

End ScalarCpp.

(** ** Functional description of what the loops compute *)

(** The content of a cell, for addresses inside the memory. *)
Definition cell (m : list float) (addr : Z) : float :=
  default F32.nan (mem_read m addr).

(** The caller's buffer [p[0 .. len-1]] lies inside the linear memory. *)
Definition valid_buf (m : list float) (p len : Z) : Prop :=
  0 <= p /\ p + len <= Z.of_nat (length m).

(** Cell [addr] is element [addr - p] of the buffer [p[0 .. len-1]]. *)
Definition in_buf (p len addr : Z) : Prop := p <= addr < p + len.

(** Every element of the buffer [p[0 .. len-1]] is a zero ([0.0f] or [-0.0f]). *)
Definition zero_buf (m : list float) (p len : Z) : Prop :=
  forall i, 0 <= i < len -> F32.is_zero (cell m (p + i)) = true.

(** Every element of the buffer [p[0 .. len-1]] is finite. *)
Definition finite_buf (m : list float) (p len : Z) : Prop :=
  forall i, 0 <= i < len -> F32.is_finite (cell m (p + i)) = true.

(** The buffers [p[0 .. len-1]] and [q[0 .. len-1]] agree element by element. *)
Definition same_buf (m : list float) (p q len : Z) : Prop :=
  forall i, 0 <= i < len -> cell m (p + i) = cell m (q + i).

(** Positive zero or NaN. *)
Definition pzero_or_nan (x : float) : Prop := x = F32.zero \/ x = F32.nan.

(** A zero of either sign, or NaN. *)
Definition zero_or_nan (x : float) : Prop := F32.is_zero x = true \/ x = F32.nan.

(** Every lane is positive zero or NaN. *)
Definition pzn4 (x : SimdC.v128) : Prop :=
  pzero_or_nan (SimdC.lane0 x) /\ pzero_or_nan (SimdC.lane1 x) /\
  pzero_or_nan (SimdC.lane2 x) /\ pzero_or_nan (SimdC.lane3 x).

(** The run of [c] from [s] returns NaN and leaves the memory as it was. *)
Definition returns_nan (c : M float) (s : state) : Prop :=
  exists new, c s = Ok (F32.nan, mkState (mem s) (new ++ trace s)).

(** The access [e] falls on the buffer [p[0 .. len-1]]. *)
Definition touches (p len : Z) (e : event) : Prop := in_buf p len (event_addr e).

Definition is_load (e : event) : Prop :=
  match e with EvLoad _ => True | EvStore _ => False end.

(** [n] rounds of an accumulating loop body, at [i], [i + step], ... *)
Fixpoint iter_from {A} (f : Z -> A -> A) (step : Z) (n : nat) (i : Z) (acc : A) : A :=
  match n with
  | O => acc
  | S n' => iter_from f step n' (i + step) (f i acc)
  end.

(** *** The two orders of summation, over any arithmetic *)

Section Reductions.
Context {T : Type} (add : T -> T -> T) (zero : T) (term : Z -> T).

(** Left to right: [(((0 + t0) + t1) + t2) + ...], [n] terms. *)
Definition serial_sum (n : nat) : T :=
  iter_from (fun i acc => add acc (term i)) 1 n 0 zero.

(** Four running sums, lane [k] taking the terms [k], [k + 4], [k + 8], ...,
    over [g] groups of four terms. *)
Definition lane_sums (g : nat) : T * T * T * T :=
  iter_from (fun i '(l0, l1, l2, l3) =>
               (add l0 (term i), add l1 (term (i + 1)),
                add l2 (term (i + 2)), add l3 (term (i + 3))))
            4 g 0 (zero, zero, zero, zero).

(** The lanes added once at the end: [((l0 + l1) + l2) + l3]. *)
Definition lane_sum (g : nat) : T :=
  let '(l0, l1, l2, l3) := lane_sums g in add (add (add l0 l1) l2) l3.

End Reductions.

(** The term [(a[i] - b[i])^2] of the distance, in binary32. *)
Definition sq_diff (m : list float) (a b i : Z) : float :=
  let diff := F32.sub (cell m (a + i)) (cell m (b + i)) in F32.mul diff diff.

(** The memory with [g] applied to the cells of [p[0 .. len-1]]. *)
Definition map_region (g : float -> float) (m : list float) (p len : Z) : list float :=
  imap (fun j x => if decide (in_buf p len (Z.of_nat j)) then g x else x) m.

Module SimdSpec.
Import SimdC.

Definition read4 (m : list float) (addr : Z) : v128 :=
  V128 (cell m addr) (cell m (addr + 1)) (cell m (addr + 2)) (cell m (addr + 3)).

Definition dist_step (m : list float) (a b i : Z) (sum : v128) : v128 :=
  let diff := wasm_f32x4_sub (read4 m (a + i)) (read4 m (b + i)) in
  wasm_f32x4_add sum (wasm_f32x4_mul diff diff).

Definition cos_step (m : list float) (a b i : Z) (acc : cos_acc) : cos_acc :=
  let va := read4 m (a + i) in
  let vb := read4 m (b + i) in
  CosAcc (wasm_f32x4_add (dot acc) (wasm_f32x4_mul va vb))
         (wasm_f32x4_add (normA acc) (wasm_f32x4_mul va va))
         (wasm_f32x4_add (normB acc) (wasm_f32x4_mul vb vb)).

Definition sq_step (m : list float) (v i : Z) (sum : v128) : v128 :=
  let vec := read4 m (v + i) in
  wasm_f32x4_add sum (wasm_f32x4_mul vec vec).

Definition groups (len : Z) : nat := Z.to_nat (len / 4).

Definition zero4 : v128 := wasm_f32x4_splat (F32.of_Z 0).

Definition dist (m : list float) (a b len : Z) : float :=
  F32.sqrt (horizontal_sum (iter_from (dist_step m a b) 4 (groups len) 0 zero4)).

Definition cos_sums (m : list float) (a b len : Z) : cos_acc :=
  iter_from (cos_step m a b) 4 (groups len) 0 (CosAcc zero4 zero4 zero4).

(** The divisor of the final division. *)
Definition cos_denominator (acc : cos_acc) : float :=
  F32.mul (F32.sqrt (horizontal_sum (normA acc)))
          (F32.sqrt (horizontal_sum (normB acc))).

Definition cos_result (acc : cos_acc) : float :=
  F32.div (horizontal_sum (dot acc)) (cos_denominator acc).

(** The accumulators with the roles of the two vectors exchanged. *)
Definition cos_swap (acc : cos_acc) : cos_acc :=
  CosAcc (dot acc) (normB acc) (normA acc).

Definition cos (m : list float) (a b len : Z) : float :=
  cos_result (cos_sums m a b len).

(** The norm that [normalize] computes. *)
Definition norm (m : list float) (v len : Z) : float :=
  F32.sqrt (horizontal_sum (iter_from (sq_step m v) 4 (groups len) 0 zero4)).

Definition scale (nrm : float) (x : float) : float :=
  F32.mul x (F32.div (F32.of_Z 1) nrm).

Definition normalized (m : list float) (v len : Z) : list float :=
  map_region (scale (norm m v len)) m v len.
End SimdSpec.

Module ScalarSpec.
Import ScalarCpp.

Definition dist_step (m : list float) (a b i : Z) (sum : float) : float :=
  let diff := F32.sub (cell m (a + i)) (cell m (b + i)) in
  F32.add sum (F32.mul diff diff).

Definition cos_step (m : list float) (a b i : Z) (acc : cos_acc) : cos_acc :=
  let ai := cell m (a + i) in
  let bi := cell m (b + i) in
  CosAcc (F32.add (dot acc) (F32.mul ai bi))
         (F32.add (normA acc) (F32.mul ai ai))
         (F32.add (normB acc) (F32.mul bi bi)).

Definition sq_step (m : list float) (v i : Z) (sum : float) : float :=
  F32.add sum (F32.mul (cell m (v + i)) (cell m (v + i))).

Definition dist (m : list float) (a b len : Z) : float :=
  F32.sqrt (iter_from (dist_step m a b) 1 (Z.to_nat len) 0 (F32.of_Z 0)).

Definition cos_sums (m : list float) (a b len : Z) : cos_acc :=
  iter_from (cos_step m a b) 1 (Z.to_nat len) 0
    (CosAcc (F32.of_Z 0) (F32.of_Z 0) (F32.of_Z 0)).

(** The divisor of the final division. *)
Definition cos_denominator (acc : cos_acc) : float :=
  F32.mul (F32.sqrt (normA acc)) (F32.sqrt (normB acc)).

Definition cos_result (acc : cos_acc) : float :=
  F32.div (dot acc) (cos_denominator acc).

(** The accumulators with the roles of the two vectors exchanged. *)
Definition cos_swap (acc : cos_acc) : cos_acc :=
  CosAcc (dot acc) (normB acc) (normA acc).

Definition cos (m : list float) (a b len : Z) : float :=
  cos_result (cos_sums m a b len).

Definition norm (m : list float) (v len : Z) : float :=
  F32.sqrt (iter_from (sq_step m v) 1 (Z.to_nat len) 0 (F32.of_Z 0)).

Definition scale (nrm : float) (x : float) : float := F32.div x nrm.

Definition normalized (m : list float) (v len : Z) : list float :=
  if F32.ltb (F32.of_Z 0) (norm m v len)
  then map_region (scale (norm m v len)) m v len
  else m.
End ScalarSpec.

(** ** Read-only commands *)

(** From [s] to [s'] the memory is the same and the log grew by loads only. *)
Definition reads_only (s s' : state) : Prop :=
  mem s' = mem s /\ exists new, trace s' = new ++ trace s /\ Forall is_load new.

(** Every returning run of [c] is read-only. *)
Definition read_only_cmd {A} (c : M A) : Prop :=
  forall s a s', c s = Ok (a, s') -> reads_only s s'.

(** The log [tr'] is [tr] with later accesses added, one of them a load of a
    cell at or beyond the end of the buffer [p[0 .. len-1]]. *)
Definition reads_past_end (p len : Z) (tr tr' : list event) : Prop :=
  exists new addr, tr' = new ++ tr /\ p + len <= addr /\ In (EvLoad addr) new.

(** No run of [c] exhausts the fuel of a loop. *)
Definition fuel_suffices {A} (c : M A) : Prop := forall s, c s <> OutOfFuel.

(** Every returning run of [c] only adds to the log. *)
Definition log_grows_cmd {A} (c : M A) : Prop :=
  forall s a s', c s = Ok (a, s') -> exists new, trace s' = new ++ trace s.

(** [x] is a binary32 number within half a unit in the last place of the
    rational [q]: a correctly rounded value of [q]. *)
Definition rounding_of (q : Q) (x : float) : Prop :=
  F32.valid x = true /\
  match x, F32.to_Q x with
  | S754_finite _ _ e, Some v => (Qabs (v - q) <= Qpower 2 (e - 1))%Q
  | _, _ => False
  end.

(** A memory holding the given integers, with an empty access log. *)
Definition state_of (l : list Z) : state := mkState (map F32.of_Z l) [].

(** ** Norms and distances of results, in exact arithmetic *)

(** The elements of the buffer [p[0 .. len-1]]. *)
Definition buffer (m : list float) (p len : Z) : list float :=
  map (fun i => cell m (p + Z.of_nat i)) (seq 0 (Z.to_nat len)).

(** The exact sum of the squares of the elements, if all are finite. *)
Definition sum_sq_Q (l : list float) : option Q :=
  fold_right (fun x acc =>
                match F32.to_Q x, acc with
                | Some v, Some a => Some (Qred (v * v + a))
                | _, _ => None
                end)
             (Some 0%Q) l.

Definition tolerance : Q := 1 # 100000.

(** The L2 norm of [l] is within [tol] of 1: [(1 - tol)^2 <= sum of
    squares <= (1 + tol)^2]. *)
Definition unit_norm_withinb (tol : Q) (l : list float) : bool :=
  match sum_sq_Q l with
  | Some q => Qle_bool ((1 - tol) * (1 - tol)) q && Qle_bool q ((1 + tol) * (1 + tol))
  | None => false
  end.

Definition close_elt (tol : Q) (x y : float) : bool :=
  match F32.to_Q x, F32.to_Q y with
  | Some vx, Some vy => Qle_bool (Qabs (vx - vy)) tol
  | _, _ => false
  end.

(** [l] and [l'] have the same length and differ by at most [tol] in every
    element. *)
Fixpoint close_withinb (tol : Q) (l l' : list float) : bool :=
  match l, l' with
  | [], [] => true
  | x :: t, y :: t' => close_elt tol x y && close_withinb tol t t'
  | _, _ => false
  end.

(** [normalize] applied to the vector [l] returns with a vector of norm 1
    within [tolerance], and applied again returns with a vector within
    [tolerance] of that one. *)
Definition normalize_twice_ok (normalize : Z -> Z -> M unit) (l : list Z) : bool :=
  let len := Z.of_nat (length l) in
  match normalize 0 len (state_of l) with
  | Ok (_, s1) =>
      unit_norm_withinb tolerance (buffer (mem s1) 0 len) &&
      match normalize 0 len s1 with
      | Ok (_, s2) =>
          close_withinb tolerance (buffer (mem s1) 0 len) (buffer (mem s2) 0 len)
      | _ => false
      end
  | _ => false
  end.

(** The integers [lo], [lo + 1], ..., [n] of them. *)
Definition zrange (lo : Z) (n : nat) : list Z :=
  map (fun k => lo + Z.of_nat k) (seq 0 n).

(** [P] holds of every nonzero vector of four integers in [[-K, K]]. *)
Definition box4 (K : Z) (P : list Z -> bool) : bool :=
  let R := zrange (- K) (Z.to_nat (2 * K + 1)) in
  forallb (fun x0 => forallb (fun x1 => forallb (fun x2 => forallb (fun x3 =>
    match x0, x1, x2, x3 with
    | 0, 0, 0, 0 => true
    | _, _, _, _ => P [x0; x1; x2; x3]
    end) R) R) R) R.

(** ** Sample states *)

Definition state_7_8 : state := state_of [7; 8].

Definition state_3_4_0_0 : state := state_of [3; 4; 0; 0].

(** The vector [[2^100; 0; 0; 0]]. *)
Definition state_huge : state := state_of [2 ^ 100; 0; 0; 0].

(** The zero vector at cell 0 and [[2^100; 0; 0; 0]] at cell 4. *)
Definition state_zero_huge : state := state_of [0; 0; 0; 0; 2 ^ 100; 0; 0; 0].

(** [a = [2^-100; 0; 0; 0]] at cell 0 and the zero vector at cell 4. *)
Definition state_tiny : state :=
  mkState (F32.of_scaled 1 (-100) :: map F32.of_Z [0; 0; 0; 0; 0; 0; 0]) [].

(** [a = [inf; 0; 0; 0]] at cell 0. *)
Definition state_inf : state :=
  mkState (F32.infinity :: map F32.of_Z [0; 0; 0]) [].

(** [a = [4096; 1; 1; 1; 1; 1; 1; 1]] at cell 0 and the zero vector at cell 8. *)
Definition state_4096_ones : state :=
  state_of [4096; 1; 1; 1; 1; 1; 1; 1; 0; 0; 0; 0; 0; 0; 0; 0].

(** [a = [1; 0; 0; 0]] at cell 0 and [b = [0; 1; 0; 0]] at cell 4. *)
Definition state_e1_e2 : state := state_of [1; 0; 0; 0; 0; 1; 0; 0].

(** Two buffers of five elements each, at cells 0 and 8, in a memory of
    sixteen cells. *)
Definition state_two_of_five : state :=
  state_of [1; 2; 3; 4; 5; 0; 0; 0; 5; 4; 3; 2; 1; 0; 0; 0].

(** ** Further notions used by the properties *)

(** Every run of [c] from memory [m] returns with the memory [m], or traps. *)
Definition reads_or_traps {A} (m : list float) (c : M A) : Prop :=
  forall s, mem s = m ->
    (exists a tr', c s = Ok (a, mkState m tr')) \/ c s = Trap.

(** Every run of [c] from memory [m] traps. *)
Definition traps_on {A} (m : list float) (c : M A) : Prop :=
  forall s, mem s = m -> c s = Trap.

(** The buffer [p[0 .. len-1]] lies in the 32-bit address space of
    WebAssembly: its byte addresses [4 p .. 4 (p + len) - 1] are below
    [2^32], so that no pointer computation [&p[i]] wraps around. *)
Definition in_address_space (p len : Z) : Prop := 0 <= p /\ p + len <= 2 ^ 30.

(** Some lane is NaN. *)
Definition nan_lane (x : SimdC.v128) : Prop :=
  SimdC.lane0 x = F32.nan \/ SimdC.lane1 x = F32.nan \/
  SimdC.lane2 x = F32.nan \/ SimdC.lane3 x = F32.nan.

(** [a = [NaN; 1; 2; 3]] at cell 0 and [b = [1; 0; 0; 0]] at cell 4. *)
Definition state_with_nan : state :=
  mkState (F32.nan :: map F32.of_Z [1; 2; 3; 1; 0; 0; 0]) [].

(** Not carrying a minus sign: [+0], a positive number, [+inf], or NaN. *)
Definition unsigned_float (x : float) : Prop :=
  match x with
  | S754_zero s | S754_infinity s | S754_finite s _ _ => s = false
  | S754_nan => True
  end.

(** The sign bit of a datum; NaN has none. *)
Definition sign_bit (x : float) : option bool :=
  match x with
  | S754_zero s | S754_infinity s | S754_finite s _ _ => Some s
  | S754_nan => None
  end.

(** The next multiple of 4 at or above [len]. *)
Definition round_up4 (len : Z) : Z := 4 * ((len + 3) / 4).

(** ** Real values of binary32 data and rounding errors *)

Local Open Scope R_scope.

Definition bpow (e : Z) : R := powerRZ 2 e.
Definition F2R (m e : Z) : R := IZR m * bpow e.

(** Location of a positive real [t] with respect to the grid [m * 2^e]. *)
Definition located (t : R) (m e : Z) (l : location) : Prop :=
  match l with
  | loc_Exact => t = F2R m e
  | loc_Inexact Lt => F2R m e < t < (IZR m + / 2) * bpow e
  | loc_Inexact Eq => t = (IZR m + / 2) * bpow e
  | loc_Inexact Gt => (IZR m + / 2) * bpow e < t < F2R (m + 1) e
  end.

Definition u32 : R := bpow (-24).

Definition sgn (s : bool) : R := if s then -1 else 1.

Definition to_R (x : float) : R :=
  match x with
  | S754_finite s m e => sgn s * F2R (Zpos m) e
  | _ => 0
  end.

(** A zero or a normal number. *)
Definition regular (x : float) : Prop :=
  match x with
  | S754_zero _ => True
  | S754_finite _ m e => Zpos (digits2_pos m) = 24%Z /\ (-149 <= e <= 104)%Z
  | _ => False
  end.

(** Zero, or of a magnitude that is rounded without underflow or overflow. *)
Definition in_range (t : R) : Prop :=
  t = 0 \/ bpow (-125) <= Rabs t < bpow 127.

(** [x] is a zero or a normal number within relative error [2^-24] of [t]. *)
Definition rnd (t : R) (x : float) : Prop :=
  regular x /\ Rabs (to_R x - t) <= u32 * Rabs t.

(** [x] is [S] up to [k] roundings: [S (1 - u)^k <= x <= S / (1 - u)^k]
    with [u = 2^-24]. *)
Definition near (k : nat) (S x : R) : Prop :=
  S * (1 - u32) ^ k <= x <= S / (1 - u32) ^ k.

(** The float [x] holds the non-negative sum [S] up to [k] roundings; [S] is
    zero or far from underflow and overflow. *)
Definition acc_ok (k : nat) (S : R) (x : float) : Prop :=
  regular x /\ near k S (to_R x) /\ (S = 0 \/ bpow (-100) <= S) /\ S <= bpow 123.

(** Zero, or a normal number of magnitude in [[2^-50, 2^54)]. *)
Definition well_scaled (x : float) : bool :=
  match x with
  | S754_zero _ => true
  | S754_finite _ m e =>
      (Zpos (digits2_pos m) =? 24)%Z && (-73 <=? e)%Z && (e <=? 30)%Z
  | _ => false
  end.

(** Every element of the buffer [p[0 .. len-1]] is well scaled. *)
Definition scaled_buf (m : list float) (p len : Z) : Prop :=
  forall i, (0 <= i < len)%Z -> well_scaled (cell m (p + i)) = true.

(** The term [v[i]^2] of the norm, in binary32. *)
Definition sq_elt (m : list float) (v i : Z) : float :=
  F32.mul (cell m (v + i)) (cell m (v + i)).

(** The exact sum of the squares of the elements of [v[0 .. len-1]]. *)
Definition norm_sq_R (m : list float) (v len : Z) : R :=
  serial_sum Rplus 0 (fun i => to_R (cell m (v + i)) * to_R (cell m (v + i)))
    (Z.to_nat len).

(** The exact sum of the squares of the differences of [a] and [b]. *)
Definition dist_sq_R (m : list float) (a b len : Z) : R :=
  serial_sum Rplus 0
    (fun i => (to_R (cell m (a + i)) - to_R (cell m (b + i))) *
              (to_R (cell m (a + i)) - to_R (cell m (b + i))))
    (Z.to_nat len).

(** Zero, or a normal number of magnitude in [[2^-27, 2^54)]: the difference
    of two such numbers is zero or at least [2^-50]. *)
Definition diff_scaled (x : float) : bool :=
  match x with
  | S754_zero _ => true
  | S754_finite _ m e =>
      (Zpos (digits2_pos m) =? 24)%Z && (-50 <=? e)%Z && (e <=? 30)%Z
  | _ => false
  end.

(** Every element of the buffer [p[0 .. len-1]] is so scaled. *)
Definition diff_scaled_buf (m : list float) (p len : Z) : Prop :=
  forall i, (0 <= i < len)%Z -> diff_scaled (cell m (p + i)) = true.

(** [t] is an integer multiple of [2^G]. *)
Definition on_grid (G : Z) (t : R) : Prop := exists z : Z, t = IZR z * bpow G.

(** The relative error accumulated by [k] roundings: [(1 - u)^-k - 1]. *)
Definition gam (k : nat) : R := / (1 - u32) ^ k - 1.

(** The float [x] holds the sum [s] of terms whose magnitudes add up to [A],
    with absolute error at most [gam k * A]; it lies on the grid [2^G]. *)
Definition sacc (G : Z) (k : nat) (A s : R) (x : float) : Prop :=
  regular x /\ on_grid G (to_R x) /\ Rabs s <= A /\
  Rabs (to_R x - s) <= gam k * A /\ A <= bpow 123.

(** Zero, or a normal number of magnitude in [[2^-17, 2^16)]. *)
Definition moderate (x : float) : bool :=
  match x with
  | S754_zero _ => true
  | S754_finite _ m e =>
      (Zpos (digits2_pos m) =? 24)%Z && (-40 <=? e)%Z && (e <=? -8)%Z
  | _ => false
  end.

(** Every element of the buffer [p[0 .. len-1]] is of moderate size. *)
Definition moderate_buf (m : list float) (p len : Z) : Prop :=
  forall i, (0 <= i < len)%Z -> moderate (cell m (p + i)) = true.

(** The term [a[i] * b[i]] of the dot product, in binary32. *)
Definition prod_elt (m : list float) (a b i : Z) : float :=
  F32.mul (cell m (a + i)) (cell m (b + i)).

(** The exact dot product of [a] and [b]. *)
Definition dot_R (m : list float) (a b len : Z) : R :=
  serial_sum Rplus 0 (fun i => to_R (cell m (a + i)) * to_R (cell m (b + i)))
    (Z.to_nat len).

(** The exact sum of the magnitudes of the terms of the dot product. *)
Definition dot_abs_R (m : list float) (a b len : Z) : R :=
  serial_sum Rplus 0 (fun i => Rabs (to_R (cell m (a + i)) * to_R (cell m (b + i))))
    (Z.to_nat len).

(** The exact cosine of the angle between [a] and [b]. *)
Definition cos_R (m : list float) (a b len : Z) : R :=
  dot_R m a b len / (sqrt (norm_sq_R m a len) * sqrt (norm_sq_R m b len)).

(** The dot-product accumulator of the SIMD loop, on its own. *)
Definition dot_step4 (m : list float) (a b i : Z) (acc : SimdC.v128) : SimdC.v128 :=
  SimdC.wasm_f32x4_add acc
    (SimdC.wasm_f32x4_mul (SimdSpec.read4 m (a + i)) (SimdSpec.read4 m (b + i))).

(** The datum [x] is the result of rounding a number of sign [s] and of
    magnitude at least [2^(D-1)]: a finite number of that sign, with an
    exponent in range and at least that magnitude, or the infinity of that
    sign. *)
Definition rounded_from (s : bool) (D : Z) (x : float) : Prop :=
  match x with
  | S754_finite s' m e =>
      s' = s /\ (-149 <= e)%Z /\ (D <= Zpos (digits2_pos m) + e)%Z
  | S754_infinity s' => s' = s
  | _ => False
  end.

(** A number of sign [s] and magnitude at least [2^(D-1)], or the infinity
    of that sign. *)
Definition at_least (s : bool) (D : Z) (x : float) : Prop :=
  match x with
  | S754_finite s' m e => s' = s /\ (D <= Zpos (digits2_pos m) + e)%Z
  | S754_infinity s' => s' = s
  | _ => False
  end.

(** Strictly positive: a positive number or plus infinity. *)
Definition positive_float (x : float) : Prop :=
  match x with
  | S754_finite false _ e => (-149 <= e)%Z
  | S754_infinity false => True
  | _ => False
  end.

(** Plus zero or strictly positive. *)
Definition pzero_or_positive (x : float) : Prop :=
  x = F32.zero \/ positive_float x.

(** The elements of [a] and [b] are equal pair by pair ([==] in C). *)
Definition equal_buf (m : list float) (a b len : Z) : Prop :=
  forall i, (0 <= i < len)%Z ->
    F32.eqb (cell m (a + i)) (cell m (b + i)) = true.

(** No difference is so small that its square underflows to zero: the
    elements of each pair are equal or at least [2^-74] apart. *)
Definition apart_buf (m : list float) (a b len : Z) : Prop :=
  forall i, (0 <= i < len)%Z ->
    F32.eqb (cell m (a + i)) (cell m (b + i)) = true \/
    bpow (-74) <= Rabs (to_R (cell m (a + i)) - to_R (cell m (b + i))).

Local Close Scope R_scope.

(** * Properties *)

(** ** The monad and the memory *)

Lemma bind_Ok {A B} (c : M A) (k : A -> M B) s a s' :
  c s = Ok (a, s') -> bind c k s = k a s'.
Proof. unfold bind. intros ->. reflexivity. Qed.

Lemma bind_Ok_inv {A B} (c : M A) (k : A -> M B) s r :
  bind c k s = Ok r -> exists a s', c s = Ok (a, s') /\ k a s' = Ok r.
Proof.
  unfold bind. destruct (c s) as [[a s']| | |]; try discriminate.
  intros H. exists a, s'. split; [reflexivity | exact H].
Qed.

Lemma mem_read_valid (m : list float) addr :
  0 <= addr < Z.of_nat (length m) -> mem_read m addr = Some (cell m addr).
Proof.
  intros [H0 H1]. unfold cell, mem_read.
  destruct (addr <? 0) eqn:E; [apply Z.ltb_lt in E; lia |].
  destruct (m !! Z.to_nat addr) eqn:L; [reflexivity |].
  apply lookup_ge_None in L. lia.
Qed.

Lemma mem_read_Some (m : list float) addr x :
  mem_read m addr = Some x -> 0 <= addr < Z.of_nat (length m) /\ cell m addr = x.
Proof.
  unfold cell. intros H. rewrite H. split; [| reflexivity].
  unfold mem_read in H. destruct (addr <? 0) eqn:E; [discriminate |].
  apply Z.ltb_ge in E. apply lookup_lt_Some in H. lia.
Qed.

Lemma load_f32_valid s addr :
  0 <= addr < Z.of_nat (length (mem s)) ->
  load_f32 addr s = Ok (cell (mem s) addr, mkState (mem s) (EvLoad addr :: trace s)).
Proof. intros H. unfold load_f32. rewrite (mem_read_valid _ _ H). reflexivity. Qed.

Lemma load_f32_inv s addr x s' :
  load_f32 addr s = Ok (x, s') ->
  0 <= addr < Z.of_nat (length (mem s)) /\ x = cell (mem s) addr /\
  s' = mkState (mem s) (EvLoad addr :: trace s).
Proof.
  unfold load_f32. destruct (mem_read (mem s) addr) as [y|] eqn:E; [| discriminate].
  intros H. injection H as <- <-. apply mem_read_Some in E as [? ?]. auto.
Qed.

Lemma store_f32_valid s addr x :
  0 <= addr < Z.of_nat (length (mem s)) ->
  store_f32 addr x s =
    Ok (tt, mkState (<[Z.to_nat addr := x]> (mem s)) (EvStore addr :: trace s)).
Proof.
  intros [H0 H1]. unfold store_f32, mem_write.
  destruct (addr <? 0) eqn:E; [apply Z.ltb_lt in E; lia |].
  destruct (addr <? Z.of_nat (length (mem s))) eqn:E'; [reflexivity |].
  apply Z.ltb_ge in E'. lia.
Qed.

Lemma store_f32_inv s addr x u s' :
  store_f32 addr x s = Ok (u, s') ->
  0 <= addr < Z.of_nat (length (mem s)) /\
  s' = mkState (<[Z.to_nat addr := x]> (mem s)) (EvStore addr :: trace s).
Proof.
  unfold store_f32, mem_write.
  destruct (addr <? 0) eqn:E; [discriminate |].
  destruct (addr <? Z.of_nat (length (mem s))) eqn:E'; [| discriminate].
  intros H. injection H as <-. apply Z.ltb_ge in E. apply Z.ltb_lt in E'. auto.
Qed.

(** ** Loop rules *)

(** The fuel handed to a loop by [for_loop] is never exhausted. *)
Lemma for_loop_fuel_enough {A} len step (body : Z -> A -> M A) :
  0 < step ->
  (forall i acc s, body i acc s <> OutOfFuel) ->
  forall fuel i acc s, len - i <= Z.of_nat fuel ->
  for_loop_fuel fuel len step i body acc s <> OutOfFuel.
Proof.
  intros Hstep Hbody. induction fuel as [|fuel IH]; intros i acc s Hf; simpl.
  - destruct (i <? len) eqn:E; [apply Z.ltb_lt in E; lia | discriminate].
  - destruct (i <? len) eqn:E; [| discriminate].
    apply Z.ltb_lt in E.
    unfold bind. pose proof (Hbody i acc s) as Hb.
    destruct (body i acc s) as [[acc' s']| | |]; try discriminate; try congruence.
    destruct (INT_MAX <? i + step); [discriminate |].
    apply IH. lia.
Qed.

(** Total correctness: an invariant that every round re-establishes, with a
    body that succeeds and a counter that stays in range, holds at exit. *)
Lemma for_loop_fuel_total {A} (Inv : Z -> A -> state -> Prop)
    len step (body : Z -> A -> M A) :
  0 < step ->
  (forall i acc s, i < len -> Inv i acc s ->
     i + step <= INT_MAX /\
     exists acc' s', body i acc s = Ok (acc', s') /\ Inv (i + step) acc' s') ->
  forall fuel i acc s, len - i <= Z.of_nat fuel -> Inv i acc s ->
  exists j acc' s',
    for_loop_fuel fuel len step i body acc s = Ok (acc', s') /\
    Inv j acc' s' /\ len <= j.
Proof.
  intros Hstep Hbody. induction fuel as [|fuel IH]; intros i acc s Hf HI; simpl.
  - destruct (i <? len) eqn:E; [apply Z.ltb_lt in E; lia |].
    apply Z.ltb_ge in E. exists i, acc, s. auto.
  - destruct (i <? len) eqn:E.
    + apply Z.ltb_lt in E.
      destruct (Hbody i acc s E HI) as (Hmax & acc' & s' & Hb & HI').
      rewrite (bind_Ok _ _ _ _ _ Hb).
      destruct (INT_MAX <? i + step) eqn:E'; [apply Z.ltb_lt in E'; lia |].
      apply IH; [lia | exact HI'].
    + apply Z.ltb_ge in E. exists i, acc, s. auto.
Qed.

(** Partial correctness: whatever the outcome of the rounds, a loop that
    returns has kept the invariant. *)
Lemma for_loop_fuel_partial {A} (Inv : Z -> A -> state -> Prop)
    len step (body : Z -> A -> M A) :
  (forall i acc s acc' s', i < len -> Inv i acc s ->
     body i acc s = Ok (acc', s') -> Inv (i + step) acc' s') ->
  forall fuel i acc s acc' s',
    for_loop_fuel fuel len step i body acc s = Ok (acc', s') ->
    Inv i acc s ->
    exists j, len <= j /\ Inv j acc' s'.
Proof.
  intros Hbody. induction fuel as [|fuel IH]; intros i acc s acc' s' Hrun HI;
    simpl in Hrun.
  - destruct (i <? len) eqn:E; [discriminate |].
    apply Z.ltb_ge in E. injection Hrun as <- <-. eauto.
  - destruct (i <? len) eqn:E.
    + apply Z.ltb_lt in E.
      apply bind_Ok_inv in Hrun as (acc1 & s1 & Hb & Hrun).
      destruct (INT_MAX <? i + step); [discriminate |].
      eapply IH; [exact Hrun |]. eapply Hbody; eauto.
    + apply Z.ltb_ge in E. injection Hrun as <- <-. eauto.
Qed.

(** A loop whose body, at counter [i], computes [f i] on the accumulator,
    takes the memory from [mi i] to [mi (i + step)] and adds to the log only
    events in [T], computes the iterated [f], ends in memory [mi len] and has
    added only events in [T]. *)
Lemma for_loop_run {A} (T : event -> Prop) (f : Z -> A -> A) (mi : Z -> list float)
    len step (body : Z -> A -> M A) :
  0 < step -> 0 <= len <= INT_MAX -> len mod step = 0 ->
  (forall i acc s, 0 <= i -> i + step <= len -> mem s = mi i ->
     exists new, body i acc s = Ok (f i acc, mkState (mi (i + step)) (new ++ trace s)) /\
                 Forall T new) ->
  forall acc s, mem s = mi 0 ->
  exists new,
    for_loop len step body acc s =
      Ok (iter_from f step (Z.to_nat (len / step)) 0 acc, mkState (mi len) (new ++ trace s)) /\
    Forall T new.
Proof.
  intros Hstep Hlen Hmod Hbody acc s Hm.
  set (n := len / step).
  assert (Hn : len = step * n) by (unfold n; apply Z.div_exact; lia).
  assert (Hn0 : 0 <= n) by (unfold n; apply Z.div_pos; lia).
  pose (Inv := fun (j : Z) (acc' : A) (s' : state) =>
    exists k new, j = step * k /\ 0 <= k <= n /\ mem s' = mi j /\
      trace s' = new ++ trace s /\ Forall T new /\
      iter_from f step (Z.to_nat (n - k)) j acc' = iter_from f step (Z.to_nat n) 0 acc).
  destruct (for_loop_fuel_total Inv len step body Hstep) with
    (fuel := Z.to_nat len) (i := 0) (acc := acc) (s := s)
    as (j & acc' & s' & Hrun & HI & Hj).
  - intros i acc0 s0 Hi (k & new & -> & Hk & Hm0 & Htr & HT & Hit).
    assert (k < n) by nia.
    split; [nia |].
    destruct (Hbody (step * k) acc0 s0) as (new' & Hb & HT'); [nia | nia | exact Hm0 |].
    eexists _, _. split; [exact Hb |].
    exists (k + 1), (new' ++ new). simpl.
    split; [lia |]. split; [lia |]. split; [reflexivity |].
    split; [rewrite Htr; apply app_assoc |].
    split; [apply Forall_app; auto |].
    rewrite <- Hit. replace (Z.to_nat (n - k)) with (S (Z.to_nat (n - (k + 1)))) by lia.
    simpl. f_equal; lia.
  - lia.
  - exists 0, []. split; [lia |]. split; [lia |]. split; [exact Hm |].
    split; [reflexivity |]. split; [constructor |].
    rewrite Z.sub_0_r. reflexivity.
  - destruct HI as (k & new & -> & Hk & Hm' & Htr & HT & Hit).
    assert (k = n) by nia. subst k.
    rewrite Z.sub_diag in Hit. simpl in Hit. subst acc'.
    exists new. split; [| exact HT].
    unfold for_loop. rewrite Hrun. destruct s' as [m' tr']. simpl in *. congruence.
Qed.

(** The same for a body that only reads the memory. *)
Lemma for_loop_readonly {A} (T : event -> Prop) (f : Z -> A -> A) (m : list float)
    len step (body : Z -> A -> M A) :
  0 < step -> 0 <= len <= INT_MAX -> len mod step = 0 ->
  (forall i acc s, 0 <= i -> i + step <= len -> mem s = m ->
     exists new, body i acc s = Ok (f i acc, mkState m (new ++ trace s)) /\
                 Forall T new) ->
  forall acc s, mem s = m ->
  exists new,
    for_loop len step body acc s =
      Ok (iter_from f step (Z.to_nat (len / step)) 0 acc, mkState m (new ++ trace s)) /\
    Forall T new.
Proof.
  intros Hstep Hlen Hmod Hbody acc s Hm.
  exact (for_loop_run T f (fun _ => m) len step body Hstep Hlen Hmod Hbody acc s Hm).
Qed.

Lemma iter_from_unit (f : Z -> unit -> unit) step n i u : iter_from f step n i u = tt.
Proof. destruct (iter_from f step n i u). reflexivity. Qed.

(** ** Regions of the memory *)

Lemma length_map_region g m p len : length (map_region g m p len) = length m.
Proof. unfold map_region. apply length_imap. Qed.

Lemma mem_read_map_region g m p len addr :
  mem_read (map_region g m p len) addr =
  (fun x => if decide (in_buf p len addr) then g x else x) <$> mem_read m addr.
Proof.
  unfold mem_read, map_region.
  destruct (addr <? 0) eqn:E; [reflexivity |]. apply Z.ltb_ge in E.
  rewrite list_lookup_imap. rewrite Z2Nat.id by lia. reflexivity.
Qed.

Lemma cell_map_region_in g m p len addr :
  0 <= addr < Z.of_nat (length m) -> in_buf p len addr ->
  cell (map_region g m p len) addr = g (cell m addr).
Proof.
  intros Ha Hin. unfold cell at 1. rewrite mem_read_map_region.
  rewrite (mem_read_valid _ _ Ha). simpl.
  destruct (decide (in_buf p len addr)); [reflexivity | contradiction].
Qed.

Lemma cell_map_region_out g m p len addr :
  ~ in_buf p len addr ->
  cell (map_region g m p len) addr = cell m addr.
Proof.
  intros Hout. unfold cell. rewrite mem_read_map_region.
  destruct (mem_read m addr); simpl; [| reflexivity].
  destruct (decide (in_buf p len addr)); [contradiction | reflexivity].
Qed.

Lemma map_region_empty g m p len : len <= 0 -> map_region g m p len = m.
Proof.
  intros H. unfold map_region. apply list_eq. intros j.
  rewrite list_lookup_imap. destruct (m !! j); simpl; [| reflexivity].
  destruct (decide (in_buf p len (Z.of_nat j))) as [Hin|]; [| reflexivity].
  unfold in_buf in Hin. lia.
Qed.

(** Storing the image of the next cell extends the mapped region by one. *)
Lemma map_region_insert g m p i :
  0 <= p -> 0 <= i -> p + i < Z.of_nat (length m) ->
  <[Z.to_nat (p + i) := g (cell m (p + i))]> (map_region g m p i) =
  map_region g m p (i + 1).
Proof.
  intros Hp Hi Hlt. apply list_eq. intros j.
  unfold map_region. rewrite list_lookup_insert, !list_lookup_imap, length_imap.
  destruct (decide (Z.to_nat (p + i) = j ∧ (Z.to_nat (p + i) < length m)%nat))
    as [[<- _]|Hne].
  - assert (Hc : mem_read m (p + i) = Some (cell m (p + i)))
      by (apply mem_read_valid; lia).
    unfold mem_read in Hc. destruct (p + i <? 0) eqn:E; [discriminate |].
    rewrite Hc. simpl.
    destruct (decide (in_buf p (i + 1) (Z.of_nat (Z.to_nat (p + i))))) as [|Hn];
      [reflexivity |].
    exfalso. apply Hn. unfold in_buf. lia.
  - destruct (m !! j) as [x|] eqn:L; simpl; [| reflexivity].
    f_equal.
    assert (Z.of_nat j <> p + i).
    { intros Heq. apply Hne. apply lookup_lt_Some in L. split; lia. }
    destruct (decide (in_buf p i (Z.of_nat j))) as [H1|H1];
      destruct (decide (in_buf p (i + 1) (Z.of_nat j))) as [H2|H2];
      try reflexivity; unfold in_buf in *; lia.
Qed.

(** ** Runs of the SIMD implementation *)

(** One scalar access in range, performed at the head of a sequence. *)
Ltac run_load :=
  erewrite bind_Ok
    by (apply load_f32_valid; simpl; rewrite ?length_insert, ?length_map_region; lia).

Ltac run_store :=
  erewrite bind_Ok
    by (apply store_f32_valid; simpl; rewrite ?length_insert, ?length_map_region; lia).

Lemma wasm_v128_load_valid s addr :
  0 <= addr -> addr + 4 <= Z.of_nat (length (mem s)) ->
  SimdC.wasm_v128_load addr s =
    Ok (SimdSpec.read4 (mem s) addr,
        mkState (mem s)
          ([EvLoad (addr + 3); EvLoad (addr + 2); EvLoad (addr + 1); EvLoad addr]
             ++ trace s)).
Proof.
  intros H0 H1. unfold SimdC.wasm_v128_load.
  do 4 run_load. reflexivity.
Qed.

Lemma wasm_v128_load_inv s addr x s' :
  SimdC.wasm_v128_load addr s = Ok (x, s') ->
  0 <= addr /\ addr + 4 <= Z.of_nat (length (mem s)) /\
  x = SimdSpec.read4 (mem s) addr /\
  s' = mkState (mem s)
         ([EvLoad (addr + 3); EvLoad (addr + 2); EvLoad (addr + 1); EvLoad addr]
            ++ trace s).
Proof.
  unfold SimdC.wasm_v128_load. intros H.
  apply bind_Ok_inv in H as (x0 & s0 & H0 & H).
  apply bind_Ok_inv in H as (x1 & s1 & H1 & H).
  apply bind_Ok_inv in H as (x2 & s2 & H2 & H).
  apply bind_Ok_inv in H as (x3 & s3 & H3 & H).
  apply load_f32_inv in H0 as (B0 & -> & ->).
  apply load_f32_inv in H1 as (B1 & -> & ->).
  apply load_f32_inv in H2 as (B2 & -> & ->).
  apply load_f32_inv in H3 as (B3 & -> & ->).
  simpl in *. unfold ret in H. injection H as <- <-.
  repeat split; lia.
Qed.

Lemma wasm_v128_store_valid s addr x :
  0 <= addr -> addr + 4 <= Z.of_nat (length (mem s)) ->
  SimdC.wasm_v128_store addr x s =
    Ok (tt,
        mkState
          (<[Z.to_nat (addr + 3) := SimdC.lane3 x]>
             (<[Z.to_nat (addr + 2) := SimdC.lane2 x]>
                (<[Z.to_nat (addr + 1) := SimdC.lane1 x]>
                   (<[Z.to_nat addr := SimdC.lane0 x]> (mem s)))))
          ([EvStore (addr + 3); EvStore (addr + 2); EvStore (addr + 1); EvStore addr]
             ++ trace s)).
Proof.
  intros H0 H1. unfold SimdC.wasm_v128_store.
  do 3 run_store.
  rewrite store_f32_valid by (simpl; rewrite ?length_insert; lia).
  reflexivity.
Qed.

(** Apply a loop lemma to the first loop of the goal. *)
Ltac with_loop k :=
  match goal with
  | |- context [bind (for_loop _ _ ?body ?init) _ _] => k body init
  | |- context [for_loop _ _ ?body ?init] => k body init
  end.

Lemma SimdC_euclideanDistance_run s a b len :
  0 <= len <= INT_MAX -> len mod 4 = 0 ->
  valid_buf (mem s) a len -> valid_buf (mem s) b len ->
  exists new,
    SimdC.euclideanDistance a b len s =
      Ok (SimdSpec.dist (mem s) a b len, mkState (mem s) (new ++ trace s)) /\
    Forall (fun e => is_load e /\ (touches a len e \/ touches b len e)) new.
Proof.
  intros Hlen Hmod [Ha0 Ha1] [Hb0 Hb1]. unfold SimdC.euclideanDistance.
  with_loop ltac:(fun body init =>
    destruct (for_loop_readonly
      (fun e => is_load e /\ (touches a len e \/ touches b len e))
      (SimdSpec.dist_step (mem s) a b) (mem s) len 4 body) with (acc := init) (s := s)
      as (new & Hrun & HT));
    [lia | exact Hlen | exact Hmod | | reflexivity |].
  - intros i acc s0 Hi0 Hi1 Hm.
    erewrite bind_Ok by (apply wasm_v128_load_valid; simpl; rewrite ?Hm; lia).
    erewrite bind_Ok by (apply wasm_v128_load_valid; simpl; rewrite ?Hm; lia).
    cbn [mem trace]. rewrite Hm, app_assoc. eexists. split; [reflexivity |].
    unfold touches, in_buf. repeat constructor; simpl; lia.
  - rewrite (bind_Ok _ _ _ _ _ Hrun). exists new. split; [reflexivity | exact HT].
Qed.

Lemma SimdC_cosineSimilarity_run s a b len :
  0 <= len <= INT_MAX -> len mod 4 = 0 ->
  valid_buf (mem s) a len -> valid_buf (mem s) b len ->
  exists new,
    SimdC.cosineSimilarity a b len s =
      Ok (SimdSpec.cos (mem s) a b len, mkState (mem s) (new ++ trace s)) /\
    Forall (fun e => is_load e /\ (touches a len e \/ touches b len e)) new.
Proof.
  intros Hlen Hmod [Ha0 Ha1] [Hb0 Hb1]. unfold SimdC.cosineSimilarity.
  with_loop ltac:(fun body init =>
    destruct (for_loop_readonly
      (fun e => is_load e /\ (touches a len e \/ touches b len e))
      (SimdSpec.cos_step (mem s) a b) (mem s) len 4 body) with (acc := init) (s := s)
      as (new & Hrun & HT));
    [lia | exact Hlen | exact Hmod | | reflexivity |].
  - intros i acc s0 Hi0 Hi1 Hm.
    erewrite bind_Ok by (apply wasm_v128_load_valid; simpl; rewrite ?Hm; lia).
    erewrite bind_Ok by (apply wasm_v128_load_valid; simpl; rewrite ?Hm; lia).
    cbn [mem trace]. rewrite Hm, app_assoc. eexists. split; [reflexivity |].
    unfold touches, in_buf. repeat constructor; simpl; lia.
  - rewrite (bind_Ok _ _ _ _ _ Hrun). exists new. split; [reflexivity | exact HT].
Qed.

Lemma read4_map_region_out g m p i :
  SimdSpec.read4 (map_region g m p i) (p + i) = SimdSpec.read4 m (p + i).
Proof.
  unfold SimdSpec.read4.
  rewrite !cell_map_region_out by (unfold in_buf; lia). reflexivity.
Qed.

Lemma map_region_insert4 g m p i :
  0 <= p -> 0 <= i -> p + i + 4 <= Z.of_nat (length m) ->
  <[Z.to_nat (p + i + 3) := g (cell m (p + i + 3))]>
    (<[Z.to_nat (p + i + 2) := g (cell m (p + i + 2))]>
       (<[Z.to_nat (p + i + 1) := g (cell m (p + i + 1))]>
          (<[Z.to_nat (p + i) := g (cell m (p + i))]> (map_region g m p i)))) =
  map_region g m p (i + 4).
Proof.
  intros Hp Hi Hlt.
  rewrite map_region_insert by lia.
  replace (p + i + 1) with (p + (i + 1)) by lia. rewrite map_region_insert by lia.
  replace (p + i + 2) with (p + (i + 1 + 1)) by lia. rewrite map_region_insert by lia.
  replace (p + i + 3) with (p + (i + 1 + 1 + 1)) by lia. rewrite map_region_insert by lia.
  f_equal. lia.
Qed.

Lemma SimdC_normalize_run s v len :
  0 <= len <= INT_MAX -> len mod 4 = 0 -> valid_buf (mem s) v len ->
  exists new,
    SimdC.normalize v len s =
      Ok (tt, mkState (SimdSpec.normalized (mem s) v len) (new ++ trace s)) /\
    Forall (touches v len) new.
Proof.
  intros Hlen Hmod [Hv0 Hv1]. unfold SimdC.normalize.
  with_loop ltac:(fun body init =>
    destruct (for_loop_readonly (touches v len)
      (SimdSpec.sq_step (mem s) v) (mem s) len 4 body) with (acc := init) (s := s)
      as (new1 & Hrun1 & HT1));
    [lia | exact Hlen | exact Hmod | | reflexivity |].
  - intros i acc s0 Hi0 Hi1 Hm.
    erewrite bind_Ok by (apply wasm_v128_load_valid; simpl; rewrite ?Hm; lia).
    cbn [mem trace]. rewrite Hm. eexists. split; [reflexivity |].
    unfold touches, in_buf. repeat constructor; simpl; lia.
  - rewrite (bind_Ok _ _ _ _ _ Hrun1).
    fold SimdSpec.zero4. fold (SimdSpec.groups len). fold (SimdSpec.norm (mem s) v len).
    set (nrm := SimdSpec.norm (mem s) v len).
    with_loop ltac:(fun body init =>
      destruct (for_loop_run (touches v len) (fun _ (u : unit) => u)
        (fun i => map_region (SimdSpec.scale nrm) (mem s) v i) len 4 body)
        with (acc := init) (s := mkState (mem s) (new1 ++ trace s))
        as (new2 & Hrun2 & HT2));
      [lia | exact Hlen | exact Hmod | | | ].
    + intros i [] s0 Hi0 Hi1 Hm.
      erewrite bind_Ok
        by (apply wasm_v128_load_valid; simpl; rewrite ?Hm, ?length_map_region; lia).
      rewrite wasm_v128_store_valid
        by (simpl; rewrite ?Hm, ?length_map_region; lia).
      cbn [mem trace]. rewrite Hm, read4_map_region_out.
      cbn [SimdC.wasm_f32x4_mul SimdC.lanewise SimdC.wasm_f32x4_splat SimdSpec.read4
           SimdC.lane0 SimdC.lane1 SimdC.lane2 SimdC.lane3].
      fold (SimdSpec.scale nrm (cell (mem s) (v + i))).
      fold (SimdSpec.scale nrm (cell (mem s) (v + i + 1))).
      fold (SimdSpec.scale nrm (cell (mem s) (v + i + 2))).
      fold (SimdSpec.scale nrm (cell (mem s) (v + i + 3))).
      rewrite map_region_insert4 by lia.
      rewrite app_assoc. eexists. split; [reflexivity |].
      unfold touches, in_buf. repeat constructor; simpl; lia.
    + simpl. symmetry. apply map_region_empty. lia.
    + rewrite Hrun2. cbn [trace]. rewrite iter_from_unit, app_assoc.
      eexists. split; [reflexivity |]. apply Forall_app. auto.
Qed.

(** ** Runs of the scalar implementation *)

Lemma ScalarCpp_euclideanDistance_run s a b len :
  0 <= len <= INT_MAX ->
  valid_buf (mem s) a len -> valid_buf (mem s) b len ->
  exists new,
    ScalarCpp.euclideanDistance a b len s =
      Ok (ScalarSpec.dist (mem s) a b len, mkState (mem s) (new ++ trace s)) /\
    Forall (fun e => is_load e /\ (touches a len e \/ touches b len e)) new.
Proof.
  intros Hlen [Ha0 Ha1] [Hb0 Hb1]. unfold ScalarCpp.euclideanDistance.
  with_loop ltac:(fun body init =>
    destruct (for_loop_readonly
      (fun e => is_load e /\ (touches a len e \/ touches b len e))
      (ScalarSpec.dist_step (mem s) a b) (mem s) len 1 body) with (acc := init) (s := s)
      as (new & Hrun & HT));
    [lia | exact Hlen | apply Z.mod_1_r | | reflexivity |].
  - intros i acc [m0 tr0] Hi0 Hi1 Hm. simpl in Hm. subst m0.
    run_load. run_load.
    cbn [mem trace].
    exists [EvLoad (b + i); EvLoad (a + i)]. split; [reflexivity |].
    unfold touches, in_buf. repeat constructor; simpl; lia.
  - rewrite (bind_Ok _ _ _ _ _ Hrun). rewrite Z.div_1_r.
    exists new. split; [reflexivity | exact HT].
Qed.

Lemma ScalarCpp_cosineSimilarity_run s a b len :
  0 <= len <= INT_MAX ->
  valid_buf (mem s) a len -> valid_buf (mem s) b len ->
  exists new,
    ScalarCpp.cosineSimilarity a b len s =
      Ok (ScalarSpec.cos (mem s) a b len, mkState (mem s) (new ++ trace s)) /\
    Forall (fun e => is_load e /\ (touches a len e \/ touches b len e)) new.
Proof.
  intros Hlen [Ha0 Ha1] [Hb0 Hb1]. unfold ScalarCpp.cosineSimilarity.
  with_loop ltac:(fun body init =>
    destruct (for_loop_readonly
      (fun e => is_load e /\ (touches a len e \/ touches b len e))
      (ScalarSpec.cos_step (mem s) a b) (mem s) len 1 body) with (acc := init) (s := s)
      as (new & Hrun & HT));
    [lia | exact Hlen | apply Z.mod_1_r | | reflexivity |].
  - intros i acc [m0 tr0] Hi0 Hi1 Hm. simpl in Hm. subst m0.
    do 6 run_load.
    cbn [mem trace].
    exists [EvLoad (b + i); EvLoad (b + i); EvLoad (a + i); EvLoad (a + i);
            EvLoad (b + i); EvLoad (a + i)].
    split; [reflexivity |].
    unfold touches, in_buf. repeat constructor; simpl; lia.
  - rewrite (bind_Ok _ _ _ _ _ Hrun). rewrite Z.div_1_r.
    exists new. split; [reflexivity | exact HT].
Qed.

Lemma ScalarCpp_normalize_run s v len :
  0 <= len <= INT_MAX -> valid_buf (mem s) v len ->
  exists new,
    ScalarCpp.normalize v len s =
      Ok (tt, mkState (ScalarSpec.normalized (mem s) v len) (new ++ trace s)) /\
    Forall (touches v len) new /\
    (F32.ltb (F32.of_Z 0) (ScalarSpec.norm (mem s) v len) = false ->
     Forall is_load new).
Proof.
  intros Hlen [Hv0 Hv1]. unfold ScalarCpp.normalize.
  with_loop ltac:(fun body init =>
    destruct (for_loop_readonly (fun e => is_load e /\ touches v len e)
      (ScalarSpec.sq_step (mem s) v) (mem s) len 1 body) with (acc := init) (s := s)
      as (new1 & Hrun1 & HT1));
    [lia | exact Hlen | apply Z.mod_1_r | | reflexivity |].
  - intros i acc [m0 tr0] Hi0 Hi1 Hm. simpl in Hm. subst m0.
    run_load. run_load.
    cbn [mem trace].
    exists [EvLoad (v + i); EvLoad (v + i)]. split; [reflexivity |].
    unfold touches, in_buf. repeat constructor; simpl; lia.
  - rewrite (bind_Ok _ _ _ _ _ Hrun1). rewrite Z.div_1_r.
    fold (ScalarSpec.norm (mem s) v len). unfold ScalarSpec.normalized.
    set (nrm := ScalarSpec.norm (mem s) v len).
    assert (HT1' : Forall (touches v len) new1)
      by (eapply Forall_impl; [exact HT1 |]; intros e [_ H]; exact H).
    destruct (F32.ltb (F32.of_Z 0) nrm).
    + with_loop ltac:(fun body init =>
        destruct (for_loop_run (touches v len) (fun _ (u : unit) => u)
          (fun i => map_region (ScalarSpec.scale nrm) (mem s) v i) len 1 body)
          with (acc := init) (s := mkState (mem s) (new1 ++ trace s))
          as (new2 & Hrun2 & HT2));
        [lia | exact Hlen | apply Z.mod_1_r | | | ].
      * intros i [] [m0 tr0] Hi0 Hi1 Hm. simpl in Hm. subst m0.
        run_load.
        rewrite store_f32_valid by (simpl; rewrite ?length_map_region; lia).
        cbn [mem trace].
        rewrite cell_map_region_out by (unfold in_buf; lia).
        fold (ScalarSpec.scale nrm (cell (mem s) (v + i))).
        rewrite map_region_insert by lia.
        exists [EvStore (v + i); EvLoad (v + i)]. split; [reflexivity |].
        unfold touches, in_buf. repeat constructor; simpl; lia.
      * simpl. symmetry. apply map_region_empty. lia.
      * rewrite Hrun2. cbn [trace]. rewrite iter_from_unit, app_assoc.
        eexists. split; [reflexivity |]. split; [| discriminate].
        apply Forall_app. auto.
    + exists new1. split; [reflexivity |]. split; [exact HT1' |].
      intros _. eapply Forall_impl; [exact HT1 |]. intros e [H _]. exact H.
Qed.

(** ** Fuel *)

Lemma fuel_suffices_ret {A} (a : A) : fuel_suffices (ret a).
Proof. intros s. discriminate. Qed.

Lemma fuel_suffices_bind {A B} (c : M A) (k : A -> M B) :
  fuel_suffices c -> (forall a, fuel_suffices (k a)) -> fuel_suffices (bind c k).
Proof.
  intros Hc Hk s. unfold bind. pose proof (Hc s) as H.
  destruct (c s) as [[a s']| | |]; try discriminate; [apply Hk | congruence].
Qed.

Lemma fuel_suffices_load addr : fuel_suffices (load_f32 addr).
Proof. intros s. unfold load_f32. destruct (mem_read _ _); discriminate. Qed.

Lemma fuel_suffices_store addr x : fuel_suffices (store_f32 addr x).
Proof. intros s. unfold store_f32. destruct (mem_write _ _ _); discriminate. Qed.

Lemma fuel_suffices_for_loop {A} len step (body : Z -> A -> M A) acc :
  0 < step -> (forall i acc', fuel_suffices (body i acc')) ->
  fuel_suffices (for_loop len step body acc).
Proof.
  intros Hstep Hbody s. unfold for_loop.
  apply for_loop_fuel_enough; [exact Hstep | exact Hbody | lia].
Qed.

Ltac fuel_tac :=
  repeat first
    [ apply fuel_suffices_ret | apply fuel_suffices_load | apply fuel_suffices_store
    | apply fuel_suffices_for_loop; [lia | intros ? ?]
    | apply fuel_suffices_bind; [| intros ?] ].

(** The six entry points never run out of fuel, whatever their arguments:
    the fuel is an artefact of the embedding, not an outcome of the code. *)
Lemma fuel_suffices_entry_points a b len :
  fuel_suffices (SimdC.euclideanDistance a b len) /\
  fuel_suffices (SimdC.cosineSimilarity a b len) /\
  fuel_suffices (SimdC.normalize a len) /\
  fuel_suffices (ScalarCpp.euclideanDistance a b len) /\
  fuel_suffices (ScalarCpp.cosineSimilarity a b len) /\
  fuel_suffices (ScalarCpp.normalize a len).
Proof.
  unfold SimdC.euclideanDistance, SimdC.cosineSimilarity, SimdC.normalize,
    ScalarCpp.euclideanDistance, ScalarCpp.cosineSimilarity, ScalarCpp.normalize,
    SimdC.wasm_v128_load, SimdC.wasm_v128_store.
  repeat split; fuel_tac.
  destruct (F32.ltb _ _); fuel_tac.
Qed.

(** ** Degenerate lengths *)

Lemma for_loop_nonpos {A} len step (body : Z -> A -> M A) acc s :
  len <= 0 -> for_loop len step body acc s = Ok (acc, s).
Proof.
  intros H. unfold for_loop.
  destruct (Z.to_nat len); simpl;
    (destruct (0 <? len) eqn:E; [apply Z.ltb_lt in E; lia | reflexivity]).
Qed.

(** C9: with [len <= 0] no loop body runs: each of the six entry points
    returns (no trap, no overflow, no exhaustion) in the very state it was
    called in -- same memory, nothing added to the access log -- and
    [euclideanDistance] yields [+0], [cosineSimilarity] yields NaN (which is
    not finite), [normalize] yields nothing. *)
Theorem C9_nonpositive_length_returns (s : state) (a b v len : Z) :
  len <= 0 ->
  SimdC.euclideanDistance a b len s = Ok (F32.zero, s) /\
  ScalarCpp.euclideanDistance a b len s = Ok (F32.zero, s) /\
  SimdC.cosineSimilarity a b len s = Ok (F32.nan, s) /\
  ScalarCpp.cosineSimilarity a b len s = Ok (F32.nan, s) /\
  F32.is_finite F32.nan = false /\
  SimdC.normalize v len s = Ok (tt, s) /\
  ScalarCpp.normalize v len s = Ok (tt, s).
Proof.
  intros Hlen.
  unfold SimdC.euclideanDistance, ScalarCpp.euclideanDistance,
    SimdC.cosineSimilarity, ScalarCpp.cosineSimilarity,
    SimdC.normalize, ScalarCpp.normalize.
  repeat split;
    repeat (erewrite bind_Ok by (apply for_loop_nonpos; exact Hlen));
    rewrite ?for_loop_nonpos by exact Hlen;
    reflexivity.
Qed.

Lemma C9_nonpositive_length_returns_witness :
  SimdC.euclideanDistance 0 1 (-3) state_7_8 = Ok (F32.zero, state_7_8) /\
  ScalarCpp.euclideanDistance 0 1 (-3) state_7_8 = Ok (F32.zero, state_7_8) /\
  SimdC.cosineSimilarity 0 1 (-3) state_7_8 = Ok (F32.nan, state_7_8) /\
  ScalarCpp.cosineSimilarity 0 1 (-3) state_7_8 = Ok (F32.nan, state_7_8) /\
  F32.is_finite F32.nan = false /\
  SimdC.normalize 0 (-3) state_7_8 = Ok (tt, state_7_8) /\
  ScalarCpp.normalize 0 (-3) state_7_8 = Ok (tt, state_7_8).
Proof.
  apply (C9_nonpositive_length_returns state_7_8 0 1 0 (-3)). lia.
Defined.

(** ** Read-only commands *)

Lemma reads_only_refl s : reads_only s s.
Proof. split; [reflexivity |]. exists []. split; [reflexivity | constructor]. Qed.

Lemma reads_only_trans s1 s2 s3 :
  reads_only s1 s2 -> reads_only s2 s3 -> reads_only s1 s3.
Proof.
  intros [Hm1 (n1 & Ht1 & Hl1)] [Hm2 (n2 & Ht2 & Hl2)]. split; [congruence |].
  exists (n2 ++ n1). split; [rewrite Ht2, Ht1; apply app_assoc |].
  apply Forall_app. auto.
Qed.

Lemma read_only_ret {A} (a : A) : read_only_cmd (ret a).
Proof. intros s a' s' H. injection H as <- <-. apply reads_only_refl. Qed.

Lemma read_only_bind {A B} (c : M A) (k : A -> M B) :
  read_only_cmd c -> (forall a, read_only_cmd (k a)) -> read_only_cmd (bind c k).
Proof.
  intros Hc Hk s b s' H. apply bind_Ok_inv in H as (a & s1 & H1 & H2).
  eapply reads_only_trans; [eapply Hc | eapply Hk]; eauto.
Qed.

Lemma read_only_load addr : read_only_cmd (load_f32 addr).
Proof.
  intros s x s' H. apply load_f32_inv in H as (_ & _ & ->).
  split; [reflexivity |]. exists [EvLoad addr]. split; [reflexivity |].
  repeat constructor.
Qed.

Lemma read_only_v128_load addr : read_only_cmd (SimdC.wasm_v128_load addr).
Proof.
  unfold SimdC.wasm_v128_load.
  repeat (apply read_only_bind; [apply read_only_load | intros ?]).
  apply read_only_ret.
Qed.

Lemma read_only_for_loop {A} len step (body : Z -> A -> M A) acc :
  (forall i acc', read_only_cmd (body i acc')) ->
  read_only_cmd (for_loop len step body acc).
Proof.
  intros Hbody s acc' s' Hrun. unfold for_loop in Hrun.
  destruct (for_loop_fuel_partial (fun _ _ s1 => reads_only s s1) len step body)
    with (1 := fun i a0 s0 a1 s1 (_ : i < len) (H0 : reads_only s s0)
                 (Hb : body i a0 s0 = Ok (a1, s1)) =>
               reads_only_trans _ _ _ H0 (Hbody i a0 s0 a1 s1 Hb))
         (2 := Hrun) as (j & _ & H).
  - apply reads_only_refl.
  - exact H.
Qed.

Lemma read_only_SimdC_euclideanDistance a b len :
  read_only_cmd (SimdC.euclideanDistance a b len).
Proof.
  unfold SimdC.euclideanDistance.
  apply read_only_bind; [| intros ?; apply read_only_ret].
  apply read_only_for_loop. intros i acc.
  repeat (apply read_only_bind; [apply read_only_v128_load | intros ?]).
  apply read_only_ret.
Qed.

Lemma read_only_SimdC_cosineSimilarity a b len :
  read_only_cmd (SimdC.cosineSimilarity a b len).
Proof.
  unfold SimdC.cosineSimilarity.
  apply read_only_bind; [| intros ?; apply read_only_ret].
  apply read_only_for_loop. intros i acc.
  repeat (apply read_only_bind; [apply read_only_v128_load | intros ?]).
  apply read_only_ret.
Qed.

Lemma read_only_ScalarCpp_euclideanDistance a b len :
  read_only_cmd (ScalarCpp.euclideanDistance a b len).
Proof.
  unfold ScalarCpp.euclideanDistance.
  apply read_only_bind; [| intros ?; apply read_only_ret].
  apply read_only_for_loop. intros i acc.
  repeat (apply read_only_bind; [apply read_only_load | intros ?]).
  apply read_only_ret.
Qed.

Lemma read_only_ScalarCpp_cosineSimilarity a b len :
  read_only_cmd (ScalarCpp.cosineSimilarity a b len).
Proof.
  unfold ScalarCpp.cosineSimilarity.
  apply read_only_bind; [| intros ?; apply read_only_ret].
  apply read_only_for_loop. intros i acc.
  repeat (apply read_only_bind; [apply read_only_load | intros ?]).
  apply read_only_ret.
Qed.

(** C5: a call of [euclideanDistance] or [cosineSimilarity], in either
    implementation and with any arguments, that returns has left every cell
    of the memory -- so every element of both buffers -- as it was, and has
    performed loads only; [normalize] does change its buffer (here on
    [[3; 4; 0; 0]], in both implementations). *)
Theorem C5_distance_and_similarity_read_only
    (s : state) (a b len : Z) (r : float) (s' : state) :
  SimdC.euclideanDistance a b len s = Ok (r, s') \/
  SimdC.cosineSimilarity a b len s = Ok (r, s') \/
  ScalarCpp.euclideanDistance a b len s = Ok (r, s') \/
  ScalarCpp.cosineSimilarity a b len s = Ok (r, s') ->
  (mem s' = mem s /\
   (forall addr, mem_read (mem s') addr = mem_read (mem s) addr) /\
   exists new, trace s' = new ++ trace s /\ Forall is_load new) /\
  (exists s1, SimdC.normalize 0 4 state_3_4_0_0 = Ok (tt, s1) /\
              mem s1 <> mem state_3_4_0_0) /\
  (exists s1, ScalarCpp.normalize 0 4 state_3_4_0_0 = Ok (tt, s1) /\
              mem s1 <> mem state_3_4_0_0).
Proof.
  intros H. split; [| split].
  - assert (Hro : reads_only s s').
    { destruct H as [H|[H|[H|H]]].
      - exact (read_only_SimdC_euclideanDistance a b len s r s' H).
      - exact (read_only_SimdC_cosineSimilarity a b len s r s' H).
      - exact (read_only_ScalarCpp_euclideanDistance a b len s r s' H).
      - exact (read_only_ScalarCpp_cosineSimilarity a b len s r s' H). }
    destruct Hro as [Hm Hnew]. split; [exact Hm |]. split; [| exact Hnew].
    intros addr. rewrite Hm. reflexivity.
  - eexists. split; [vm_compute; reflexivity |]. vm_compute. discriminate.
  - eexists. split; [vm_compute; reflexivity |]. vm_compute. discriminate.
Qed.

Lemma C5_distance_and_similarity_read_only_witness :
  SimdC.euclideanDistance 0 0 4 state_3_4_0_0 =
    Ok (F32.zero,
        mkState (mem state_3_4_0_0)
          [EvLoad 3; EvLoad 2; EvLoad 1; EvLoad 0;
           EvLoad 3; EvLoad 2; EvLoad 1; EvLoad 0]) /\
  mem (mkState (mem state_3_4_0_0)
         [EvLoad 3; EvLoad 2; EvLoad 1; EvLoad 0;
          EvLoad 3; EvLoad 2; EvLoad 1; EvLoad 0])
    = mem state_3_4_0_0.
Proof.
  assert (H : SimdC.euclideanDistance 0 0 4 state_3_4_0_0 =
    Ok (F32.zero,
        mkState (mem state_3_4_0_0)
          [EvLoad 3; EvLoad 2; EvLoad 1; EvLoad 0;
           EvLoad 3; EvLoad 2; EvLoad 1; EvLoad 0]))
    by (vm_compute; reflexivity).
  split; [exact H |].
  exact (proj1 (proj1
    (C5_distance_and_similarity_read_only state_3_4_0_0 0 0 4 F32.zero _
       (or_introl H)))).
Defined.

(** ** Growth of the access log *)

Lemma log_grows_ret {A} (a : A) : log_grows_cmd (ret a).
Proof. intros s a' s' H. injection H as <- <-. exists []. reflexivity. Qed.

Lemma log_grows_bind {A B} (c : M A) (k : A -> M B) :
  log_grows_cmd c -> (forall a, log_grows_cmd (k a)) -> log_grows_cmd (bind c k).
Proof.
  intros Hc Hk s b s' H. apply bind_Ok_inv in H as (a & s1 & H1 & H2).
  destruct (Hc _ _ _ H1) as (n1 & E1). destruct (Hk _ _ _ _ H2) as (n2 & E2).
  exists (n2 ++ n1). rewrite E2, E1. apply app_assoc.
Qed.

Lemma log_grows_load addr : log_grows_cmd (load_f32 addr).
Proof.
  intros s x s' H. apply load_f32_inv in H as (_ & _ & ->).
  exists [EvLoad addr]. reflexivity.
Qed.

Lemma log_grows_store addr x : log_grows_cmd (store_f32 addr x).
Proof.
  intros s u s' H. apply store_f32_inv in H as (_ & ->).
  exists [EvStore addr]. reflexivity.
Qed.

Lemma log_grows_for_loop {A} len step (body : Z -> A -> M A) acc :
  (forall i acc', log_grows_cmd (body i acc')) ->
  log_grows_cmd (for_loop len step body acc).
Proof.
  intros Hbody s acc' s' Hrun. unfold for_loop in Hrun.
  destruct (for_loop_fuel_partial
              (fun _ _ s1 => exists new, trace s1 = new ++ trace s) len step body)
    with (2 := Hrun) as (j & _ & H).
  - intros i a0 s0 a1 s1 _ (n0 & E0) Hb. destruct (Hbody _ _ _ _ _ Hb) as (n1 & E1).
    exists (n1 ++ n0). rewrite E1, E0. apply app_assoc.
  - exists []. reflexivity.
  - exact H.
Qed.

(** A 4-lane loop over a length that is not a multiple of 4, once it returns,
    has loaded a cell at or beyond the end of the buffer. *)
Lemma for_loop_reads_past_end {A} p len (body : Z -> A -> M A) acc s acc' s' :
  0 < len -> len mod 4 <> 0 ->
  (forall i a0 s0 a1 s1, body i a0 s0 = Ok (a1, s1) ->
     exists new, trace s1 = new ++ trace s0 /\ In (EvLoad (p + i + 3)) new) ->
  for_loop len 4 body acc s = Ok (acc', s') ->
  reads_past_end p len (trace s) (trace s').
Proof.
  intros Hlen Hmod Hbody Hrun. unfold for_loop in Hrun.
  destruct (for_loop_fuel_partial
              (fun j _ s1 => 0 <= j /\ j mod 4 = 0 /\
                 exists new, trace s1 = new ++ trace s /\
                   (0 < j -> In (EvLoad (p + j - 1)) new)) len 4 body)
    with (2 := Hrun) as (j & Hj & Hj0 & Hj4 & new & Htr & Hin).
  - intros i a0 s0 a1 s1 Hi (Hi0 & Hi4 & n0 & E0 & _) Hb.
    destruct (Hbody _ _ _ _ _ Hb) as (n1 & E1 & Hin).
    split; [lia |]. split.
    + rewrite <- Zplus_mod_idemp_l, Hi4. reflexivity.
    + exists (n1 ++ n0). split; [rewrite E1, E0; apply app_assoc |].
      intros _. apply in_or_app. left.
      replace (p + (i + 4) - 1) with (p + i + 3) by lia. exact Hin.
  - split; [lia |]. split; [reflexivity |]. exists []. split; [reflexivity |]. lia.
  - assert (j <> len) by (intros ->; contradiction).
    exists new, (p + j - 1). split; [exact Htr |]. split; [lia |]. apply Hin. lia.
Qed.

Lemma wasm_v128_load_logs s addr x s' :
  SimdC.wasm_v128_load addr s = Ok (x, s') ->
  exists new, trace s' = new ++ trace s /\ In (EvLoad (addr + 3)) new.
Proof.
  intros H. apply wasm_v128_load_inv in H as (_ & _ & _ & ->).
  eexists. split; [reflexivity |]. left. reflexivity.
Qed.

Lemma log_grows_v128_load addr : log_grows_cmd (SimdC.wasm_v128_load addr).
Proof.
  intros s x s' H. destruct (wasm_v128_load_logs _ _ _ _ H) as (new & E & _). eauto.
Qed.

Lemma log_grows_v128_store addr x : log_grows_cmd (SimdC.wasm_v128_store addr x).
Proof.
  unfold SimdC.wasm_v128_store.
  repeat (apply log_grows_bind; [apply log_grows_store | intros ?]).
  apply log_grows_store.
Qed.

(** A body that starts with the 4-lane load at [p + i] logs the load of
    cell [p + i + 3]. *)
Lemma load_then_logs {A} addr (k : SimdC.v128 -> M A) s a s' :
  (forall x, log_grows_cmd (k x)) ->
  bind (SimdC.wasm_v128_load addr) k s = Ok (a, s') ->
  exists new, trace s' = new ++ trace s /\ In (EvLoad (addr + 3)) new.
Proof.
  intros Hk H. apply bind_Ok_inv in H as (x & s1 & H1 & H2).
  destruct (wasm_v128_load_logs _ _ _ _ H1) as (n1 & E1 & Hin).
  destruct (Hk _ _ _ _ H2) as (n2 & E2).
  exists (n2 ++ n1). split; [rewrite E2, E1; apply app_assoc |].
  apply in_or_app. right. exact Hin.
Qed.

Lemma reads_past_end_grow p len tr tr' new :
  reads_past_end p len tr tr' -> reads_past_end p len tr (new ++ tr').
Proof.
  intros (n & addr & -> & Ha & Hin). exists (new ++ n), addr.
  split; [apply app_assoc |]. split; [exact Ha |]. apply in_or_app. auto.
Qed.

Lemma SimdC_euclideanDistance_reads_past_end s a b len r s' :
  0 < len -> len mod 4 <> 0 ->
  SimdC.euclideanDistance a b len s = Ok (r, s') ->
  reads_past_end a len (trace s) (trace s').
Proof.
  intros Hlen Hmod H. unfold SimdC.euclideanDistance in H.
  apply bind_Ok_inv in H as (sum & s1 & Hloop & Hret). injection Hret as _ <-.
  eapply for_loop_reads_past_end; [exact Hlen | exact Hmod | | exact Hloop].
  intros i a0 s0 a1 s2 Hb. replace (a + i + 3) with ((a + i) + 3) by lia.
  eapply load_then_logs; [| exact Hb].
  intros x. apply log_grows_bind; [apply log_grows_v128_load |].
  intros y. apply log_grows_ret.
Qed.

Lemma SimdC_cosineSimilarity_reads_past_end s a b len r s' :
  0 < len -> len mod 4 <> 0 ->
  SimdC.cosineSimilarity a b len s = Ok (r, s') ->
  reads_past_end a len (trace s) (trace s').
Proof.
  intros Hlen Hmod H. unfold SimdC.cosineSimilarity in H.
  apply bind_Ok_inv in H as (sum & s1 & Hloop & Hret). injection Hret as _ <-.
  eapply for_loop_reads_past_end; [exact Hlen | exact Hmod | | exact Hloop].
  intros i a0 s0 a1 s2 Hb.
  eapply load_then_logs; [| exact Hb].
  intros x. apply log_grows_bind; [apply log_grows_v128_load |].
  intros y. apply log_grows_ret.
Qed.

Lemma SimdC_normalize_reads_past_end s v len s' :
  0 < len -> len mod 4 <> 0 ->
  SimdC.normalize v len s = Ok (tt, s') ->
  reads_past_end v len (trace s) (trace s').
Proof.
  intros Hlen Hmod H. unfold SimdC.normalize in H.
  apply bind_Ok_inv in H as (sum & s1 & Hloop & Hloop2).
  assert (H1 : reads_past_end v len (trace s) (trace s1)).
  { eapply for_loop_reads_past_end; [exact Hlen | exact Hmod | | exact Hloop].
    intros i a0 s0 a1 s2 Hb.
    eapply load_then_logs; [| exact Hb]. intros x. apply log_grows_ret. }
  assert (H2 : exists new, trace s' = new ++ trace s1).
  { eapply log_grows_for_loop; [| exact Hloop2].
    intros i u. apply log_grows_bind; [apply log_grows_v128_load |].
    intros x. apply log_grows_v128_store. }
  destruct H2 as (new & ->). apply reads_past_end_grow. exact H1.
Qed.

(** C10: for a length that is non-negative, fits [int] and is a multiple
    of 4, on buffers that lie in the memory, each of the three SIMD entry
    points returns and every access it performed (every lane of every 4-lane
    load, and of every 4-lane store in [normalize]) falls on an element with
    index in [[0, len)] of one of its buffers.  There is no remainder pass:
    for any positive length that is not a multiple of 4, a call that returns
    has loaded a cell at or beyond index [len] of its first buffer; so does
    [euclideanDistance] with [len = 5] on two five-element buffers, which
    loads element 7. *)
Theorem C10_simd_accesses_in_range (s : state) (a b v len : Z) :
  0 <= len <= INT_MAX -> len mod 4 = 0 ->
  valid_buf (mem s) a len -> valid_buf (mem s) b len -> valid_buf (mem s) v len ->
  (exists r new,
     SimdC.euclideanDistance a b len s = Ok (r, mkState (mem s) (new ++ trace s)) /\
     Forall (fun e => touches a len e \/ touches b len e) new) /\
  (exists r new,
     SimdC.cosineSimilarity a b len s = Ok (r, mkState (mem s) (new ++ trace s)) /\
     Forall (fun e => touches a len e \/ touches b len e) new) /\
  (exists m' new,
     SimdC.normalize v len s = Ok (tt, mkState m' (new ++ trace s)) /\
     Forall (touches v len) new) /\
  (forall s0 p q n r s1, 0 < n -> n mod 4 <> 0 ->
     (SimdC.euclideanDistance p q n s0 = Ok (r, s1) ->
      reads_past_end p n (trace s0) (trace s1)) /\
     (SimdC.cosineSimilarity p q n s0 = Ok (r, s1) ->
      reads_past_end p n (trace s0) (trace s1)) /\
     (SimdC.normalize p n s0 = Ok (tt, s1) ->
      reads_past_end p n (trace s0) (trace s1))) /\
  (exists r s1, SimdC.euclideanDistance 0 8 5 state_two_of_five = Ok (r, s1) /\
                In (EvLoad 7) (trace s1)).
Proof.
  intros Hlen Hmod Ha Hb Hv.
  split; [| split; [| split; [| split]]].
  - destruct (SimdC_euclideanDistance_run s a b len Hlen Hmod Ha Hb) as (new & Hrun & HT).
    eexists _, new. split; [exact Hrun |].
    eapply Forall_impl; [exact HT |]. intros e [_ H]. exact H.
  - destruct (SimdC_cosineSimilarity_run s a b len Hlen Hmod Ha Hb) as (new & Hrun & HT).
    eexists _, new. split; [exact Hrun |].
    eapply Forall_impl; [exact HT |]. intros e [_ H]. exact H.
  - destruct (SimdC_normalize_run s v len Hlen Hmod Hv) as (new & Hrun & HT).
    eexists _, new. split; [exact Hrun | exact HT].
  - intros s0 p q n r s1 Hn Hn4. split; [| split].
    + apply SimdC_euclideanDistance_reads_past_end; assumption.
    + apply SimdC_cosineSimilarity_reads_past_end; assumption.
    + apply SimdC_normalize_reads_past_end; assumption.
  - eexists _, _. split; [vm_compute; reflexivity |]. simpl. tauto.
Qed.

Lemma C10_simd_accesses_in_range_witness :
  (0 <= 4 <= INT_MAX /\ 4 mod 4 = 0 /\
   valid_buf (mem state_e1_e2) 0 4 /\ valid_buf (mem state_e1_e2) 4 4) /\
  exists r new,
    SimdC.euclideanDistance 0 4 4 state_e1_e2 =
      Ok (r, mkState (mem state_e1_e2) (new ++ trace state_e1_e2)) /\
    Forall (fun e => touches 0 4 e \/ touches 4 4 e) new.
Proof.
  assert (H1 : 0 <= 4 <= INT_MAX) by (unfold INT_MAX; lia).
  assert (H2 : 4 mod 4 = 0) by reflexivity.
  assert (H3 : valid_buf (mem state_e1_e2) 0 4) by (unfold valid_buf; simpl; lia).
  assert (H4 : valid_buf (mem state_e1_e2) 4 4) by (unfold valid_buf; simpl; lia).
  split; [auto |].
  exact (proj1 (C10_simd_accesses_in_range state_e1_e2 0 4 0 4 H1 H2 H3 H4 H3)).
Defined.

(** ** Facts of binary32 arithmetic *)

Lemma f32_mul_comm x y : F32.mul x y = F32.mul y x.
Proof.
  unfold F32.mul.
  destruct x as [sx|sx| |sx mx ex], y as [sy|sy| |sy my ey]; simpl;
    rewrite ?(xorb_comm sx sy); try reflexivity.
  rewrite (Pos.mul_comm mx my), (Z.add_comm ex ey). reflexivity.
Qed.

Lemma f32_mul_zero_zero x y :
  F32.is_zero x = true -> F32.is_zero y = true -> F32.is_zero (F32.mul x y) = true.
Proof. destruct x, y; simpl; auto; discriminate. Qed.

Lemma f32_sq_zero x : F32.is_zero x = true -> F32.mul x x = F32.zero.
Proof. destruct x as [[]| | |]; simpl; try discriminate; reflexivity. Qed.

Lemma f32_add_zero_zero x :
  F32.is_zero x = true -> F32.add F32.zero x = F32.zero.
Proof. destruct x as [[]| | |]; simpl; try discriminate; reflexivity. Qed.

(** [x - x] is [+0] for every finite [x]. *)
Lemma f32_sub_diag x : F32.is_finite x = true -> F32.sub x x = F32.zero.
Proof.
  destruct x as [[]| | |s m e]; simpl; try discriminate; try reflexivity.
  intros _. unfold F32.sub, SFsub. rewrite Z.sub_diag. reflexivity.
Qed.

(** Zero times anything is a zero or NaN. *)
Lemma f32_mul_zero_l x y :
  F32.is_zero x = true ->
  F32.is_zero (F32.mul x y) = true \/ F32.mul x y = F32.nan.
Proof. destruct x, y; simpl; auto; discriminate. Qed.

(** Every value but NaN compares equal to itself. *)
Lemma f32_eqb_refl x : x <> F32.nan -> F32.eqb x x = true.
Proof.
  intros Hx. unfold F32.eqb, SFeqb.
  destruct x as [s|[]| |[] m e]; simpl; try reflexivity; try (contradiction Hx; reflexivity);
    rewrite Z.compare_refl, Pos.compare_cont_refl; reflexivity.
Qed.

(** A rounded non-negative magnitude is not below zero. *)
Lemma binary_round_aux_nonneg m e l :
  F32.is_negative (binary_round_aux F32.prec F32.emax false m e l) = false.
Proof.
  unfold binary_round_aux.
  destruct (shr_fexp F32.prec F32.emax m e l) as [mrs' e'].
  destruct (shr_fexp F32.prec F32.emax
              (round_nearest_even (shr_m mrs') (loc_of_shr_record mrs')) e' loc_Exact)
    as [mrs'' e''].
  destruct (shr_m mrs''); try reflexivity.
  destruct (e'' <=? F32.emax - F32.prec); reflexivity.
Qed.

(** A square root is never below zero: it is NaN, a zero, or positive. *)
Lemma f32_sqrt_not_negative x : F32.is_negative (F32.sqrt x) = false.
Proof.
  destruct x as [[]|[]| |[] m e]; try reflexivity.
  unfold F32.sqrt, SFsqrt.
  destruct (SFsqrt_core_binary F32.prec F32.emax (Z.pos m) e) as [[mz ez] lz].
  apply binary_round_aux_nonneg.
Qed.

(** ** Zero vectors *)

(** Expose the four lanes of the SIMD operations. *)
Ltac simd_unfold :=
  unfold SimdC.wasm_f32x4_add, SimdC.wasm_f32x4_sub, SimdC.wasm_f32x4_mul,
    SimdC.lanewise, SimdC.wasm_f32x4_splat;
  cbn [SimdC.lane0 SimdC.lane1 SimdC.lane2 SimdC.lane3].

Lemma SimdSpec_sq_sums_zero m v len n :
  zero_buf m v len ->
  forall i, 0 <= i -> i + 4 * Z.of_nat n <= len ->
  iter_from (SimdSpec.sq_step m v) 4 n i SimdSpec.zero4 = SimdSpec.zero4.
Proof.
  intros Hz. induction n as [|n IH]; intros i Hi Hn; [reflexivity |].
  cbn [iter_from].
  assert (Hstep : SimdSpec.sq_step m v i SimdSpec.zero4 = SimdSpec.zero4).
  { unfold SimdSpec.sq_step, SimdSpec.read4, SimdSpec.zero4. simd_unfold.
    replace (v + i + 1) with (v + (i + 1)) by lia.
    replace (v + i + 2) with (v + (i + 2)) by lia.
    replace (v + i + 3) with (v + (i + 3)) by lia.
    rewrite !f32_sq_zero by (apply Hz; lia). reflexivity. }
  rewrite Hstep. apply IH; lia.
Qed.

Lemma SimdSpec_norm_zero m v len :
  0 <= len -> len mod 4 = 0 -> zero_buf m v len -> SimdSpec.norm m v len = F32.zero.
Proof.
  intros Hlen Hmod Hz. unfold SimdSpec.norm.
  rewrite (SimdSpec_sq_sums_zero m v len); [reflexivity | exact Hz | lia |].
  unfold SimdSpec.groups. rewrite Z2Nat.id by (apply Z.div_pos; lia).
  rewrite <- Z.div_exact in Hmod by lia. lia.
Qed.

Lemma ScalarSpec_sq_sum_zero m v len n :
  zero_buf m v len ->
  forall i, 0 <= i -> i + Z.of_nat n <= len ->
  iter_from (ScalarSpec.sq_step m v) 1 n i F32.zero = F32.zero.
Proof.
  intros Hz. induction n as [|n IH]; intros i Hi Hn; [reflexivity |].
  cbn [iter_from].
  assert (Hstep : ScalarSpec.sq_step m v i F32.zero = F32.zero).
  { unfold ScalarSpec.sq_step. rewrite f32_sq_zero by (apply Hz; lia). reflexivity. }
  rewrite Hstep. apply IH; lia.
Qed.

Lemma ScalarSpec_norm_zero m v len :
  0 <= len -> zero_buf m v len -> ScalarSpec.norm m v len = F32.zero.
Proof.
  intros Hlen Hz. unfold ScalarSpec.norm.
  change (F32.of_Z 0) with F32.zero.
  rewrite (ScalarSpec_sq_sum_zero m v len); [reflexivity | exact Hz | lia | lia].
Qed.

(** Scaling a zero by the reciprocal of a zero norm: [0 * (1 / 0) = 0 * inf]. *)
Lemma SimdSpec_scale_zero x :
  F32.is_zero x = true -> SimdSpec.scale F32.zero x = F32.nan.
Proof. destruct x as [[]| | |]; simpl; try discriminate; reflexivity. Qed.

(** C1: on a zero vector of positive length, a multiple of 4, the scalar
    [normalize] (guarded by [norm > 0]) skips the scaling pass -- it returns
    having performed loads only, with the whole memory as it was -- while the
    SIMD [normalize] (unguarded) returns with every element of the vector
    turned into NaN and the cells outside it untouched; the two final
    memories differ. *)
Theorem C1_normalize_zero_norm_guard_differs (s : state) (v len : Z) :
  0 < len <= INT_MAX -> len mod 4 = 0 ->
  valid_buf (mem s) v len -> zero_buf (mem s) v len ->
  exists s1 s2,
    ScalarCpp.normalize v len s = Ok (tt, s1) /\
    reads_only s s1 /\
    (forall i, 0 <= i < len -> cell (mem s1) (v + i) = cell (mem s) (v + i)) /\
    SimdC.normalize v len s = Ok (tt, s2) /\
    (forall i, 0 <= i < len -> cell (mem s2) (v + i) = F32.nan) /\
    (forall addr, ~ in_buf v len addr -> cell (mem s2) addr = cell (mem s) addr) /\
    mem s1 <> mem s2.
Proof.
  intros Hlen Hmod Hv Hz.
  destruct (ScalarCpp_normalize_run s v len ltac:(lia) Hv) as (new1 & Hrun1 & _ & Hld).
  destruct (SimdC_normalize_run s v len ltac:(lia) Hmod Hv) as (new2 & Hrun2 & _).
  assert (Hn : ScalarSpec.norm (mem s) v len = F32.zero)
    by (apply ScalarSpec_norm_zero; [lia | exact Hz]).
  assert (Hm1 : ScalarSpec.normalized (mem s) v len = mem s).
  { unfold ScalarSpec.normalized. rewrite Hn. reflexivity. }
  assert (Hnan : forall i, 0 <= i < len ->
            cell (SimdSpec.normalized (mem s) v len) (v + i) = F32.nan).
  { intros i Hi. unfold SimdSpec.normalized.
    rewrite SimdSpec_norm_zero by (auto; lia).
    destruct Hv as [Hv0 Hv1].
    rewrite cell_map_region_in by (unfold in_buf; lia).
    apply SimdSpec_scale_zero. apply Hz. exact Hi. }
  rewrite Hm1 in Hrun1.
  eexists _, _. split; [exact Hrun1 |].
  split.
  { split; [reflexivity |]. exists new1. split; [reflexivity |].
    apply Hld. rewrite Hn. reflexivity. }
  split; [reflexivity |].
  split; [exact Hrun2 |]. cbn [mem].
  split; [exact Hnan |]. split.
  - intros addr Hout. unfold SimdSpec.normalized. apply cell_map_region_out. exact Hout.
  - intros Heq.
    specialize (Hnan 0 ltac:(lia)). rewrite <- Heq in Hnan.
    specialize (Hz 0 ltac:(lia)). rewrite Hnan in Hz. discriminate.
Qed.

Lemma C1_normalize_zero_norm_guard_differs_witness :
  (0 < 4 <= INT_MAX /\ 4 mod 4 = 0 /\
   valid_buf (mem (state_of [0; 0; 0; 0])) 0 4 /\
   zero_buf (mem (state_of [0; 0; 0; 0])) 0 4) /\
  exists s1 s2,
    ScalarCpp.normalize 0 4 (state_of [0; 0; 0; 0]) = Ok (tt, s1) /\
    reads_only (state_of [0; 0; 0; 0]) s1 /\
    (forall i, 0 <= i < 4 ->
       cell (mem s1) (0 + i) = cell (mem (state_of [0; 0; 0; 0])) (0 + i)) /\
    SimdC.normalize 0 4 (state_of [0; 0; 0; 0]) = Ok (tt, s2) /\
    (forall i, 0 <= i < 4 -> cell (mem s2) (0 + i) = F32.nan) /\
    (forall addr, ~ in_buf 0 4 addr ->
       cell (mem s2) addr = cell (mem (state_of [0; 0; 0; 0])) addr) /\
    mem s1 <> mem s2.
Proof.
  assert (H1 : 0 < 4 <= INT_MAX) by (unfold INT_MAX; lia).
  assert (H2 : 4 mod 4 = 0) by reflexivity.
  assert (H3 : valid_buf (mem (state_of [0; 0; 0; 0])) 0 4)
    by (unfold valid_buf; simpl; lia).
  assert (H4 : zero_buf (mem (state_of [0; 0; 0; 0])) 0 4).
  { intros i Hi.
    assert (i = 0 \/ i = 1 \/ i = 2 \/ i = 3) as [->|[->|[->| ->]]] by lia;
      reflexivity. }
  split; [auto |].
  exact (C1_normalize_zero_norm_guard_differs (state_of [0; 0; 0; 0]) 0 4 H1 H2 H3 H4).
Defined.

(** ** Exchanging the arguments of [cosineSimilarity] *)

Lemma SimdSpec_cos_step_swap m a b i acc :
  SimdSpec.cos_step m b a i (SimdSpec.cos_swap acc) =
  SimdSpec.cos_swap (SimdSpec.cos_step m a b i acc).
Proof.
  unfold SimdSpec.cos_step, SimdSpec.cos_swap.
  cbn [SimdC.dot SimdC.normA SimdC.normB]. f_equal.
  simd_unfold. f_equal; f_equal; apply f32_mul_comm.
Qed.

Lemma SimdSpec_cos_sums_swap m a b n :
  forall i acc,
  iter_from (SimdSpec.cos_step m b a) 4 n i (SimdSpec.cos_swap acc) =
  SimdSpec.cos_swap (iter_from (SimdSpec.cos_step m a b) 4 n i acc).
Proof.
  induction n as [|n IH]; intros i acc; [reflexivity |].
  cbn [iter_from]. rewrite SimdSpec_cos_step_swap. apply IH.
Qed.

Lemma SimdSpec_cos_result_swap acc :
  SimdSpec.cos_result (SimdSpec.cos_swap acc) = SimdSpec.cos_result acc.
Proof.
  unfold SimdSpec.cos_result, SimdSpec.cos_denominator, SimdSpec.cos_swap.
  cbn [SimdC.dot SimdC.normA SimdC.normB]. f_equal. apply f32_mul_comm.
Qed.

Lemma SimdSpec_cos_comm m a b len : SimdSpec.cos m b a len = SimdSpec.cos m a b len.
Proof.
  unfold SimdSpec.cos, SimdSpec.cos_sums.
  rewrite <- SimdSpec_cos_result_swap, <- SimdSpec_cos_sums_swap. reflexivity.
Qed.

Lemma ScalarSpec_cos_step_swap m a b i acc :
  ScalarSpec.cos_step m b a i (ScalarSpec.cos_swap acc) =
  ScalarSpec.cos_swap (ScalarSpec.cos_step m a b i acc).
Proof.
  unfold ScalarSpec.cos_step, ScalarSpec.cos_swap.
  cbn [ScalarCpp.dot ScalarCpp.normA ScalarCpp.normB]. f_equal.
  f_equal. apply f32_mul_comm.
Qed.

Lemma ScalarSpec_cos_sums_swap m a b n :
  forall i acc,
  iter_from (ScalarSpec.cos_step m b a) 1 n i (ScalarSpec.cos_swap acc) =
  ScalarSpec.cos_swap (iter_from (ScalarSpec.cos_step m a b) 1 n i acc).
Proof.
  induction n as [|n IH]; intros i acc; [reflexivity |].
  cbn [iter_from]. rewrite ScalarSpec_cos_step_swap. apply IH.
Qed.

Lemma ScalarSpec_cos_result_swap acc :
  ScalarSpec.cos_result (ScalarSpec.cos_swap acc) = ScalarSpec.cos_result acc.
Proof.
  unfold ScalarSpec.cos_result, ScalarSpec.cos_denominator, ScalarSpec.cos_swap.
  cbn [ScalarCpp.dot ScalarCpp.normA ScalarCpp.normB]. f_equal. apply f32_mul_comm.
Qed.

Lemma ScalarSpec_cos_comm m a b len :
  ScalarSpec.cos m b a len = ScalarSpec.cos m a b len.
Proof.
  unfold ScalarSpec.cos, ScalarSpec.cos_sums.
  rewrite <- ScalarSpec_cos_result_swap, <- ScalarSpec_cos_sums_swap. reflexivity.
Qed.

(** C3: on buffers of [len] elements lying in the memory, the calls
    [cosineSimilarity(a, b, len)] and [cosineSimilarity(b, a, len)] both
    return, with the same value [r] and the memory unchanged: in the scalar
    implementation for every length, in the SIMD implementation for every
    length that is a multiple of 4.  Unless [r] is NaN, [r == r] holds. *)
Theorem C3_cosineSimilarity_commutative (s : state) (a b len : Z) :
  0 <= len <= INT_MAX ->
  valid_buf (mem s) a len -> valid_buf (mem s) b len ->
  (exists r new1 new2,
     ScalarCpp.cosineSimilarity a b len s = Ok (r, mkState (mem s) (new1 ++ trace s)) /\
     ScalarCpp.cosineSimilarity b a len s = Ok (r, mkState (mem s) (new2 ++ trace s)) /\
     (r <> F32.nan -> F32.eqb r r = true)) /\
  (len mod 4 = 0 ->
   exists r new1 new2,
     SimdC.cosineSimilarity a b len s = Ok (r, mkState (mem s) (new1 ++ trace s)) /\
     SimdC.cosineSimilarity b a len s = Ok (r, mkState (mem s) (new2 ++ trace s)) /\
     (r <> F32.nan -> F32.eqb r r = true)).
Proof.
  intros Hlen Ha Hb. split.
  - destruct (ScalarCpp_cosineSimilarity_run s a b len Hlen Ha Hb) as (n1 & H1 & _).
    destruct (ScalarCpp_cosineSimilarity_run s b a len Hlen Hb Ha) as (n2 & H2 & _).
    rewrite ScalarSpec_cos_comm in H2.
    eexists _, n1, n2. split; [exact H1 |]. split; [exact H2 |]. apply f32_eqb_refl.
  - intros Hmod.
    destruct (SimdC_cosineSimilarity_run s a b len Hlen Hmod Ha Hb) as (n1 & H1 & _).
    destruct (SimdC_cosineSimilarity_run s b a len Hlen Hmod Hb Ha) as (n2 & H2 & _).
    rewrite SimdSpec_cos_comm in H2.
    eexists _, n1, n2. split; [exact H1 |]. split; [exact H2 |]. apply f32_eqb_refl.
Qed.

Lemma C3_cosineSimilarity_commutative_witness :
  (0 <= 4 <= INT_MAX /\
   valid_buf (mem state_e1_e2) 0 4 /\ valid_buf (mem state_e1_e2) 4 4) /\
  exists r new1 new2,
    ScalarCpp.cosineSimilarity 0 4 4 state_e1_e2 =
      Ok (r, mkState (mem state_e1_e2) (new1 ++ trace state_e1_e2)) /\
    ScalarCpp.cosineSimilarity 4 0 4 state_e1_e2 =
      Ok (r, mkState (mem state_e1_e2) (new2 ++ trace state_e1_e2)) /\
    (r <> F32.nan -> F32.eqb r r = true).
Proof.
  assert (H1 : 0 <= 4 <= INT_MAX) by (unfold INT_MAX; lia).
  assert (H3 : valid_buf (mem state_e1_e2) 0 4) by (unfold valid_buf; simpl; lia).
  assert (H4 : valid_buf (mem state_e1_e2) 4 4) by (unfold valid_buf; simpl; lia).
  split; [auto |].
  exact (proj1 (C3_cosineSimilarity_commutative state_e1_e2 0 4 4 H1 H3 H4)).
Defined.

(** ** [cosineSimilarity] on a zero vector *)

Lemma pzn_add x y : pzero_or_nan x -> zero_or_nan y -> pzero_or_nan (F32.add x y).
Proof.
  intros [->| ->] [Hy| ->]; try (right; reflexivity).
  left. apply f32_add_zero_zero. exact Hy.
Qed.

Lemma pzn_zn x : pzero_or_nan x -> zero_or_nan x.
Proof. intros [->| ->]; [left | right]; reflexivity. Qed.

Lemma zn_mul_zero_l x y : F32.is_zero x = true -> zero_or_nan (F32.mul x y).
Proof. apply f32_mul_zero_l. Qed.

Lemma f32_div_pzn_zn x y : pzero_or_nan x -> zero_or_nan y -> F32.div x y = F32.nan.
Proof.
  intros [->| ->] [Hy| ->]; try reflexivity.
  destruct y; try discriminate. reflexivity.
Qed.

Lemma f32_mul_zero_finite x y :
  F32.is_zero x = true -> F32.is_finite y = true -> F32.is_zero (F32.mul x y) = true.
Proof. destruct x, y; simpl; auto; discriminate. Qed.

Lemma ScalarSpec_cos_sums_zero m a b len n :
  zero_buf m a len ->
  forall i acc, 0 <= i -> i + Z.of_nat n <= len ->
  pzero_or_nan (ScalarCpp.dot acc) -> ScalarCpp.normA acc = F32.zero ->
  pzero_or_nan (ScalarCpp.dot (iter_from (ScalarSpec.cos_step m a b) 1 n i acc)) /\
  ScalarCpp.normA (iter_from (ScalarSpec.cos_step m a b) 1 n i acc) = F32.zero.
Proof.
  intros Hz. induction n as [|n IH]; intros i acc Hi Hn Hd HA; [auto |].
  cbn [iter_from]. apply IH; [lia | lia | |];
    unfold ScalarSpec.cos_step; cbn [ScalarCpp.dot ScalarCpp.normA].
  - apply pzn_add; [exact Hd |]. apply zn_mul_zero_l. apply Hz. lia.
  - rewrite HA, f32_sq_zero by (apply Hz; lia). reflexivity.
Qed.

(** With [a] the zero vector the scalar quotient is NaN; its divisor is a
    zero or NaN, and a zero when the computed norm of [b] is finite. *)
Lemma ScalarSpec_cos_zero_l m a b len :
  0 <= len -> zero_buf m a len ->
  ScalarSpec.cos m a b len = F32.nan /\
  zero_or_nan (ScalarSpec.cos_denominator (ScalarSpec.cos_sums m a b len)) /\
  (F32.is_finite (F32.sqrt (ScalarCpp.normB (ScalarSpec.cos_sums m a b len))) = true ->
   F32.is_zero (ScalarSpec.cos_denominator (ScalarSpec.cos_sums m a b len)) = true).
Proof.
  intros Hlen Hz. unfold ScalarSpec.cos, ScalarSpec.cos_result, ScalarSpec.cos_sums.
  destruct (ScalarSpec_cos_sums_zero m a b len (Z.to_nat len) Hz 0
              (ScalarCpp.CosAcc (F32.of_Z 0) (F32.of_Z 0) (F32.of_Z 0)))
    as [Hd HA]; [lia | lia | left; reflexivity | reflexivity |].
  set (acc := iter_from _ _ _ _ _) in *.
  unfold ScalarSpec.cos_denominator. rewrite HA.
  change (F32.sqrt F32.zero) with F32.zero.
  split; [| split].
  - apply f32_div_pzn_zn; [exact Hd |]. apply zn_mul_zero_l. reflexivity.
  - apply zn_mul_zero_l. reflexivity.
  - apply f32_mul_zero_finite. reflexivity.
Qed.

Lemma ScalarSpec_cos_denominator_comm m a b len :
  ScalarSpec.cos_denominator (ScalarSpec.cos_sums m b a len) =
  ScalarSpec.cos_denominator (ScalarSpec.cos_sums m a b len).
Proof.
  unfold ScalarSpec.cos_sums.
  change (ScalarCpp.CosAcc (F32.of_Z 0) (F32.of_Z 0) (F32.of_Z 0))
    with (ScalarSpec.cos_swap (ScalarCpp.CosAcc (F32.of_Z 0) (F32.of_Z 0) (F32.of_Z 0)))
    at 1.
  rewrite ScalarSpec_cos_sums_swap.
  unfold ScalarSpec.cos_denominator, ScalarSpec.cos_swap.
  cbn [ScalarCpp.normA ScalarCpp.normB]. apply f32_mul_comm.
Qed.

Lemma pzn4_horizontal_sum x : pzn4 x -> pzero_or_nan (SimdC.horizontal_sum x).
Proof.
  intros (H0 & H1 & H2 & H3). unfold SimdC.horizontal_sum.
  cbn [SimdC.wasm_f32x4_extract_lane].
  repeat apply pzn_add; auto using pzn_zn.
Qed.

Lemma SimdSpec_cos_sums_zero m a b len n :
  zero_buf m a len ->
  forall i acc, 0 <= i -> i + 4 * Z.of_nat n <= len ->
  pzn4 (SimdC.dot acc) -> SimdC.normA acc = SimdSpec.zero4 ->
  pzn4 (SimdC.dot (iter_from (SimdSpec.cos_step m a b) 4 n i acc)) /\
  SimdC.normA (iter_from (SimdSpec.cos_step m a b) 4 n i acc) = SimdSpec.zero4.
Proof.
  intros Hz. induction n as [|n IH]; intros i acc Hi Hn Hd HA; [auto |].
  cbn [iter_from].
  assert (Hc : forall k, 0 <= k < 4 -> F32.is_zero (cell m (a + i + k)) = true).
  { intros k Hk. replace (a + i + k) with (a + (i + k)) by lia. apply Hz. lia. }
  pose proof (Hc 0 ltac:(lia)) as Hc0. rewrite Z.add_0_r in Hc0.
  apply IH; [lia | lia | |];
    unfold SimdSpec.cos_step, SimdSpec.read4; cbn [SimdC.dot SimdC.normA].
  - destruct Hd as (H0 & H1 & H2 & H3). simd_unfold.
    repeat split; cbn [SimdC.lane0 SimdC.lane1 SimdC.lane2 SimdC.lane3];
      (apply pzn_add; [assumption |]); apply zn_mul_zero_l; auto with zarith.
  - rewrite HA. unfold SimdSpec.zero4. simd_unfold.
    rewrite !f32_sq_zero by auto with zarith. reflexivity.
Qed.

Lemma SimdSpec_cos_zero_l m a b len :
  0 <= len -> len mod 4 = 0 -> zero_buf m a len ->
  SimdSpec.cos m a b len = F32.nan /\
  zero_or_nan (SimdSpec.cos_denominator (SimdSpec.cos_sums m a b len)) /\
  (F32.is_finite
     (F32.sqrt (SimdC.horizontal_sum (SimdC.normB (SimdSpec.cos_sums m a b len)))) = true ->
   F32.is_zero (SimdSpec.cos_denominator (SimdSpec.cos_sums m a b len)) = true).
Proof.
  intros Hlen Hmod Hz. unfold SimdSpec.cos, SimdSpec.cos_result, SimdSpec.cos_sums.
  destruct (SimdSpec_cos_sums_zero m a b len (SimdSpec.groups len) Hz 0
              (SimdC.CosAcc SimdSpec.zero4 SimdSpec.zero4 SimdSpec.zero4))
    as [Hd HA]; [lia | | repeat split; left; reflexivity | reflexivity |].
  { unfold SimdSpec.groups. rewrite Z2Nat.id by (apply Z.div_pos; lia).
    rewrite <- Z.div_exact in Hmod by lia. lia. }
  set (acc := iter_from _ _ _ _ _) in *.
  unfold SimdSpec.cos_denominator. rewrite HA.
  change (F32.sqrt (SimdC.horizontal_sum SimdSpec.zero4)) with F32.zero.
  split; [| split].
  - apply f32_div_pzn_zn; [apply pzn4_horizontal_sum; exact Hd |].
    apply zn_mul_zero_l. reflexivity.
  - apply zn_mul_zero_l. reflexivity.
  - apply f32_mul_zero_finite. reflexivity.
Qed.

Lemma SimdSpec_cos_denominator_comm m a b len :
  SimdSpec.cos_denominator (SimdSpec.cos_sums m b a len) =
  SimdSpec.cos_denominator (SimdSpec.cos_sums m a b len).
Proof.
  unfold SimdSpec.cos_sums.
  change (SimdC.CosAcc SimdSpec.zero4 SimdSpec.zero4 SimdSpec.zero4)
    with (SimdSpec.cos_swap (SimdC.CosAcc SimdSpec.zero4 SimdSpec.zero4 SimdSpec.zero4))
    at 1.
  rewrite SimdSpec_cos_sums_swap.
  unfold SimdSpec.cos_denominator, SimdSpec.cos_swap.
  cbn [SimdC.normA SimdC.normB]. apply f32_mul_comm.
Qed.

Lemma ScalarSpec_cos_sums_comm m a b len :
  ScalarSpec.cos_sums m b a len = ScalarSpec.cos_swap (ScalarSpec.cos_sums m a b len).
Proof.
  unfold ScalarSpec.cos_sums. rewrite <- ScalarSpec_cos_sums_swap. reflexivity.
Qed.

Lemma SimdSpec_cos_sums_comm m a b len :
  SimdSpec.cos_sums m b a len = SimdSpec.cos_swap (SimdSpec.cos_sums m a b len).
Proof.
  unfold SimdSpec.cos_sums. rewrite <- SimdSpec_cos_sums_swap. reflexivity.
Qed.

Lemma zero_buf_whole (l : list Z) p len :
  0 <= p -> 0 <= len ->
  forallb (fun x => F32.is_zero (F32.of_Z x))
          (firstn (Z.to_nat len) (skipn (Z.to_nat p) l)) = true ->
  (Z.to_nat p + Z.to_nat len <= length l)%nat ->
  zero_buf (map F32.of_Z l) p len.
Proof.
  intros Hp Hlen Hall Hl i Hi. rewrite forallb_forall in Hall.
  unfold cell, mem_read.
  destruct (p + i <? 0) eqn:E; [apply Z.ltb_lt in E; lia |].
  rewrite list_lookup_fmap.
  destruct (l !! Z.to_nat (p + i)) as [x|] eqn:L.
  - simpl. apply Hall.
    apply list_elem_of_In. apply list_elem_of_lookup. exists (Z.to_nat i).
    change firstn with (@take Z). change skipn with (@drop Z).
    rewrite lookup_take_lt by lia. rewrite lookup_drop.
    rewrite <- L. f_equal. lia.
  - apply lookup_ge_None in L. lia.
Qed.

(** C4 (as amended): if either vector is the zero vector, of positive
    length, [cosineSimilarity] returns NaN -- a non-finite value, not a
    sentinel -- with no trap and the memory unchanged.  The divisor of the
    final division is a zero or NaN; it is a zero whenever the computed
    norms of both vectors are finite.  Scalar implementation: every length;
    SIMD implementation: every multiple of 4. *)
Theorem C4_cosineSimilarity_zero_vector_nan (s : state) (a b len : Z) :
  0 < len <= INT_MAX ->
  valid_buf (mem s) a len -> valid_buf (mem s) b len ->
  zero_buf (mem s) a len \/ zero_buf (mem s) b len ->
  (returns_nan (ScalarCpp.cosineSimilarity a b len) s /\
   zero_or_nan (ScalarSpec.cos_denominator (ScalarSpec.cos_sums (mem s) a b len)) /\
   (F32.is_finite
      (F32.sqrt (ScalarCpp.normA (ScalarSpec.cos_sums (mem s) a b len))) = true ->
    F32.is_finite
      (F32.sqrt (ScalarCpp.normB (ScalarSpec.cos_sums (mem s) a b len))) = true ->
    F32.is_zero
      (ScalarSpec.cos_denominator (ScalarSpec.cos_sums (mem s) a b len)) = true)) /\
  (len mod 4 = 0 ->
   returns_nan (SimdC.cosineSimilarity a b len) s /\
   zero_or_nan (SimdSpec.cos_denominator (SimdSpec.cos_sums (mem s) a b len)) /\
   (F32.is_finite
      (F32.sqrt (SimdC.horizontal_sum
                   (SimdC.normA (SimdSpec.cos_sums (mem s) a b len)))) = true ->
    F32.is_finite
      (F32.sqrt (SimdC.horizontal_sum
                   (SimdC.normB (SimdSpec.cos_sums (mem s) a b len)))) = true ->
    F32.is_zero
      (SimdSpec.cos_denominator (SimdSpec.cos_sums (mem s) a b len)) = true)).
Proof.
  intros Hlen Ha Hb Hz. split.
  - destruct (ScalarCpp_cosineSimilarity_run s a b len ltac:(lia) Ha Hb)
      as (new & Hrun & _).
    destruct Hz as [Hz|Hz].
    + destruct (ScalarSpec_cos_zero_l (mem s) a b len ltac:(lia) Hz) as (Hr & Hd & Hf).
      split; [exists new; rewrite <- Hr; exact Hrun |]. split; [exact Hd |].
      intros _. exact Hf.
    + destruct (ScalarSpec_cos_zero_l (mem s) b a len ltac:(lia) Hz) as (Hr & Hd & Hf).
      rewrite ScalarSpec_cos_comm in Hr.
      rewrite ScalarSpec_cos_denominator_comm in Hd, Hf.
      rewrite ScalarSpec_cos_sums_comm in Hf.
      split; [exists new; rewrite <- Hr; exact Hrun |]. split; [exact Hd |].
      intros HfA _. apply Hf. exact HfA.
  - intros Hmod.
    destruct (SimdC_cosineSimilarity_run s a b len ltac:(lia) Hmod Ha Hb)
      as (new & Hrun & _).
    destruct Hz as [Hz|Hz].
    + destruct (SimdSpec_cos_zero_l (mem s) a b len ltac:(lia) Hmod Hz)
        as (Hr & Hd & Hf).
      split; [exists new; rewrite <- Hr; exact Hrun |]. split; [exact Hd |].
      intros _. exact Hf.
    + destruct (SimdSpec_cos_zero_l (mem s) b a len ltac:(lia) Hmod Hz)
        as (Hr & Hd & Hf).
      rewrite SimdSpec_cos_comm in Hr.
      rewrite SimdSpec_cos_denominator_comm in Hd, Hf.
      rewrite SimdSpec_cos_sums_comm in Hf.
      split; [exists new; rewrite <- Hr; exact Hrun |]. split; [exact Hd |].
      intros HfA _. apply Hf. exact HfA.
Qed.

Lemma C4_cosineSimilarity_zero_vector_nan_witness :
  (0 < 4 <= INT_MAX /\
   valid_buf (mem state_zero_huge) 0 4 /\ valid_buf (mem state_zero_huge) 4 4 /\
   (zero_buf (mem state_zero_huge) 0 4 \/ zero_buf (mem state_zero_huge) 4 4)) /\
  returns_nan (ScalarCpp.cosineSimilarity 0 4 4) state_zero_huge.
Proof.
  assert (H1 : 0 < 4 <= INT_MAX) by (unfold INT_MAX; lia).
  assert (H3 : valid_buf (mem state_zero_huge) 0 4) by (unfold valid_buf; simpl; lia).
  assert (H4 : valid_buf (mem state_zero_huge) 4 4) by (unfold valid_buf; simpl; lia).
  assert (H5 : zero_buf (mem state_zero_huge) 0 4).
  { apply zero_buf_whole; [lia | lia | reflexivity | simpl; lia]. }
  split; [auto |].
  exact (proj1 (proj1
    (C4_cosineSimilarity_zero_vector_nan state_zero_huge 0 4 4 H1 H3 H4 (or_introl H5)))).
Defined.

(** C4 as stated fails on the divisor: with [a] the zero vector and
    [b = [2^100; 0; 0; 0]], the sum of squares of [b] overflows to infinity,
    and the divisor [sqrt(0) * sqrt(inf)] is NaN, not 0, in both
    implementations (the returned value is NaN all the same). *)
Lemma C4_divisor_is_zero_counterexample :
  forallb F32.valid (mem state_zero_huge) = true /\
  zero_buf (mem state_zero_huge) 0 4 /\
  (exists s', SimdC.cosineSimilarity 0 4 4 state_zero_huge = Ok (F32.nan, s')) /\
  (exists s', ScalarCpp.cosineSimilarity 0 4 4 state_zero_huge = Ok (F32.nan, s')) /\
  SimdSpec.cos_denominator (SimdSpec.cos_sums (mem state_zero_huge) 0 4 4) = F32.nan /\
  ScalarSpec.cos_denominator (ScalarSpec.cos_sums (mem state_zero_huge) 0 4 4) = F32.nan /\
  F32.is_zero F32.nan = false.
Proof.
  split; [reflexivity |].
  split; [apply zero_buf_whole; [lia | lia | reflexivity | simpl; lia] |].
  split; [eexists; vm_compute; reflexivity |].
  split; [eexists; vm_compute; reflexivity |].
  split; [vm_compute; reflexivity |].
  split; [vm_compute; reflexivity | reflexivity].
Qed.

(** ** [euclideanDistance] of equal vectors, and its sign *)

Lemma f32_sqdiff_same x : F32.is_finite x = true ->
  F32.add F32.zero (F32.mul (F32.sub x x) (F32.sub x x)) = F32.zero.
Proof. intros H. rewrite f32_sub_diag by exact H. reflexivity. Qed.

Lemma ScalarSpec_dist_sum_same m a b len n :
  finite_buf m a len -> same_buf m a b len ->
  forall i, 0 <= i -> i + Z.of_nat n <= len ->
  iter_from (ScalarSpec.dist_step m a b) 1 n i F32.zero = F32.zero.
Proof.
  intros Hf Hs. induction n as [|n IH]; intros i Hi Hn; [reflexivity |].
  cbn [iter_from].
  assert (Hstep : ScalarSpec.dist_step m a b i F32.zero = F32.zero).
  { unfold ScalarSpec.dist_step. rewrite <- Hs by lia.
    apply f32_sqdiff_same. apply Hf. lia. }
  rewrite Hstep. apply IH; lia.
Qed.

Lemma SimdSpec_dist_sums_same m a b len n :
  finite_buf m a len -> same_buf m a b len ->
  forall i, 0 <= i -> i + 4 * Z.of_nat n <= len ->
  iter_from (SimdSpec.dist_step m a b) 4 n i SimdSpec.zero4 = SimdSpec.zero4.
Proof.
  intros Hf Hs. induction n as [|n IH]; intros i Hi Hn; [reflexivity |].
  cbn [iter_from].
  assert (Hstep : SimdSpec.dist_step m a b i SimdSpec.zero4 = SimdSpec.zero4).
  { unfold SimdSpec.dist_step, SimdSpec.read4, SimdSpec.zero4. simd_unfold.
    replace (a + i + 1) with (a + (i + 1)) by lia.
    replace (a + i + 2) with (a + (i + 2)) by lia.
    replace (a + i + 3) with (a + (i + 3)) by lia.
    replace (b + i + 1) with (b + (i + 1)) by lia.
    replace (b + i + 2) with (b + (i + 2)) by lia.
    replace (b + i + 3) with (b + (i + 3)) by lia.
    rewrite <- !Hs by lia.
    change (F32.of_Z 0) with F32.zero.
    rewrite !f32_sqdiff_same by (apply Hf; lia). reflexivity. }
  rewrite Hstep. apply IH; lia.
Qed.

Lemma ScalarSpec_dist_same m a b len :
  0 <= len -> finite_buf m a len -> same_buf m a b len ->
  ScalarSpec.dist m a b len = F32.zero.
Proof.
  intros Hlen Hf Hs. unfold ScalarSpec.dist. change (F32.of_Z 0) with F32.zero.
  rewrite (ScalarSpec_dist_sum_same m a b len); auto; lia.
Qed.

Lemma SimdSpec_dist_same m a b len :
  0 <= len -> len mod 4 = 0 -> finite_buf m a len -> same_buf m a b len ->
  SimdSpec.dist m a b len = F32.zero.
Proof.
  intros Hlen Hmod Hf Hs. unfold SimdSpec.dist.
  rewrite (SimdSpec_dist_sums_same m a b len); auto; try lia.
  unfold SimdSpec.groups. rewrite Z2Nat.id by (apply Z.div_pos; lia).
  rewrite <- Z.div_exact in Hmod by lia. lia.
Qed.

(** C2 as stated fails in both directions of "zero exactly when identical".
    The square of a tiny difference underflows: [[2^-100; 0; 0; 0]] and the
    zero vector differ, yet their distance is [+0] in both implementations.
    And [inf - inf] is NaN: the distance of [[inf; 0; 0; 0]] to itself is
    NaN, which neither equals 0 nor is at least 0. *)
Lemma C2_zero_iff_identical_counterexample :
  forallb F32.valid (mem state_tiny) = true /\
  forallb F32.valid (mem state_inf) = true /\
  (SimdC.euclideanDistance 0 4 4 state_tiny =
     Ok (F32.zero, mkState (mem state_tiny)
           ([EvLoad 7; EvLoad 6; EvLoad 5; EvLoad 4;
             EvLoad 3; EvLoad 2; EvLoad 1; EvLoad 0])) /\
   (exists s', ScalarCpp.euclideanDistance 0 4 4 state_tiny = Ok (F32.zero, s')) /\
   cell (mem state_tiny) (0 + 0) <> cell (mem state_tiny) (4 + 0)) /\
  ((exists s', SimdC.euclideanDistance 0 0 4 state_inf = Ok (F32.nan, s')) /\
   (exists s', ScalarCpp.euclideanDistance 0 0 4 state_inf = Ok (F32.nan, s')) /\
   F32.eqb F32.nan F32.zero = false /\
   SFleb F32.zero F32.nan = false).
Proof.
  split; [reflexivity |]. split; [reflexivity |].
  split; [split; [| split] | split; [| split; [| split]]].
  - vm_compute. reflexivity.
  - eexists. vm_compute. reflexivity.
  - vm_compute. discriminate.
  - eexists. vm_compute. reflexivity.
  - eexists. vm_compute. reflexivity.
  - reflexivity.
  - reflexivity.
Qed.

(** ** The scenario [v = [3; 4; 0; 0]] *)

Lemma SimdSpec_norm_3_4_0_0 m v :
  cell m v = F32.of_Z 3 -> cell m (v + 1) = F32.of_Z 4 ->
  cell m (v + 2) = F32.of_Z 0 -> cell m (v + 3) = F32.of_Z 0 ->
  SimdSpec.norm m v 4 = F32.of_Z 5.
Proof.
  intros H0 H1 H2 H3. unfold SimdSpec.norm.
  change (SimdSpec.groups 4) with 1%nat. cbn [iter_from].
  unfold SimdSpec.sq_step, SimdSpec.read4. rewrite Z.add_0_r, H0, H1, H2, H3.
  vm_compute. reflexivity.
Qed.

Lemma ScalarSpec_norm_3_4_0_0 m v :
  cell m v = F32.of_Z 3 -> cell m (v + 1) = F32.of_Z 4 ->
  cell m (v + 2) = F32.of_Z 0 -> cell m (v + 3) = F32.of_Z 0 ->
  ScalarSpec.norm m v 4 = F32.of_Z 5.
Proof.
  intros H0 H1 H2 H3. unfold ScalarSpec.norm.
  change (Z.to_nat 4) with 4%nat. cbn [iter_from].
  unfold ScalarSpec.sq_step. rewrite Z.add_0_r.
  replace (v + (0 + 1)) with (v + 1) by lia.
  replace (v + (0 + 1 + 1)) with (v + 2) by lia.
  replace (v + (0 + 1 + 1 + 1)) with (v + 3) by lia.
  rewrite H0, H1, H2, H3.
  vm_compute. reflexivity.
Qed.

(** C7: wherever the buffer [[3; 4; 0; 0]] lies in the memory, both
    implementations compute the norm 5 and [normalize(v, 4)] returns with
    the buffer holding [[10066330 * 2^-24; 13421773 * 2^-24; 0; 0]] -- the
    binary32 roundings of 3/5 and 4/5 -- and every other cell as it was. *)
Theorem C7_normalize_3_4_0_0 (s : state) (v : Z) :
  valid_buf (mem s) v 4 ->
  cell (mem s) v = F32.of_Z 3 -> cell (mem s) (v + 1) = F32.of_Z 4 ->
  cell (mem s) (v + 2) = F32.of_Z 0 -> cell (mem s) (v + 3) = F32.of_Z 0 ->
  SimdSpec.norm (mem s) v 4 = F32.of_Z 5 /\
  ScalarSpec.norm (mem s) v 4 = F32.of_Z 5 /\
  rounding_of (3 # 5) (F32.of_scaled 10066330 (-24)) /\
  rounding_of (4 # 5) (F32.of_scaled 13421773 (-24)) /\
  forall normalize, normalize = SimdC.normalize \/ normalize = ScalarCpp.normalize ->
  exists s',
    normalize v 4 s = Ok (tt, s') /\
    cell (mem s') v = F32.of_scaled 10066330 (-24) /\
    cell (mem s') (v + 1) = F32.of_scaled 13421773 (-24) /\
    cell (mem s') (v + 2) = F32.of_Z 0 /\
    cell (mem s') (v + 3) = F32.of_Z 0 /\
    (forall addr, ~ in_buf v 4 addr -> cell (mem s') addr = cell (mem s) addr).
Proof.
  intros Hv H0 H1 H2 H3.
  pose proof (SimdSpec_norm_3_4_0_0 _ _ H0 H1 H2 H3) as HnC.
  pose proof (ScalarSpec_norm_3_4_0_0 _ _ H0 H1 H2 H3) as HnS.
  split; [exact HnC |]. split; [exact HnS |].
  split; [split; [reflexivity | vm_compute; discriminate] |].
  split; [split; [reflexivity | vm_compute; discriminate] |].
  assert (Hlen : 0 <= 4 <= INT_MAX) by (unfold INT_MAX; lia).
  destruct Hv as [Hv0 Hv1].
  intros normalize [-> | ->].
  - destruct (SimdC_normalize_run s v 4 Hlen eq_refl (conj Hv0 Hv1)) as (new & Hrun & _).
    eexists. split; [exact Hrun |]. cbn [mem]. unfold SimdSpec.normalized. rewrite HnC.
    replace v with (v + 0) at 2 by lia.
    rewrite !cell_map_region_in by (unfold in_buf; lia).
    rewrite Z.add_0_r, H0, H1, H2, H3.
    repeat (split; [vm_compute; reflexivity |]).
    intros addr Hout. apply cell_map_region_out. exact Hout.
  - destruct (ScalarCpp_normalize_run s v 4 Hlen (conj Hv0 Hv1)) as (new & Hrun & _ & _).
    eexists. split; [exact Hrun |]. cbn [mem]. unfold ScalarSpec.normalized. rewrite HnS.
    change (F32.ltb (F32.of_Z 0) (F32.of_Z 5)) with true. cbv iota.
    replace v with (v + 0) at 2 by lia.
    rewrite !cell_map_region_in by (unfold in_buf; lia).
    rewrite Z.add_0_r, H0, H1, H2, H3.
    repeat (split; [vm_compute; reflexivity |]).
    intros addr Hout. apply cell_map_region_out. exact Hout.
Qed.

Lemma C7_normalize_3_4_0_0_witness :
  (valid_buf (mem state_3_4_0_0) 0 4 /\
   cell (mem state_3_4_0_0) 0 = F32.of_Z 3 /\
   cell (mem state_3_4_0_0) (0 + 1) = F32.of_Z 4 /\
   cell (mem state_3_4_0_0) (0 + 2) = F32.of_Z 0 /\
   cell (mem state_3_4_0_0) (0 + 3) = F32.of_Z 0) /\
  SimdSpec.norm (mem state_3_4_0_0) 0 4 = F32.of_Z 5.
Proof.
  assert (H : valid_buf (mem state_3_4_0_0) 0 4) by (unfold valid_buf; simpl; lia).
  split; [repeat split; try reflexivity; apply H |].
  exact (proj1 (C7_normalize_3_4_0_0 state_3_4_0_0 0 H eq_refl eq_refl eq_refl eq_refl)).
Defined.

(** ** The two orders of summation *)

Section ExactArithmetic.
Context {T : Type} (add : T -> T -> T) (zero : T) (term : Z -> T).
Hypothesis add_assoc : forall x y z, add x (add y z) = add (add x y) z.
Hypothesis add_comm : forall x y, add x y = add y x.
Hypothesis add_zero : add zero zero = zero.

Lemma add_interchange w x y z : add (add w x) (add y z) = add (add w y) (add x z).
Proof using add_assoc add_comm.
  rewrite !add_assoc. f_equal. rewrite <- !add_assoc. f_equal. apply add_comm.
Qed.

Lemma lane_step_sum l0 l1 l2 l3 t0 t1 t2 t3 :
  add (add (add (add l0 t0) (add l1 t1)) (add l2 t2)) (add l3 t3) =
  add (add (add (add (add (add (add l0 l1) l2) l3) t0) t1) t2) t3.
Proof using add_assoc add_comm.
  rewrite (add_interchange l0 t0 l1 t1).
  rewrite (add_interchange (add l0 l1) (add t0 t1) l2 t2).
  rewrite (add_interchange (add (add l0 l1) l2) (add (add t0 t1) t2) l3 t3).
  rewrite !add_assoc. reflexivity.
Qed.

Lemma lanes_serial_from g :
  forall i l0 l1 l2 l3,
  (let '(k0, k1, k2, k3) :=
     iter_from (fun i '(l0, l1, l2, l3) =>
                  (add l0 (term i), add l1 (term (i + 1)),
                   add l2 (term (i + 2)), add l3 (term (i + 3))))
               4 g i (l0, l1, l2, l3)
   in add (add (add k0 k1) k2) k3) =
  iter_from (fun i acc => add acc (term i)) 1 (4 * g) i
            (add (add (add l0 l1) l2) l3).
Proof using add_assoc add_comm.
  induction g as [|g IH]; intros i l0 l1 l2 l3; [reflexivity |].
  replace (4 * S g)%nat with (S (S (S (S (4 * g))))) by lia.
  cbn [iter_from]. rewrite IH. rewrite lane_step_sum.
  replace (i + 1 + 1) with (i + 2) by lia.
  replace (i + 2 + 1) with (i + 3) by lia.
  replace (i + 3 + 1) with (i + 4) by lia.
  reflexivity.
Qed.

(** With an associative and commutative addition -- that of the real
    numbers -- the lane-wise sum of [4 g] terms is their serial sum. *)
Lemma lane_sum_serial_sum g :
  lane_sum add zero term g = serial_sum add zero term (4 * g).
Proof using add_assoc add_comm add_zero.
  unfold lane_sum, lane_sums, serial_sum. rewrite lanes_serial_from.
  rewrite !add_zero. reflexivity.
Qed.

End ExactArithmetic.

Lemma ScalarSpec_dist_serial m a b len :
  ScalarSpec.dist m a b len =
  F32.sqrt (serial_sum F32.add F32.zero (sq_diff m a b) (Z.to_nat len)).
Proof. reflexivity. Qed.

Lemma SimdSpec_dist_lanes_from m a b g :
  forall i l0 l1 l2 l3,
  iter_from (SimdSpec.dist_step m a b) 4 g i (SimdC.V128 l0 l1 l2 l3) =
  (let '(k0, k1, k2, k3) :=
     iter_from (fun i '(l0, l1, l2, l3) =>
                  (F32.add l0 (sq_diff m a b i), F32.add l1 (sq_diff m a b (i + 1)),
                   F32.add l2 (sq_diff m a b (i + 2)), F32.add l3 (sq_diff m a b (i + 3))))
               4 g i (l0, l1, l2, l3)
   in SimdC.V128 k0 k1 k2 k3).
Proof.
  induction g as [|g IH]; intros i l0 l1 l2 l3; [reflexivity |].
  cbn [iter_from]. rewrite <- IH. f_equal.
  unfold SimdSpec.dist_step, SimdSpec.read4, sq_diff. simd_unfold.
  rewrite !Z.add_assoc. reflexivity.
Qed.

Lemma SimdSpec_dist_lanes m a b len :
  SimdSpec.dist m a b len =
  F32.sqrt (lane_sum F32.add F32.zero (sq_diff m a b) (SimdSpec.groups len)).
Proof.
  unfold SimdSpec.dist, lane_sum, lane_sums, SimdSpec.zero4.
  unfold SimdC.wasm_f32x4_splat. rewrite SimdSpec_dist_lanes_from.
  change (F32.of_Z 0) with F32.zero.
  destruct (iter_from _ 4 (SimdSpec.groups len) 0 (F32.zero, F32.zero, F32.zero, F32.zero))
    as [[[k0 k1] k2] k3].
  reflexivity.
Qed.

(** C8: on buffers of [len = 4 g] elements the SIMD [euclideanDistance]
    returns the square root of the lane-wise sum of the [4 g] squared
    differences, the scalar one that of their serial sum.  Over an
    associative and commutative addition (that of the real numbers) the two
    sums are equal; in binary32 they are not: for
    [a = [4096; 1; 1; 1; 1; 1; 1; 1]] and [b] the zero vector (length 8) the
    SIMD implementation returns [8388609 * 2^-11] and the scalar one
    [4096]. *)
Theorem C8_reduction_order_not_bit_identical :
  (8 mod 4 = 0 /\
   (exists s1, SimdC.euclideanDistance 0 8 8 state_4096_ones =
                 Ok (F32.of_scaled 8388609 (-11), s1)) /\
   (exists s2, ScalarCpp.euclideanDistance 0 8 8 state_4096_ones =
                 Ok (F32.of_Z 4096, s2)) /\
   F32.of_scaled 8388609 (-11) <> F32.of_Z 4096 /\
   F32.eqb (F32.of_scaled 8388609 (-11)) (F32.of_Z 4096) = false) /\
  (forall s a b g,
     0 <= 4 * Z.of_nat g <= INT_MAX ->
     valid_buf (mem s) a (4 * Z.of_nat g) -> valid_buf (mem s) b (4 * Z.of_nat g) ->
     exists s1 s2,
       SimdC.euclideanDistance a b (4 * Z.of_nat g) s =
         Ok (F32.sqrt (lane_sum F32.add F32.zero (sq_diff (mem s) a b) g), s1) /\
       ScalarCpp.euclideanDistance a b (4 * Z.of_nat g) s =
         Ok (F32.sqrt (serial_sum F32.add F32.zero (sq_diff (mem s) a b) (4 * g)), s2)) /\
  (forall (T : Type) (add : T -> T -> T) (zero : T) (term : Z -> T),
     (forall x y z, add x (add y z) = add (add x y) z) ->
     (forall x y, add x y = add y x) ->
     add zero zero = zero ->
     forall g, lane_sum add zero term g = serial_sum add zero term (4 * g)).
Proof.
  split; [| split].
  - split; [reflexivity |].
    split; [eexists; vm_compute; reflexivity |].
    split; [eexists; vm_compute; reflexivity |].
    split; [vm_compute; discriminate | reflexivity].
  - intros s a b g Hlen Ha Hb.
    assert (Hmod : (4 * Z.of_nat g) mod 4 = 0)
      by (rewrite Z.mul_comm; apply Z_mod_mult).
    destruct (SimdC_euclideanDistance_run s a b _ Hlen Hmod Ha Hb) as (n1 & H1 & _).
    destruct (ScalarCpp_euclideanDistance_run s a b _ Hlen Ha Hb) as (n2 & H2 & _).
    rewrite SimdSpec_dist_lanes in H1. rewrite ScalarSpec_dist_serial in H2.
    replace (SimdSpec.groups (4 * Z.of_nat g)) with g in H1
      by (unfold SimdSpec.groups; rewrite Z.mul_comm, Z.div_mul by lia; lia).
    replace (Z.to_nat (4 * Z.of_nat g)) with (4 * g)%nat in H2 by lia.
    eauto.
  - intros T add zero term Hassoc Hcomm Hzero g.
    apply lane_sum_serial_sum; assumption.
Qed.

Lemma C8_reduction_order_not_bit_identical_witness :
  lane_sum Z.add 0 (fun i => i * i) 2 = serial_sum Z.add 0 (fun i => i * i) (4 * 2).
Proof.
  apply (proj2 (proj2 C8_reduction_order_not_bit_identical)).
  - intros x y z. lia.
  - intros x y. lia.
  - reflexivity.
Defined.

(** ** [normalize], element by element *)

Lemma zrange_In lo n x : lo <= x < lo + Z.of_nat n -> In x (zrange lo n).
Proof.
  intros H. unfold zrange. apply in_map_iff. exists (Z.to_nat (x - lo)).
  split; [lia |]. apply in_seq. lia.
Qed.

Lemma box4_spec K P :
  box4 K P = true ->
  forall x0 x1 x2 x3,
    - K <= x0 <= K -> - K <= x1 <= K -> - K <= x2 <= K -> - K <= x3 <= K ->
    (x0, x1, x2, x3) <> (0, 0, 0, 0) ->
    P [x0; x1; x2; x3] = true.
Proof.
  unfold box4. intros H x0 x1 x2 x3 H0 H1 H2 H3 Hnz.
  rewrite forallb_forall in H. specialize (H x0 ltac:(apply zrange_In; lia)).
  rewrite forallb_forall in H. specialize (H x1 ltac:(apply zrange_In; lia)).
  rewrite forallb_forall in H. specialize (H x2 ltac:(apply zrange_In; lia)).
  rewrite forallb_forall in H. specialize (H x3 ltac:(apply zrange_In; lia)).
  destruct x0, x1, x2, x3; try exact H. contradiction.
Qed.

Lemma SimdC_normalize_cells s v len :
  0 <= len <= INT_MAX -> len mod 4 = 0 -> valid_buf (mem s) v len ->
  exists s',
    SimdC.normalize v len s = Ok (tt, s') /\
    (forall i, 0 <= i < len ->
       cell (mem s') (v + i) =
       F32.mul (cell (mem s) (v + i))
               (F32.div (F32.of_Z 1) (SimdSpec.norm (mem s) v len))) /\
    (forall addr, ~ in_buf v len addr -> cell (mem s') addr = cell (mem s) addr).
Proof.
  intros Hlen Hmod Hv.
  destruct (SimdC_normalize_run s v len Hlen Hmod Hv) as (new & Hrun & _).
  eexists. split; [exact Hrun |]. cbn [mem]. unfold SimdSpec.normalized.
  destruct Hv as [Hv0 Hv1]. split.
  - intros i Hi. rewrite cell_map_region_in by (unfold in_buf; lia). reflexivity.
  - intros addr Hout. apply cell_map_region_out. exact Hout.
Qed.

Lemma ScalarCpp_normalize_cells s v len :
  0 <= len <= INT_MAX -> valid_buf (mem s) v len ->
  exists s',
    ScalarCpp.normalize v len s = Ok (tt, s') /\
    (forall i, 0 <= i < len ->
       cell (mem s') (v + i) =
       if F32.ltb (F32.of_Z 0) (ScalarSpec.norm (mem s) v len)
       then F32.div (cell (mem s) (v + i)) (ScalarSpec.norm (mem s) v len)
       else cell (mem s) (v + i)) /\
    (forall addr, ~ in_buf v len addr -> cell (mem s') addr = cell (mem s) addr).
Proof.
  intros Hlen Hv.
  destruct (ScalarCpp_normalize_run s v len Hlen Hv) as (new & Hrun & _ & _).
  eexists. split; [exact Hrun |]. cbn [mem]. unfold ScalarSpec.normalized.
  destruct Hv as [Hv0 Hv1].
  destruct (F32.ltb (F32.of_Z 0) (ScalarSpec.norm (mem s) v len)).
  - split.
    + intros i Hi. rewrite cell_map_region_in by (unfold in_buf; lia). reflexivity.
    + intros addr Hout. apply cell_map_region_out. exact Hout.
  - split; reflexivity.
Qed.

(** C6 as stated fails: [[2^100; 0; 0; 0]] is a nonzero vector of finite
    numbers, its sum of squares overflows to infinity, and both
    implementations turn it into the zero vector, whose norm is 0. *)
Lemma C6_unit_norm_counterexample :
  F32.valid (cell (mem state_huge) 0) = true /\
  F32.is_finite (cell (mem state_huge) 0) = true /\
  F32.is_zero (cell (mem state_huge) 0) = false /\
  (exists s',
     SimdC.normalize 0 4 state_huge = Ok (tt, s') /\
     buffer (mem s') 0 4 = [F32.zero; F32.zero; F32.zero; F32.zero] /\
     unit_norm_withinb tolerance (buffer (mem s') 0 4) = false) /\
  (exists s',
     ScalarCpp.normalize 0 4 state_huge = Ok (tt, s') /\
     buffer (mem s') 0 4 = [F32.zero; F32.zero; F32.zero; F32.zero] /\
     unit_norm_withinb tolerance (buffer (mem s') 0 4) = false).
Proof.
  split; [reflexivity |]. split; [reflexivity |]. split; [reflexivity |].
  split; eexists; (split; [vm_compute; reflexivity |]);
    split; vm_compute; reflexivity.
Qed.

(** * Further properties of the kernel *)

(** ** Symmetry of the squared difference *)

Lemma binary_round_aux_opp s m e l :
  binary_round_aux F32.prec F32.emax (negb s) m e l =
  SFopp (binary_round_aux F32.prec F32.emax s m e l).
Proof.
  unfold binary_round_aux.
  destruct (shr_fexp F32.prec F32.emax m e l) as [mrs' e'].
  destruct (shr_fexp F32.prec F32.emax
              (round_nearest_even (shr_m mrs') (loc_of_shr_record mrs')) e' loc_Exact)
    as [mrs'' e''].
  destruct (shr_m mrs''); try reflexivity.
  destruct (e'' <=? F32.emax - F32.prec); reflexivity.
Qed.

Lemma binary_normalize_opp z e :
  z <> 0 ->
  binary_normalize F32.prec F32.emax (- z) e false =
  SFopp (binary_normalize F32.prec F32.emax z e false).
Proof.
  intros Hz. destruct z as [|p|p]; [contradiction | |]; simpl;
    unfold binary_round;
    destruct (shl_align p e _) as [mz ez].
  - apply (binary_round_aux_opp false).
  - rewrite (binary_round_aux_opp false). 
    destruct (binary_round_aux F32.prec F32.emax false (Z.pos mz) ez loc_Exact)
      as [[]|[]| |[] ? ?]; reflexivity.
Qed.

Lemma f32_sq_opp x : F32.mul (SFopp x) (SFopp x) = F32.mul x x.
Proof. destruct x as [[]|[]| |[] m e]; reflexivity. Qed.

(** [(x - y)^2] and [(y - x)^2] are the same binary32 value. *)
Lemma f32_sq_sub_swap x y :
  F32.mul (F32.sub x y) (F32.sub x y) = F32.mul (F32.sub y x) (F32.sub y x).
Proof.
  destruct x as [sx|sx| |sx mx ex], y as [sy|sy| |sy my ey];
    try (destruct sx, sy; reflexivity); try (destruct sx; reflexivity);
    try (destruct sy; reflexivity); try reflexivity.
  unfold F32.sub, SFsub. rewrite (Z.min_comm ey ex).
  set (ez := Z.min ex ey).
  set (za := cond_Zopp sx (Z.pos (fst (shl_align mx ex ez)))).
  set (zb := cond_Zopp sy (Z.pos (fst (shl_align my ey ez)))).
  destruct (Z.eq_dec (za - zb) 0) as [E|E].
  - replace (zb - za) with 0 by lia. rewrite E. reflexivity.
  - replace (zb - za) with (- (za - zb)) by lia.
    fold F32.prec F32.emax.
    rewrite binary_normalize_opp by exact E. symmetry. apply f32_sq_opp.
Qed.

Lemma iter_from_pointwise {A} (f g : Z -> A -> A) step n :
  (forall i x, f i x = g i x) ->
  forall i acc, iter_from f step n i acc = iter_from g step n i acc.
Proof.
  intros H. induction n as [|n IH]; intros i acc; [reflexivity |].
  cbn [iter_from]. rewrite H. apply IH.
Qed.

Lemma ScalarSpec_dist_comm m a b len :
  ScalarSpec.dist m b a len = ScalarSpec.dist m a b len.
Proof.
  unfold ScalarSpec.dist. f_equal. apply iter_from_pointwise.
  intros i x. unfold ScalarSpec.dist_step. f_equal. apply f32_sq_sub_swap.
Qed.

Lemma SimdSpec_dist_comm m a b len :
  SimdSpec.dist m b a len = SimdSpec.dist m a b len.
Proof.
  unfold SimdSpec.dist. do 2 f_equal. apply iter_from_pointwise.
  intros i x. unfold SimdSpec.dist_step, SimdSpec.read4,
    SimdC.wasm_f32x4_add, SimdC.wasm_f32x4_sub, SimdC.wasm_f32x4_mul, SimdC.lanewise.
  cbn [SimdC.lane0 SimdC.lane1 SimdC.lane2 SimdC.lane3].
  f_equal; f_equal; apply f32_sq_sub_swap.
Qed.

(** X1: the distance is symmetric, bit for bit. *)
Theorem X1_euclideanDistance_symmetric (s : state) (a b len : Z) :
  0 <= len <= INT_MAX ->
  valid_buf (mem s) a len -> valid_buf (mem s) b len ->
  (exists r new1 new2,
     ScalarCpp.euclideanDistance a b len s = Ok (r, mkState (mem s) (new1 ++ trace s)) /\
     ScalarCpp.euclideanDistance b a len s = Ok (r, mkState (mem s) (new2 ++ trace s))) /\
  (len mod 4 = 0 ->
   exists r new1 new2,
     SimdC.euclideanDistance a b len s = Ok (r, mkState (mem s) (new1 ++ trace s)) /\
     SimdC.euclideanDistance b a len s = Ok (r, mkState (mem s) (new2 ++ trace s))).
Proof.
  intros Hlen Ha Hb. split.
  - destruct (ScalarCpp_euclideanDistance_run s a b len Hlen Ha Hb) as (n1 & H1 & _).
    destruct (ScalarCpp_euclideanDistance_run s b a len Hlen Hb Ha) as (n2 & H2 & _).
    rewrite ScalarSpec_dist_comm in H2. eauto.
  - intros Hmod.
    destruct (SimdC_euclideanDistance_run s a b len Hlen Hmod Ha Hb) as (n1 & H1 & _).
    destruct (SimdC_euclideanDistance_run s b a len Hlen Hmod Hb Ha) as (n2 & H2 & _).
    rewrite SimdSpec_dist_comm in H2. eauto.
Qed.

Lemma X1_euclideanDistance_symmetric_witness :
  (0 <= 4 <= INT_MAX /\
   valid_buf (mem state_e1_e2) 0 4 /\ valid_buf (mem state_e1_e2) 4 4) /\
  exists r new1 new2,
    ScalarCpp.euclideanDistance 0 4 4 state_e1_e2 =
      Ok (r, mkState (mem state_e1_e2) (new1 ++ trace state_e1_e2)) /\
    ScalarCpp.euclideanDistance 4 0 4 state_e1_e2 =
      Ok (r, mkState (mem state_e1_e2) (new2 ++ trace state_e1_e2)).
Proof.
  assert (H1 : 0 <= 4 <= INT_MAX) by (unfold INT_MAX; lia).
  assert (H3 : valid_buf (mem state_e1_e2) 0 4) by (unfold valid_buf; simpl; lia).
  assert (H4 : valid_buf (mem state_e1_e2) 4 4) by (unfold valid_buf; simpl; lia).
  split; [auto |].
  exact (proj1 (X1_euclideanDistance_symmetric state_e1_e2 0 4 4 H1 H3 H4)).
Defined.

(** X2: the scalar implementation stays inside its buffers for every length. *)
Theorem X2_scalar_accesses_in_range (s : state) (a b v len : Z) :
  0 <= len <= INT_MAX ->
  valid_buf (mem s) a len -> valid_buf (mem s) b len -> valid_buf (mem s) v len ->
  (exists r new,
     ScalarCpp.euclideanDistance a b len s = Ok (r, mkState (mem s) (new ++ trace s)) /\
     Forall (fun e => is_load e /\ (touches a len e \/ touches b len e)) new) /\
  (exists r new,
     ScalarCpp.cosineSimilarity a b len s = Ok (r, mkState (mem s) (new ++ trace s)) /\
     Forall (fun e => is_load e /\ (touches a len e \/ touches b len e)) new) /\
  (exists m' new,
     ScalarCpp.normalize v len s = Ok (tt, mkState m' (new ++ trace s)) /\
     Forall (touches v len) new /\
     length m' = length (mem s) /\
     forall addr, ~ in_buf v len addr -> cell m' addr = cell (mem s) addr).
Proof.
  intros Hlen Ha Hb Hv. split; [| split].
  - destruct (ScalarCpp_euclideanDistance_run s a b len Hlen Ha Hb) as (new & H & HT). eauto.
  - destruct (ScalarCpp_cosineSimilarity_run s a b len Hlen Ha Hb) as (new & H & HT). eauto.
  - destruct (ScalarCpp_normalize_run s v len Hlen Hv) as (new & H & HT & _).
    eexists _, new. split; [exact H |]. split; [exact HT |].
    unfold ScalarSpec.normalized.
    destruct (F32.ltb _ _).
    + split; [apply length_map_region |].
      intros addr Hout. apply cell_map_region_out. exact Hout.
    + split; reflexivity.
Qed.

Lemma X2_scalar_accesses_in_range_witness :
  (0 <= 5 <= INT_MAX /\
   valid_buf (mem state_two_of_five) 0 5 /\ valid_buf (mem state_two_of_five) 8 5) /\
  exists r new,
    ScalarCpp.euclideanDistance 0 8 5 state_two_of_five =
      Ok (r, mkState (mem state_two_of_five) (new ++ trace state_two_of_five)) /\
    Forall (fun e => is_load e /\ (touches 0 5 e \/ touches 8 5 e)) new.
Proof.
  assert (H1 : 0 <= 5 <= INT_MAX) by (unfold INT_MAX; lia).
  assert (H3 : valid_buf (mem state_two_of_five) 0 5) by (unfold valid_buf; simpl; lia).
  assert (H4 : valid_buf (mem state_two_of_five) 8 5) by (unfold valid_buf; simpl; lia).
  split; [auto |].
  exact (proj1 (X2_scalar_accesses_in_range state_two_of_five 0 8 0 5 H1 H3 H4 H3)).
Defined.

Lemma reads_or_traps_ret {A} m (a : A) : reads_or_traps m (ret a).
Proof. intros [m0 tr] Hm. simpl in Hm. subst m0. left. eauto. Qed.

Lemma reads_or_traps_load m addr : reads_or_traps m (load_f32 addr).
Proof.
  intros s Hm. unfold load_f32. rewrite Hm.
  destruct (mem_read m addr); [left; eauto | right; reflexivity].
Qed.

Lemma reads_or_traps_bind {A B} m (c : M A) (k : A -> M B) :
  reads_or_traps m c -> (forall a, reads_or_traps m (k a)) ->
  reads_or_traps m (bind c k).
Proof.
  intros Hc Hk s Hm. unfold bind.
  destruct (Hc s Hm) as [(a & tr' & ->)| ->]; [| right; reflexivity].
  apply Hk. reflexivity.
Qed.

Lemma reads_or_traps_v128_load m addr :
  reads_or_traps m (SimdC.wasm_v128_load addr).
Proof.
  unfold SimdC.wasm_v128_load.
  repeat (apply reads_or_traps_bind; [apply reads_or_traps_load | intros ?]).
  apply reads_or_traps_ret.
Qed.

Lemma traps_bind_l {A B} m (c : M A) (k : A -> M B) :
  traps_on m c -> traps_on m (bind c k).
Proof. intros Hc s Hm. unfold bind. rewrite (Hc s Hm). reflexivity. Qed.

Lemma traps_bind_r {A B} m (c : M A) (k : A -> M B) :
  reads_or_traps m c -> (forall a, traps_on m (k a)) -> traps_on m (bind c k).
Proof.
  intros Hc Hk s Hm. unfold bind.
  destruct (Hc s Hm) as [(a & tr' & ->)| ->]; [| reflexivity].
  apply Hk. reflexivity.
Qed.

Lemma traps_load m addr :
  ~ (0 <= addr < Z.of_nat (length m)) -> traps_on m (load_f32 addr).
Proof.
  intros Hbad s Hm. unfold load_f32. rewrite Hm.
  destruct (mem_read m addr) as [x|] eqn:E; [| reflexivity].
  apply mem_read_Some in E as [E _]. contradiction.
Qed.

Lemma traps_v128_load m addr :
  ~ (0 <= addr /\ addr + 4 <= Z.of_nat (length m)) ->
  traps_on m (SimdC.wasm_v128_load addr).
Proof.
  intros Hbad. unfold SimdC.wasm_v128_load.
  destruct (Z_lt_le_dec addr 0); [apply traps_bind_l, traps_load; lia |].
  destruct (Z_lt_le_dec addr (Z.of_nat (length m)));
    [| apply traps_bind_l, traps_load; lia].
  apply traps_bind_r; [apply reads_or_traps_load | intros x0].
  destruct (Z_lt_le_dec (addr + 1) (Z.of_nat (length m)));
    [| apply traps_bind_l, traps_load; lia].
  apply traps_bind_r; [apply reads_or_traps_load | intros x1].
  destruct (Z_lt_le_dec (addr + 2) (Z.of_nat (length m)));
    [| apply traps_bind_l, traps_load; lia].
  apply traps_bind_r; [apply reads_or_traps_load | intros x2].
  apply traps_bind_l, traps_load. lia.
Qed.

(** A loop whose body reads or traps, and traps at some counter value the
    loop would reach, traps. *)
Lemma for_loop_traps {A} m len step (body : Z -> A -> M A) j :
  0 < step -> len <= INT_MAX ->
  0 <= j < len -> j mod step = 0 ->
  (forall i acc, reads_or_traps m (body i acc)) ->
  (forall acc, traps_on m (body j acc)) ->
  forall acc, traps_on m (for_loop len step body acc).
Proof.
  intros Hstep Hmax Hj Hjm Hbody Htrap.
  assert (Hgen : forall fuel i acc s,
            mem s = m -> 0 <= i <= j -> i mod step = 0 ->
            len - i <= Z.of_nat fuel ->
            for_loop_fuel fuel len step i body acc s = Trap).
  { induction fuel as [|fuel IH]; intros i acc s Hm Hi Him Hf; simpl.
    - destruct (i <? len) eqn:E; [apply Z.ltb_lt in E; lia | apply Z.ltb_ge in E; lia].
    - destruct (i <? len) eqn:E; [| apply Z.ltb_ge in E; lia].
      unfold bind.
      destruct (Hbody i acc s Hm) as [(acc' & tr' & Hb)|Hb]; rewrite Hb; [| reflexivity].
      assert (Hij : i <> j).
      { intros ->. rewrite (Htrap acc s Hm) in Hb. discriminate. }
      assert (Hnext : i + step <= j).
      { assert (Hd : (j - i) mod step = 0).
        { rewrite Zminus_mod, Hjm, Him. simpl. apply Z.mod_0_l. lia. }
        apply Z.div_exact in Hd; [| lia].
        assert (0 < (j - i) / step) by nia. nia. }
      destruct (INT_MAX <? i + step) eqn:E'; [apply Z.ltb_lt in E'; lia |].
      apply IH; [reflexivity | lia | | lia].
      rewrite <- Zplus_mod_idemp_l, Him, Z.add_0_l. apply Z_mod_same_full. }
  intros acc s Hm. unfold for_loop. apply Hgen; [exact Hm | lia | apply Z.mod_0_l; lia | lia].
Qed.

Lemma bad_index_scalar m p len :
  0 < len -> ~ valid_buf m p len ->
  exists j, 0 <= j < len /\ j mod 1 = 0 /\ ~ (0 <= p + j < Z.of_nat (length m)).
Proof.
  intros Hlen Hbad. unfold valid_buf in Hbad.
  destruct (Z_lt_le_dec p 0).
  - exists 0. split; [lia |]. split; [reflexivity | lia].
  - exists (len - 1). split; [lia |]. split; [apply Z.mod_1_r | lia].
Qed.

Lemma bad_index_simd m p len :
  0 < len -> len mod 4 = 0 -> ~ valid_buf m p len ->
  exists j, 0 <= j < len /\ j mod 4 = 0 /\
            ~ (0 <= p + j /\ p + j + 4 <= Z.of_nat (length m)).
Proof.
  intros Hlen Hmod Hbad. unfold valid_buf in Hbad.
  destruct (Z_lt_le_dec p 0).
  - exists 0. split; [lia |]. split; [reflexivity | lia].
  - assert (Hd := Hmod). apply Z.div_exact in Hd; [| lia].
    exists (len - 4). split; [lia |]. split; [| lia].
    rewrite Zminus_mod, Hmod. reflexivity.
Qed.

Ltac rot_tac :=
  repeat first
    [ apply reads_or_traps_ret | apply reads_or_traps_load
    | apply reads_or_traps_v128_load
    | apply reads_or_traps_bind; [| intros ?] ].

Lemma valid_buf_dec m p len : {valid_buf m p len} + {~ valid_buf m p len}.
Proof.
  unfold valid_buf.
  destruct (Z_le_dec 0 p), (Z_le_dec (p + len) (Z.of_nat (length m)));
    [left | right | right | right]; lia.
Qed.

Lemma ScalarCpp_euclideanDistance_traps s a b len :
  0 < len <= INT_MAX ->
  ~ (valid_buf (mem s) a len /\ valid_buf (mem s) b len) ->
  ScalarCpp.euclideanDistance a b len s = Trap.
Proof.
  intros Hlen Hbad. unfold ScalarCpp.euclideanDistance.
  apply (traps_bind_l (mem s)); [| reflexivity].
  destruct (valid_buf_dec (mem s) a len) as [Ha|Ha].
  - destruct (valid_buf_dec (mem s) b len) as [Hb|Hb]; [tauto |].
    destruct (bad_index_scalar (mem s) b len ltac:(lia) Hb) as (j & Hj & Hjm & Hjb).
    apply for_loop_traps with (j := j); try lia; try assumption; [intros; rot_tac |].
    intros acc. apply traps_bind_r; [rot_tac | intros ?].
    apply traps_bind_l, traps_load. exact Hjb.
  - destruct (bad_index_scalar (mem s) a len ltac:(lia) Ha) as (j & Hj & Hjm & Hjb).
    apply for_loop_traps with (j := j); try lia; try assumption; [intros; rot_tac |].
    intros acc. apply traps_bind_l, traps_load. exact Hjb.
Qed.

Lemma ScalarCpp_cosineSimilarity_traps s a b len :
  0 < len <= INT_MAX ->
  ~ (valid_buf (mem s) a len /\ valid_buf (mem s) b len) ->
  ScalarCpp.cosineSimilarity a b len s = Trap.
Proof.
  intros Hlen Hbad. unfold ScalarCpp.cosineSimilarity.
  apply (traps_bind_l (mem s)); [| reflexivity].
  destruct (valid_buf_dec (mem s) a len) as [Ha|Ha].
  - destruct (valid_buf_dec (mem s) b len) as [Hb|Hb]; [tauto |].
    destruct (bad_index_scalar (mem s) b len ltac:(lia) Hb) as (j & Hj & Hjm & Hjb).
    apply for_loop_traps with (j := j); try lia; try assumption; [intros; rot_tac |].
    intros acc. apply traps_bind_r; [rot_tac | intros ?].
    apply traps_bind_l, traps_load. exact Hjb.
  - destruct (bad_index_scalar (mem s) a len ltac:(lia) Ha) as (j & Hj & Hjm & Hjb).
    apply for_loop_traps with (j := j); try lia; try assumption; [intros; rot_tac |].
    intros acc. apply traps_bind_l, traps_load. exact Hjb.
Qed.

Lemma ScalarCpp_normalize_traps s v len :
  0 < len <= INT_MAX -> ~ valid_buf (mem s) v len ->
  ScalarCpp.normalize v len s = Trap.
Proof.
  intros Hlen Hbad. unfold ScalarCpp.normalize.
  apply (traps_bind_l (mem s)); [| reflexivity].
  destruct (bad_index_scalar (mem s) v len ltac:(lia) Hbad) as (j & Hj & Hjm & Hjb).
  apply for_loop_traps with (j := j); try lia; try assumption; [intros; rot_tac |].
  intros acc. apply traps_bind_l, traps_load. exact Hjb.
Qed.

Lemma SimdC_euclideanDistance_traps s a b len :
  0 < len <= INT_MAX -> len mod 4 = 0 ->
  ~ (valid_buf (mem s) a len /\ valid_buf (mem s) b len) ->
  SimdC.euclideanDistance a b len s = Trap.
Proof.
  intros Hlen Hmod Hbad. unfold SimdC.euclideanDistance.
  apply (traps_bind_l (mem s)); [| reflexivity].
  destruct (valid_buf_dec (mem s) a len) as [Ha|Ha].
  - destruct (valid_buf_dec (mem s) b len) as [Hb|Hb]; [tauto |].
    destruct (bad_index_simd (mem s) b len ltac:(lia) Hmod Hb) as (j & Hj & Hjm & Hjb).
    apply for_loop_traps with (j := j); try lia; try assumption; [intros; rot_tac |].
    intros acc. apply traps_bind_r; [rot_tac | intros ?].
    apply traps_bind_l, traps_v128_load. exact Hjb.
  - destruct (bad_index_simd (mem s) a len ltac:(lia) Hmod Ha) as (j & Hj & Hjm & Hjb).
    apply for_loop_traps with (j := j); try lia; try assumption; [intros; rot_tac |].
    intros acc. apply traps_bind_l, traps_v128_load. exact Hjb.
Qed.

Lemma SimdC_cosineSimilarity_traps s a b len :
  0 < len <= INT_MAX -> len mod 4 = 0 ->
  ~ (valid_buf (mem s) a len /\ valid_buf (mem s) b len) ->
  SimdC.cosineSimilarity a b len s = Trap.
Proof.
  intros Hlen Hmod Hbad. unfold SimdC.cosineSimilarity.
  apply (traps_bind_l (mem s)); [| reflexivity].
  destruct (valid_buf_dec (mem s) a len) as [Ha|Ha].
  - destruct (valid_buf_dec (mem s) b len) as [Hb|Hb]; [tauto |].
    destruct (bad_index_simd (mem s) b len ltac:(lia) Hmod Hb) as (j & Hj & Hjm & Hjb).
    apply for_loop_traps with (j := j); try lia; try assumption; [intros; rot_tac |].
    intros acc. apply traps_bind_r; [rot_tac | intros ?].
    apply traps_bind_l, traps_v128_load. exact Hjb.
  - destruct (bad_index_simd (mem s) a len ltac:(lia) Hmod Ha) as (j & Hj & Hjm & Hjb).
    apply for_loop_traps with (j := j); try lia; try assumption; [intros; rot_tac |].
    intros acc. apply traps_bind_l, traps_v128_load. exact Hjb.
Qed.

Lemma SimdC_normalize_traps s v len :
  0 < len <= INT_MAX -> len mod 4 = 0 -> ~ valid_buf (mem s) v len ->
  SimdC.normalize v len s = Trap.
Proof.
  intros Hlen Hmod Hbad. unfold SimdC.normalize.
  apply (traps_bind_l (mem s)); [| reflexivity].
  destruct (bad_index_simd (mem s) v len ltac:(lia) Hmod Hbad) as (j & Hj & Hjm & Hjb).
  apply for_loop_traps with (j := j); try lia; try assumption; [intros; rot_tac |].
  intros acc. apply traps_bind_l, traps_v128_load. exact Hjb.
Qed.

(** X3: the kernel has no check of its own; compiled to WebAssembly, its
    accesses are checked against the end of the linear memory.  For buffers
    inside the 32-bit address space, where no pointer computation wraps, a
    call with a positive length on a buffer that reaches beyond the end of
    the linear memory traps; with the runs above, a call returns exactly
    when its buffers fit. *)
Theorem X3_buffer_outside_memory_traps (s : state) (a b len : Z) :
  0 < len <= INT_MAX ->
  in_address_space a len -> in_address_space b len ->
  ~ (valid_buf (mem s) a len /\ valid_buf (mem s) b len) ->
  (Z.of_nat (length (mem s)) < a + len \/ Z.of_nat (length (mem s)) < b + len) /\
  ScalarCpp.euclideanDistance a b len s = Trap /\
  ScalarCpp.cosineSimilarity a b len s = Trap /\
  (~ valid_buf (mem s) a len -> ScalarCpp.normalize a len s = Trap) /\
  (len mod 4 = 0 ->
   SimdC.euclideanDistance a b len s = Trap /\
   SimdC.cosineSimilarity a b len s = Trap /\
   (~ valid_buf (mem s) a len -> SimdC.normalize a len s = Trap)).
Proof.
  intros Hlen [Ha0 Ha1] [Hb0 Hb1] Hbad.
  split; [unfold valid_buf in Hbad; lia |].
  split; [apply ScalarCpp_euclideanDistance_traps; assumption |].
  split; [apply ScalarCpp_cosineSimilarity_traps; assumption |].
  split; [apply ScalarCpp_normalize_traps; assumption |].
  intros Hmod.
  split; [apply SimdC_euclideanDistance_traps; assumption |].
  split; [apply SimdC_cosineSimilarity_traps; assumption |].
  apply SimdC_normalize_traps; assumption.
Qed.

Lemma X3_buffer_outside_memory_traps_witness :
  (0 < 8 <= INT_MAX /\
   in_address_space 0 8 /\ in_address_space 0 8 /\
   ~ (valid_buf (mem state_3_4_0_0) 0 8 /\ valid_buf (mem state_3_4_0_0) 0 8)) /\
  ScalarCpp.euclideanDistance 0 0 8 state_3_4_0_0 = Trap.
Proof.
  assert (H1 : 0 < 8 <= INT_MAX) by (unfold INT_MAX; lia).
  assert (H2 : ~ (valid_buf (mem state_3_4_0_0) 0 8 /\ valid_buf (mem state_3_4_0_0) 0 8))
    by (unfold valid_buf; simpl; lia).
  assert (H3 : in_address_space 0 8) by (unfold in_address_space; lia).
  split; [auto |].
  exact (proj1 (proj2 (X3_buffer_outside_memory_traps state_3_4_0_0 0 0 8 H1 H3 H3 H2))).
Defined.

(** ** NaN in, NaN out *)

Lemma f32_add_nan_r x : F32.add x F32.nan = F32.nan.
Proof. destruct x; reflexivity. Qed.

Lemma f32_sub_nan_r x : F32.sub x F32.nan = F32.nan.
Proof. destruct x; reflexivity. Qed.

Lemma f32_mul_nan_r x : F32.mul x F32.nan = F32.nan.
Proof. destruct x; reflexivity. Qed.

(** An accumulating loop that reaches a round which poisons the
    accumulator, and whose rounds keep it poisoned, ends poisoned. *)
Lemma iter_from_poison {A} (P : A -> Prop) (f : Z -> A -> A) step j :
  (forall i x, P x -> P (f i x)) ->
  (forall x, P (f j x)) ->
  forall n i acc,
    (exists k, (k < n)%nat /\ j = i + step * Z.of_nat k) ->
    P (iter_from f step n i acc).
Proof.
  intros Hkeep Hhit.
  assert (Hstay : forall n i acc, P acc -> P (iter_from f step n i acc)).
  { induction n as [|n IH]; intros i acc Hacc; [exact Hacc |].
    cbn [iter_from]. apply IH, Hkeep, Hacc. }
  induction n as [|n IH]; intros i acc (k & Hk & Hj); [lia |].
  cbn [iter_from]. destruct k as [|k].
  - apply Hstay. replace i with j by lia. apply Hhit.
  - apply IH. exists k. split; [lia | lia].
Qed.

Lemma sq_diff_nan x y : x = F32.nan \/ y = F32.nan ->
  F32.mul (F32.sub x y) (F32.sub x y) = F32.nan.
Proof. intros [-> | ->]; [reflexivity |]. rewrite f32_sub_nan_r. reflexivity. Qed.

Lemma ScalarSpec_dist_nan m a b len j :
  0 <= j < len -> cell m (a + j) = F32.nan \/ cell m (b + j) = F32.nan ->
  ScalarSpec.dist m a b len = F32.nan.
Proof.
  intros Hj Hnan. unfold ScalarSpec.dist.
  rewrite (iter_from_poison (fun x => x = F32.nan) (ScalarSpec.dist_step m a b) 1 j);
    [reflexivity | | |].
  - intros i x ->. reflexivity.
  - intros x. unfold ScalarSpec.dist_step. rewrite sq_diff_nan by exact Hnan.
    apply f32_add_nan_r.
  - exists (Z.to_nat j). split; lia.
Qed.

Lemma ScalarSpec_cos_nan m a b len j :
  0 <= j < len -> cell m (a + j) = F32.nan \/ cell m (b + j) = F32.nan ->
  ScalarSpec.cos m a b len = F32.nan.
Proof.
  intros Hj Hnan. unfold ScalarSpec.cos, ScalarSpec.cos_result, ScalarSpec.cos_sums.
  rewrite (iter_from_poison (fun acc => ScalarCpp.dot acc = F32.nan)
             (ScalarSpec.cos_step m a b) 1 j); [reflexivity | | |].
  - intros i x Hx. unfold ScalarSpec.cos_step. cbn [ScalarCpp.dot]. rewrite Hx. reflexivity.
  - intros x. unfold ScalarSpec.cos_step. cbn [ScalarCpp.dot].
    destruct Hnan as [-> | ->]; [| rewrite f32_mul_nan_r]; apply f32_add_nan_r.
  - exists (Z.to_nat j). split; lia.
Qed.

Lemma ScalarSpec_norm_nan m v len j :
  0 <= j < len -> cell m (v + j) = F32.nan -> ScalarSpec.norm m v len = F32.nan.
Proof.
  intros Hj Hnan. unfold ScalarSpec.norm.
  rewrite (iter_from_poison (fun x => x = F32.nan) (ScalarSpec.sq_step m v) 1 j);
    [reflexivity | | |].
  - intros i x ->. reflexivity.
  - intros x. unfold ScalarSpec.sq_step. rewrite Hnan. apply f32_add_nan_r.
  - exists (Z.to_nat j). split; lia.
Qed.

Lemma horizontal_sum_nan x : nan_lane x -> SimdC.horizontal_sum x = F32.nan.
Proof.
  unfold SimdC.horizontal_sum. cbn [SimdC.wasm_f32x4_extract_lane].
  intros [H|[H|[H|H]]]; rewrite H; rewrite ?f32_add_nan_r; reflexivity.
Qed.

Lemma nan_lane_add x y : nan_lane x \/ nan_lane y -> nan_lane (SimdC.wasm_f32x4_add x y).
Proof.
  unfold nan_lane, SimdC.wasm_f32x4_add, SimdC.lanewise.
  cbn [SimdC.lane0 SimdC.lane1 SimdC.lane2 SimdC.lane3].
  intros [[H|[H|[H|H]]]|[H|[H|[H|H]]]]; rewrite H; rewrite ?f32_add_nan_r; tauto.
Qed.

(** The group of four that holds element [j], and a NaN there. *)
Lemma read4_nan m p j :
  0 <= j -> cell m (p + j) = F32.nan ->
  nan_lane (SimdSpec.read4 m (p + 4 * (j / 4))).
Proof.
  intros Hj Hnan. unfold nan_lane, SimdSpec.read4.
  cbn [SimdC.lane0 SimdC.lane1 SimdC.lane2 SimdC.lane3].
  pose proof (Z.div_mod j 4 ltac:(lia)) as E.
  pose proof (Z.mod_pos_bound j 4 ltac:(lia)) as B.
  assert (C : j mod 4 = 0 \/ j mod 4 = 1 \/ j mod 4 = 2 \/ j mod 4 = 3) by lia.
  destruct C as [C|[C|[C|C]]]; rewrite C in E.
  - left. rewrite <- Hnan. f_equal. lia.
  - right; left. rewrite <- Hnan. f_equal. lia.
  - right; right; left. rewrite <- Hnan. f_equal. lia.
  - right; right; right. rewrite <- Hnan. f_equal. lia.
Qed.

Lemma nan_lane_sub x y : nan_lane x \/ nan_lane y -> nan_lane (SimdC.wasm_f32x4_sub x y).
Proof.
  unfold nan_lane, SimdC.wasm_f32x4_sub, SimdC.lanewise.
  cbn [SimdC.lane0 SimdC.lane1 SimdC.lane2 SimdC.lane3].
  intros [[H|[H|[H|H]]]|[H|[H|[H|H]]]]; rewrite H; rewrite ?f32_sub_nan_r; tauto.
Qed.

Lemma nan_lane_mul x y : nan_lane x \/ nan_lane y -> nan_lane (SimdC.wasm_f32x4_mul x y).
Proof.
  unfold nan_lane, SimdC.wasm_f32x4_mul, SimdC.lanewise.
  cbn [SimdC.lane0 SimdC.lane1 SimdC.lane2 SimdC.lane3].
  intros [[H|[H|[H|H]]]|[H|[H|[H|H]]]]; rewrite H; rewrite ?f32_mul_nan_r; tauto.
Qed.

Lemma group_reached j len :
  0 <= j < len -> len mod 4 = 0 ->
  exists k, (k < SimdSpec.groups len)%nat /\ 4 * (j / 4) = 0 + 4 * Z.of_nat k.
Proof.
  intros Hj Hmod. exists (Z.to_nat (j / 4)). unfold SimdSpec.groups.
  assert (0 <= j / 4) by (apply Z.div_pos; lia).
  assert (j / 4 < len / 4).
  { apply Z.div_exact in Hmod; [| lia].
    apply Z.div_lt_upper_bound; lia. }
  split; lia.
Qed.

Lemma SimdSpec_dist_nan m a b len j :
  0 <= j < len -> len mod 4 = 0 ->
  cell m (a + j) = F32.nan \/ cell m (b + j) = F32.nan ->
  SimdSpec.dist m a b len = F32.nan.
Proof.
  intros Hj Hmod Hnan. unfold SimdSpec.dist.
  rewrite horizontal_sum_nan; [reflexivity |].
  apply (iter_from_poison nan_lane (SimdSpec.dist_step m a b) 4 (4 * (j / 4))).
  - intros i x Hx. unfold SimdSpec.dist_step. apply nan_lane_add. left. exact Hx.
  - intros x. unfold SimdSpec.dist_step. apply nan_lane_add. right.
    apply nan_lane_mul. left. apply nan_lane_sub.
    destruct Hnan as [H|H]; [left | right]; apply read4_nan; (lia || exact H).
  - apply group_reached; assumption.
Qed.

Lemma SimdSpec_cos_nan m a b len j :
  0 <= j < len -> len mod 4 = 0 ->
  cell m (a + j) = F32.nan \/ cell m (b + j) = F32.nan ->
  SimdSpec.cos m a b len = F32.nan.
Proof.
  intros Hj Hmod Hnan. unfold SimdSpec.cos, SimdSpec.cos_result, SimdSpec.cos_sums.
  rewrite horizontal_sum_nan; [reflexivity |].
  apply (iter_from_poison (fun acc => nan_lane (SimdC.dot acc))
           (SimdSpec.cos_step m a b) 4 (4 * (j / 4))).
  - intros i x Hx. unfold SimdSpec.cos_step. cbn [SimdC.dot].
    apply nan_lane_add. left. exact Hx.
  - intros x. unfold SimdSpec.cos_step. cbn [SimdC.dot]. apply nan_lane_add. right.
    apply nan_lane_mul.
    destruct Hnan as [H|H]; [left | right]; apply read4_nan; (lia || exact H).
  - apply group_reached; assumption.
Qed.

Lemma SimdSpec_norm_nan m v len j :
  0 <= j < len -> len mod 4 = 0 -> cell m (v + j) = F32.nan ->
  SimdSpec.norm m v len = F32.nan.
Proof.
  intros Hj Hmod Hnan. unfold SimdSpec.norm.
  rewrite horizontal_sum_nan; [reflexivity |].
  apply (iter_from_poison nan_lane (SimdSpec.sq_step m v) 4 (4 * (j / 4))).
  - intros i x Hx. unfold SimdSpec.sq_step. apply nan_lane_add. left. exact Hx.
  - intros x. unfold SimdSpec.sq_step. apply nan_lane_add. right.
    apply nan_lane_mul. left. apply read4_nan; [lia | exact Hnan].
  - apply group_reached; assumption.
Qed.

(** X4: one NaN element in either vector makes the distance and the
    similarity NaN. *)
Theorem X4_nan_element_gives_nan (s : state) (a b len j : Z) :
  0 <= len <= INT_MAX ->
  valid_buf (mem s) a len -> valid_buf (mem s) b len ->
  0 <= j < len ->
  cell (mem s) (a + j) = F32.nan \/ cell (mem s) (b + j) = F32.nan ->
  returns_nan (ScalarCpp.euclideanDistance a b len) s /\
  returns_nan (ScalarCpp.cosineSimilarity a b len) s /\
  (len mod 4 = 0 ->
   returns_nan (SimdC.euclideanDistance a b len) s /\
   returns_nan (SimdC.cosineSimilarity a b len) s).
Proof.
  intros Hlen Ha Hb Hj Hnan. unfold returns_nan.
  split; [| split].
  - destruct (ScalarCpp_euclideanDistance_run s a b len Hlen Ha Hb) as (new & H & _).
    rewrite (ScalarSpec_dist_nan _ _ _ _ j Hj Hnan) in H. eauto.
  - destruct (ScalarCpp_cosineSimilarity_run s a b len Hlen Ha Hb) as (new & H & _).
    rewrite (ScalarSpec_cos_nan _ _ _ _ j Hj Hnan) in H. eauto.
  - intros Hmod. split.
    + destruct (SimdC_euclideanDistance_run s a b len Hlen Hmod Ha Hb) as (new & H & _).
      rewrite (SimdSpec_dist_nan _ _ _ _ j Hj Hmod Hnan) in H. eauto.
    + destruct (SimdC_cosineSimilarity_run s a b len Hlen Hmod Ha Hb) as (new & H & _).
      rewrite (SimdSpec_cos_nan _ _ _ _ j Hj Hmod Hnan) in H. eauto.
Qed.

(** X5: one NaN element: the scalar [normalize] leaves the vector as it
    is, the SIMD [normalize] turns every element into NaN. *)
Theorem X5_normalize_nan_element (s : state) (v len j : Z) :
  0 <= len <= INT_MAX -> valid_buf (mem s) v len ->
  0 <= j < len -> cell (mem s) (v + j) = F32.nan ->
  (exists s1, ScalarCpp.normalize v len s = Ok (tt, s1) /\ reads_only s s1) /\
  (len mod 4 = 0 ->
   exists s2, SimdC.normalize v len s = Ok (tt, s2) /\
     (forall i, 0 <= i < len -> cell (mem s2) (v + i) = F32.nan) /\
     (forall addr, ~ in_buf v len addr -> cell (mem s2) addr = cell (mem s) addr)).
Proof.
  intros Hlen Hv Hj Hnan. split.
  - destruct (ScalarCpp_normalize_run s v len Hlen Hv) as (new & Hrun & _ & Hld).
    pose proof (ScalarSpec_norm_nan _ _ _ _ Hj Hnan) as Hn.
    unfold ScalarSpec.normalized in Hrun. rewrite Hn in Hrun, Hld.
    change (F32.ltb (F32.of_Z 0) F32.nan) with false in Hrun, Hld.
    eexists. split; [exact Hrun |]. split; [reflexivity |].
    exists new. split; [reflexivity | apply Hld; reflexivity].
  - intros Hmod.
    destruct (SimdC_normalize_run s v len Hlen Hmod Hv) as (new & Hrun & _).
    pose proof (SimdSpec_norm_nan _ _ _ _ Hj Hmod Hnan) as Hn.
    eexists. split; [exact Hrun |]. cbn [mem]. unfold SimdSpec.normalized. rewrite Hn.
    destruct Hv as [Hv0 Hv1]. split.
    + intros i Hi. rewrite cell_map_region_in by (unfold in_buf; lia).
      unfold SimdSpec.scale. change (F32.div (F32.of_Z 1) F32.nan) with F32.nan.
      apply f32_mul_nan_r.
    + intros addr Hout. apply cell_map_region_out. exact Hout.
Qed.

Lemma X4_nan_element_gives_nan_witness :
  (0 <= 4 <= INT_MAX /\
   valid_buf (mem state_with_nan) 0 4 /\ valid_buf (mem state_with_nan) 4 4 /\
   0 <= 0 < 4 /\
   (cell (mem state_with_nan) (0 + 0) = F32.nan \/
    cell (mem state_with_nan) (4 + 0) = F32.nan)) /\
  returns_nan (ScalarCpp.euclideanDistance 0 4 4) state_with_nan.
Proof.
  assert (H1 : 0 <= 4 <= INT_MAX) by (unfold INT_MAX; lia).
  assert (H2 : valid_buf (mem state_with_nan) 0 4) by (unfold valid_buf; simpl; lia).
  assert (H3 : valid_buf (mem state_with_nan) 4 4) by (unfold valid_buf; simpl; lia).
  assert (H4 : 0 <= 0 < 4) by lia.
  assert (H5 : cell (mem state_with_nan) (0 + 0) = F32.nan \/
               cell (mem state_with_nan) (4 + 0) = F32.nan) by (left; reflexivity).
  split; [auto 6 |].
  exact (proj1 (X4_nan_element_gives_nan state_with_nan 0 4 4 0 H1 H2 H3 H4 H5)).
Defined.

Lemma X5_normalize_nan_element_witness :
  (0 <= 4 <= INT_MAX /\ valid_buf (mem state_with_nan) 0 4 /\ 0 <= 0 < 4 /\
   cell (mem state_with_nan) (0 + 0) = F32.nan) /\
  exists s1, ScalarCpp.normalize 0 4 state_with_nan = Ok (tt, s1) /\
             reads_only state_with_nan s1.
Proof.
  assert (H1 : 0 <= 4 <= INT_MAX) by (unfold INT_MAX; lia).
  assert (H2 : valid_buf (mem state_with_nan) 0 4) by (unfold valid_buf; simpl; lia).
  assert (H4 : 0 <= 0 < 4) by lia.
  assert (H5 : cell (mem state_with_nan) (0 + 0) = F32.nan) by reflexivity.
  split; [auto |].
  exact (proj1 (X5_normalize_nan_element state_with_nan 0 4 0 H1 H2 H4 H5)).
Defined.

(** ** One group of four: the two orders of summation coincide *)

Lemma binary_round_aux_unsigned m e l :
  unsigned_float (binary_round_aux F32.prec F32.emax false m e l).
Proof.
  unfold binary_round_aux.
  destruct (shr_fexp F32.prec F32.emax m e l) as [mrs' e'].
  destruct (shr_fexp F32.prec F32.emax
              (round_nearest_even (shr_m mrs') (loc_of_shr_record mrs')) e' loc_Exact)
    as [mrs'' e''].
  destruct (shr_m mrs''); try reflexivity.
  destruct (e'' <=? F32.emax - F32.prec); reflexivity.
Qed.

Lemma f32_square_unsigned x : unsigned_float (F32.mul x x).
Proof.
  destruct x as [[]|[]| |[] m e]; try reflexivity;
    apply binary_round_aux_unsigned.
Qed.

Lemma f32_add_zero_unsigned x : unsigned_float x -> F32.add (F32.of_Z 0) x = x.
Proof. destruct x as [s|s| |s m e]; simpl; intros H; subst; reflexivity. Qed.

Lemma SimdSpec_dist_4 m a b : SimdSpec.dist m a b 4 = ScalarSpec.dist m a b 4.
Proof.
  unfold SimdSpec.dist, ScalarSpec.dist.
  change (SimdSpec.groups 4) with 1%nat. change (Z.to_nat 4) with 4%nat.
  cbn [iter_from]. f_equal.
  unfold SimdSpec.dist_step, ScalarSpec.dist_step, SimdSpec.read4, SimdSpec.zero4,
    SimdC.horizontal_sum, SimdC.wasm_f32x4_add, SimdC.wasm_f32x4_sub,
    SimdC.wasm_f32x4_mul, SimdC.wasm_f32x4_splat, SimdC.lanewise.
  cbn [SimdC.wasm_f32x4_extract_lane SimdC.lane0 SimdC.lane1 SimdC.lane2 SimdC.lane3].
  replace (a + (0 + 1)) with (a + 0 + 1) by lia.
  replace (a + (0 + 1 + 1)) with (a + 0 + 2) by lia.
  replace (a + (0 + 1 + 1 + 1)) with (a + 0 + 3) by lia.
  replace (b + (0 + 1)) with (b + 0 + 1) by lia.
  replace (b + (0 + 1 + 1)) with (b + 0 + 2) by lia.
  replace (b + (0 + 1 + 1 + 1)) with (b + 0 + 3) by lia.
  rewrite !f32_add_zero_unsigned by apply f32_square_unsigned.
  reflexivity.
Qed.

Lemma SimdSpec_norm_4 m v : SimdSpec.norm m v 4 = ScalarSpec.norm m v 4.
Proof.
  unfold SimdSpec.norm, ScalarSpec.norm.
  change (SimdSpec.groups 4) with 1%nat. change (Z.to_nat 4) with 4%nat.
  cbn [iter_from]. f_equal.
  unfold SimdSpec.sq_step, ScalarSpec.sq_step, SimdSpec.read4, SimdSpec.zero4,
    SimdC.horizontal_sum, SimdC.wasm_f32x4_add,
    SimdC.wasm_f32x4_mul, SimdC.wasm_f32x4_splat, SimdC.lanewise.
  cbn [SimdC.wasm_f32x4_extract_lane SimdC.lane0 SimdC.lane1 SimdC.lane2 SimdC.lane3].
  replace (v + (0 + 1)) with (v + 0 + 1) by lia.
  replace (v + (0 + 1 + 1)) with (v + 0 + 2) by lia.
  replace (v + (0 + 1 + 1 + 1)) with (v + 0 + 3) by lia.
  rewrite !f32_add_zero_unsigned by apply f32_square_unsigned.
  reflexivity.
Qed.

(** X6: on vectors of four elements the two implementations of
    [euclideanDistance] return the same value. *)
Theorem X6_euclideanDistance_agree_on_one_group (s : state) (a b : Z) :
  valid_buf (mem s) a 4 -> valid_buf (mem s) b 4 ->
  exists r new1 new2,
    SimdC.euclideanDistance a b 4 s = Ok (r, mkState (mem s) (new1 ++ trace s)) /\
    ScalarCpp.euclideanDistance a b 4 s = Ok (r, mkState (mem s) (new2 ++ trace s)).
Proof.
  intros Ha Hb.
  assert (Hlen : 0 <= 4 <= INT_MAX) by (unfold INT_MAX; lia).
  destruct (SimdC_euclideanDistance_run s a b 4 Hlen eq_refl Ha Hb) as (n1 & H1 & _).
  destruct (ScalarCpp_euclideanDistance_run s a b 4 Hlen Ha Hb) as (n2 & H2 & _).
  rewrite SimdSpec_dist_4 in H1. eauto.
Qed.

Lemma X6_euclideanDistance_agree_on_one_group_witness :
  (valid_buf (mem state_e1_e2) 0 4 /\ valid_buf (mem state_e1_e2) 4 4) /\
  exists r new1 new2,
    SimdC.euclideanDistance 0 4 4 state_e1_e2 =
      Ok (r, mkState (mem state_e1_e2) (new1 ++ trace state_e1_e2)) /\
    ScalarCpp.euclideanDistance 0 4 4 state_e1_e2 =
      Ok (r, mkState (mem state_e1_e2) (new2 ++ trace state_e1_e2)).
Proof.
  assert (H3 : valid_buf (mem state_e1_e2) 0 4) by (unfold valid_buf; simpl; lia).
  assert (H4 : valid_buf (mem state_e1_e2) 4 4) by (unfold valid_buf; simpl; lia).
  split; [auto |].
  exact (X6_euclideanDistance_agree_on_one_group state_e1_e2 0 4 H3 H4).
Defined.

(** ** The scalar normalize keeps signs and zeros *)

Lemma iter_pos_invariant {A} (P : A -> Prop) (f : A -> A) :
  (forall x, P x -> P (f x)) ->
  forall p x, P x -> P (SpecFloat.iter_pos f p x).
Proof.
  intros Hf. induction p as [p IH|p IH|]; intros x Hx; cbn [SpecFloat.iter_pos].
  - apply IH, IH, Hf, Hx.
  - apply IH, IH, Hx.
  - apply Hf, Hx.
Qed.

Lemma shr_1_nonneg mrs : 0 <= shr_m mrs -> 0 <= shr_m (shr_1 mrs).
Proof.
  destruct mrs as [m r t]. cbn [shr_m]. intros H.
  destruct m as [|[p|p|]|p]; cbn; lia.
Qed.

Lemma shr_fexp_nonneg m e l :
  0 <= m -> 0 <= shr_m (fst (shr_fexp F32.prec F32.emax m e l)).
Proof.
  intros Hm. unfold shr_fexp, shr.
  assert (H0 : 0 <= shr_m (shr_record_of_loc m l)).
  { unfold shr_record_of_loc. destruct l as [|[]]; cbn [shr_m]; exact Hm. }
  destruct (fexp F32.prec F32.emax (Zdigits2 m + e) - e) as [|p|p]; cbn [fst];
    try exact H0.
  apply iter_pos_invariant; [apply shr_1_nonneg | exact H0].
Qed.

Lemma round_nearest_even_nonneg m l : 0 <= m -> 0 <= round_nearest_even m l.
Proof.
  intros Hm. unfold round_nearest_even.
  destruct l as [|[]]; try lia. destruct (Z.even m); lia.
Qed.

(** Rounding a non-negative mantissa keeps the sign it is given. *)
Lemma binary_round_aux_sign s m e l :
  0 <= m -> sign_bit (binary_round_aux F32.prec F32.emax s m e l) = Some s.
Proof.
  intros Hm. unfold binary_round_aux.
  pose proof (shr_fexp_nonneg m e l Hm) as H1.
  destruct (shr_fexp F32.prec F32.emax m e l) as [mrs' e']. cbn [fst] in H1.
  pose proof (shr_fexp_nonneg
    (round_nearest_even (shr_m mrs') (loc_of_shr_record mrs')) e' loc_Exact
    (round_nearest_even_nonneg _ _ H1)) as H2.
  destruct (shr_fexp F32.prec F32.emax
              (round_nearest_even (shr_m mrs') (loc_of_shr_record mrs')) e' loc_Exact)
    as [mrs'' e'']. cbn [fst] in H2.
  destruct (shr_m mrs'') as [|p|p]; [reflexivity | | lia].
  destruct (e'' <=? F32.emax - F32.prec); reflexivity.
Qed.

Lemma SFdiv_core_binary_nonneg m1 e1 m2 e2 :
  0 <= Z.pos m1 -> 
  0 <= fst (fst (SFdiv_core_binary F32.prec F32.emax (Z.pos m1) e1 (Z.pos m2) e2)).
Proof.
  intros _. unfold SFdiv_core_binary.
  set (sh := e1 - e2 - _).
  set (m' := match sh with Z0 => Z.pos m1 | Z.pos _ => Z.shiftl (Z.pos m1) sh | Z.neg _ => 0 end).
  assert (Hm' : 0 <= m').
  { subst m'. destruct sh; try lia. apply Z.shiftl_nonneg. lia. }
  pose proof (Z.div_pos m' (Z.pos m2) Hm' ltac:(lia)) as Hq.
  unfold Z.div in Hq.
  destruct (Z.div_eucl m' (Z.pos m2)) as [q r]. exact Hq.
Qed.

(** Dividing a finite number by a positive one keeps its sign, and a zero
    stays the same zero. *)
Lemma f32_div_positive_sign x nrm :
  F32.ltb (F32.of_Z 0) nrm = true -> F32.is_finite x = true ->
  sign_bit (F32.div x nrm) = sign_bit x /\
  (F32.is_zero x = true -> F32.div x nrm = x).
Proof.
  intros Hn Hx.
  destruct nrm as [sn|sn| |sn mn en]; try discriminate Hn;
    destruct sn; try discriminate Hn;
    destruct x as [sx|sx| |sx mx ex]; try discriminate Hx;
    (split; [| try discriminate; intros _]);
    try (destruct sx; reflexivity).
  unfold F32.div, SFdiv.
  pose proof (SFdiv_core_binary_nonneg mx ex mn en ltac:(lia)) as Hq.
  destruct (SFdiv_core_binary F32.prec F32.emax (Z.pos mx) ex (Z.pos mn) en)
    as [[mz ez] lz]. cbn [fst] in Hq.
  rewrite binary_round_aux_sign by exact Hq.
  destruct sx; reflexivity.
Qed.

(** X7: the scalar [normalize] never changes the sign of a finite element
    and never turns one into NaN; an element that is zero stays the same
    zero. *)
Theorem X7_scalar_normalize_keeps_signs (s : state) (v len : Z) :
  0 <= len <= INT_MAX -> valid_buf (mem s) v len ->
  exists s',
    ScalarCpp.normalize v len s = Ok (tt, s') /\
    forall i, 0 <= i < len ->
      F32.is_finite (cell (mem s) (v + i)) = true ->
      sign_bit (cell (mem s') (v + i)) = sign_bit (cell (mem s) (v + i)) /\
      (F32.is_zero (cell (mem s) (v + i)) = true ->
       cell (mem s') (v + i) = cell (mem s) (v + i)).
Proof.
  intros Hlen Hv.
  destruct (ScalarCpp_normalize_cells s v len Hlen Hv) as (s' & Hrun & Hin & _).
  exists s'. split; [exact Hrun |].
  intros i Hi Hfin. rewrite (Hin i Hi).
  destruct (F32.ltb (F32.of_Z 0) (ScalarSpec.norm (mem s) v len)) eqn:E.
  - apply f32_div_positive_sign; assumption.
  - split; reflexivity.
Qed.

Lemma X7_scalar_normalize_keeps_signs_witness :
  (0 <= 4 <= INT_MAX /\ valid_buf (mem state_3_4_0_0) 0 4) /\
  exists s',
    ScalarCpp.normalize 0 4 state_3_4_0_0 = Ok (tt, s') /\
    forall i, 0 <= i < 4 ->
      F32.is_finite (cell (mem state_3_4_0_0) (0 + i)) = true ->
      sign_bit (cell (mem s') (0 + i)) = sign_bit (cell (mem state_3_4_0_0) (0 + i)) /\
      (F32.is_zero (cell (mem state_3_4_0_0) (0 + i)) = true ->
       cell (mem s') (0 + i) = cell (mem state_3_4_0_0) (0 + i)).
Proof.
  assert (H1 : 0 <= 4 <= INT_MAX) by (unfold INT_MAX; lia).
  assert (H2 : valid_buf (mem state_3_4_0_0) 0 4) by (unfold valid_buf; simpl; lia).
  split; [auto |].
  exact (X7_scalar_normalize_keeps_signs state_3_4_0_0 0 4 H1 H2).
Defined.

(** ** A length that is not a multiple of four is rounded up *)

Lemma round_up4_bounds len : len <= round_up4 len < len + 4 /\ round_up4 len mod 4 = 0.
Proof.
  unfold round_up4. pose proof (Z.div_mod (len + 3) 4 ltac:(lia)) as H.
  pose proof (Z.mod_pos_bound (len + 3) 4 ltac:(lia)) as H1.
  split; [lia |]. rewrite Z.mul_comm. apply Z.mod_mul. lia.
Qed.

Lemma round_up4_multiple len : len mod 4 = 0 -> round_up4 len = len.
Proof.
  intros H. unfold round_up4.
  pose proof (Z.div_mod len 4 ltac:(lia)) as H0. rewrite H in H0.
  replace (len + 3) with (3 + (len / 4) * 4) by lia.
  rewrite Z.div_add by lia. change (3 / 4) with 0. lia.
Qed.

Lemma ltb_round_up4 len i : i mod 4 = 0 -> (i <? round_up4 len) = (i <? len).
Proof.
  intros Hi. pose proof (round_up4_bounds len) as [Hb Hm].
  pose proof (Z.div_mod i 4 ltac:(lia)) as E1. rewrite Hi in E1.
  pose proof (Z.div_mod (round_up4 len) 4 ltac:(lia)) as E2. rewrite Hm in E2.
  destruct (i <? len) eqn:E; [apply Z.ltb_lt in E | apply Z.ltb_ge in E].
  - apply Z.ltb_lt. lia.
  - apply Z.ltb_ge. lia.
Qed.

Lemma for_loop_fuel_round_up4 {A} len (body : Z -> A -> M A) :
  forall fuel i acc s, i mod 4 = 0 ->
  for_loop_fuel fuel (round_up4 len) 4 i body acc s =
  for_loop_fuel fuel len 4 i body acc s.
Proof.
  induction fuel as [|fuel IH]; intros i acc s Hi; cbn [for_loop_fuel];
    rewrite ltb_round_up4 by exact Hi; [reflexivity |].
  destruct (i <? len); [| reflexivity].
  unfold bind. destruct (body i acc s) as [[acc' s']| | |]; try reflexivity.
  destruct (INT_MAX <? i + 4); [reflexivity |].
  apply IH. rewrite <- Zplus_mod_idemp_l, Hi. reflexivity.
Qed.

(** A run that does not exhaust its fuel is the same with more fuel. *)
Lemma for_loop_fuel_more {A} len step (body : Z -> A -> M A) :
  forall fuel fuel' i acc s, (fuel <= fuel')%nat ->
  for_loop_fuel fuel len step i body acc s <> OutOfFuel ->
  for_loop_fuel fuel' len step i body acc s =
  for_loop_fuel fuel len step i body acc s.
Proof.
  induction fuel as [|fuel IH]; intros fuel' i acc s Hle Hne.
  - cbn [for_loop_fuel] in *. destruct (i <? len) eqn:E.
    + exfalso. apply Hne. reflexivity.
    + destruct fuel'; cbn [for_loop_fuel]; rewrite E; reflexivity.
  - destruct fuel' as [|fuel']; [lia |].
    cbn [for_loop_fuel] in *. destruct (i <? len); [| reflexivity].
    unfold bind in *. destruct (body i acc s) as [[acc' s']| | |]; try reflexivity.
    destruct (INT_MAX <? i + step); [reflexivity |].
    apply IH; [lia | exact Hne].
Qed.

Lemma for_loop_round_up4 {A} len (body : Z -> A -> M A) acc s :
  (forall i acc', fuel_suffices (body i acc')) ->
  for_loop (round_up4 len) 4 body acc s = for_loop len 4 body acc s.
Proof.
  intros Hbody. unfold for_loop.
  pose proof (round_up4_bounds len) as [Hb _].
  rewrite <- (for_loop_fuel_round_up4 len body (Z.to_nat len)) by reflexivity.
  apply for_loop_fuel_more; [lia |].
  rewrite for_loop_fuel_round_up4 by reflexivity.
  apply for_loop_fuel_enough; [lia | | lia].
  intros i a0 s0. apply Hbody.
Qed.

Lemma SimdC_normalize_round_up4 s v len :
  SimdC.normalize v len s = SimdC.normalize v (round_up4 len) s.
Proof.
  unfold SimdC.normalize, bind.
  rewrite for_loop_round_up4.
  2:{ intros i acc'. unfold SimdC.wasm_v128_load. fuel_tac. }
  destruct (for_loop len 4 _ _ s) as [[sum s1]| | |]; try reflexivity.
  rewrite for_loop_round_up4; [reflexivity |].
  intros i acc'. unfold SimdC.wasm_v128_load, SimdC.wasm_v128_store. fuel_tac.
Qed.

Lemma SimdC_euclideanDistance_round_up4 s a b len :
  SimdC.euclideanDistance a b len s = SimdC.euclideanDistance a b (round_up4 len) s.
Proof.
  unfold SimdC.euclideanDistance, bind.
  rewrite for_loop_round_up4; [reflexivity |].
  intros i acc'. unfold SimdC.wasm_v128_load. fuel_tac.
Qed.

Lemma SimdC_cosineSimilarity_round_up4 s a b len :
  SimdC.cosineSimilarity a b len s = SimdC.cosineSimilarity a b (round_up4 len) s.
Proof.
  unfold SimdC.cosineSimilarity, bind.
  rewrite for_loop_round_up4; [reflexivity |].
  intros i acc'. unfold SimdC.wasm_v128_load. fuel_tac.
Qed.

(** X8: the SIMD entry points behave on any length exactly as on the next
    multiple of four: same outcome (result, memory, log, or trap) in every
    state. *)
Theorem X8_simd_length_rounds_up (s : state) (a b v len : Z) :
  SimdC.euclideanDistance a b len s = SimdC.euclideanDistance a b (round_up4 len) s /\
  SimdC.cosineSimilarity a b len s = SimdC.cosineSimilarity a b (round_up4 len) s /\
  SimdC.normalize v len s = SimdC.normalize v (round_up4 len) s.
Proof.
  split; [apply SimdC_euclideanDistance_round_up4 |].
  split; [apply SimdC_cosineSimilarity_round_up4 | apply SimdC_normalize_round_up4].
Qed.

(** X9: when the memory extends to the next multiple of four, the SIMD
    [normalize] called on a shorter length rescales the cells between the
    end of the buffer and that multiple as well, by a norm that includes
    them; [euclideanDistance] includes them in the distance. *)
Theorem X9_simd_tail_is_processed (s : state) (a b v len : Z) :
  0 <= len -> round_up4 len <= INT_MAX ->
  valid_buf (mem s) a (round_up4 len) -> valid_buf (mem s) b (round_up4 len) ->
  valid_buf (mem s) v (round_up4 len) ->
  (exists s',
     SimdC.normalize v len s = Ok (tt, s') /\
     forall i, 0 <= i < round_up4 len ->
       cell (mem s') (v + i) =
       F32.mul (cell (mem s) (v + i))
               (F32.div (F32.of_Z 1) (SimdSpec.norm (mem s) v (round_up4 len)))) /\
  (exists new,
     SimdC.euclideanDistance a b len s =
       Ok (SimdSpec.dist (mem s) a b (round_up4 len),
           mkState (mem s) (new ++ trace s))).
Proof.
  intros Hlen Hmax Ha Hb Hv.
  pose proof (round_up4_bounds len) as [Hr Hm].
  assert (Hlen' : 0 <= round_up4 len <= INT_MAX) by lia.
  split.
  - destruct (SimdC_normalize_cells s v (round_up4 len) Hlen' Hm Hv)
      as (s' & Hrun & Hin & _).
    exists s'. rewrite SimdC_normalize_round_up4. split; [exact Hrun | exact Hin].
  - destruct (SimdC_euclideanDistance_run s a b (round_up4 len) Hlen' Hm Ha Hb)
      as (new & Hrun & _).
    exists new. rewrite SimdC_euclideanDistance_round_up4. exact Hrun.
Qed.

Lemma X9_simd_tail_is_processed_witness :
  (0 <= 5 /\ round_up4 5 <= INT_MAX /\
   valid_buf (mem state_two_of_five) 0 (round_up4 5) /\
   valid_buf (mem state_two_of_five) 8 (round_up4 5)) /\
  exists s',
    SimdC.normalize 0 5 state_two_of_five = Ok (tt, s') /\
    forall i, 0 <= i < round_up4 5 ->
      cell (mem s') (0 + i) =
      F32.mul (cell (mem state_two_of_five) (0 + i))
              (F32.div (F32.of_Z 1)
                 (SimdSpec.norm (mem state_two_of_five) 0 (round_up4 5))).
Proof.
  assert (H1 : 0 <= 5) by lia.
  assert (H2 : round_up4 5 <= INT_MAX) by (vm_compute; discriminate).
  assert (H3 : valid_buf (mem state_two_of_five) 0 (round_up4 5))
    by (unfold valid_buf; change (round_up4 5) with 8; simpl; lia).
  assert (H4 : valid_buf (mem state_two_of_five) 8 (round_up4 5))
    by (unfold valid_buf; change (round_up4 5) with 8; simpl; lia).
  split; [auto |].
  exact (proj1 (X9_simd_tail_is_processed state_two_of_five 0 8 0 5 H1 H2 H3 H4 H3)).
Defined.

(** * Accuracy in the real numbers *)

Local Open Scope R_scope.

Lemma bpow_pos e : 0 < bpow e.
Proof. apply powerRZ_lt. lra. Qed.

Lemma bpow_add a b : bpow (a + b) = bpow a * bpow b.
Proof. apply powerRZ_add. lra. Qed.

Lemma bpow_succ e : bpow (e + 1) = 2 * bpow e.
Proof. rewrite bpow_add. unfold bpow at 2. simpl. lra. Qed.

Lemma bpow_IZR n : (0 <= n)%Z -> bpow n = IZR (2 ^ n).
Proof.
  intros H. unfold bpow. rewrite <- (Z2Nat.id n H) at 1 2.
  rewrite <- pow_powerRZ, <- pow_IZR. reflexivity.
Qed.

Lemma bpow_ge_1 k : (0 <= k)%Z -> 1 <= bpow k.
Proof.
  intros H. rewrite bpow_IZR by exact H. apply IZR_le.
  assert (0 < 2 ^ k)%Z by (apply Z.pow_pos_nonneg; lia). lia.
Qed.

Lemma bpow_le a b : (a <= b)%Z -> bpow a <= bpow b.
Proof.
  intros H. replace b with (a + (b - a))%Z by lia. rewrite bpow_add.
  pose proof (bpow_ge_1 (b - a) ltac:(lia)). pose proof (bpow_pos a). nra.
Qed.

Lemma bpow_lt a b : (a < b)%Z -> bpow a < bpow b.
Proof.
  intros H. replace b with (a + 1 + (b - a - 1))%Z by lia.
  rewrite bpow_add, bpow_succ.
  pose proof (bpow_ge_1 (b - a - 1) ltac:(lia)). pose proof (bpow_pos a). nra.
Qed.

Lemma bpow_opp e : bpow (- e) = / bpow e.
Proof. apply powerRZ_neg'. Qed.

Lemma digits2_pos_bounds p :
  (2 ^ (Zpos (digits2_pos p) - 1) <= Zpos p < 2 ^ Zpos (digits2_pos p))%Z.
Proof.
  induction p as [p IH|p IH|]; simpl digits2_pos.
  - rewrite Pos2Z.inj_succ.
    replace (Z.succ (Z.pos (digits2_pos p)) - 1)%Z with (Z.pos (digits2_pos p) - 1 + 1)%Z by lia.
    rewrite Z.pow_succ_r by lia.
    assert (0 <= Z.pos (digits2_pos p) - 1)%Z by lia.
    rewrite Z.pow_add_r by lia. change (2 ^ 1)%Z with 2%Z. lia.
  - rewrite Pos2Z.inj_succ.
    replace (Z.succ (Z.pos (digits2_pos p)) - 1)%Z with (Z.pos (digits2_pos p) - 1 + 1)%Z by lia.
    rewrite Z.pow_succ_r by lia.
    rewrite Z.pow_add_r by lia. change (2 ^ 1)%Z with 2%Z. lia.
  - simpl. lia.
Qed.

Lemma loc_of_record_of_loc m l :
  loc_of_shr_record (shr_record_of_loc m l) = l.
Proof. destruct l as [|[]]; reflexivity. Qed.

Ltac shr_cases :=
  cbn [shr_1 loc_of_shr_record located orb shr_m]; unfold F2R;
  rewrite ?bpow_succ, ?plus_IZR.

Lemma IZR_xI p : IZR (Z.pos p~1) = 2 * IZR (Z.pos p) + 1.
Proof. rewrite Pos2Z.inj_xI, plus_IZR, mult_IZR. reflexivity. Qed.

Lemma IZR_xO p : IZR (Z.pos p~0) = 2 * IZR (Z.pos p).
Proof. rewrite Pos2Z.inj_xO, mult_IZR. reflexivity. Qed.

Lemma shr_1_located t m r s e :
  (0 <= m)%Z ->
  located t m e (loc_of_shr_record (Build_shr_record m r s)) ->
  located t (m / 2) (e + 1)
    (loc_of_shr_record (shr_1 (Build_shr_record m r s))) /\
  shr_m (shr_1 (Build_shr_record m r s)) = (m / 2)%Z.
Proof.
  intros Hm. pose proof (bpow_pos e) as HB.
  destruct m as [|p|p]; [| |lia].
  - change (0 / 2)%Z with 0%Z.
    destruct r, s; shr_cases; intros H; (split; [| reflexivity]); lra.
  - destruct p as [p|p|].
    + assert (E : (Z.pos p~1 / 2 = Z.pos p)%Z).
      { rewrite Pos2Z.inj_xI. symmetry. apply (Z.div_unique _ 2 _ 1); lia. }
      rewrite E.
      destruct r, s; shr_cases; rewrite ?(IZR_xI p); intros H;
        (split; [| reflexivity]); lra.
    + assert (E : (Z.pos p~0 / 2 = Z.pos p)%Z).
      { rewrite Pos2Z.inj_xO. symmetry. apply (Z.div_unique _ 2 _ 0); lia. }
      rewrite E.
      destruct r, s; shr_cases; rewrite ?(IZR_xO p); intros H;
        (split; [| reflexivity]); lra.
    + change (1 / 2)%Z with 0%Z.
      destruct r, s; shr_cases; intros H; (split; [| reflexivity]); lra.
Qed.

Lemma iter_pos_nat {A} (f : A -> A) p : forall x,
  SpecFloat.iter_pos f p x = Nat.iter (Pos.to_nat p) f x.
Proof.
  induction p as [p IH|p IH|]; intros x; simpl SpecFloat.iter_pos.
  - rewrite !IH. rewrite Pos2Nat.inj_xI.
    replace (S (2 * Pos.to_nat p)) with (Pos.to_nat p + (Pos.to_nat p + 1))%nat by lia.
    rewrite !Nat.iter_add. reflexivity.
  - rewrite !IH. rewrite Pos2Nat.inj_xO.
    replace (2 * Pos.to_nat p)%nat with (Pos.to_nat p + Pos.to_nat p)%nat by lia.
    rewrite Nat.iter_add. reflexivity.
  - reflexivity.
Qed.

Lemma shr_iter_located k : forall t m r s e,
  (0 <= m)%Z ->
  located t m e (loc_of_shr_record (Build_shr_record m r s)) ->
  located t (m / 2 ^ Z.of_nat k) (e + Z.of_nat k)
    (loc_of_shr_record (Nat.iter k shr_1 (Build_shr_record m r s))) /\
  shr_m (Nat.iter k shr_1 (Build_shr_record m r s)) = (m / 2 ^ Z.of_nat k)%Z.
Proof.
  induction k as [|k IH]; intros t m r s e Hm Hloc.
  - simpl Nat.iter. change (Z.of_nat 0) with 0%Z.
    rewrite Z.pow_0_r, Z.div_1_r, Z.add_0_r. split; [exact Hloc | reflexivity].
  - cbn [Nat.iter nat_rect].
    destruct (IH t m r s e Hm Hloc) as [Hl Hmk].
    change (nat_rect (fun _ => shr_record) (Build_shr_record m r s)
              (fun _ => shr_1) k)
      with (Nat.iter k shr_1 (Build_shr_record m r s)) in *.
    destruct (Nat.iter k shr_1 (Build_shr_record m r s)) as [mk rk sk].
    cbn [shr_m] in Hmk. subst mk.
    assert (Hnn : (0 <= m / 2 ^ Z.of_nat k)%Z)
      by (apply Z.div_pos; [lia | apply Z.pow_pos_nonneg; lia]).
    destruct (shr_1_located t _ rk sk _ Hnn Hl) as [Hl' Hm'].
    rewrite Nat2Z.inj_succ, Z.pow_succ_r by lia.
    rewrite Z.div_div in Hl', Hm' by (try apply Z.pow_pos_nonneg; lia).
    replace (2 * 2 ^ Z.of_nat k)%Z with (2 ^ Z.of_nat k * 2)%Z by lia.
    replace (e + Z.succ (Z.of_nat k))%Z with (e + Z.of_nat k + 1)%Z by lia.
    split; assumption.
Qed.

Lemma shr_located t m l e n :
  (0 <= m)%Z -> (0 <= n)%Z -> located t m e l ->
  let '(mrs, e') := shr (shr_record_of_loc m l) e n in
  e' = (e + n)%Z /\ shr_m mrs = (m / 2 ^ n)%Z /\
  located t (m / 2 ^ n) (e + n) (loc_of_shr_record mrs).
Proof.
  intros Hm Hn Hloc. unfold shr.
  destruct n as [|p|p]; [| |lia].
  - rewrite Z.pow_0_r, Z.div_1_r, Z.add_0_r.
    split; [reflexivity |]. rewrite loc_of_record_of_loc.
    split; [destruct l as [|[]]; reflexivity | exact Hloc].
  - rewrite iter_pos_nat.
    assert (Hrec : exists r s, shr_record_of_loc m l = Build_shr_record m r s)
      by (destruct l as [|[]]; eauto).
    destruct Hrec as (r & s & Hrec).
    pose proof (loc_of_record_of_loc m l) as Hl. rewrite Hrec in Hl |- *.
    rewrite <- Hl in Hloc.
    destruct (shr_iter_located (Pos.to_nat p) t m r s e Hm Hloc) as [H1 H2].
    rewrite positive_nat_Z in H1, H2. auto.
Qed.

Lemma digits2_pos_unique p k :
  (2 ^ (k - 1) <= Zpos p < 2 ^ k)%Z -> (0 < k)%Z -> Zpos (digits2_pos p) = k.
Proof.
  intros [H1 H2] Hk. pose proof (digits2_pos_bounds p) as [B1 B2].
  set (d := Zpos (digits2_pos p)) in *.
  destruct (Z.lt_trichotomy d k) as [Hlt|[Heq|Hgt]]; [| exact Heq |].
  - assert (2 ^ d <= 2 ^ (k - 1))%Z by (apply Z.pow_le_mono_r; lia). lia.
  - assert (2 ^ k <= 2 ^ (d - 1))%Z by (apply Z.pow_le_mono_r; lia). lia.
Qed.

Lemma round_nearest_even_located t m e l :
  (0 <= m)%Z -> located t m e l ->
  let m' := round_nearest_even m l in
  (m <= m' <= m + 1)%Z /\ Rabs (F2R m' e - t) <= bpow e / 2.
Proof.
  intros Hm Hloc. pose proof (bpow_pos e) as HB.
  unfold round_nearest_even, located, F2R in *.
  destruct l as [|[]].
  - split; [lia |]. subst t. rewrite Rminus_diag, Rabs_R0. lra.
  - destruct (Z.even m).
    + split; [lia |]. subst t. rewrite Rabs_left by lra. lra.
    + split; [lia |]. subst t. rewrite plus_IZR. rewrite Rabs_right by lra. lra.
  - split; [lia |]. rewrite Rabs_left by lra. lra.
  - split; [lia |]. rewrite plus_IZR in *. rewrite Rabs_right by lra. lra.
Qed.

Lemma fexp_normal d : (-125 <= d)%Z -> fexp 24 128 d = (d - 24)%Z.
Proof. intros H. unfold fexp, emin. lia. Qed.

Lemma Zdigits2_pos p : Zdigits2 (Zpos p) = Zpos (digits2_pos p).
Proof. reflexivity. Qed.

(** Rounding to nearest of a positive real located on a grid of at least 24
    digits, in the normal range of binary32. *)
Lemma binary_round_aux_correct s p e l t :
  let d := Zpos (digits2_pos p) in
  (24 <= d)%Z -> (-125 <= d + e)%Z -> (d + e <= 127)%Z ->
  located t (Zpos p) e l ->
  exists m' e',
    binary_round_aux 24 128 s (Zpos p) e l = S754_finite s m' e' /\
    Zpos (digits2_pos m') = 24%Z /\ (-149 <= e' <= 104)%Z /\
    Rabs (F2R (Zpos m') e' - t) <= u32 * t /\
    Rabs (F2R (Zpos m') e' - t) <= bpow (e + (d - 24)) / 2 /\
    exists z, F2R (Zpos m') e' = IZR z * bpow (e + (d - 24)).
Proof.
  intros d Hd Hlo Hhi Hloc.
  pose proof (digits2_pos_bounds p) as [Bl Bu]. fold d in Bl, Bu.
  set (n := (d - 24)%Z). set (e1 := (e + n)%Z).
  assert (Hpos2n : (0 < 2 ^ n)%Z) by (apply Z.pow_pos_nonneg; lia).
  unfold binary_round_aux. unfold shr_fexp at 1.
  rewrite Zdigits2_pos. fold d. rewrite fexp_normal by lia.
  replace (d + e - 24 - e)%Z with n by (unfold n; lia).
  pose proof (shr_located t (Zpos p) l e n ltac:(lia) ltac:(unfold n; lia) Hloc) as Hshr.
  destruct (shr (shr_record_of_loc (Z.pos p) l) e n) as [mrs' e'].
  destruct Hshr as (-> & Hm1 & Hl1). fold e1 in Hl1 |- *.
  set (m1 := (Zpos p / 2 ^ n)%Z) in *.
  assert (Hm1b : (2 ^ 23 <= m1 < 2 ^ 24)%Z).
  { unfold m1. split.
    - apply Z.div_le_lower_bound; [lia |].
      rewrite <- Z.pow_add_r by (unfold n; lia).
      replace (n + 23)%Z with (d - 1)%Z by (unfold n; lia). exact Bl.
    - apply Z.div_lt_upper_bound; [lia |].
      rewrite <- Z.pow_add_r by (unfold n; lia).
      replace (n + 24)%Z with d by (unfold n; lia). exact Bu. }
  destruct (round_nearest_even_located t m1 e1 _ ltac:(lia) Hl1) as [Hm2 Herr].
  rewrite Hm1. set (m2 := round_nearest_even m1 (loc_of_shr_record mrs')) in *.
  assert (Ht : F2R m1 e1 <= t).
  { clear - Hl1. unfold located, F2R in *. pose proof (bpow_pos e1).
    destruct (loc_of_shr_record mrs') as [|[]]; lra. }
  assert (Hrel : bpow e1 / 2 <= u32 * t).
  { unfold u32. apply Rle_trans with (bpow (-24) * F2R m1 e1).
    - unfold F2R.
      assert (IZR (2 ^ 23) <= IZR m1) by (apply IZR_le; lia).
      rewrite <- bpow_IZR in H by lia.
      assert (E : bpow (-24) * bpow 23 = / 2).
      { rewrite <- bpow_add. simpl. unfold bpow. simpl. lra. }
      pose proof (bpow_pos e1). pose proof (bpow_pos (-24)).
      assert (bpow (-24) * bpow 23 * bpow e1 <= bpow (-24) * IZR m1 * bpow e1).
      { apply Rmult_le_compat_r; [lra |]. apply Rmult_le_compat_l; lra. }
      rewrite E in H2. lra.
    - apply Rmult_le_compat_l; [apply Rlt_le, bpow_pos | exact Ht]. }
  unfold shr_fexp.
  destruct (Z.eq_dec m2 (2 ^ 24)%Z) as [Heq|Hne].
  - (* the mantissa overflowed to 2^24: one more shift *)
    rewrite Heq. change (Zdigits2 (2 ^ 24)%Z) with 25%Z.
    rewrite fexp_normal by (unfold e1, n; lia).
    replace (25 + e1 - 24 - e1)%Z with 1%Z by lia.
    cbn [shr shr_record_of_loc SpecFloat.iter_pos shr_1 Z.pow Z.pow_pos Pos.iter Z.mul Pos.mul].
    simpl shr_m.
    assert (He1 : (e1 + 1 <=? 128 - 24)%Z = true) by (apply Z.leb_le; unfold e1, n; lia).
    rewrite He1.
    exists 8388608%positive, (e1 + 1)%Z.
    split; [reflexivity |]. split; [reflexivity |].
    split; [unfold e1, n; lia |].
    assert (E8 : F2R (Z.pos 8388608) (e1 + 1) = F2R m2 e1).
    { rewrite Heq. unfold F2R. rewrite bpow_succ.
      change (2 ^ 24)%Z with 16777216%Z. lra. }
    rewrite E8. split; [lra |]. split; [exact Herr |].
    exists m2. reflexivity.
  - destruct m2 as [|p2|p2] eqn:Em2; [lia | | lia].
    assert (Hd2 : Zpos (digits2_pos p2) = 24%Z)
      by (apply digits2_pos_unique; lia).
    rewrite Zdigits2_pos, Hd2. rewrite fexp_normal by (unfold e1, n; lia).
    replace (24 + e1 - 24 - e1)%Z with 0%Z by lia.
    cbn [shr shr_record_of_loc shr_m].
    assert (He1 : (e1 <=? 128 - 24)%Z = true) by (apply Z.leb_le; unfold e1, n; lia).
    rewrite He1.
    exists p2, e1. split; [reflexivity |]. split; [exact Hd2 |].
    split; [unfold e1, n; lia |]. split; [lra |]. split; [exact Herr |].
    exists (Zpos p2). reflexivity.
Qed.

(** ** Values *)

Lemma F2R_digits_bounds p e :
  bpow (Zpos (digits2_pos p) - 1 + e) <= F2R (Zpos p) e < bpow (Zpos (digits2_pos p) + e).
Proof.
  pose proof (digits2_pos_bounds p) as [Bl Bu]. pose proof (bpow_pos e) as HB.
  unfold F2R. rewrite !bpow_add.
  rewrite (bpow_IZR (Zpos (digits2_pos p) - 1)) by lia.
  rewrite (bpow_IZR (Zpos (digits2_pos p))) by lia.
  split.
  - apply Rmult_le_compat_r; [lra | apply IZR_le; exact Bl].
  - apply Rmult_lt_compat_r; [lra | apply IZR_lt; exact Bu].
Qed.

Lemma bpow_lt_inv a b : bpow a < bpow b -> (a < b)%Z.
Proof.
  intros H. destruct (Z_lt_le_dec a b) as [Hlt|Hge]; [exact Hlt |].
  pose proof (bpow_le b a Hge). lra.
Qed.

Lemma F2R_pos p e : 0 < F2R (Zpos p) e.
Proof.
  unfold F2R. apply Rmult_lt_0_compat; [apply IZR_lt; lia | apply bpow_pos].
Qed.

Lemma Rabs_sgn s a : Rabs (sgn s * a) = Rabs a.
Proof.
  destruct s; unfold sgn.
  - replace (-1 * a) with (- a) by lra. apply Rabs_Ropp.
  - f_equal. lra.
Qed.

Lemma sgn_xorb s1 s2 : sgn (xorb s1 s2) = sgn s1 * sgn s2.
Proof. destruct s1, s2; unfold sgn; simpl; lra. Qed.

Lemma digits2_pos_ge p k :
  (2 ^ (k - 1) <= Zpos p)%Z -> (0 < k)%Z -> (k <= Zpos (digits2_pos p))%Z.
Proof.
  intros H Hk. pose proof (digits2_pos_bounds p) as [_ Bu].
  destruct (Z_lt_le_dec (Zpos (digits2_pos p)) k) as [Hlt|Hge]; [| exact Hge].
  assert (2 ^ Zpos (digits2_pos p) <= 2 ^ (k - 1))%Z
    by (apply Z.pow_le_mono_r; lia).
  lia.
Qed.

Lemma normal_mantissa m : Zpos (digits2_pos m) = 24%Z ->
  (2 ^ 23 <= Zpos m < 2 ^ 24)%Z.
Proof.
  intros H. pose proof (digits2_pos_bounds m) as B. rewrite H in B. exact B.
Qed.

(** ** Correct rounding of the four operations and the square root *)

Lemma located_bounds t p e l :
  located t (Zpos p) e l -> F2R (Zpos p) e <= t < F2R (Zpos p + 1) e.
Proof.
  unfold located, F2R. pose proof (bpow_pos e) as HB. rewrite plus_IZR.
  destruct l as [|[]]; intros H; nra.
Qed.

(** Rounding a located positive real of the normal range, with a sign. *)
Lemma round_located s p e l t :
  (24 <= Zpos (digits2_pos p))%Z ->
  located t (Zpos p) e l ->
  bpow (-126) <= t < bpow 127 ->
  rnd (sgn s * t) (binary_round_aux 24 128 s (Zpos p) e l).
Proof.
  intros Hd Hloc [Hlo Hhi].
  pose proof (located_bounds _ _ _ _ Hloc) as [B1 B2].
  pose proof (F2R_digits_bounds p e) as [D1 D2].
  pose proof (digits2_pos_bounds p) as [_ Bu].
  assert (B3 : F2R (Zpos p + 1) e <= bpow (Zpos (digits2_pos p) + e)).
  { unfold F2R. rewrite bpow_add, (bpow_IZR (Zpos (digits2_pos p))) by lia.
    apply Rmult_le_compat_r; [apply Rlt_le, bpow_pos |]. apply IZR_le. lia. }
  destruct (binary_round_aux_correct s p e l t) as (m' & e' & Hres & Hd' & He' & Herr & _).
  - exact Hd.
  - assert (H : bpow (-126) < bpow (Zpos (digits2_pos p) + e)) by lra.
    apply bpow_lt_inv in H. lia.
  - assert (H : bpow (Zpos (digits2_pos p) - 1 + e) < bpow 127) by lra.
    apply bpow_lt_inv in H. lia.
  - exact Hloc.
  - rewrite Hres. split; [split; assumption |].
    assert (Ht : 0 < t) by (pose proof (bpow_pos (-126)); lra).
    cbn [to_R]. rewrite <- Rmult_minus_distr_l, !Rabs_sgn.
    rewrite (Rabs_right t) by lra. exact Herr.
Qed.

Lemma Pos_iter_xO p k : Zpos (Pos.iter xO p k) = (Zpos p * 2 ^ Zpos k)%Z.
Proof.
  induction k as [|k IH] using Pos.peano_ind.
  - simpl. lia.
  - rewrite Pos.iter_succ, Pos2Z.inj_xO, IH, Pos2Z.inj_succ, Z.pow_succ_r by lia. lia.
Qed.

Lemma F2R_shift m e k : (0 <= k)%Z -> F2R (m * 2 ^ k) (e - k) = F2R m e.
Proof.
  intros Hk. unfold F2R. rewrite mult_IZR, <- bpow_IZR by exact Hk.
  replace e with ((e - k) + k)%Z at 2 by lia. rewrite bpow_add. ring.
Qed.

(** Aligning a mantissa to a smaller exponent keeps the value. *)
Lemma shl_align_value p e e' :
  (e' <= e)%Z ->
  shl_align p e e' = (Z.to_pos (Zpos p * 2 ^ (e - e')), e') /\
  F2R (Zpos p * 2 ^ (e - e')) e' = F2R (Zpos p) e /\
  (0 < Zpos p * 2 ^ (e - e'))%Z.
Proof.
  intros H. unfold shl_align.
  assert (Hpos : (0 < 2 ^ (e - e'))%Z) by (apply Z.pow_pos_nonneg; lia).
  split; [| split; [| lia]].
  - destruct (e' - e)%Z as [|d|d] eqn:E; try lia.
    + replace (e - e')%Z with 0%Z by lia. rewrite Z.pow_0_r, Z.mul_1_r.
      simpl. f_equal. lia.
    + replace (e - e')%Z with (Zpos d) by lia.
      rewrite <- Pos_iter_xO. reflexivity.
  - replace e' with (e - (e - e'))%Z at 2 by lia. apply F2R_shift. lia.
Qed.

Lemma digits2_pos_shift p k :
  (0 <= k)%Z ->
  Zpos (digits2_pos (Z.to_pos (Zpos p * 2 ^ k))) = (Zpos (digits2_pos p) + k)%Z.
Proof.
  intros Hk. pose proof (digits2_pos_bounds p) as [B1 B2].
  assert (Hpos : (0 < 2 ^ k)%Z) by (apply Z.pow_pos_nonneg; lia).
  apply digits2_pos_unique; [| lia].
  rewrite Z2Pos.id by lia.
  replace (Zpos (digits2_pos p) + k - 1)%Z with (Zpos (digits2_pos p) - 1 + k)%Z by lia.
  rewrite !Z.pow_add_r by lia. nia.
Qed.

(** [binary_round] of a positive mantissa in the normal range. *)
Lemma binary_round_rnd s p e :
  bpow (-126) <= F2R (Zpos p) e < bpow 127 ->
  rnd (sgn s * F2R (Zpos p) e) (binary_round 24 128 s p e).
Proof.
  intros [Hlo Hhi]. unfold binary_round.
  pose proof (F2R_digits_bounds p e) as [D1 D2].
  set (d := Zpos (digits2_pos p)) in *.
  assert (Hd1 : (-125 <= d + e)%Z).
  { assert (H : bpow (-126) < bpow (d + e)) by lra. apply bpow_lt_inv in H. lia. }
  rewrite fexp_normal by exact Hd1.
  destruct (Z_lt_le_dec d 24) as [Hlt|Hge].
  - destruct (shl_align_value p e (d + e - 24) ltac:(lia)) as (-> & Hv & Hp).
    replace (e - (d + e - 24))%Z with (24 - d)%Z in * by lia.
    pose proof (digits2_pos_shift p (24 - d) ltac:(lia)) as Hdig. fold d in Hdig.
    apply round_located.
    + rewrite Hdig. lia.
    + cbn [located]. rewrite Z2Pos.id by exact Hp. symmetry. exact Hv.
    + lra.
  - unfold shl_align.
    destruct (d + e - 24 - e)%Z as [|q|q] eqn:E; try lia;
      (apply round_located; [fold d; lia | reflexivity | lra]).
Qed.

Lemma F2R_0 e : F2R 0 e = 0.
Proof. unfold F2R. lra. Qed.

Lemma F2R_neg p e : F2R (Zneg p) e = - F2R (Zpos p) e.
Proof. unfold F2R. change (Zneg p) with (- Zpos p)%Z. rewrite opp_IZR. ring. Qed.

Lemma F2R_plus a b e : F2R (a + b) e = F2R a e + F2R b e.
Proof. unfold F2R. rewrite plus_IZR. ring. Qed.

Lemma F2R_minus a b e : F2R (a - b) e = F2R a e - F2R b e.
Proof. unfold F2R. rewrite minus_IZR. ring. Qed.

Lemma F2R_cond_Zopp s m e : F2R (cond_Zopp s m) e = sgn s * F2R m e.
Proof.
  unfold F2R, cond_Zopp, sgn. destruct s; [rewrite opp_IZR |]; ring.
Qed.

Lemma rnd_zero s : rnd 0 (S754_zero s).
Proof.
  split; [exact I |]. cbn [to_R]. rewrite Rminus_diag, Rabs_R0. lra.
Qed.

Lemma rnd_exact x : regular x -> rnd (to_R x) x.
Proof.
  intros H. split; [exact H |]. rewrite Rminus_diag, Rabs_R0.
  apply Rmult_le_pos; [apply Rlt_le, bpow_pos | apply Rabs_pos].
Qed.

Lemma in_range_126 t :
  in_range t -> t = 0 \/ bpow (-126) <= Rabs t < bpow 127.
Proof.
  intros [H|[H1 H2]]; [left; exact H | right].
  pose proof (bpow_le (-126) (-125) ltac:(lia)). lra.
Qed.

(** [binary_normalize] of any integer mantissa. *)
Lemma binary_normalize_rnd z e :
  in_range (F2R z e) -> rnd (F2R z e) (binary_normalize 24 128 z e false).
Proof.
  intros H. apply in_range_126 in H.
  destruct z as [|p|p]; cbn [binary_normalize].
  - rewrite F2R_0. apply rnd_zero.
  - pose proof (F2R_pos p e) as Hp.
    destruct H as [H|H]; [lra |]. rewrite Rabs_right in H by lra.
    replace (F2R (Zpos p) e) with (sgn false * F2R (Zpos p) e) at 1
      by (unfold sgn; lra).
    apply binary_round_rnd. exact H.
  - pose proof (F2R_pos p e) as Hp. rewrite F2R_neg in *.
    destruct H as [H|H]; [lra |]. rewrite Rabs_left in H by lra.
    replace (- F2R (Zpos p) e) with (sgn true * F2R (Zpos p) e)
      by (unfold sgn; lra).
    apply binary_round_rnd. lra.
Qed.

Lemma aligned_value s m e ez :
  (ez <= e)%Z ->
  F2R (cond_Zopp s (Zpos (fst (shl_align m e ez)))) ez = to_R (S754_finite s m e).
Proof.
  intros H. destruct (shl_align_value m e ez H) as (-> & Hv & Hp).
  cbn [fst]. rewrite Z2Pos.id by exact Hp.
  rewrite F2R_cond_Zopp, Hv. reflexivity.
Qed.

Theorem f32_add_rnd x y :
  regular x -> regular y -> in_range (to_R x + to_R y) ->
  rnd (to_R x + to_R y) (F32.add x y).
Proof.
  intros Hx Hy Hr.
  destruct x as [sx|sx| |sx mx ex]; try contradiction;
    destruct y as [sy|sy| |sy my ey]; try contradiction.
  - cbn [to_R]. rewrite Rplus_0_l.
    destruct sx, sy; apply rnd_zero.
  - cbn [to_R F32.add SFadd]. rewrite Rplus_0_l. apply (rnd_exact _ Hy).
  - cbn [F32.add SFadd]. replace (to_R (S754_zero sy)) with 0 by reflexivity.
    rewrite Rplus_0_r. apply (rnd_exact _ Hx).
  - unfold F32.add, SFadd. fold F32.prec F32.emax.
    set (ez := Z.min ex ey) in *.
    rewrite <- (aligned_value sx mx ex ez), <- (aligned_value sy my ey ez) in * by lia.
    rewrite <- F2R_plus in *. apply binary_normalize_rnd. exact Hr.
Qed.

Theorem f32_sub_rnd x y :
  regular x -> regular y -> in_range (to_R x - to_R y) ->
  rnd (to_R x - to_R y) (F32.sub x y).
Proof.
  intros Hx Hy Hr.
  destruct x as [sx|sx| |sx mx ex]; try contradiction;
    destruct y as [sy|sy| |sy my ey]; try contradiction.
  - cbn [to_R]. rewrite Rminus_diag.
    destruct sx, sy; apply rnd_zero.
  - cbn [F32.sub SFsub]. replace (to_R (S754_zero sx)) with 0 by reflexivity.
    replace (0 - to_R (S754_finite sy my ey))
      with (to_R (S754_finite (negb sy) my ey))
      by (cbn [to_R]; destruct sy; unfold sgn; simpl; lra).
    apply rnd_exact. exact Hy.
  - cbn [F32.sub SFsub]. replace (to_R (S754_zero sy)) with 0 by reflexivity.
    rewrite Rminus_0_r. apply (rnd_exact _ Hx).
  - unfold F32.sub, SFsub. fold F32.prec F32.emax.
    set (ez := Z.min ex ey) in *.
    rewrite <- (aligned_value sx mx ex ez), <- (aligned_value sy my ey ez) in * by lia.
    rewrite <- F2R_minus in *. apply binary_normalize_rnd. exact Hr.
Qed.

Lemma Rabs_to_R s m e : Rabs (to_R (S754_finite s m e)) = F2R (Zpos m) e.
Proof.
  cbn [to_R]. rewrite Rabs_sgn. apply Rabs_right.
  pose proof (F2R_pos m e). lra.
Qed.

Theorem f32_mul_rnd x y :
  regular x -> regular y -> in_range (to_R x * to_R y) ->
  rnd (to_R x * to_R y) (F32.mul x y).
Proof.
  intros Hx Hy Hr.
  destruct x as [sx|sx| |sx mx ex]; try contradiction;
    destruct y as [sy|sy| |sy my ey]; try contradiction;
    try (cbn [to_R F32.mul SFmul]; rewrite ?Rmult_0_l, ?Rmult_0_r; apply rnd_zero).
  destruct Hx as [Hdx Hex], Hy as [Hdy Hey].
  unfold F32.mul, SFmul. fold F32.prec F32.emax. unfold F32.prec, F32.emax.
  pose proof (F2R_pos mx ex) as Px. pose proof (F2R_pos my ey) as Py.
  set (t := F2R (Zpos mx) ex * F2R (Zpos my) ey).
  assert (Ht : t = F2R (Zpos (mx * my)) (ex + ey)).
  { unfold t, F2R. rewrite Pos2Z.inj_mul, mult_IZR, bpow_add. ring. }
  assert (Hprod : to_R (S754_finite sx mx ex) * to_R (S754_finite sy my ey) =
                  sgn (xorb sx sy) * t).
  { cbn [to_R]. rewrite sgn_xorb. unfold t. ring. }
  rewrite Hprod in *.
  assert (Htpos : 0 < t) by (unfold t; nra).
  apply in_range_126 in Hr. destruct Hr as [Hr|Hr].
  { exfalso. destruct (xorb sx sy); unfold sgn in Hr; lra. }
  rewrite Rabs_sgn, Rabs_right in Hr by lra.
  pose proof (normal_mantissa mx Hdx) as Mx. pose proof (normal_mantissa my Hdy) as My.
  apply round_located.
  - apply digits2_pos_ge; [| lia]. rewrite Pos2Z.inj_mul.
    apply Z.le_trans with (2 ^ 23 * 2 ^ 23)%Z; [simpl; lia |].
    apply Z.mul_le_mono_nonneg; lia.
  - cbn [located]. exact Ht.
  - exact Hr.
Qed.

(** *** Division *)

Lemma new_location_located (m2 q r : Z) (e : Z) :
  (0 < m2)%Z -> (0 <= r < m2)%Z -> (0 < q)%Z ->
  located ((IZR q + IZR r / IZR m2) * bpow e) q e (new_location m2 r).
Proof.
  intros Hm2 Hr Hq. pose proof (bpow_pos e) as HB.
  assert (Hm2R : 0 < IZR m2) by (apply IZR_lt; exact Hm2).
  assert (HrR : 0 <= IZR r < IZR m2) by (split; [apply IZR_le | apply IZR_lt]; lia).
  assert (Hfrac : 0 <= IZR r / IZR m2 < 1).
  { split.
    - apply Rmult_le_pos; [lra |]. apply Rlt_le, Rinv_0_lt_compat. exact Hm2R.
    - apply Rmult_lt_reg_r with (IZR m2); [exact Hm2R |].
      unfold Rdiv. rewrite Rmult_assoc, Rinv_l by lra. lra. }
  assert (Hhalf_lt : (2 * r < m2)%Z -> IZR r / IZR m2 < / 2).
  { intros H. apply IZR_lt in H. rewrite mult_IZR in H.
    apply Rmult_lt_reg_r with (IZR m2); [exact Hm2R |].
    unfold Rdiv. rewrite Rmult_assoc, Rinv_l by lra. lra. }
  assert (Hhalf_gt : (m2 < 2 * r)%Z -> / 2 < IZR r / IZR m2).
  { intros H. apply IZR_lt in H. rewrite mult_IZR in H.
    apply Rmult_lt_reg_r with (IZR m2); [exact Hm2R |].
    unfold Rdiv. rewrite Rmult_assoc, Rinv_l by lra. lra. }
  assert (Hhalf_eq : (2 * r = m2)%Z -> IZR r / IZR m2 = / 2).
  { intros H. rewrite <- H, mult_IZR. field.
    intros E. rewrite <- H, mult_IZR in Hm2R. lra. }
  assert (Hnz : r <> 0%Z -> 0 < IZR r / IZR m2).
  { intros H. apply Rmult_lt_0_compat; [| apply Rinv_0_lt_compat; exact Hm2R].
    apply IZR_lt. lia. }
  unfold new_location, new_location_even, new_location_odd.
  destruct (Z.even m2) eqn:Ev.
  - destruct (r =? 0)%Z eqn:E0.
    + apply Z.eqb_eq in E0. subst r. cbn [located]. unfold F2R, Rdiv.
      rewrite Rmult_0_l, Rplus_0_r. reflexivity.
    + apply Z.eqb_neq in E0. specialize (Hnz E0).
      destruct (Z.compare_spec (2 * r) m2) as [E|E|E]; cbn [located]; unfold F2R.
      * rewrite (Hhalf_eq E). reflexivity.
      * specialize (Hhalf_lt E). nra.
      * specialize (Hhalf_gt E). rewrite plus_IZR. nra.
  - destruct (r =? 0)%Z eqn:E0.
    + apply Z.eqb_eq in E0. subst r. cbn [located]. unfold F2R, Rdiv.
      rewrite Rmult_0_l, Rplus_0_r. reflexivity.
    + apply Z.eqb_neq in E0. specialize (Hnz E0).
      assert (Hodd : (2 * r <> m2)%Z).
      { intros E. rewrite <- E, Z.even_mul in Ev. discriminate. }
      destruct (Z.compare_spec (2 * r + 1) m2) as [E|E|E]; cbn [located]; unfold F2R.
      * assert (E' : (2 * r < m2)%Z) by lia. specialize (Hhalf_lt E'). nra.
      * assert (E' : (2 * r < m2)%Z) by lia. specialize (Hhalf_lt E'). nra.
      * assert (E' : (m2 < 2 * r)%Z) by lia. specialize (Hhalf_gt E').
        rewrite plus_IZR. nra.
Qed.

Theorem f32_div_rnd x y :
  regular x -> regular y -> to_R y <> 0 -> in_range (to_R x / to_R y) ->
  rnd (to_R x / to_R y) (F32.div x y).
Proof.
  intros Hx Hy Hy0 Hr.
  destruct y as [sy|sy| |sy my ey]; try contradiction.
  destruct x as [sx|sx| |sx mx ex]; try contradiction.
  { cbn [F32.div SFdiv]. replace (to_R (S754_zero sx)) with 0 by reflexivity.
    unfold Rdiv. rewrite Rmult_0_l. apply rnd_zero. }
  destruct Hx as [Hdx Hex], Hy as [Hdy Hey].
  pose proof (F2R_pos mx ex) as Px. pose proof (F2R_pos my ey) as Py.
  pose proof (normal_mantissa mx Hdx) as Mx. pose proof (normal_mantissa my Hdy) as My.
  set (t := F2R (Zpos mx) ex / F2R (Zpos my) ey).
  assert (Htpos : 0 < t) by (apply Rdiv_lt_0_compat; assumption).
  assert (Hquot : to_R (S754_finite sx mx ex) / to_R (S754_finite sy my ey) =
                  sgn (xorb sx sy) * t).
  { cbn [to_R]. rewrite sgn_xorb. unfold t.
    destruct sx, sy; unfold sgn; field; lra. }
  rewrite Hquot in *.
  destruct Hr as [Hr|Hr].
  { exfalso. destruct (xorb sx sy); unfold sgn in Hr; lra. }
  rewrite Rabs_sgn, Rabs_right in Hr by lra.
  (* the exponents are far enough apart from the underflow threshold *)
  pose proof (F2R_digits_bounds mx ex) as [_ Ux].
  pose proof (F2R_digits_bounds my ey) as [Ly _].
  rewrite Hdx in Ux. rewrite Hdy in Ly.
  assert (Hee : (-125 <= ex - ey)%Z).
  { assert (Ht1 : t < bpow (1 + (ex - ey))).
    { unfold t. apply Rmult_lt_reg_r with (F2R (Zpos my) ey); [exact Py |].
      unfold Rdiv. rewrite Rmult_assoc, Rinv_l, Rmult_1_r by lra.
      apply Rlt_le_trans with (bpow (1 + (ex - ey)) * bpow (24 - 1 + ey)).
      - rewrite <- bpow_add.
        replace (1 + (ex - ey) + (24 - 1 + ey))%Z with (24 + ex)%Z by lia. exact Ux.
      - apply Rmult_le_compat_l; [apply Rlt_le, bpow_pos | exact Ly]. }
    assert (H : bpow (-125) < bpow (1 + (ex - ey))) by lra.
    apply bpow_lt_inv in H. lia. }
  unfold F32.div, SFdiv. fold F32.prec F32.emax. unfold F32.prec, F32.emax.
  unfold SFdiv_core_binary. rewrite !Zdigits2_pos, Hdx, Hdy.
  replace (24 + ex - (24 + ey))%Z with (ex - ey)%Z by lia.
  rewrite fexp_normal by lia.
  rewrite Z.min_l by lia.
  replace (ex - ey - (ex - ey - 24))%Z with 24%Z by lia.
  cbv iota.
  rewrite Z.shiftl_mul_pow2 by lia.
  pose proof (Z_div_mod (Zpos mx * 2 ^ 24) (Zpos my) ltac:(lia)) as Hdm.
  destruct (Z.div_eucl (Zpos mx * 2 ^ 24) (Zpos my)) as [q r].
  destruct Hdm as [Hqr Hrb].
  assert (Hq : (2 ^ 23 <= q)%Z) by nia.
  destruct q as [|pq|pq]; try lia.
  assert (Hval : t = (IZR (Zpos pq) + IZR r / IZR (Zpos my)) * bpow (ex - ey - 24)).
  { unfold t, F2R.
    assert (E : IZR (Zpos mx) * IZR (2 ^ 24) = IZR (Zpos my) * IZR (Zpos pq) + IZR r).
    { rewrite <- !mult_IZR, <- plus_IZR. f_equal. exact Hqr. }
    rewrite <- bpow_IZR in E by lia.
    replace (bpow ex) with (bpow 24 * bpow (ex - ey - 24) * bpow ey)
      by (rewrite <- !bpow_add; f_equal; lia).
    assert (IZR (Zpos my) <> 0) by (apply not_0_IZR; lia).
    pose proof (bpow_pos ey).
    field_simplify_eq; [| split; lra]. nra. }
  rewrite Hval. rewrite Hval in Hr.
  apply round_located.
  - apply digits2_pos_ge; lia.
  - apply new_location_located; lia.
  - pose proof (bpow_le (-126) (-125) ltac:(lia)). lra.
Qed.

(** *** Square root *)

Lemma sqrt_lt_sq a b : 0 <= a -> a * a < b -> a < sqrt b.
Proof.
  intros Ha H. rewrite <- (sqrt_square a Ha). apply sqrt_lt_1_alt. nra.
Qed.

Lemma sqrt_gt_sq a b : 0 <= a -> 0 <= b -> b < a * a -> sqrt b < a.
Proof.
  intros Ha Hb H. rewrite <- (sqrt_square a Ha). apply sqrt_lt_1_alt. lra.
Qed.

Lemma sqrt_located (m q r e : Z) :
  (0 < q)%Z -> (m = q * q + r)%Z -> (0 <= r <= 2 * q)%Z ->
  located (sqrt (IZR m) * bpow e) q e
    (if (r =? 0)%Z then loc_Exact else loc_Inexact (if (r <=? q)%Z then Lt else Gt)).
Proof.
  intros Hq Hm Hr. pose proof (bpow_pos e) as HB.
  assert (HqR : 0 < IZR q) by (apply IZR_lt; exact Hq).
  assert (HmR : IZR m = IZR q * IZR q + IZR r)
    by (rewrite Hm, plus_IZR, mult_IZR; reflexivity).
  assert (HrR : 0 <= IZR r <= 2 * IZR q).
  { split; [apply IZR_le; lia |]. rewrite <- mult_IZR. apply IZR_le. lia. }
  destruct (r =? 0)%Z eqn:E0.
  - apply Z.eqb_eq in E0. subst r. cbn [located]. unfold F2R.
    rewrite HmR, Rplus_0_r, sqrt_square by lra. reflexivity.
  - apply Z.eqb_neq in E0.
    assert (Hr1 : 1 <= IZR r) by (apply IZR_le; lia).
    assert (Hlow : IZR q < sqrt (IZR m)) by (apply sqrt_lt_sq; lra).
    destruct (r <=? q)%Z eqn:E1; cbn [located]; unfold F2R.
    + apply Z.leb_le in E1. apply IZR_le in E1.
      assert (sqrt (IZR m) < IZR q + / 2) by (apply sqrt_gt_sq; nra).
      nra.
    + apply Z.leb_gt in E1.
      assert (E2 : IZR q + 1 <= IZR r) by (rewrite <- plus_IZR; apply IZR_le; lia).
      assert (IZR q + / 2 < sqrt (IZR m)) by (apply sqrt_lt_sq; nra).
      assert (sqrt (IZR m) < IZR q + 1) by (apply sqrt_gt_sq; nra).
      rewrite plus_IZR. nra.
Qed.

Lemma bpow_double e : bpow (2 * e) = bpow e * bpow e.
Proof. replace (2 * e)%Z with (e + e)%Z by lia. apply bpow_add. Qed.

Theorem f32_sqrt_rnd x :
  regular x -> 0 <= to_R x -> rnd (sqrt (to_R x)) (F32.sqrt x).
Proof.
  intros Hx Hpos.
  destruct x as [sx|sx| |sx mx ex]; try contradiction.
  { cbn [F32.sqrt SFsqrt to_R]. rewrite sqrt_0. apply rnd_zero. }
  destruct Hx as [Hdx Hex].
  pose proof (F2R_pos mx ex) as Px.
  destruct sx.
  { exfalso. cbn [to_R] in Hpos. unfold sgn in Hpos. lra. }
  cbn [to_R]. unfold sgn. rewrite Rmult_1_l.
  pose proof (normal_mantissa mx Hdx) as Mx.
  unfold F32.sqrt, SFsqrt. fold F32.prec F32.emax. unfold F32.prec, F32.emax.
  unfold SFsqrt_core_binary. rewrite Zdigits2_pos, Hdx.
  set (h := Z.div2 (24 + ex + 1)).
  assert (Hh : (24 + ex + 1 = 2 * h + (if Z.odd (24 + ex + 1) then 1 else 0))%Z)
    by (unfold h; apply Zdiv2_odd_eqn).
  pose proof (Zdiv2_odd_eqn ex) as Hex2.
  set (b := (if Z.odd (24 + ex + 1) then 1 else 0)%Z) in *.
  assert (Hb : (0 <= b <= 1)%Z) by (unfold b; destruct (Z.odd _); lia).
  assert (Hb2 : (0 <= (if Z.odd ex then 1 else 0) <= 1)%Z) by (destruct (Z.odd ex); lia).
  rewrite fexp_normal by lia.
  rewrite Z.min_l by lia.
  set (e' := (h - 24)%Z).
  assert (Hs : (ex - 2 * e' = 23 + b)%Z) by (unfold e'; lia).
  rewrite Hs.
  assert (Hsh : match (23 + b)%Z with
                | 0%Z => Zpos mx
                | Zpos _ => Z.shiftl (Zpos mx) (23 + b)
                | Zneg _ => 0%Z
                end = (Zpos mx * 2 ^ (23 + b))%Z).
  { destruct (23 + b)%Z eqn:E; try lia. rewrite <- E.
    apply Z.shiftl_mul_pow2. lia. }
  rewrite Hsh. set (m' := (Zpos mx * 2 ^ (23 + b))%Z).
  assert (Hm' : (2 ^ 46 <= m' < 2 ^ 48)%Z).
  { unfold m'. assert (b = 0 \/ b = 1)%Z as [-> | ->] by lia; simpl; lia. }
  pose proof (Z.sqrtrem_spec m' ltac:(lia)) as Hspec.
  destruct (Z.sqrtrem m') as [q r]. destruct Hspec as [Hqr Hrb].
  assert (Hq : (2 ^ 23 <= q < 2 ^ 24)%Z) by nia.
  destruct q as [|pq|pq]; try lia.
  assert (Hval : sqrt (F2R (Zpos mx) ex) = sqrt (IZR m') * bpow e').
  { rewrite <- (sqrt_square (bpow e')) by (apply Rlt_le, bpow_pos).
    rewrite <- sqrt_mult by
      (try apply Rmult_le_pos; try apply IZR_le; try apply Rlt_le, bpow_pos; lia).
    f_equal. rewrite <- bpow_double. unfold m'.
    replace ex with (2 * e' + (23 + b))%Z at 1 by lia.
    rewrite <- (F2R_shift (Zpos mx) (2 * e' + (23 + b)) (23 + b)) by lia.
    unfold F2R. f_equal. f_equal. lia. }
  rewrite Hval.
  replace (sqrt (IZR m') * bpow e') with (sgn false * (sqrt (IZR m') * bpow e'))
    by (unfold sgn; lra).
  apply round_located.
  - apply digits2_pos_ge; lia.
  - apply sqrt_located; lia.
  - pose proof (sqrt_located m' (Zpos pq) r e' ltac:(lia) Hqr ltac:(lia)) as Hloc.
    apply located_bounds in Hloc. destruct Hloc as [L1 L2].
    assert (L3 : bpow (23 + e') <= F2R (Zpos pq) e').
    { unfold F2R. rewrite bpow_add, (bpow_IZR 23) by lia.
      apply Rmult_le_compat_r; [apply Rlt_le, bpow_pos | apply IZR_le; lia]. }
    assert (L4 : F2R (Zpos pq + 1) e' <= bpow (24 + e')).
    { unfold F2R. rewrite bpow_add, (bpow_IZR 24) by lia.
      apply Rmult_le_compat_r; [apply Rlt_le, bpow_pos | apply IZR_le; lia]. }
    pose proof (bpow_le (-126) (23 + e') ltac:(unfold e'; lia)).
    pose proof (bpow_le (24 + e') 126 ltac:(unfold e'; lia)).
    pose proof (bpow_lt 126 127 ltac:(lia)).
    lra.
Qed.

(** ** Accumulated relative error *)

Lemma u32_eq : u32 = / 16777216.
Proof. unfold u32, bpow. simpl. lra. Qed.

Lemma u32_bounds : 0 < u32 < / 2.
Proof. rewrite u32_eq. lra. Qed.

Lemma pu_pos k : 0 < (1 - u32) ^ k.
Proof. apply pow_lt. pose proof u32_bounds. lra. Qed.

Lemma pu_le_1 k : (1 - u32) ^ k <= 1.
Proof.
  pose proof u32_bounds as U. induction k as [|k IH]; simpl; [lra |].
  pose proof (pu_pos k). nra.
Qed.

Lemma pu_mono j k : (j <= k)%nat -> (1 - u32) ^ k <= (1 - u32) ^ j.
Proof.
  intros H. replace k with (j + (k - j))%nat by lia. rewrite pow_add.
  pose proof (pu_pos j). pose proof (pu_le_1 (k - j)). nra.
Qed.

(** Bernoulli's inequality. *)
Lemma pu_bernoulli k : 1 - INR k * u32 <= (1 - u32) ^ k.
Proof.
  pose proof u32_bounds as U. induction k as [|k IH].
  - simpl. lra.
  - rewrite S_INR. simpl pow. pose proof (pos_INR k). nra.
Qed.

Lemma pu_half k : INR k <= 8192 -> / 2 <= (1 - u32) ^ k.
Proof.
  intros H. pose proof (pu_bernoulli k) as B.
  rewrite u32_eq in *. lra.
Qed.

Lemma near_zero k x : near k 0 x -> x = 0.
Proof. unfold near, Rdiv. rewrite !Rmult_0_l. lra. Qed.

Lemma near_nonneg k S x : 0 <= S -> near k S x -> 0 <= x.
Proof.
  intros HS [H _]. pose proof (pu_pos k). nra.
Qed.

Lemma inv_pu_ge_1 k : 1 <= / (1 - u32) ^ k.
Proof.
  pose proof (pu_pos k) as P. pose proof (pu_le_1 k) as L.
  rewrite <- Rinv_1 at 1. apply Rinv_le_contravar; lra.
Qed.

Lemma inv_pu_mono j k : (j <= k)%nat -> / (1 - u32) ^ j <= / (1 - u32) ^ k.
Proof.
  intros H. apply Rinv_le_contravar; [apply pu_pos | apply pu_mono; exact H].
Qed.

Lemma near_mono j k S x : 0 <= S -> (j <= k)%nat -> near j S x -> near k S x.
Proof.
  intros HS Hjk [H1 H2]. unfold near, Rdiv in *.
  pose proof (pu_mono j k Hjk). pose proof (inv_pu_mono j k Hjk).
  split; nra.
Qed.

Lemma near_plus k S T x y : near k S x -> near k T y -> near k (S + T) (x + y).
Proof. unfold near, Rdiv. intros [H1 H2] [H3 H4]. split; lra. Qed.

Lemma near_trans a b S t x : near a S t -> near b t x -> near (a + b) S x.
Proof.
  unfold near, Rdiv. intros [H1 H2] [H3 H4].
  rewrite pow_add, Rinv_mult.
  pose proof (pu_pos b) as Pb. pose proof (Rinv_0_lt_compat _ Pb) as Ib.
  split.
  - apply Rle_trans with (t * (1 - u32) ^ b); [| exact H3].
    rewrite <- Rmult_assoc. apply Rmult_le_compat_r; lra.
  - apply Rle_trans with (t * / (1 - u32) ^ b); [exact H4 |].
    rewrite <- Rmult_assoc. apply Rmult_le_compat_r; lra.
Qed.

Lemma near_scale k c S x : 0 <= c -> near k S x -> near k (c * S) (c * x).
Proof.
  unfold near, Rdiv. intros Hc [H1 H2]. split; nra.
Qed.

Lemma near_inv k S x : 0 < S -> near k S x -> near k (/ S) (/ x).
Proof.
  unfold near, Rdiv. intros HS [H1 H2].
  pose proof (pu_pos k) as P. pose proof (Rinv_0_lt_compat _ P) as IP.
  assert (Hx : 0 < x) by nra.
  split.
  - rewrite <- Rinv_inv with ((1 - u32) ^ k).
    rewrite <- Rinv_mult. apply Rinv_le_contravar; [exact Hx | exact H2].
  - rewrite <- Rinv_mult. apply Rinv_le_contravar; [nra | exact H1].
Qed.

Lemma near_mult a b S T x y :
  0 <= S -> 0 <= T -> near a S x -> near b T y -> near (a + b) (S * T) (x * y).
Proof.
  intros HS HT Hx Hy.
  pose proof (near_nonneg _ _ _ HS Hx) as Hx0.
  pose proof (near_nonneg _ _ _ HT Hy) as Hy0.
  destruct Hx as [X1 X2], Hy as [Y1 Y2]. unfold near, Rdiv in *.
  rewrite pow_add, Rinv_mult.
  pose proof (pu_pos a) as Pa. pose proof (pu_pos b) as Pb.
  split.
  - replace (S * T * ((1 - u32) ^ a * (1 - u32) ^ b))
      with ((S * (1 - u32) ^ a) * (T * (1 - u32) ^ b)) by ring.
    apply Rmult_le_compat; nra.
  - replace (S * T * (/ (1 - u32) ^ a * / (1 - u32) ^ b))
      with ((S * / (1 - u32) ^ a) * (T * / (1 - u32) ^ b)) by ring.
    apply Rmult_le_compat; lra.
Qed.

Lemma Rabs_le_both a b : Rabs a <= b -> - b <= a <= b.
Proof. unfold Rabs. destruct (Rcase_abs a); lra. Qed.

(** One rounding of a non-negative value. *)
Lemma near_rnd t x : 0 <= t -> Rabs (x - t) <= u32 * Rabs t -> near 1 t x.
Proof.
  intros Ht H. rewrite (Rabs_right t) in H by lra.
  apply Rabs_le_both in H. pose proof u32_bounds as U.
  unfold near, Rdiv. simpl pow. rewrite Rmult_1_r. split; [lra |].
  apply Rle_trans with (t * (1 + u32)); [lra |].
  apply Rmult_le_compat_l; [exact Ht |].
  apply Rmult_le_reg_r with (1 - u32); [lra |].
  rewrite Rinv_l by lra. nra.
Qed.

(** The square of a rounded value of either sign. *)
Lemma near_sq_rnd t x : Rabs (x - t) <= u32 * Rabs t -> near 2 (t * t) (x * x).
Proof.
  intros H. pose proof u32_bounds as U.
  assert (Hn : near 1 (Rabs t) (Rabs x)).
  { apply near_rnd; [apply Rabs_pos |]. rewrite Rabs_Rabsolu.
    eapply Rle_trans; [apply Rabs_triang_inv2 | exact H]. }
  pose proof (near_mult 1 1 _ _ _ _ (Rabs_pos t) (Rabs_pos t) Hn Hn) as H2.
  rewrite <- !Rabs_mult in H2.
  rewrite !Rabs_right in H2 by nra. exact H2.
Qed.

Lemma near_low k S x : 0 <= S -> near k S x -> S * (1 - INR k * u32) <= x.
Proof.
  intros HS [H _]. pose proof (pu_bernoulli k). nra.
Qed.

Lemma near_high k S x :
  0 <= S -> INR k * (INR k + 1) * u32 <= 1 -> near k S x ->
  x <= S * (1 + (INR k + 1) * u32).
Proof.
  intros HS Hk [_ H]. pose proof (pu_bernoulli k) as B.
  pose proof (pu_pos k) as P. pose proof u32_bounds as U.
  pose proof (pos_INR k) as Kp.
  apply Rle_trans with (S / (1 - u32) ^ k); [exact H |].
  unfold Rdiv. apply Rmult_le_compat_l; [exact HS |].
  apply Rmult_le_reg_r with ((1 - u32) ^ k); [exact P |].
  rewrite Rinv_l by lra.
  apply Rle_trans with ((1 + (INR k + 1) * u32) * (1 - INR k * u32)).
  - nra.
  - apply Rmult_le_compat_l; [nra | exact B].
Qed.

(** Within [k + 1] units of relative error [2^-24] of 1. *)
Lemma near_one k x :
  INR k * (INR k + 1) * u32 <= 1 -> near k 1 x ->
  Rabs (x - 1) <= (INR k + 1) * u32.
Proof.
  intros Hk H. pose proof (near_low k 1 x ltac:(lra) H).
  pose proof (near_high k 1 x ltac:(lra) Hk H). pose proof u32_bounds.
  apply Rabs_le. lra.
Qed.

(** ** Sums of non-negative terms *)

Lemma bpow_half e : bpow (e - 1) = bpow e / 2.
Proof.
  replace e with ((e - 1) + 1)%Z at 2 by lia. rewrite bpow_succ. lra.
Qed.

Lemma acc_ok_nonneg k S x : acc_ok k S x -> 0 <= S /\ 0 <= to_R x.
Proof.
  intros (_ & Hn & Hs & _). pose proof (bpow_pos (-100)).
  assert (0 <= S) by (destruct Hs; lra).
  split; [assumption | eapply near_nonneg; eassumption].
Qed.

Lemma acc_ok_mono j k S x : (j <= k)%nat -> acc_ok j S x -> acc_ok k S x.
Proof.
  intros Hjk H. pose proof (acc_ok_nonneg _ _ _ H) as [HS _].
  destruct H as (Hr & Hn & Hs & Hb).
  split; [exact Hr |]. split; [| split; assumption].
  eapply near_mono; eassumption.
Qed.

Lemma acc_ok_zero k : acc_ok k 0 F32.zero.
Proof.
  split; [exact I |]. split; [| split; [left; reflexivity |]].
  - unfold near, Rdiv. change (to_R F32.zero) with 0. lra.
  - apply Rlt_le, bpow_pos.
Qed.

Lemma acc_ok_add k S T x y :
  INR k <= 8192 -> acc_ok k S x -> acc_ok k T y -> S + T <= bpow 123 ->
  acc_ok (Datatypes.S k) (S + T) (F32.add x y).
Proof.
  intros Hk Hx Hy Hb.
  pose proof (acc_ok_nonneg _ _ _ Hx) as [HS HX].
  pose proof (acc_ok_nonneg _ _ _ Hy) as [HT HY].
  destruct Hx as (Rx & Nx & Zx & _), Hy as (Ry & Ny & Zy & _).
  pose proof (near_plus _ _ _ _ _ Nx Ny) as Nxy.
  pose proof (pu_half k Hk) as Hh. pose proof (pu_pos k) as Pk.
  assert (Hr : in_range (to_R x + to_R y)).
  { destruct Zx as [Zx|Zx], Zy as [Zy|Zy].
    - left. subst S T. apply near_zero in Nx, Ny. lra.
    - right. rewrite Rabs_right by lra. destruct Nxy as [L U]. unfold Rdiv in U.
      assert (/ (1 - u32) ^ k <= 2).
      { rewrite <- (Rinv_inv 2). apply Rinv_le_contravar; lra. }
      pose proof (bpow_half (-100)). pose proof (bpow_le (-125) (-100 - 1) ltac:(lia)).
      pose proof (bpow_succ 123). pose proof (bpow_lt (123 + 1) 127 ltac:(lia)).
      split; nra.
    - right. rewrite Rabs_right by lra. destruct Nxy as [L U]. unfold Rdiv in U.
      assert (/ (1 - u32) ^ k <= 2).
      { rewrite <- (Rinv_inv 2). apply Rinv_le_contravar; lra. }
      pose proof (bpow_half (-100)). pose proof (bpow_le (-125) (-100 - 1) ltac:(lia)).
      pose proof (bpow_succ 123). pose proof (bpow_lt (123 + 1) 127 ltac:(lia)).
      split; nra.
    - right. rewrite Rabs_right by lra. destruct Nxy as [L U]. unfold Rdiv in U.
      assert (/ (1 - u32) ^ k <= 2).
      { rewrite <- (Rinv_inv 2). apply Rinv_le_contravar; lra. }
      pose proof (bpow_half (-100)). pose proof (bpow_le (-125) (-100 - 1) ltac:(lia)).
      pose proof (bpow_succ 123). pose proof (bpow_lt (123 + 1) 127 ltac:(lia)).
      split; nra. }
  destruct (f32_add_rnd x y Rx Ry Hr) as [Rr Er].
  split; [exact Rr |]. split; [| split; [| exact Hb]].
  - replace (Datatypes.S k) with (k + 1)%nat by lia.
    eapply near_trans; [exact Nxy |]. apply near_rnd; [lra | exact Er].
  - pose proof (bpow_pos (-100)). destruct Zx as [Zx|Zx], Zy as [Zy|Zy]; [left | right ..]; lra.
Qed.

(** The exact sum does not decrease, and grows by at most [B] per term. *)
Lemma real_sum_bounds (T : Z -> R) (B : R) (step : Z) :
  forall n i S,
  (forall t, (t < n)%nat -> 0 <= T (i + step * Z.of_nat t)%Z <= B) ->
  S <= iter_from (fun i a => a + T i) step n i S <= S + INR n * B.
Proof.
  induction n as [|n IH]; intros i S HT.
  - simpl. lra.
  - cbn [iter_from]. rewrite S_INR.
    pose proof (HT 0%nat ltac:(lia)) as H0.
    replace (i + step * Z.of_nat 0)%Z with i in H0 by lia.
    specialize (IH (i + step)%Z (S + T i)).
    assert (H : forall t, (t < n)%nat -> 0 <= T (i + step + step * Z.of_nat t)%Z <= B).
    { intros t Ht. specialize (HT (Datatypes.S t) ltac:(lia)).
      replace (i + step + step * Z.of_nat t)%Z
        with (i + step * Z.of_nat (Datatypes.S t))%Z by lia. exact HT. }
    specialize (IH H). lra.
Qed.

(** A loop that adds one term per round. *)
Lemma serial_acc (term : Z -> float) (T : Z -> R) (c : nat) (step : Z) :
  forall n i k S acc,
  (c <= k)%nat -> INR k + INR n <= 8192 ->
  acc_ok k S acc -> S + INR n * bpow 110 <= bpow 123 ->
  (forall t, (t < n)%nat ->
     acc_ok c (T (i + step * Z.of_nat t)%Z) (term (i + step * Z.of_nat t)%Z) /\
     T (i + step * Z.of_nat t)%Z <= bpow 110) ->
  acc_ok (k + n)
    (iter_from (fun i a => a + T i) step n i S)
    (iter_from (fun i a => F32.add a (term i)) step n i acc).
Proof.
  induction n as [|n IH]; intros i k S acc Hc Hk Hacc Hb Hterm.
  - simpl. rewrite Nat.add_0_r. exact Hacc.
  - cbn [iter_from]. rewrite S_INR in Hk, Hb.
    pose proof (pos_INR n) as Hn. pose proof (pos_INR k) as Hkp.
    pose proof (bpow_pos 110) as B110.
    destruct (Hterm 0%nat ltac:(lia)) as [H0 H0b].
    replace (i + step * Z.of_nat 0)%Z with i in H0, H0b by lia.
    pose proof (acc_ok_nonneg _ _ _ H0) as [HT0 _].
    replace (k + Datatypes.S n)%nat with (Datatypes.S k + n)%nat by lia.
    apply IH.
    + lia.
    + rewrite S_INR. lra.
    + apply acc_ok_add; [lra | exact Hacc | | nra].
      apply acc_ok_mono with c; assumption.
    + nra.
    + intros t Ht. specialize (Hterm (Datatypes.S t) ltac:(lia)).
      replace (i + step + step * Z.of_nat t)%Z
        with (i + step * Z.of_nat (Datatypes.S t))%Z by lia. exact Hterm.
Qed.

Lemma lanes_split {A} (add : A -> A -> A) (term : Z -> A) g :
  forall i l0 l1 l2 l3,
  iter_from (fun i '(l0, l1, l2, l3) =>
               (add l0 (term i), add l1 (term (i + 1)%Z),
                add l2 (term (i + 2)%Z), add l3 (term (i + 3)%Z)))
            4 g i (l0, l1, l2, l3) =
  (iter_from (fun i a => add a (term i)) 4 g i l0,
   iter_from (fun i a => add a (term (i + 1)%Z)) 4 g i l1,
   iter_from (fun i a => add a (term (i + 2)%Z)) 4 g i l2,
   iter_from (fun i a => add a (term (i + 3)%Z)) 4 g i l3).
Proof.
  induction g as [|g IH]; intros i l0 l1 l2 l3; [reflexivity |].
  cbn [iter_from]. apply IH.
Qed.

Lemma iter_from_shift0 {A} (f : A -> A -> A) (tm : Z -> A) n :
  forall i z,
  iter_from (fun i a => f a (tm (i + 0)%Z)) 4 n i z =
  iter_from (fun i a => f a (tm i)) 4 n i z.
Proof.
  induction n as [|n IH]; intros i z; [reflexivity |].
  cbn [iter_from]. rewrite Z.add_0_r. apply IH.
Qed.

Lemma INR_bpow n k : (0 <= k)%Z -> INR n <= IZR (2 ^ k) -> INR n * bpow 110 <= bpow (k + 110).
Proof.
  intros Hk H. rewrite bpow_add, (bpow_IZR k) by exact Hk.
  apply Rmult_le_compat_r; [apply Rlt_le, bpow_pos | exact H].
Qed.

(** The scalar reduction: [n] terms, one after the other. *)
Lemma serial_sum_acc (term : Z -> float) (T : Z -> R) (c n : nat) :
  INR c + INR n <= 8192 -> INR n <= 4096 ->
  (forall j, (0 <= j < Z.of_nat n)%Z -> acc_ok c (T j) (term j) /\ T j <= bpow 110) ->
  acc_ok (c + n) (serial_sum Rplus 0 T n) (serial_sum F32.add F32.zero term n).
Proof.
  intros Hk Hn Hterm. unfold serial_sum.
  apply serial_acc with (c := c).
  - lia.
  - exact Hk.
  - apply acc_ok_zero.
  - pose proof (INR_bpow n 12 ltac:(lia) Hn). pose proof (bpow_le (12 + 110) 123 ltac:(lia)).
    lra.
  - intros t Ht. apply Hterm. lia.
Qed.

(** The 4-lane reduction: [g] groups, then the horizontal sum. *)
Lemma lane_sum_acc (term : Z -> float) (T : Z -> R) (c g : nat) :
  INR c + INR g + 3 <= 8192 -> INR g <= 1024 ->
  (forall j, (0 <= j < 4 * Z.of_nat g)%Z -> acc_ok c (T j) (term j) /\ T j <= bpow 110) ->
  acc_ok (c + g + 3) (serial_sum Rplus 0 T (4 * g)) (lane_sum F32.add F32.zero term g).
Proof.
  intros Hk Hg Hterm.
  rewrite <- (lane_sum_serial_sum Rplus 0 T)
    by (intros; try apply Rplus_assoc; try apply Rplus_comm; try apply Rplus_0_l; ring).
  unfold lane_sum, lane_sums. rewrite !lanes_split.
  pose proof (INR_bpow g 10 ltac:(lia) Hg) as Hgb.
  change (10 + 110)%Z with 120%Z in Hgb.
  pose proof (bpow_le 120 123 ltac:(lia)) as B1.
  pose proof (pos_INR c) as Pc. pose proof (pos_INR g) as Pg.
  assert (Hlane : forall l, (0 <= l < 4)%Z ->
    acc_ok (c + g)
      (iter_from (fun i a => a + T (i + l)%Z) 4 g 0%Z 0)
      (iter_from (fun i a => F32.add a (term (i + l)%Z)) 4 g 0%Z F32.zero) /\
    iter_from (fun i a => a + T (i + l)%Z) 4 g 0%Z 0 <= bpow 120).
  { intros l Hl. split.
    - apply (serial_acc (fun i => term (i + l)%Z) (fun i => T (i + l)%Z) c 4).
      + lia.
      + lra.
      + apply acc_ok_zero.
      + lra.
      + intros t Ht. apply Hterm. lia.
    - pose proof (real_sum_bounds (fun i => T (i + l)%Z) (bpow 110) 4 g 0%Z 0) as H.
      cbv beta in H. destruct H as [_ H]; [| lra].
      intros t Ht. destruct (Hterm (0 + 4 * Z.of_nat t + l)%Z ltac:(lia)) as [Ha Hb].
      pose proof (acc_ok_nonneg _ _ _ Ha) as [H0 _]. lra. }
  pose proof (Hlane 0%Z ltac:(lia)) as [A0 U0].
  pose proof (Hlane 1%Z ltac:(lia)) as [A1 U1].
  pose proof (Hlane 2%Z ltac:(lia)) as [A2 U2].
  pose proof (Hlane 3%Z ltac:(lia)) as [A3 U3].
  set (R0 := iter_from (fun i a => a + T (i + 0)%Z) 4 g 0%Z 0) in *.
  set (R1 := iter_from (fun i a => a + T (i + 1)%Z) 4 g 0%Z 0) in *.
  set (R2 := iter_from (fun i a => a + T (i + 2)%Z) 4 g 0%Z 0) in *.
  set (R3 := iter_from (fun i a => a + T (i + 3)%Z) 4 g 0%Z 0) in *.
  set (F0 := iter_from (fun i a => F32.add a (term (i + 0)%Z)) 4 g 0%Z F32.zero) in *.
  set (F1 := iter_from (fun i a => F32.add a (term (i + 1)%Z)) 4 g 0%Z F32.zero) in *.
  set (F2 := iter_from (fun i a => F32.add a (term (i + 2)%Z)) 4 g 0%Z F32.zero) in *.
  set (F3 := iter_from (fun i a => F32.add a (term (i + 3)%Z)) 4 g 0%Z F32.zero) in *.
  rewrite <- (iter_from_shift0 Rplus T), <- (iter_from_shift0 F32.add term).
  fold R0 F0.
  assert (B3 : bpow 123 = 8 * bpow 120).
  { change 123%Z with (3 + 120)%Z. rewrite bpow_add. unfold bpow at 1. simpl. lra. }
  pose proof (bpow_pos 120) as P120.
  pose proof (acc_ok_nonneg _ _ _ A0) as [N0 _].
  pose proof (acc_ok_nonneg _ _ _ A1) as [N1 _].
  pose proof (acc_ok_nonneg _ _ _ A2) as [N2 _].
  pose proof (acc_ok_nonneg _ _ _ A3) as [N3 _].
  assert (Hk0 : INR (c + g) <= 8192 - 3) by (rewrite plus_INR; lra).
  assert (A01 : acc_ok (Datatypes.S (c + g)) (R0 + R1) (F32.add F0 F1))
    by (apply acc_ok_add; [lra | exact A0 | exact A1 | lra]).
  assert (Hk1 : INR (Datatypes.S (c + g)) <= 8192 - 2) by (rewrite S_INR; lra).
  assert (A012 : acc_ok (Datatypes.S (Datatypes.S (c + g))) (R0 + R1 + R2)
                   (F32.add (F32.add F0 F1) F2)).
  { apply acc_ok_add; [lra | exact A01 | | lra].
    apply acc_ok_mono with (c + g)%nat; [lia | exact A2]. }
  assert (Hk2 : INR (Datatypes.S (Datatypes.S (c + g))) <= 8192 - 1)
    by (rewrite S_INR; lra).
  assert (A0123 : acc_ok (Datatypes.S (Datatypes.S (Datatypes.S (c + g))))
                    (R0 + R1 + R2 + R3) (F32.add (F32.add (F32.add F0 F1) F2) F3)).
  { apply acc_ok_add; [lra | exact A012 | | lra].
    apply acc_ok_mono with (c + g)%nat; [lia | exact A3]. }
  replace (c + g + 3)%nat with (Datatypes.S (Datatypes.S (Datatypes.S (c + g)))) by lia.
  exact A0123.
Qed.

(** ** Well-scaled vectors *)

Lemma well_scaled_regular x : well_scaled x = true -> regular x.
Proof.
  destruct x as [s|s| |s m e]; try discriminate; intros H; [exact I |].
  cbn [well_scaled] in H. apply andb_prop in H as [H H3]. apply andb_prop in H as [H1 H2].
  apply Z.eqb_eq in H1. apply Z.leb_le in H2, H3. split; [exact H1 | lia].
Qed.

Lemma well_scaled_range x :
  well_scaled x = true ->
  to_R x = 0 \/ bpow (-50) <= Rabs (to_R x) < bpow 54.
Proof.
  destruct x as [s|s| |s m e]; try discriminate; intros H; [left; reflexivity | right].
  cbn [well_scaled] in H. apply andb_prop in H as [H H3]. apply andb_prop in H as [H1 H2].
  apply Z.eqb_eq in H1. apply Z.leb_le in H2, H3.
  rewrite Rabs_to_R. pose proof (F2R_digits_bounds m e) as [L U]. rewrite H1 in L, U.
  pose proof (bpow_le (-50) (24 - 1 + e) ltac:(lia)).
  pose proof (bpow_le (24 + e) 54 ltac:(lia)). lra.
Qed.

Lemma bpow_sq e : bpow e * bpow e = bpow (2 * e).
Proof. symmetry. apply bpow_double. Qed.

Lemma sq_Rabs x : x * x = Rabs x * Rabs x.
Proof. unfold Rabs. destruct (Rcase_abs x); ring. Qed.

(** The square of a well-scaled element, as a term of a sum. *)
Lemma sq_term_ok x :
  well_scaled x = true ->
  acc_ok 1 (to_R x * to_R x) (F32.mul x x) /\ to_R x * to_R x <= bpow 110.
Proof.
  intros H. pose proof (well_scaled_regular x H) as Hr.
  pose proof (well_scaled_range x H) as Hv.
  pose proof (bpow_sq (-50)) as E1. pose proof (bpow_sq 54) as E2.
  change (2 * -50)%Z with (-100)%Z in E1. change (2 * 54)%Z with 108%Z in E2.
  pose proof (bpow_pos (-50)) as P1. pose proof (bpow_pos 54) as P2.
  pose proof (bpow_le (-125) (-100) ltac:(lia)) as B1.
  pose proof (bpow_le 108 110 ltac:(lia)) as B3.
  pose proof (bpow_le 110 123 ltac:(lia)) as B4.
  pose proof (bpow_lt 108 127 ltac:(lia)) as B5.
  pose proof (Rabs_pos (to_R x)) as Ha.
  pose proof (bpow_pos 110) as P3. pose proof (bpow_pos 123) as P4.
  rewrite (sq_Rabs (to_R x)).
  assert (Hsq : to_R x = 0 \/
                bpow (-100) <= Rabs (to_R x) * Rabs (to_R x) < bpow 108).
  { destruct Hv as [Hv|Hv]; [left; exact Hv | right]. split; nra. }
  assert (Hin : in_range (to_R x * to_R x)).
  { destruct Hsq as [Hz|Hz]; [left; rewrite Hz; ring | right].
    rewrite (sq_Rabs (to_R x)), Rabs_mult, Rabs_Rabsolu. lra. }
  destruct (f32_mul_rnd x x Hr Hr Hin) as [Rr Er].
  rewrite (sq_Rabs (to_R x)) in Er.
  split; [| destruct Hsq as [Hz|Hz]; [rewrite Hz, Rabs_R0; lra | lra]].
  split; [exact Rr |]. split; [| split].
  - apply near_rnd; [nra | exact Er].
  - destruct Hsq as [Hz|Hz]; [left; rewrite Hz, Rabs_R0; ring | right; lra].
  - destruct Hsq as [Hz|Hz]; [rewrite Hz, Rabs_R0; lra | lra].
Qed.

(** ** Exact sums *)

Lemma iter_near (T Y : Z -> R) k step :
  forall n i S S',
  near k S S' ->
  (forall t, (t < n)%nat ->
     near k (T (i + step * Z.of_nat t)%Z) (Y (i + step * Z.of_nat t)%Z)) ->
  near k (iter_from (fun i a => a + T i) step n i S)
         (iter_from (fun i a => a + Y i) step n i S').
Proof.
  induction n as [|n IH]; intros i S S' HS H; [exact HS |].
  cbn [iter_from]. apply IH.
  - apply near_plus; [exact HS |]. specialize (H 0%nat ltac:(lia)).
    replace (i + step * Z.of_nat 0)%Z with i in H by lia. exact H.
  - intros t Ht. specialize (H (Datatypes.S t) ltac:(lia)).
    replace (i + step + step * Z.of_nat t)%Z
      with (i + step * Z.of_nat (Datatypes.S t))%Z by lia. exact H.
Qed.

Lemma serial_near (T Y : Z -> R) k n :
  (forall j, (0 <= j < Z.of_nat n)%Z -> near k (T j) (Y j)) ->
  near k (serial_sum Rplus 0 T n) (serial_sum Rplus 0 Y n).
Proof.
  intros H. unfold serial_sum. apply iter_near.
  - unfold near, Rdiv. lra.
  - intros t Ht. apply H. lia.
Qed.

Lemma iter_scale (T : Z -> R) (c : R) step :
  forall n i S,
  iter_from (fun i a => a + c * T i) step n i (c * S) =
  c * iter_from (fun i a => a + T i) step n i S.
Proof.
  induction n as [|n IH]; intros i S; [reflexivity |].
  cbn [iter_from]. rewrite <- IH. f_equal. ring.
Qed.

Lemma serial_scale (T : Z -> R) (c : R) n :
  serial_sum Rplus 0 (fun i => c * T i) n = c * serial_sum Rplus 0 T n.
Proof.
  unfold serial_sum. rewrite <- iter_scale. f_equal. ring.
Qed.

Lemma iter_ge_init (T : Z -> R) :
  forall n i S,
  (forall t, (i <= t < i + Z.of_nat n)%Z -> 0 <= T t) ->
  S <= iter_from (fun i a => a + T i) 1 n i S.
Proof.
  induction n as [|n IH]; intros i S HT; [simpl; lra |].
  cbn [iter_from]. pose proof (HT i ltac:(lia)).
  apply Rle_trans with (S + T i); [lra |].
  apply IH. intros t Ht. apply HT. lia.
Qed.

Lemma iter_ge_term (T : Z -> R) :
  forall n i S j,
  0 <= S -> (forall t, (i <= t < i + Z.of_nat n)%Z -> 0 <= T t) ->
  (i <= j < i + Z.of_nat n)%Z ->
  T j <= iter_from (fun i a => a + T i) 1 n i S.
Proof.
  induction n as [|n IH]; intros i S j HS HT Hj; [lia |].
  cbn [iter_from]. pose proof (HT i ltac:(lia)) as Hi.
  destruct (Z.eq_dec j i) as [->|Hne].
  - apply Rle_trans with (S + T i); [lra |].
    apply iter_ge_init. intros t Ht. apply HT. lia.
  - apply IH; [lra | intros t Ht; apply HT; lia | lia].
Qed.

Lemma serial_ge_term (T : Z -> R) n j :
  (forall t, (0 <= t < Z.of_nat n)%Z -> 0 <= T t) ->
  (0 <= j < Z.of_nat n)%Z ->
  T j <= serial_sum Rplus 0 T n.
Proof.
  intros HT Hj. unfold serial_sum. apply iter_ge_term; [lra | | lia].
  intros t Ht. apply HT. lia.
Qed.

(** ** The sum of squares that [normalize] and [cosineSimilarity] compute *)

Lemma ScalarSpec_norm_serial m v len :
  ScalarSpec.norm m v len =
  F32.sqrt (serial_sum F32.add F32.zero (sq_elt m v) (Z.to_nat len)).
Proof. reflexivity. Qed.

Lemma SimdSpec_norm_lanes_from m v g :
  forall i l0 l1 l2 l3,
  iter_from (SimdSpec.sq_step m v) 4 g i (SimdC.V128 l0 l1 l2 l3) =
  (let '(k0, k1, k2, k3) :=
     iter_from (fun i '(l0, l1, l2, l3) =>
                  (F32.add l0 (sq_elt m v i), F32.add l1 (sq_elt m v (i + 1)),
                   F32.add l2 (sq_elt m v (i + 2)), F32.add l3 (sq_elt m v (i + 3))))
               4 g i (l0, l1, l2, l3)
   in SimdC.V128 k0 k1 k2 k3).
Proof.
  induction g as [|g IH]; intros i l0 l1 l2 l3; [reflexivity |].
  cbn [iter_from]. rewrite <- IH. f_equal.
  unfold SimdSpec.sq_step, SimdSpec.read4, sq_elt. simd_unfold.
  rewrite !Z.add_assoc. reflexivity.
Qed.

Lemma SimdSpec_norm_lanes m v len :
  SimdSpec.norm m v len =
  F32.sqrt (lane_sum F32.add F32.zero (sq_elt m v) (SimdSpec.groups len)).
Proof.
  unfold SimdSpec.norm, lane_sum, lane_sums, SimdSpec.zero4.
  unfold SimdC.wasm_f32x4_splat. rewrite SimdSpec_norm_lanes_from.
  change (F32.of_Z 0) with F32.zero.
  destruct (iter_from _ 4 (SimdSpec.groups len) 0%Z (F32.zero, F32.zero, F32.zero, F32.zero))
    as [[[k0 k1] k2] k3].
  reflexivity.
Qed.

Lemma INR_to_nat z : (0 <= z)%Z -> INR (Z.to_nat z) = IZR z.
Proof. intros H. rewrite INR_IZR_INZ, Z2Nat.id by exact H. reflexivity. Qed.

Lemma sum_sq_scalar m v len :
  (0 <= len <= 4000)%Z -> scaled_buf m v len ->
  acc_ok (1 + Z.to_nat len) (norm_sq_R m v len)
    (serial_sum F32.add F32.zero (sq_elt m v) (Z.to_nat len)).
Proof.
  intros Hlen Hs. unfold norm_sq_R.
  assert (HI : INR (Z.to_nat len) <= 4000).
  { rewrite INR_to_nat by lia. apply IZR_le. lia. }
  apply serial_sum_acc.
  - simpl INR. lra.
  - lra.
  - intros j Hj. rewrite Z2Nat.id in Hj by lia.
    apply sq_term_ok. apply Hs. exact Hj.
Qed.

Lemma groups_multiple len :
  (0 <= len)%Z -> (len mod 4 = 0)%Z ->
  (4 * SimdSpec.groups len)%nat = Z.to_nat len /\
  INR (SimdSpec.groups len) = IZR len / 4.
Proof.
  intros H0 Hm. unfold SimdSpec.groups.
  pose proof (Z.div_mod len 4 ltac:(lia)) as E. rewrite Hm in E.
  assert (E' : len = (4 * (len / 4))%Z) by lia.
  split; [lia |].
  rewrite INR_to_nat by (apply Z.div_pos; lia).
  rewrite E' at 2. rewrite mult_IZR. lra.
Qed.

Lemma sum_sq_simd m v len :
  (0 <= len <= 4000)%Z -> (len mod 4 = 0)%Z -> scaled_buf m v len ->
  acc_ok (1 + SimdSpec.groups len + 3) (norm_sq_R m v len)
    (lane_sum F32.add F32.zero (sq_elt m v) (SimdSpec.groups len)).
Proof.
  intros Hlen Hm Hs. unfold norm_sq_R.
  destruct (groups_multiple len ltac:(lia) Hm) as [E1 E2].
  assert (HL : IZR len <= 4000) by (apply IZR_le; lia).
  rewrite <- E1.
  apply lane_sum_acc.
  - simpl INR. lra.
  - lra.
  - intros j Hj. apply sq_term_ok. apply Hs. lia.
Qed.

(** ** The computed norm *)

Lemma inv_le_2 k : INR k <= 8192 -> / (1 - u32) ^ k <= 2.
Proof.
  intros H. pose proof (pu_half k H). pose proof (pu_pos k).
  rewrite <- (Rinv_inv 2). apply Rinv_le_contravar; lra.
Qed.

Lemma sq_le_inv a b : 0 <= a -> 0 <= b -> a * a <= b * b -> a <= b.
Proof. intros Ha Hb H. nra. Qed.

(** From the square to the value, to first order: half the roundings. *)
Lemma near_sqrt_tight m t y :
  0 <= t -> 0 <= y -> near m (t * t) (y * y) ->
  (INR m + 1) * (INR m + 1) * u32 <= 1 ->
  Rabs (y - t) <= (INR m + 1) / 2 * u32 * t.
Proof.
  intros Ht Hy Hn Hm. pose proof (pos_INR m) as Pm. pose proof u32_bounds as U.
  assert (Ht2 : 0 <= t * t) by nra.
  pose proof (near_low _ _ _ Ht2 Hn) as L.
  assert (Hprod : INR m * (INR m + 1) * u32 <= 1) by nra.
  pose proof (near_high _ _ _ Ht2 Hprod Hn) as Hi.
  set (c := (INR m + 1) / 2 * u32).
  assert (Hc : 0 <= c <= / 2) by (unfold c; nra).
  assert (Hcu : c * c <= u32) by (unfold c; nra).
  assert (H1 : y <= t * (1 + c)).
  { apply sq_le_inv; [lra | nra |]. unfold c in *. nra. }
  assert (H2 : t * (1 - c) <= y).
  { apply sq_le_inv; [nra | lra |]. unfold c in *. nra. }
  apply Rabs_le. fold c. nra.
Qed.

(** The square root of a computed sum of squares: a positive normal number
    whose square is the exact sum up to two more roundings. *)
Lemma norm_of_sum k S x :
  acc_ok k S x -> 0 < S -> INR k + 2 <= 8192 ->
  regular (F32.sqrt x) /\
  near (k + 2) S (to_R (F32.sqrt x) * to_R (F32.sqrt x)) /\
  bpow (-51) <= to_R (F32.sqrt x) <= bpow 62.
Proof.
  intros Hacc HS Hk. pose proof (acc_ok_nonneg _ _ _ Hacc) as [_ HX].
  destruct Hacc as (Rx & Nx & Zx & Bx).
  destruct (f32_sqrt_rnd x Rx HX) as [Rn Er].
  set (N := to_R (F32.sqrt x)) in *.
  pose proof (sqrt_pos (to_R x)) as Hsq.
  assert (HN0 : 0 <= N).
  { rewrite (Rabs_right (sqrt (to_R x))) in Er by lra.
    apply Rabs_le_both in Er. pose proof u32_bounds. nra. }
  assert (Hn2 : near (k + 2) S (N * N)).
  { eapply near_trans; [exact Nx |].
    pose proof (near_sq_rnd _ _ Er) as H. rewrite sqrt_sqrt in H by exact HX. exact H. }
  split; [exact Rn |]. split; [exact Hn2 |].
  destruct Hn2 as [L U]. unfold Rdiv in U.
  assert (Hk2 : INR (k + 2) <= 8192) by (rewrite plus_INR; simpl INR; lra).
  pose proof (pu_half _ Hk2) as Hh. pose proof (inv_le_2 _ Hk2) as Hi.
  pose proof (pu_pos (k + 2)) as Pp.
  assert (HS100 : bpow (-100) <= S) by (destruct Zx; lra).
  pose proof (bpow_sq (-51)) as E1. change (2 * -51)%Z with (-102)%Z in E1.
  pose proof (bpow_sq 62) as E2. change (2 * 62)%Z with 124%Z in E2.
  pose proof (bpow_half (-100)) as H1. change (-100 - 1)%Z with (-101)%Z in H1.
  pose proof (bpow_le (-102) (-101) ltac:(lia)) as H2.
  pose proof (bpow_succ 123) as H3. change (123 + 1)%Z with 124%Z in H3.
  pose proof (bpow_pos (-51)). pose proof (bpow_pos 62). pose proof (bpow_pos (-100)).
  split; apply sq_le_inv; try lra; nra.
Qed.

Lemma ltb_zero_pos x : regular x -> 0 < to_R x -> F32.ltb (F32.of_Z 0) x = true.
Proof.
  destruct x as [s|s| |s m e]; try contradiction; intros _ H.
  - cbn [to_R] in H. lra.
  - destruct s; [| reflexivity].
    cbn [to_R] in H. pose proof (F2R_pos m e). unfold sgn in H. lra.
Qed.

Lemma of_Z_1 : regular (F32.of_Z 1) /\ to_R (F32.of_Z 1) = 1.
Proof.
  split.
  - vm_compute. split; [reflexivity | split; discriminate].
  - change (F32.of_Z 1) with (S754_finite false 8388608 (-23)).
    cbn [to_R]. unfold sgn, F2R, bpow. simpl. lra.
Qed.

(** One element divided by the computed norm. *)
Lemma div_by_norm x nrm :
  well_scaled x = true -> regular nrm -> bpow (-51) <= to_R nrm <= bpow 62 ->
  rnd (to_R x / to_R nrm) (F32.div x nrm).
Proof.
  intros Hx Rn [NL NU].
  pose proof (well_scaled_regular x Hx) as Rx.
  pose proof (well_scaled_range x Hx) as Vx.
  pose proof (bpow_pos (-51)) as P51.
  set (X := to_R x) in *. set (N := to_R nrm) in *.
  assert (HN : 0 < N) by lra.
  apply f32_div_rnd; [exact Rx | exact Rn | fold N; lra |]. fold X N.
  destruct Vx as [Vx|[V1 V2]]; [left; rewrite Vx; unfold Rdiv; ring | right].
  unfold Rdiv. rewrite Rabs_mult, (Rabs_right (/ N))
    by (apply Rle_ge, Rlt_le, Rinv_0_lt_compat; exact HN).
  assert (I1 : / bpow 62 <= / N) by (apply Rinv_le_contravar; lra).
  assert (I2 : / N <= / bpow (-51)) by (apply Rinv_le_contravar; lra).
  rewrite <- bpow_opp in I1, I2.
  change (Z.opp 62) with (Zneg 62) in I1. change (Z.opp (Zneg 51)) with (Zpos 51) in I2.
  pose proof (bpow_add (-50) (-62)) as A1. change (-50 + -62)%Z with (-112)%Z in A1.
  pose proof (bpow_add 54 51) as A2. change (54 + 51)%Z with 105%Z in A2.
  pose proof (bpow_le (-125) (-112) ltac:(lia)).
  pose proof (bpow_lt 105 127 ltac:(lia)).
  pose proof (bpow_pos (-50)). pose proof (bpow_pos (-62)). pose proof (bpow_pos 54).
  pose proof (Rinv_0_lt_compat _ HN).
  split; nra.
Qed.

Lemma scale_div k S x nrm :
  well_scaled x = true -> regular nrm -> 0 < S ->
  near k S (to_R nrm * to_R nrm) -> bpow (-51) <= to_R nrm <= bpow 62 ->
  near (k + 2) (/ S * (to_R x * to_R x))
       (to_R (F32.div x nrm) * to_R (F32.div x nrm)).
Proof.
  intros Hx Rn HS Hn Hb.
  destruct (div_by_norm x nrm Hx Rn Hb) as [_ Ey].
  destruct Hb as [NL NU]. pose proof (bpow_pos (-51)) as P51.
  set (X := to_R x) in *. set (N := to_R nrm) in *.
  pose proof (near_sq_rnd _ _ Ey) as H2.
  apply near_trans with (X / N * (X / N)); [| exact H2].
  replace (X / N * (X / N)) with (X * X * / (N * N)) by (field; lra).
  rewrite (Rmult_comm (/ S)). apply near_scale; [nra |].
  apply near_inv; assumption.
Qed.

(** The rounded reciprocal of the computed norm. *)
Lemma inv_of_norm nrm :
  regular nrm -> bpow (-51) <= to_R nrm <= bpow 62 ->
  rnd (1 / to_R nrm) (F32.div (F32.of_Z 1) nrm) /\
  bpow (-63) <= to_R (F32.div (F32.of_Z 1) nrm) <= bpow 52.
Proof.
  intros Rn [NL NU]. pose proof (bpow_pos (-51)) as P51.
  destruct of_Z_1 as [R1 V1]. set (N := to_R nrm) in *.
  assert (HN : 0 < N) by lra.
  pose proof (Rinv_0_lt_compat _ HN) as HiN.
  assert (I1 : / bpow 62 <= / N) by (apply Rinv_le_contravar; lra).
  assert (I2 : / N <= / bpow (-51)) by (apply Rinv_le_contravar; lra).
  rewrite <- bpow_opp in I1, I2.
  change (Z.opp 62) with (Zneg 62) in I1. change (Z.opp (Zneg 51)) with (Zpos 51) in I2.
  assert (Hin1 : in_range (to_R (F32.of_Z 1) / N)).
  { right. rewrite V1. unfold Rdiv. rewrite Rmult_1_l, Rabs_right by lra.
    pose proof (bpow_le (-125) (-62) ltac:(lia)).
    pose proof (bpow_lt 51 127 ltac:(lia)). lra. }
  pose proof (f32_div_rnd (F32.of_Z 1) nrm R1 Rn ltac:(fold N; lra) Hin1) as Hr.
  fold N in Hr. rewrite V1 in Hr. split; [exact Hr |].
  destruct Hr as [_ Ei].
  rewrite (Rabs_right (1 / N)) in Ei by (unfold Rdiv; lra).
  apply Rabs_le_both in Ei. pose proof u32_bounds as U.
  pose proof (bpow_half (-62)) as H1. change (-62 - 1)%Z with (-63)%Z in H1.
  pose proof (bpow_succ 51) as H2. change (51 + 1)%Z with 52%Z in H2.
  unfold Rdiv in Ei. rewrite Rmult_1_l in Ei.
  pose proof (bpow_pos (-62)). split; nra.
Qed.

(** One element multiplied by the rounded reciprocal. *)
Lemma mul_by_inv x inv :
  well_scaled x = true -> regular inv -> bpow (-63) <= to_R inv <= bpow 52 ->
  rnd (to_R x * to_R inv) (F32.mul x inv).
Proof.
  intros Hx Ri [IL IU].
  pose proof (well_scaled_regular x Hx) as Rx.
  pose proof (well_scaled_range x Hx) as Vx.
  pose proof (bpow_pos (-63)) as P63.
  apply f32_mul_rnd; [exact Rx | exact Ri |].
  destruct Vx as [Vx|[V2 V3]]; [left; rewrite Vx; ring | right].
  rewrite Rabs_mult, (Rabs_right (to_R inv)) by lra.
  pose proof (bpow_add (-50) (-63)) as A1. change (-50 + -63)%Z with (-113)%Z in A1.
  pose proof (bpow_add 54 52) as A2. change (54 + 52)%Z with 106%Z in A2.
  pose proof (bpow_le (-125) (-113) ltac:(lia)).
  pose proof (bpow_lt 106 127 ltac:(lia)).
  pose proof (bpow_pos (-50)). pose proof (bpow_pos 54).
  split; nra.
Qed.

Lemma scale_mul_inv k S x nrm :
  well_scaled x = true -> regular nrm -> 0 < S ->
  near k S (to_R nrm * to_R nrm) -> bpow (-51) <= to_R nrm <= bpow 62 ->
  near (k + 4) (/ S * (to_R x * to_R x))
       (to_R (F32.mul x (F32.div (F32.of_Z 1) nrm)) *
        to_R (F32.mul x (F32.div (F32.of_Z 1) nrm))).
Proof.
  intros Hx Rn HS Hn Hb.
  destruct (inv_of_norm nrm Rn Hb) as [[Ri Ei] HI].
  destruct (mul_by_inv x _ Hx Ri HI) as [_ Ey].
  destruct Hb as [NL NU]. pose proof (bpow_pos (-51)) as P51.
  set (inv := F32.div (F32.of_Z 1) nrm) in *. set (I := to_R inv) in *.
  set (X := to_R x) in *. set (N := to_R nrm) in *.
  pose proof (near_sq_rnd _ _ Ey) as H2.
  pose proof (near_sq_rnd _ _ Ei) as H3.
  replace (k + 4)%nat with (k + 2 + 2)%nat by lia.
  apply near_trans with (X * I * (X * I)); [| exact H2].
  replace (X * I * (X * I)) with (X * X * (I * I)) by ring.
  rewrite (Rmult_comm (/ S)). apply near_scale; [nra |].
  apply near_trans with (1 / N * (1 / N)); [| exact H3].
  replace (1 / N * (1 / N)) with (/ (N * N)) by (field; lra).
  apply near_inv; assumption.
Qed.

(** The norm of a vector whose squared norm is 1 up to [m] roundings. *)
Lemma sqrt_near_one m y :
  near m 1 y -> (INR m + 1) * (INR m + 1) * u32 <= 1 ->
  Rabs (sqrt y - 1) <= (INR m + 1) / 2 * u32.
Proof.
  intros Hn Hm.
  assert (Hy : 0 <= y) by (apply (near_nonneg m 1 y); [lra | exact Hn]).
  assert (H01 : 0 <= 1) by lra.
  pose proof (near_sqrt_tight m 1 (sqrt y) H01 (sqrt_pos y)) as H.
  rewrite sqrt_sqrt, Rmult_1_l, Rmult_1_r in H by exact Hy.
  apply H; assumption.
Qed.

Lemma norm_sq_R_pos m v len j :
  (0 <= j < len)%Z -> scaled_buf m v len ->
  F32.is_zero (cell m (v + j)) = false ->
  bpow (-100) <= norm_sq_R m v len.
Proof.
  intros Hj Hs Hz. unfold norm_sq_R.
  set (T := fun i => to_R (cell m (v + i)) * to_R (cell m (v + i))).
  apply Rle_trans with (T j).
  - unfold T. pose proof (well_scaled_range _ (Hs j Hj)) as [H0|[H1 _]].
    + exfalso. pose proof (well_scaled_regular _ (Hs j Hj)) as Hr.
      destruct (cell m (v + j)) as [s0|s0| |s0 m0 e0]; try discriminate; try contradiction.
      cbn [to_R] in H0. pose proof (F2R_pos m0 e0). destruct s0; unfold sgn in H0; lra.
    + rewrite sq_Rabs. pose proof (bpow_sq (-50)) as E.
      change (2 * -50)%Z with (-100)%Z in E. pose proof (bpow_pos (-50)). nra.
  - apply serial_ge_term; [| rewrite Z2Nat.id by lia; exact Hj].
    intros t _. unfold T. nra.
Qed.

(** ** [normalize] yields a vector of unit norm *)

Lemma norm_sq_after (m m' : list float) (v len : Z) (k : nat) (g : float -> float) :
  (0 <= len)%Z -> 0 < norm_sq_R m v len ->
  (forall i, (0 <= i < len)%Z -> cell m' (v + i) = g (cell m (v + i))) ->
  (forall i, (0 <= i < len)%Z ->
     near k (/ norm_sq_R m v len * (to_R (cell m (v + i)) * to_R (cell m (v + i))))
            (to_R (g (cell m (v + i))) * to_R (g (cell m (v + i))))) ->
  near k 1 (norm_sq_R m' v len).
Proof.
  intros Hlen HS Hcell Hnear.
  replace 1 with (/ norm_sq_R m v len * norm_sq_R m v len) by (field; lra).
  unfold norm_sq_R at 2 3. rewrite <- serial_scale.
  apply serial_near. intros j Hj. rewrite Z2Nat.id in Hj by lia.
  rewrite (Hcell j Hj). apply Hnear. exact Hj.
Qed.

Lemma ScalarCpp_normalize_unit_norm (s : state) (v len : Z) :
  (0 < len <= 4000)%Z -> valid_buf (mem s) v len -> scaled_buf (mem s) v len ->
  (exists j, (0 <= j < len)%Z /\ F32.is_zero (cell (mem s) (v + j)) = false) ->
  exists s1,
    ScalarCpp.normalize v len s = Ok (tt, s1) /\
    (forall i, (0 <= i < len)%Z -> regular (cell (mem s1) (v + i))) /\
    near (Z.to_nat len + 5) 1 (norm_sq_R (mem s1) v len).
Proof.
  intros Hlen Hv Hs (j & Hj & Hz).
  assert (Hmax : (0 <= len <= INT_MAX)%Z) by (unfold INT_MAX; lia).
  destruct (ScalarCpp_normalize_cells s v len Hmax Hv) as (s1 & Hrun & Hin & _).
  exists s1. split; [exact Hrun |].
  pose proof (norm_sq_R_pos _ _ _ _ Hj Hs Hz) as HS54.
  pose proof (bpow_pos (-100)) as P54.
  pose proof (sum_sq_scalar (mem s) v len ltac:(lia) Hs) as Hacc.
  assert (HI : INR (Z.to_nat len) <= 4000).
  { rewrite INR_to_nat by lia. apply IZR_le. lia. }
  destruct (norm_of_sum _ _ _ Hacc ltac:(lra)) as (Rn & Hn2 & Hb).
  { rewrite plus_INR. simpl INR. lra. }
  rewrite <- ScalarSpec_norm_serial in Rn, Hn2, Hb.
  pose proof (bpow_pos (-51)) as P51.
  rewrite (ltb_zero_pos _ Rn ltac:(lra)) in Hin.
  split.
  { intros i Hi. rewrite (Hin i Hi). apply (div_by_norm _ _ (Hs i Hi) Rn Hb). }
  replace (Z.to_nat len + 5)%nat with (1 + Z.to_nat len + 2 + 2)%nat by lia.
  apply norm_sq_after with (m := mem s)
    (g := fun x => F32.div x (ScalarSpec.norm (mem s) v len)).
  - lia.
  - lra.
  - exact Hin.
  - intros i Hi. apply scale_div; try assumption; [apply Hs; exact Hi | lra].
Qed.

Lemma SimdC_normalize_unit_norm (s : state) (v len : Z) :
  (0 < len <= 4000)%Z -> (len mod 4 = 0)%Z ->
  valid_buf (mem s) v len -> scaled_buf (mem s) v len ->
  (exists j, (0 <= j < len)%Z /\ F32.is_zero (cell (mem s) (v + j)) = false) ->
  exists s1,
    SimdC.normalize v len s = Ok (tt, s1) /\
    (forall i, (0 <= i < len)%Z -> regular (cell (mem s1) (v + i))) /\
    near (SimdSpec.groups len + 10) 1 (norm_sq_R (mem s1) v len).
Proof.
  intros Hlen Hmod Hv Hs (j & Hj & Hz).
  assert (Hmax : (0 <= len <= INT_MAX)%Z) by (unfold INT_MAX; lia).
  destruct (SimdC_normalize_cells s v len Hmax Hmod Hv) as (s1 & Hrun & Hin & _).
  exists s1. split; [exact Hrun |].
  pose proof (norm_sq_R_pos _ _ _ _ Hj Hs Hz) as HS54.
  pose proof (bpow_pos (-100)) as P54.
  pose proof (sum_sq_simd (mem s) v len ltac:(lia) Hmod Hs) as Hacc.
  destruct (groups_multiple len ltac:(lia) Hmod) as [E1 E2].
  assert (HL : IZR len <= 4000) by (apply IZR_le; lia).
  destruct (norm_of_sum _ _ _ Hacc ltac:(lra)) as (Rn & Hn2 & Hb).
  { rewrite !plus_INR. simpl INR. lra. }
  rewrite <- SimdSpec_norm_lanes in Rn, Hn2, Hb.
  split.
  { intros i Hi. rewrite (Hin i Hi).
    destruct (inv_of_norm _ Rn Hb) as [[Ri _] HIb].
    apply (mul_by_inv _ _ (Hs i Hi) Ri HIb). }
  replace (SimdSpec.groups len + 10)%nat
    with (1 + SimdSpec.groups len + 3 + 2 + 4)%nat by lia.
  apply norm_sq_after with (m := mem s)
    (g := fun x => F32.mul x (F32.div (F32.of_Z 1) (SimdSpec.norm (mem s) v len))).
  - lia.
  - lra.
  - exact Hin.
  - intros i Hi. apply scale_mul_inv; try assumption; [apply Hs; exact Hi | lra].
Qed.

Lemma ScalarCpp_normalize_norm_error (s : state) (v len : Z) :
  (0 < len <= 4000)%Z -> valid_buf (mem s) v len -> scaled_buf (mem s) v len ->
  (exists j, (0 <= j < len)%Z /\ F32.is_zero (cell (mem s) (v + j)) = false) ->
  exists s1,
    ScalarCpp.normalize v len s = Ok (tt, s1) /\
    (forall i, (0 <= i < len)%Z -> regular (cell (mem s1) (v + i))) /\
    Rabs (sqrt (norm_sq_R (mem s1) v len) - 1) <= (IZR len + 6) / 2 * u32 /\
    ((len <= 320)%Z -> Rabs (sqrt (norm_sq_R (mem s1) v len) - 1) <= / 100000).
Proof.
  intros Hlen Hv Hs Hnz.
  assert (HL : 1 <= IZR len <= 4000) by (split; apply IZR_le; lia).
  destruct (ScalarCpp_normalize_unit_norm s v len Hlen Hv Hs Hnz)
    as (s1 & Hrun & Hreg & Hn).
  exists s1. split; [exact Hrun |]. split; [exact Hreg |].
  assert (HK : INR (Z.to_nat len + 5) = IZR len + 5).
  { rewrite plus_INR, INR_to_nat by lia. simpl INR. lra. }
  assert (H1 : Rabs (sqrt (norm_sq_R (mem s1) v len) - 1) <= (IZR len + 6) / 2 * u32).
  { replace (IZR len + 6) with (INR (Z.to_nat len + 5) + 1) by lra.
    apply sqrt_near_one; [exact Hn |]. rewrite HK, u32_eq. nra. }
  split; [exact H1 |]. intros H320. apply IZR_le in H320.
  rewrite u32_eq in H1. lra.
Qed.

Lemma SimdC_normalize_norm_error (s : state) (v len : Z) :
  (0 < len <= 4000)%Z -> (len mod 4 = 0)%Z ->
  valid_buf (mem s) v len -> scaled_buf (mem s) v len ->
  (exists j, (0 <= j < len)%Z /\ F32.is_zero (cell (mem s) (v + j)) = false) ->
  exists s2,
    SimdC.normalize v len s = Ok (tt, s2) /\
    (forall i, (0 <= i < len)%Z -> regular (cell (mem s2) (v + i))) /\
    Rabs (sqrt (norm_sq_R (mem s2) v len) - 1) <= (IZR len / 4 + 11) / 2 * u32 /\
    ((len <= 1200)%Z -> Rabs (sqrt (norm_sq_R (mem s2) v len) - 1) <= / 100000).
Proof.
  intros Hlen Hmod Hv Hs Hnz.
  assert (HL : 1 <= IZR len <= 4000) by (split; apply IZR_le; lia).
  destruct (SimdC_normalize_unit_norm s v len Hlen Hmod Hv Hs Hnz)
    as (s2 & Hrun & Hreg & Hn).
  exists s2. split; [exact Hrun |]. split; [exact Hreg |].
  destruct (groups_multiple len ltac:(lia) Hmod) as [_ E2].
  assert (HK : INR (SimdSpec.groups len + 10) = IZR len / 4 + 10).
  { rewrite plus_INR, E2. simpl INR. lra. }
  assert (H1 : Rabs (sqrt (norm_sq_R (mem s2) v len) - 1) <=
               (IZR len / 4 + 11) / 2 * u32).
  { replace (IZR len / 4 + 11) with (INR (SimdSpec.groups len + 10) + 1) by lra.
    apply sqrt_near_one; [exact Hn |]. rewrite HK, u32_eq. nra. }
  split; [exact H1 |]. intros H1200. apply IZR_le in H1200.
  rewrite u32_eq in H1. lra.
Qed.

(** X10: on a vector of at most 4000 well-scaled elements, not all zero,
    [normalize] returns with a vector of finite numbers (each a zero or a
    normal number, none NaN or infinite) whose L2 norm, computed exactly, is
    1 up to [(len + 6) 2^-25] (scalar) and [(len / 4 + 11) 2^-25] (SIMD):
    within the tolerance [1e-5] for up to 320 and 1200 elements. *)
Theorem X10_normalize_unit_norm (s : state) (v len : Z) :
  (0 < len <= 4000)%Z -> valid_buf (mem s) v len -> scaled_buf (mem s) v len ->
  (exists j, (0 <= j < len)%Z /\ F32.is_zero (cell (mem s) (v + j)) = false) ->
  (exists s1,
     ScalarCpp.normalize v len s = Ok (tt, s1) /\
     (forall i, (0 <= i < len)%Z -> regular (cell (mem s1) (v + i))) /\
     Rabs (sqrt (norm_sq_R (mem s1) v len) - 1) <= (IZR len + 6) / 2 * u32 /\
     ((len <= 320)%Z -> Rabs (sqrt (norm_sq_R (mem s1) v len) - 1) <= / 100000)) /\
  ((len mod 4 = 0)%Z ->
   exists s2,
     SimdC.normalize v len s = Ok (tt, s2) /\
     (forall i, (0 <= i < len)%Z -> regular (cell (mem s2) (v + i))) /\
     Rabs (sqrt (norm_sq_R (mem s2) v len) - 1) <= (IZR len / 4 + 11) / 2 * u32 /\
     ((len <= 1200)%Z -> Rabs (sqrt (norm_sq_R (mem s2) v len) - 1) <= / 100000)).
Proof.
  intros Hlen Hv Hs Hnz. split.
  - apply ScalarCpp_normalize_norm_error; assumption.
  - intros Hmod. apply SimdC_normalize_norm_error; assumption.
Qed.

Lemma X10_normalize_unit_norm_witness :
  ((0 < 4 <= 4000)%Z /\ valid_buf (mem state_3_4_0_0) 0 4 /\
   scaled_buf (mem state_3_4_0_0) 0 4 /\
   exists j, (0 <= j < 4)%Z /\ F32.is_zero (cell (mem state_3_4_0_0) (0 + j)) = false) /\
  exists s1,
    ScalarCpp.normalize 0 4 state_3_4_0_0 = Ok (tt, s1) /\
    (forall i, (0 <= i < 4)%Z -> regular (cell (mem s1) (0 + i))) /\
    Rabs (sqrt (norm_sq_R (mem s1) 0 4) - 1) <= (IZR 4 + 6) / 2 * u32 /\
    ((4 <= 320)%Z -> Rabs (sqrt (norm_sq_R (mem s1) 0 4) - 1) <= / 100000).
Proof.
  assert (H1 : (0 < 4 <= 4000)%Z) by lia.
  assert (H2 : valid_buf (mem state_3_4_0_0) 0 4) by (unfold valid_buf; simpl; lia).
  assert (H3 : scaled_buf (mem state_3_4_0_0) 0 4).
  { intros i Hi.
    assert (i = 0 \/ i = 1 \/ i = 2 \/ i = 3)%Z as [-> | [-> | [-> | ->]]] by lia;
      reflexivity. }
  assert (H4 : exists j, (0 <= j < 4)%Z /\
                 F32.is_zero (cell (mem state_3_4_0_0) (0 + j)) = false)
    by (exists 0%Z; split; [lia | reflexivity]).
  split; [auto |].
  exact (proj1 (X10_normalize_unit_norm state_3_4_0_0 0 4 H1 H2 H3 H4)).
Defined.

(** ** The similarity of a vector with itself *)

Lemma ScalarSpec_cos_sums_self m a n :
  forall i z,
  iter_from (ScalarSpec.cos_step m a a) 1 n i (ScalarCpp.CosAcc z z z) =
  (let r := iter_from (fun i acc => F32.add acc (sq_elt m a i)) 1 n i z in
   ScalarCpp.CosAcc r r r).
Proof.
  induction n as [|n IH]; intros i z; [reflexivity |].
  cbn [iter_from]. unfold ScalarSpec.cos_step at 2.
  cbn [ScalarCpp.dot ScalarCpp.normA ScalarCpp.normB]. apply IH.
Qed.

Lemma ScalarSpec_cos_self m a len :
  ScalarSpec.cos m a a len =
  (let x := serial_sum F32.add F32.zero (sq_elt m a) (Z.to_nat len) in
   F32.div x (F32.mul (F32.sqrt x) (F32.sqrt x))).
Proof.
  unfold ScalarSpec.cos, ScalarSpec.cos_sums. rewrite ScalarSpec_cos_sums_self.
  reflexivity.
Qed.

Lemma SimdSpec_cos_sums_self m a g :
  forall i z,
  iter_from (SimdSpec.cos_step m a a) 4 g i (SimdC.CosAcc z z z) =
  (let r := iter_from (SimdSpec.sq_step m a) 4 g i z in SimdC.CosAcc r r r).
Proof.
  induction g as [|g IH]; intros i z; [reflexivity |].
  cbn [iter_from]. unfold SimdSpec.cos_step at 2.
  cbn [SimdC.dot SimdC.normA SimdC.normB]. apply IH.
Qed.

Lemma SimdSpec_sq_lanes m v len :
  SimdC.horizontal_sum (iter_from (SimdSpec.sq_step m v) 4 (SimdSpec.groups len) 0%Z
                          SimdSpec.zero4) =
  lane_sum F32.add F32.zero (sq_elt m v) (SimdSpec.groups len).
Proof.
  unfold lane_sum, lane_sums, SimdSpec.zero4.
  unfold SimdC.wasm_f32x4_splat. rewrite SimdSpec_norm_lanes_from.
  change (F32.of_Z 0) with F32.zero.
  destruct (iter_from _ 4 (SimdSpec.groups len) 0%Z (F32.zero, F32.zero, F32.zero, F32.zero))
    as [[[k0 k1] k2] k3].
  reflexivity.
Qed.

Lemma SimdSpec_cos_self m a len :
  SimdSpec.cos m a a len =
  (let x := lane_sum F32.add F32.zero (sq_elt m a) (SimdSpec.groups len) in
   F32.div x (F32.mul (F32.sqrt x) (F32.sqrt x))).
Proof.
  unfold SimdSpec.cos, SimdSpec.cos_sums. rewrite SimdSpec_cos_sums_self.
  cbv zeta. unfold SimdSpec.cos_result, SimdSpec.cos_denominator.
  cbn [SimdC.dot SimdC.normA SimdC.normB]. rewrite SimdSpec_sq_lanes. reflexivity.
Qed.

(** A computed sum of squares divided by the square of its square root. *)
Lemma ratio_self k S x :
  acc_ok k S x -> 0 < S -> INR k + 2 <= 8192 ->
  Rabs (to_R (F32.div x (F32.mul (F32.sqrt x) (F32.sqrt x))) - 1) <= 5 * u32.
Proof.
  intros Hacc HS Hk.
  destruct (norm_of_sum _ _ _ Hacc HS Hk) as (Rn & _ & NL & NU).
  pose proof (acc_ok_nonneg _ _ _ Hacc) as [_ HX].
  destruct Hacc as (Rx & Nx & Zx & Bx).
  destruct (f32_sqrt_rnd x Rx HX) as [_ Er].
  set (n := F32.sqrt x) in *. set (N := to_R n) in *. set (X := to_R x) in *.
  pose proof (bpow_pos (-51)) as P51.
  assert (HXpos : 0 < X).
  { destruct Nx as [L _]. pose proof (pu_pos k). nra. }
  pose proof (near_sq_rnd _ _ Er) as H2. rewrite sqrt_sqrt in H2 by lra.
  (* the product *)
  pose proof (bpow_sq (-51)) as E1. change (2 * -51)%Z with (-102)%Z in E1.
  pose proof (bpow_sq 62) as E2. change (2 * 62)%Z with 124%Z in E2.
  pose proof (bpow_pos 62) as P62.
  assert (Hin1 : in_range (N * N)).
  { right. rewrite Rabs_right by nra.
    pose proof (bpow_le (-125) (-102) ltac:(lia)).
    pose proof (bpow_lt 124 127 ltac:(lia)). split; nra. }
  destruct (f32_mul_rnd n n Rn Rn Hin1) as [Rp Ep].
  set (p := F32.mul n n) in *. set (P := to_R p) in *.
  assert (HP1 : near 1 (N * N) P) by (apply near_rnd; [nra | exact Ep]).
  pose proof (near_trans _ _ _ _ _ H2 HP1) as HP3.
  assert (HPpos : 0 < P).
  { destruct HP3 as [L _]. pose proof (pu_pos (2 + 1)). nra. }
  (* the quotient *)
  pose proof (near_inv _ _ _ HXpos HP3) as HI.
  pose proof (near_scale _ X _ _ ltac:(lra) HI) as HQ.
  rewrite Rinv_r in HQ by lra.
  assert (Hk3 : INR (2 + 1) <= 8192) by (simpl; lra).
  assert (Hin2 : in_range (X / P)).
  { right. unfold Rdiv. destruct HQ as [L U]. unfold Rdiv in U.
    pose proof (pu_half _ Hk3). pose proof (inv_le_2 _ Hk3).
    rewrite Rabs_right by lra.
    pose proof (bpow_le (-125) (-1) ltac:(lia)).
    assert (bpow (-1) = / 2) by (unfold bpow; simpl; lra).
    assert (2 = bpow 1) by (unfold bpow; simpl; lra).
    pose proof (bpow_lt 1 127 ltac:(lia)). split; lra. }
  destruct (f32_div_rnd x p Rx Rp ltac:(fold P; lra) Hin2) as [Rq Eq].
  fold X P in Eq.
  assert (HQ0 : 0 <= X / P).
  { unfold Rdiv. pose proof (Rinv_0_lt_compat _ HPpos). nra. }
  pose proof (near_rnd _ _ HQ0 Eq) as HQ1.
  pose proof (near_trans _ _ _ _ _ HQ HQ1) as HQ4.
  replace (5 * u32) with ((INR (2 + 1 + 1) + 1) * u32) by (simpl; lra).
  apply near_one; [| exact HQ4]. rewrite u32_eq. simpl. lra.
Qed.

(** X11: the cosine similarity of a well-scaled, nonzero vector of at most
    4000 elements with itself is 1 up to [5 * 2^-24], whatever its length. *)
Theorem X11_cosineSimilarity_self (s : state) (a len : Z) :
  (0 < len <= 4000)%Z -> valid_buf (mem s) a len -> scaled_buf (mem s) a len ->
  (exists j, (0 <= j < len)%Z /\ F32.is_zero (cell (mem s) (a + j)) = false) ->
  (exists r new,
     ScalarCpp.cosineSimilarity a a len s =
       Ok (r, mkState (mem s) (new ++ trace s)) /\
     Rabs (to_R r - 1) <= 5 * u32) /\
  ((len mod 4 = 0)%Z ->
   exists r new,
     SimdC.cosineSimilarity a a len s =
       Ok (r, mkState (mem s) (new ++ trace s)) /\
     Rabs (to_R r - 1) <= 5 * u32).
Proof.
  intros Hlen Hv Hs (j & Hj & Hz).
  assert (Hmax : (0 <= len <= INT_MAX)%Z) by (unfold INT_MAX; lia).
  pose proof (norm_sq_R_pos _ _ _ _ Hj Hs Hz) as HS54.
  pose proof (bpow_pos (-100)) as P54.
  assert (HL : 1 <= IZR len <= 4000) by (split; apply IZR_le; lia).
  split.
  - destruct (ScalarCpp_cosineSimilarity_run s a a len Hmax Hv Hv) as (new & Hrun & _).
    eexists _, new. split; [exact Hrun |].
    rewrite ScalarSpec_cos_self. cbv zeta.
    apply ratio_self with (k := (1 + Z.to_nat len)%nat) (S := norm_sq_R (mem s) a len).
    + apply sum_sq_scalar; [lia | exact Hs].
    + lra.
    + rewrite plus_INR, INR_to_nat by lia. simpl INR. lra.
  - intros Hmod.
    destruct (SimdC_cosineSimilarity_run s a a len Hmax Hmod Hv Hv) as (new & Hrun & _).
    eexists _, new. split; [exact Hrun |].
    rewrite SimdSpec_cos_self. cbv zeta.
    destruct (groups_multiple len ltac:(lia) Hmod) as [_ E2].
    apply ratio_self with (k := (1 + SimdSpec.groups len + 3)%nat)
                          (S := norm_sq_R (mem s) a len).
    + apply sum_sq_simd; [lia | exact Hmod | exact Hs].
    + lra.
    + rewrite !plus_INR, E2. simpl INR. lra.
Qed.

Lemma X11_cosineSimilarity_self_witness :
  ((0 < 4 <= 4000)%Z /\ valid_buf (mem state_3_4_0_0) 0 4 /\
   scaled_buf (mem state_3_4_0_0) 0 4 /\
   exists j, (0 <= j < 4)%Z /\ F32.is_zero (cell (mem state_3_4_0_0) (0 + j)) = false) /\
  exists r new,
    ScalarCpp.cosineSimilarity 0 0 4 state_3_4_0_0 =
      Ok (r, mkState (mem state_3_4_0_0) (new ++ trace state_3_4_0_0)) /\
    Rabs (to_R r - 1) <= 5 * u32.
Proof.
  assert (H1 : (0 < 4 <= 4000)%Z) by lia.
  assert (H2 : valid_buf (mem state_3_4_0_0) 0 4) by (unfold valid_buf; simpl; lia).
  assert (H3 : scaled_buf (mem state_3_4_0_0) 0 4).
  { intros i Hi.
    assert (i = 0 \/ i = 1 \/ i = 2 \/ i = 3)%Z as [-> | [-> | [-> | ->]]] by lia;
      reflexivity. }
  assert (H4 : exists j, (0 <= j < 4)%Z /\
                 F32.is_zero (cell (mem state_3_4_0_0) (0 + j)) = false)
    by (exists 0%Z; split; [lia | reflexivity]).
  split; [auto |].
  exact (proj1 (X11_cosineSimilarity_self state_3_4_0_0 0 4 H1 H2 H3 H4)).
Defined.

(** ** Accuracy of the distance *)

Lemma diff_scaled_well_scaled x : diff_scaled x = true -> well_scaled x = true.
Proof.
  destruct x as [s|s| |s m e]; try discriminate; intros H; [reflexivity |].
  cbn [diff_scaled] in H. apply andb_prop in H as [H H3]. apply andb_prop in H as [H1 H2].
  apply Z.leb_le in H2, H3. cbn [well_scaled]. rewrite H1. simpl.
  apply andb_true_intro. split; apply Z.leb_le; lia.
Qed.

(** Such a number is an integer multiple of [2^-50]. *)
Lemma diff_scaled_grid x :
  diff_scaled x = true -> exists z, to_R x = IZR z * bpow (-50).
Proof.
  destruct x as [s|s| |s m e]; try discriminate; intros H.
  { exists 0%Z. cbn [to_R]. lra. }
  cbn [diff_scaled] in H. apply andb_prop in H as [H H3]. apply andb_prop in H as [H1 H2].
  apply Z.leb_le in H2, H3.
  exists (cond_Zopp s (Zpos m * 2 ^ (e + 50))).
  cbn [to_R]. change (IZR (cond_Zopp s (Zpos m * 2 ^ (e + 50))) * bpow (-50))
    with (F2R (cond_Zopp s (Zpos m * 2 ^ (e + 50))) (-50)).
  rewrite F2R_cond_Zopp. f_equal.
  replace (-50)%Z with (e - (e + 50))%Z by lia. symmetry. apply F2R_shift. lia.
Qed.

Lemma IZR_abs_ge_1 z : z <> 0%Z -> 1 <= Rabs (IZR z).
Proof.
  intros H. rewrite <- abs_IZR. apply IZR_le. lia.
Qed.

(** The square of the difference of two well-scaled elements, as a term of
    a sum: three roundings. *)
Lemma sq_diff_ok x y :
  diff_scaled x = true -> diff_scaled y = true ->
  acc_ok 3 ((to_R x - to_R y) * (to_R x - to_R y))
         (F32.mul (F32.sub x y) (F32.sub x y)) /\
  (to_R x - to_R y) * (to_R x - to_R y) <= bpow 110.
Proof.
  intros Hx Hy.
  pose proof (well_scaled_regular x (diff_scaled_well_scaled x Hx)) as Rx.
  pose proof (well_scaled_regular y (diff_scaled_well_scaled y Hy)) as Ry.
  destruct (diff_scaled_grid x Hx) as (zx & Ex). destruct (diff_scaled_grid y Hy) as (zy & Ey).
  pose proof (well_scaled_range x (diff_scaled_well_scaled x Hx)) as Vx.
  pose proof (well_scaled_range y (diff_scaled_well_scaled y Hy)) as Vy.
  set (X := to_R x) in *. set (Y := to_R y) in *. set (D := X - Y).
  pose proof (bpow_pos (-50)) as P50. pose proof (bpow_pos 54) as P54.
  pose proof (bpow_succ 54) as S55. change (54 + 1)%Z with 55%Z in S55.
  assert (HD : D = 0 \/ bpow (-50) <= Rabs D < bpow 55).
  { destruct (Z.eq_dec zx zy) as [->|Hne]; [left; unfold D; lra | right].
    assert (HDz : D = IZR (zx - zy) * bpow (-50)) by (unfold D; rewrite minus_IZR; lra).
    split.
    - rewrite HDz, Rabs_mult, (Rabs_right (bpow (-50))) by lra.
      pose proof (IZR_abs_ge_1 (zx - zy) ltac:(lia)). nra.
    - unfold D. eapply Rle_lt_trans; [apply Rabs_triang |]. rewrite Rabs_Ropp.
      assert (Rabs X < bpow 54) by (destruct Vx as [->|?]; [rewrite Rabs_R0|]; lra).
      assert (Rabs Y < bpow 54) by (destruct Vy as [->|?]; [rewrite Rabs_R0|]; lra).
      lra. }
  assert (Hin : in_range D).
  { destruct HD as [H0|[H1 H2]]; [left; exact H0 | right].
    pose proof (bpow_le (-125) (-50) ltac:(lia)). pose proof (bpow_lt 55 127 ltac:(lia)).
    lra. }
  destruct (f32_sub_rnd x y Rx Ry Hin) as [Rd Ed]. fold X Y D in Ed.
  set (d := F32.sub x y) in *. set (Dh := to_R d) in *.
  pose proof (near_sq_rnd _ _ Ed) as H2.
  pose proof (bpow_sq (-50)) as E1. change (2 * -50)%Z with (-100)%Z in E1.
  pose proof (bpow_sq 55) as E2. change (2 * 55)%Z with 110%Z in E2.
  pose proof (bpow_pos 110) as P110. pose proof (bpow_pos (-100)) as P100.
  pose proof (Rabs_pos D) as HaD.
  assert (HDD : D * D = 0 \/ bpow (-100) <= D * D <= bpow 110).
  { destruct HD as [H0|[H1 H3]]; [left; rewrite H0; ring | right].
    rewrite (sq_Rabs D). split; nra. }
  assert (Hk2 : INR 2 <= 8192) by (simpl; lra).
  pose proof (pu_half _ Hk2) as Hh. pose proof (inv_le_2 _ Hk2) as Hi.
  assert (Hin2 : in_range (Dh * Dh)).
  { destruct HDD as [H0|[H1 H3]].
    - left. rewrite H0 in H2. apply near_zero in H2. exact H2.
    - right. destruct H2 as [L U]. unfold Rdiv in U.
      assert (0 <= Dh * Dh) by nra. rewrite Rabs_right by lra.
      pose proof (bpow_half (-100)) as Hf. change (-100 - 1)%Z with (-101)%Z in Hf.
      pose proof (bpow_le (-125) (-101) ltac:(lia)).
      pose proof (bpow_succ 110) as Hs. change (110 + 1)%Z with 111%Z in Hs.
      pose proof (bpow_lt 111 127 ltac:(lia)).
      pose proof (pu_pos 2). split; nra. }
  destruct (f32_mul_rnd d d Rd Rd Hin2) as [Rq Eq]. fold Dh in Eq.
  pose proof (bpow_le 110 123 ltac:(lia)) as B123.
  split; [| destruct HDD as [H0|?]; lra].
  split; [exact Rq |]. split; [| split].
  - replace 3%nat with (2 + 1)%nat by lia.
    eapply near_trans; [exact H2 |]. apply near_rnd; [nra | exact Eq].
  - destruct HDD as [H0|?]; [left; exact H0 | right; lra].
  - destruct HDD as [H0|?]; lra.
Qed.

Lemma sum_dist_scalar m a b len :
  (0 <= len <= 4000)%Z -> diff_scaled_buf m a len -> diff_scaled_buf m b len ->
  acc_ok (3 + Z.to_nat len) (dist_sq_R m a b len)
    (serial_sum F32.add F32.zero (sq_diff m a b) (Z.to_nat len)).
Proof.
  intros Hlen Ha Hb. unfold dist_sq_R.
  assert (HI : INR (Z.to_nat len) <= 4000).
  { rewrite INR_to_nat by lia. apply IZR_le. lia. }
  apply serial_sum_acc.
  - simpl INR. lra.
  - lra.
  - intros j Hj. rewrite Z2Nat.id in Hj by lia.
    apply sq_diff_ok; [apply Ha | apply Hb]; exact Hj.
Qed.

Lemma sum_dist_simd m a b len :
  (0 <= len <= 4000)%Z -> (len mod 4 = 0)%Z ->
  diff_scaled_buf m a len -> diff_scaled_buf m b len ->
  acc_ok (3 + SimdSpec.groups len + 3) (dist_sq_R m a b len)
    (lane_sum F32.add F32.zero (sq_diff m a b) (SimdSpec.groups len)).
Proof.
  intros Hlen Hm Ha Hb. unfold dist_sq_R.
  destruct (groups_multiple len ltac:(lia) Hm) as [E1 E2].
  assert (HL : IZR len <= 4000) by (apply IZR_le; lia).
  rewrite <- E1.
  apply lane_sum_acc.
  - simpl INR. lra.
  - lra.
  - intros j Hj. apply sq_diff_ok; [apply Ha | apply Hb]; lia.
Qed.

Lemma regular_zero_value x : regular x -> to_R x = 0 -> F32.is_zero x = true.
Proof.
  destruct x as [s|s| |s m e]; try contradiction; intros _ H; [reflexivity |].
  cbn [to_R] in H. pose proof (F2R_pos m e). destruct s; unfold sgn in H; lra.
Qed.

(** The square root of a computed sum of squares against the exact root. *)
Lemma sqrt_of_sum k S x :
  acc_ok k S x -> INR k + 2 <= 4010 ->
  regular (F32.sqrt x) /\
  Rabs (to_R (F32.sqrt x) - sqrt S) <= (INR k + 3) / 2 * u32 * sqrt S.
Proof.
  intros Hacc Hk. pose proof (acc_ok_nonneg _ _ _ Hacc) as [HS HX].
  pose proof (pos_INR k) as Pk. pose proof u32_bounds as U.
  destruct (Req_dec S 0) as [H0|Hne].
  - destruct Hacc as (Rx & Nx & _). subst S. apply near_zero in Nx.
    pose proof (regular_zero_value x Rx Nx) as Hz.
    destruct x as [s0| | |]; try discriminate.
    cbn [F32.sqrt SFsqrt to_R]. split; [exact I |].
    rewrite sqrt_0, Rminus_diag, Rabs_R0. lra.
  - assert (HSpos : 0 < S) by lra.
    destruct (norm_of_sum _ _ _ Hacc HSpos ltac:(lra)) as (Rs & Hn & NL & _).
    split; [exact Rs |].
    set (d := to_R (F32.sqrt x)) in *.
    pose proof (bpow_pos (-51)).
    pose proof (sqrt_pos S) as Hr. pose proof (sqrt_sqrt S HS) as Er.
    rewrite <- Er in Hn.
    assert (HK : INR (k + 2) = INR k + 2) by (rewrite plus_INR; simpl; lra).
    assert (Hd0 : 0 <= d) by lra.
    pose proof (near_sqrt_tight _ _ _ Hr Hd0 Hn) as H1. rewrite HK in H1.
    replace (INR k + 3) with (INR k + 2 + 1) by lra.
    apply H1. rewrite u32_eq. nra.
Qed.

Lemma ScalarCpp_euclideanDistance_error (s : state) (a b len : Z) :
  (0 <= len <= 4000)%Z ->
  valid_buf (mem s) a len -> valid_buf (mem s) b len ->
  diff_scaled_buf (mem s) a len -> diff_scaled_buf (mem s) b len ->
  exists r new,
    ScalarCpp.euclideanDistance a b len s =
      Ok (r, mkState (mem s) (new ++ trace s)) /\
    regular r /\
    Rabs (to_R r - sqrt (dist_sq_R (mem s) a b len)) <=
      (IZR len + 6) / 2 * u32 * sqrt (dist_sq_R (mem s) a b len).
Proof.
  intros Hlen Hva Hvb Ha Hb.
  assert (Hmax : (0 <= len <= INT_MAX)%Z) by (unfold INT_MAX; lia).
  assert (HL : 0 <= IZR len <= 4000) by (split; apply IZR_le; lia).
  destruct (ScalarCpp_euclideanDistance_run s a b len Hmax Hva Hvb) as (new & Hrun & _).
  eexists _, new. split; [exact Hrun |].
  rewrite ScalarSpec_dist_serial.
  pose proof (sqrt_of_sum _ _ _ (sum_dist_scalar (mem s) a b len Hlen Ha Hb)) as H.
  rewrite plus_INR, INR_to_nat in H by lia. simpl INR in H.
  destruct H as [Rr H]; [lra |]. split; [exact Rr |].
  eapply Rle_trans; [exact H |]. apply Req_le. field.
Qed.

Lemma SimdC_euclideanDistance_error (s : state) (a b len : Z) :
  (0 <= len <= 4000)%Z -> (len mod 4 = 0)%Z ->
  valid_buf (mem s) a len -> valid_buf (mem s) b len ->
  diff_scaled_buf (mem s) a len -> diff_scaled_buf (mem s) b len ->
  exists r new,
    SimdC.euclideanDistance a b len s =
      Ok (r, mkState (mem s) (new ++ trace s)) /\
    regular r /\
    Rabs (to_R r - sqrt (dist_sq_R (mem s) a b len)) <=
      (IZR len / 4 + 9) / 2 * u32 * sqrt (dist_sq_R (mem s) a b len).
Proof.
  intros Hlen Hmod Hva Hvb Ha Hb.
  assert (Hmax : (0 <= len <= INT_MAX)%Z) by (unfold INT_MAX; lia).
  assert (HL : 0 <= IZR len <= 4000) by (split; apply IZR_le; lia).
  destruct (SimdC_euclideanDistance_run s a b len Hmax Hmod Hva Hvb) as (new & Hrun & _).
  eexists _, new. split; [exact Hrun |].
  rewrite SimdSpec_dist_lanes.
  destruct (groups_multiple len ltac:(lia) Hmod) as [_ E2].
  pose proof (sqrt_of_sum _ _ _ (sum_dist_simd (mem s) a b len Hlen Hmod Ha Hb)) as H.
  rewrite !plus_INR, E2 in H. simpl INR in H.
  destruct H as [Rr H]; [lra |]. split; [exact Rr |].
  eapply Rle_trans; [exact H |]. apply Req_le. field.
Qed.

(** X12: on vectors of at most 4000 elements, each zero or of magnitude in
    [[2^-27, 2^54)], [euclideanDistance] returns a finite number (a zero or a
    normal number: nothing overflowed or underflowed), and this number is the
    exact Euclidean distance up to the relative error [(len + 6) 2^-25]
    (scalar) and [(len / 4 + 9) 2^-25] (SIMD). *)
Theorem X12_euclideanDistance_accuracy (s : state) (a b len : Z) :
  (0 <= len <= 4000)%Z ->
  valid_buf (mem s) a len -> valid_buf (mem s) b len ->
  diff_scaled_buf (mem s) a len -> diff_scaled_buf (mem s) b len ->
  (exists r new,
     ScalarCpp.euclideanDistance a b len s =
       Ok (r, mkState (mem s) (new ++ trace s)) /\
     regular r /\
     Rabs (to_R r - sqrt (dist_sq_R (mem s) a b len)) <=
       (IZR len + 6) / 2 * u32 * sqrt (dist_sq_R (mem s) a b len)) /\
  ((len mod 4 = 0)%Z ->
   exists r new,
     SimdC.euclideanDistance a b len s =
       Ok (r, mkState (mem s) (new ++ trace s)) /\
     regular r /\
     Rabs (to_R r - sqrt (dist_sq_R (mem s) a b len)) <=
       (IZR len / 4 + 9) / 2 * u32 * sqrt (dist_sq_R (mem s) a b len)).
Proof.
  intros Hlen Hva Hvb Ha Hb. split.
  - apply ScalarCpp_euclideanDistance_error; assumption.
  - intros Hmod. apply SimdC_euclideanDistance_error; assumption.
Qed.

Lemma X12_euclideanDistance_accuracy_witness :
  ((0 <= 4 <= 4000)%Z /\
   valid_buf (mem state_e1_e2) 0 4 /\ valid_buf (mem state_e1_e2) 4 4 /\
   diff_scaled_buf (mem state_e1_e2) 0 4 /\ diff_scaled_buf (mem state_e1_e2) 4 4) /\
  exists r new,
    ScalarCpp.euclideanDistance 0 4 4 state_e1_e2 =
      Ok (r, mkState (mem state_e1_e2) (new ++ trace state_e1_e2)) /\
    regular r /\
    Rabs (to_R r - sqrt (dist_sq_R (mem state_e1_e2) 0 4 4)) <=
      (IZR 4 + 6) / 2 * u32 * sqrt (dist_sq_R (mem state_e1_e2) 0 4 4).
Proof.
  assert (H1 : (0 <= 4 <= 4000)%Z) by lia.
  assert (H2 : valid_buf (mem state_e1_e2) 0 4) by (unfold valid_buf; simpl; lia).
  assert (H3 : valid_buf (mem state_e1_e2) 4 4) by (unfold valid_buf; simpl; lia).
  assert (H4 : diff_scaled_buf (mem state_e1_e2) 0 4).
  { intros i Hi.
    assert (i = 0 \/ i = 1 \/ i = 2 \/ i = 3)%Z as [-> | [-> | [-> | ->]]] by lia;
      reflexivity. }
  assert (H5 : diff_scaled_buf (mem state_e1_e2) 4 4).
  { intros i Hi.
    assert (i = 0 \/ i = 1 \/ i = 2 \/ i = 3)%Z as [-> | [-> | [-> | ->]]] by lia;
      reflexivity. }
  split; [auto 6 |].
  exact (proj1 (X12_euclideanDistance_accuracy state_e1_e2 0 4 4 H1 H2 H3 H4 H5)).
Defined.

(** ** Each element of the normalized vector *)

(** A rounded value has the sign of the exact one. *)
Lemma rnd_same_sign t x : Rabs (x - t) <= u32 * Rabs t -> 0 <= x * t.
Proof.
  intros H. pose proof u32_bounds as U. apply Rabs_le_both in H.
  unfold Rabs in H. destruct (Rcase_abs t); nra.
Qed.

(** From the square to the value: [y] has the sign of [t] and its square is
    [t^2] up to [m] roundings. *)
Lemma near_sq_value m t y :
  0 <= y * t -> near m (t * t) (y * y) -> INR m + 1 <= 4010 ->
  Rabs (y - t) <= (INR m + 1) / 2 * u32 * Rabs t.
Proof.
  intros Hs Hn Hm. pose proof (pos_INR m) as Pm. pose proof u32_bounds as U.
  rewrite (sq_Rabs t), (sq_Rabs y) in Hn.
  pose proof (near_sqrt_tight m _ _ (Rabs_pos t) (Rabs_pos y) Hn) as H.
  assert (Hc : (INR m + 1) * (INR m + 1) * u32 <= 1) by (rewrite u32_eq; nra).
  specialize (H Hc). apply Rabs_le_both in H.
  apply Rabs_le. revert H Hs. unfold Rabs.
  destruct (Rcase_abs t), (Rcase_abs y); intros; nra.
Qed.

(** An element scaled by the computed norm against the exact quotient. *)
Lemma scaled_value m S x y N :
  0 < S -> 0 < N -> 0 <= y * (x / N) ->
  near m (/ S * (x * x)) (y * y) -> INR m + 1 <= 4010 ->
  Rabs (y - x / sqrt S) <= (INR m + 1) / 2 * u32 * Rabs (x / sqrt S).
Proof.
  intros HS HN Hsign Hn Hm.
  pose proof (sqrt_lt_R0 S HS) as Hr. pose proof (sqrt_sqrt S (Rlt_le _ _ HS)) as Er.
  replace (/ S * (x * x)) with (x / sqrt S * (x / sqrt S)) in Hn
    by (rewrite <- Er at 3; field; lra).
  apply near_sq_value; [| exact Hn | exact Hm].
  assert (Hi1 : 0 < / N) by (apply Rinv_0_lt_compat; lra).
  assert (Hi2 : 0 < / sqrt S) by (apply Rinv_0_lt_compat; lra).
  unfold Rdiv in *.
  replace (y * (x * / sqrt S)) with (y * (x * / N) * (N * / sqrt S)) by (field; lra).
  apply Rmult_le_pos; [exact Hsign | nra].
Qed.

Lemma ScalarCpp_normalize_elements (s : state) (v len : Z) :
  (0 < len <= 4000)%Z -> valid_buf (mem s) v len -> scaled_buf (mem s) v len ->
  (exists j, (0 <= j < len)%Z /\ F32.is_zero (cell (mem s) (v + j)) = false) ->
  exists s1,
    ScalarCpp.normalize v len s = Ok (tt, s1) /\
    forall i, (0 <= i < len)%Z ->
      regular (cell (mem s1) (v + i)) /\
      Rabs (to_R (cell (mem s1) (v + i)) -
            to_R (cell (mem s) (v + i)) / sqrt (norm_sq_R (mem s) v len)) <=
      (IZR len + 6) / 2 * u32 *
      Rabs (to_R (cell (mem s) (v + i)) / sqrt (norm_sq_R (mem s) v len)).
Proof.
  intros Hlen Hv Hs (j & Hj & Hz).
  assert (Hmax : (0 <= len <= INT_MAX)%Z) by (unfold INT_MAX; lia).
  pose proof (norm_sq_R_pos _ _ _ _ Hj Hs Hz) as HS54.
  pose proof (bpow_pos (-100)) as P54. pose proof (bpow_pos (-51)) as P51.
  assert (HI : INR (Z.to_nat len) = IZR len) by (apply INR_to_nat; lia).
  assert (HL : 1 <= IZR len <= 4000) by (split; apply IZR_le; lia).
  destruct (ScalarCpp_normalize_cells s v len Hmax Hv) as (s1 & Hrun & Hin & _).
  exists s1. split; [exact Hrun |].
  pose proof (sum_sq_scalar (mem s) v len ltac:(lia) Hs) as Hacc.
  destruct (norm_of_sum _ _ _ Hacc ltac:(lra)) as (Rn & Hn2 & Hb).
  { rewrite plus_INR, HI. simpl INR. lra. }
  rewrite <- ScalarSpec_norm_serial in Rn, Hn2, Hb.
  rewrite (ltb_zero_pos _ Rn ltac:(lra)) in Hin.
  intros i Hi. rewrite (Hin i Hi).
  destruct (div_by_norm _ _ (Hs i Hi) Rn Hb) as [Ry Ey].
  split; [exact Ry |].
  pose proof (scaled_value (1 + Z.to_nat len + 2 + 2) (norm_sq_R (mem s) v len)
                _ _ (to_R (ScalarSpec.norm (mem s) v len))
                ltac:(lra) ltac:(lra) (rnd_same_sign _ _ Ey)
                (scale_div (1 + Z.to_nat len + 2) (norm_sq_R (mem s) v len) _ _
                   (Hs i Hi) Rn ltac:(lra) Hn2 Hb)) as H.
  rewrite !plus_INR, HI in H. simpl INR in H.
  eapply Rle_trans; [apply H; lra |]. apply Req_le. field.
Qed.

Lemma SimdC_normalize_elements (s : state) (v len : Z) :
  (0 < len <= 4000)%Z -> (len mod 4 = 0)%Z ->
  valid_buf (mem s) v len -> scaled_buf (mem s) v len ->
  (exists j, (0 <= j < len)%Z /\ F32.is_zero (cell (mem s) (v + j)) = false) ->
  exists s2,
    SimdC.normalize v len s = Ok (tt, s2) /\
    forall i, (0 <= i < len)%Z ->
      regular (cell (mem s2) (v + i)) /\
      Rabs (to_R (cell (mem s2) (v + i)) -
            to_R (cell (mem s) (v + i)) / sqrt (norm_sq_R (mem s) v len)) <=
      (IZR len / 4 + 11) / 2 * u32 *
      Rabs (to_R (cell (mem s) (v + i)) / sqrt (norm_sq_R (mem s) v len)).
Proof.
  intros Hlen Hmod Hv Hs (j & Hj & Hz).
  assert (Hmax : (0 <= len <= INT_MAX)%Z) by (unfold INT_MAX; lia).
  pose proof (norm_sq_R_pos _ _ _ _ Hj Hs Hz) as HS54.
  pose proof (bpow_pos (-100)) as P54. pose proof (bpow_pos (-51)) as P51.
  assert (HL : 1 <= IZR len <= 4000) by (split; apply IZR_le; lia).
  destruct (SimdC_normalize_cells s v len Hmax Hmod Hv) as (s2 & Hrun & Hin & _).
  exists s2. split; [exact Hrun |].
  pose proof (sum_sq_simd (mem s) v len ltac:(lia) Hmod Hs) as Hacc.
  destruct (groups_multiple len ltac:(lia) Hmod) as [_ E2].
  destruct (norm_of_sum _ _ _ Hacc ltac:(lra)) as (Rn & Hn2 & Hb).
  { rewrite !plus_INR, E2. simpl INR. lra. }
  rewrite <- SimdSpec_norm_lanes in Rn, Hn2, Hb.
  intros i Hi. rewrite (Hin i Hi).
  destruct (inv_of_norm _ Rn Hb) as [[Ri Ei] HIb].
  destruct (mul_by_inv _ _ (Hs i Hi) Ri HIb) as [Ry Ey].
  split; [exact Ry |].
  apply rnd_same_sign in Ey, Ei.
  set (X := to_R (cell (mem s) (v + i))) in *.
  set (N := to_R (SimdSpec.norm (mem s) v len)) in *.
  set (I := to_R (F32.div (F32.of_Z 1) (SimdSpec.norm (mem s) v len))) in *.
  set (Y := to_R (F32.mul (cell (mem s) (v + i))
                    (F32.div (F32.of_Z 1) (SimdSpec.norm (mem s) v len)))) in *.
  assert (HN : 0 < N) by lra.
  assert (Hsign : 0 <= Y * (X / N)).
  { pose proof (Rinv_0_lt_compat _ HN) as HiN. pose proof (bpow_pos (-63)).
    unfold Rdiv. replace (Y * (X * / N)) with (Y * (X * I) * (/ N * / I))
      by (field; lra).
    apply Rmult_le_pos; [exact Ey |].
    apply Rmult_le_pos; [lra |]. apply Rlt_le, Rinv_0_lt_compat. lra. }
  pose proof (scaled_value (1 + SimdSpec.groups len + 3 + 2 + 4)
                (norm_sq_R (mem s) v len) X Y N
                ltac:(lra) HN Hsign
                (scale_mul_inv (1 + SimdSpec.groups len + 3 + 2)
                   (norm_sq_R (mem s) v len) _ _
                   (Hs i Hi) Rn ltac:(lra) Hn2 Hb)) as H.
  rewrite !plus_INR, E2 in H. simpl INR in H.
  eapply Rle_trans; [apply H; lra |]. apply Req_le. field.
Qed.

(** X13: [normalize] replaces each element [v[i]] of a well-scaled vector by
    a finite number (a zero or a normal number, never NaN or an infinity)
    that is the exact quotient [v[i] / ||v||] up to the relative error
    [(len + 6) 2^-25] (scalar) and [(len / 4 + 11) 2^-25] (SIMD). *)
Theorem X13_normalize_elements (s : state) (v len : Z) :
  (0 < len <= 4000)%Z -> valid_buf (mem s) v len -> scaled_buf (mem s) v len ->
  (exists j, (0 <= j < len)%Z /\ F32.is_zero (cell (mem s) (v + j)) = false) ->
  (exists s1,
     ScalarCpp.normalize v len s = Ok (tt, s1) /\
     forall i, (0 <= i < len)%Z ->
       regular (cell (mem s1) (v + i)) /\
       Rabs (to_R (cell (mem s1) (v + i)) -
             to_R (cell (mem s) (v + i)) / sqrt (norm_sq_R (mem s) v len)) <=
       (IZR len + 6) / 2 * u32 *
       Rabs (to_R (cell (mem s) (v + i)) / sqrt (norm_sq_R (mem s) v len))) /\
  ((len mod 4 = 0)%Z ->
   exists s2,
     SimdC.normalize v len s = Ok (tt, s2) /\
     forall i, (0 <= i < len)%Z ->
       regular (cell (mem s2) (v + i)) /\
       Rabs (to_R (cell (mem s2) (v + i)) -
             to_R (cell (mem s) (v + i)) / sqrt (norm_sq_R (mem s) v len)) <=
       (IZR len / 4 + 11) / 2 * u32 *
       Rabs (to_R (cell (mem s) (v + i)) / sqrt (norm_sq_R (mem s) v len))).
Proof.
  intros Hlen Hv Hs Hnz. split.
  - destruct (ScalarCpp_normalize_elements s v len Hlen Hv Hs Hnz) as (s1 & Hrun & H).
    exists s1. split; [exact Hrun |]. intros i Hi. apply H. exact Hi.
  - intros Hmod.
    destruct (SimdC_normalize_elements s v len Hlen Hmod Hv Hs Hnz) as (s2 & Hrun & H).
    exists s2. split; [exact Hrun |]. intros i Hi. apply H. exact Hi.
Qed.

Lemma X13_normalize_elements_witness :
  ((0 < 4 <= 4000)%Z /\ valid_buf (mem state_3_4_0_0) 0 4 /\
   scaled_buf (mem state_3_4_0_0) 0 4 /\
   exists j, (0 <= j < 4)%Z /\ F32.is_zero (cell (mem state_3_4_0_0) (0 + j)) = false) /\
  exists s1,
    ScalarCpp.normalize 0 4 state_3_4_0_0 = Ok (tt, s1) /\
    forall i, (0 <= i < 4)%Z ->
      regular (cell (mem s1) (0 + i)) /\
      Rabs (to_R (cell (mem s1) (0 + i)) -
            to_R (cell (mem state_3_4_0_0) (0 + i)) /
              sqrt (norm_sq_R (mem state_3_4_0_0) 0 4)) <=
      (IZR 4 + 6) / 2 * u32 *
      Rabs (to_R (cell (mem state_3_4_0_0) (0 + i)) /
              sqrt (norm_sq_R (mem state_3_4_0_0) 0 4)).
Proof.
  assert (H1 : (0 < 4 <= 4000)%Z) by lia.
  assert (H2 : valid_buf (mem state_3_4_0_0) 0 4) by (unfold valid_buf; simpl; lia).
  assert (H3 : scaled_buf (mem state_3_4_0_0) 0 4).
  { intros i Hi.
    assert (i = 0 \/ i = 1 \/ i = 2 \/ i = 3)%Z as [-> | [-> | [-> | ->]]] by lia;
      reflexivity. }
  assert (H4 : exists j, (0 <= j < 4)%Z /\
                 F32.is_zero (cell (mem state_3_4_0_0) (0 + j)) = false)
    by (exists 0%Z; split; [lia | reflexivity]).
  split; [auto |].
  exact (proj1 (X13_normalize_elements state_3_4_0_0 0 4 H1 H2 H3 H4)).
Defined.

(** ** Values on a grid *)

Lemma on_grid_0 G : on_grid G 0.
Proof. exists 0%Z. lra. Qed.

Lemma on_grid_mono G G' t : (G <= G')%Z -> on_grid G' t -> on_grid G t.
Proof.
  intros H [z ->]. exists (z * 2 ^ (G' - G))%Z.
  rewrite mult_IZR, <- bpow_IZR by lia.
  replace G' with ((G' - G) + G)%Z at 1 by lia. rewrite bpow_add. ring.
Qed.

Lemma on_grid_plus G x y : on_grid G x -> on_grid G y -> on_grid G (x + y).
Proof. intros [a ->] [b ->]. exists (a + b)%Z. rewrite plus_IZR. ring. Qed.

Lemma on_grid_opp G x : on_grid G x -> on_grid G (- x).
Proof. intros [a ->]. exists (- a)%Z. rewrite opp_IZR. ring. Qed.

Lemma on_grid_minus G x y : on_grid G x -> on_grid G y -> on_grid G (x - y).
Proof. intros Hx Hy. apply on_grid_plus; [exact Hx | apply on_grid_opp; exact Hy]. Qed.

Lemma on_grid_mult G1 G2 x y :
  on_grid G1 x -> on_grid G2 y -> on_grid (G1 + G2) (x * y).
Proof.
  intros [a ->] [b ->]. exists (a * b)%Z. rewrite mult_IZR, bpow_add. ring.
Qed.

Lemma on_grid_sgn G s x : on_grid G x -> on_grid G (sgn s * x).
Proof.
  intros H. destruct s; unfold sgn.
  - replace (-1 * x) with (- x) by ring. apply on_grid_opp. exact H.
  - rewrite Rmult_1_l. exact H.
Qed.

(** A nonzero value on the grid is at least one step away from zero. *)
Lemma on_grid_nonzero G t : on_grid G t -> t <> 0 -> bpow G <= Rabs t.
Proof.
  intros [z ->] Hne. pose proof (bpow_pos G) as P.
  rewrite Rabs_mult, (Rabs_right (bpow G)) by lra.
  assert (z <> 0%Z) by (intros ->; apply Hne; ring).
  pose proof (IZR_abs_ge_1 z H). nra.
Qed.

(** Two values on the grid that differ by at most half a step are equal. *)
Lemma on_grid_eq G a b :
  on_grid G a -> on_grid G b -> Rabs (a - b) <= bpow G / 2 -> a = b.
Proof.
  intros Ha Hb H. destruct (Req_dec (a - b) 0) as [E|E]; [lra |].
  pose proof (on_grid_nonzero G (a - b) (on_grid_minus _ _ _ Ha Hb) E).
  pose proof (bpow_pos G). lra.
Qed.

Lemma to_R_on_grid s m e : on_grid e (to_R (S754_finite s m e)).
Proof. cbn [to_R]. apply on_grid_sgn. exists (Zpos m). reflexivity. Qed.

(** Rounding an exactly known value keeps it on every grid it is on. *)
Lemma round_exact_grid s p e G :
  (24 <= Zpos (digits2_pos p))%Z ->
  bpow (-126) <= F2R (Zpos p) e < bpow 127 ->
  on_grid G (F2R (Zpos p) e) ->
  on_grid G (to_R (binary_round_aux 24 128 s (Zpos p) e loc_Exact)).
Proof.
  intros Hd [Hlo Hhi] Hg.
  pose proof (F2R_digits_bounds p e) as [D1 D2].
  destruct (binary_round_aux_correct s p e loc_Exact (F2R (Zpos p) e))
    as (m' & e' & Hres & _ & _ & _ & Hhalf & Hz).
  - exact Hd.
  - assert (H : bpow (-126) < bpow (Zpos (digits2_pos p) + e)) by lra.
    apply bpow_lt_inv in H. lia.
  - assert (H : bpow (Zpos (digits2_pos p) - 1 + e) < bpow 127) by lra.
    apply bpow_lt_inv in H. lia.
  - reflexivity.
  - rewrite Hres. cbn [to_R]. apply on_grid_sgn.
    set (E := (e + (Zpos (digits2_pos p) - 24))%Z) in *.
    destruct (Z_le_gt_dec G E) as [Hle|Hgt].
    + apply on_grid_mono with E; [exact Hle | exact Hz].
    + assert (HgE : on_grid E (F2R (Zpos p) e)) by (apply on_grid_mono with G; [lia | exact Hg]).
      rewrite (on_grid_eq E _ _ Hz HgE Hhalf). exact Hg.
Qed.

Lemma binary_round_grid s p e G :
  bpow (-126) <= F2R (Zpos p) e < bpow 127 ->
  on_grid G (F2R (Zpos p) e) ->
  on_grid G (to_R (binary_round 24 128 s p e)).
Proof.
  intros [Hlo Hhi] Hg. unfold binary_round.
  pose proof (F2R_digits_bounds p e) as [D1 D2].
  set (d := Zpos (digits2_pos p)) in *.
  assert (Hd1 : (-125 <= d + e)%Z).
  { assert (H : bpow (-126) < bpow (d + e)) by lra. apply bpow_lt_inv in H. lia. }
  rewrite fexp_normal by exact Hd1.
  destruct (Z_lt_le_dec d 24) as [Hlt|Hge].
  - destruct (shl_align_value p e (d + e - 24) ltac:(lia)) as (-> & Hv & Hp).
    replace (e - (d + e - 24))%Z with (24 - d)%Z in * by lia.
    pose proof (digits2_pos_shift p (24 - d) ltac:(lia)) as Hdig. fold d in Hdig.
    assert (E : F2R (Zpos (Z.to_pos (Zpos p * 2 ^ (24 - d)))) (d + e - 24) = F2R (Zpos p) e)
      by (rewrite Z2Pos.id by exact Hp; exact Hv).
    apply round_exact_grid; rewrite ?E; try assumption; [rewrite Hdig; lia | lra].
  - unfold shl_align.
    destruct (d + e - 24 - e)%Z as [|q|q] eqn:E; try lia;
      (apply round_exact_grid; [fold d; lia | lra | exact Hg]).
Qed.

Lemma binary_normalize_grid z e G :
  in_range (F2R z e) -> on_grid G (F2R z e) ->
  on_grid G (to_R (binary_normalize 24 128 z e false)).
Proof.
  intros H Hg. apply in_range_126 in H.
  destruct z as [|p|p]; cbn [binary_normalize].
  - apply on_grid_0.
  - pose proof (F2R_pos p e) as Hp.
    destruct H as [H|H]; [lra |]. rewrite Rabs_right in H by lra.
    apply binary_round_grid; assumption.
  - pose proof (F2R_pos p e) as Hp. rewrite F2R_neg in *.
    destruct H as [H|H]; [lra |]. rewrite Rabs_left in H by lra.
    apply binary_round_grid; [lra |].
    replace (F2R (Zpos p) e) with (- - F2R (Zpos p) e) by ring.
    apply on_grid_opp. exact Hg.
Qed.

Theorem f32_add_grid G x y :
  regular x -> regular y -> in_range (to_R x + to_R y) ->
  on_grid G (to_R x + to_R y) -> on_grid G (to_R (F32.add x y)).
Proof.
  intros Hx Hy Hr Hg.
  destruct x as [sx|sx| |sx mx ex]; try contradiction;
    destruct y as [sy|sy| |sy my ey]; try contradiction.
  - destruct sx, sy; apply on_grid_0.
  - cbn [F32.add SFadd]. cbn [to_R] in Hg. rewrite Rplus_0_l in Hg. exact Hg.
  - cbn [F32.add SFadd]. replace (to_R (S754_zero sy)) with 0 in Hg by reflexivity.
    rewrite Rplus_0_r in Hg. exact Hg.
  - unfold F32.add, SFadd. fold F32.prec F32.emax.
    set (ez := Z.min ex ey) in *.
    rewrite <- (aligned_value sx mx ex ez), <- (aligned_value sy my ey ez) in * by lia.
    rewrite <- F2R_plus in *. apply binary_normalize_grid; assumption.
Qed.

Theorem f32_mul_grid G x y :
  regular x -> regular y -> in_range (to_R x * to_R y) ->
  on_grid G (to_R x * to_R y) -> on_grid G (to_R (F32.mul x y)).
Proof.
  intros Hx Hy Hr Hg.
  destruct x as [sx|sx| |sx mx ex]; try contradiction;
    destruct y as [sy|sy| |sy my ey]; try contradiction;
    try (cbn [to_R F32.mul SFmul]; apply on_grid_0).
  destruct Hx as [Hdx Hex], Hy as [Hdy Hey].
  unfold F32.mul, SFmul. fold F32.prec F32.emax. unfold F32.prec, F32.emax.
  pose proof (F2R_pos mx ex) as Px. pose proof (F2R_pos my ey) as Py.
  set (t := F2R (Zpos mx) ex * F2R (Zpos my) ey).
  assert (Ht : t = F2R (Zpos (mx * my)) (ex + ey)).
  { unfold t, F2R. rewrite Pos2Z.inj_mul, mult_IZR, bpow_add. ring. }
  assert (Hprod : to_R (S754_finite sx mx ex) * to_R (S754_finite sy my ey) =
                  sgn (xorb sx sy) * t).
  { cbn [to_R]. rewrite sgn_xorb. unfold t. ring. }
  rewrite Hprod in *.
  assert (Htpos : 0 < t) by (unfold t; nra).
  apply in_range_126 in Hr. destruct Hr as [Hr|Hr].
  { exfalso. destruct (xorb sx sy); unfold sgn in Hr; lra. }
  rewrite Rabs_sgn, Rabs_right in Hr by lra.
  pose proof (normal_mantissa mx Hdx) as Mx. pose proof (normal_mantissa my Hdy) as My.
  assert (Hgt : on_grid G t).
  { destruct (xorb sx sy); unfold sgn in Hg.
    - replace t with (- (-1 * t)) by ring. apply on_grid_opp. exact Hg.
    - rewrite Rmult_1_l in Hg. exact Hg. }
  rewrite Ht in *.
  apply round_exact_grid.
  - apply digits2_pos_ge; [| lia]. rewrite Pos2Z.inj_mul.
    apply Z.le_trans with (2 ^ 23 * 2 ^ 23)%Z; [simpl; lia |].
    apply Z.mul_le_mono_nonneg; lia.
  - exact Hr.
  - exact Hgt.
Qed.

(** ** Sums of terms of either sign *)

Lemma gam_nonneg k : 0 <= gam k.
Proof. unfold gam. pose proof (inv_pu_ge_1 k). lra. Qed.

Lemma gam_mono j k : (j <= k)%nat -> gam j <= gam k.
Proof. intros H. unfold gam. pose proof (inv_pu_mono j k H). lra. Qed.

Lemma gam_succ k : (1 + u32) * (1 + gam k) <= 1 + gam (Datatypes.S k).
Proof.
  unfold gam. simpl pow. pose proof u32_bounds as U.
  pose proof (pu_pos k) as P. pose proof (Rinv_0_lt_compat _ P) as IP.
  rewrite Rinv_mult.
  assert (H : 1 + u32 <= / (1 - u32)).
  { apply Rmult_le_reg_r with (1 - u32); [lra |]. rewrite Rinv_l by lra. nra. }
  replace (1 + (/ (1 - u32) ^ k - 1)) with (/ (1 - u32) ^ k) by ring.
  replace (1 + (/ (1 - u32) * / (1 - u32) ^ k - 1))
    with (/ (1 - u32) * / (1 - u32) ^ k) by ring.
  apply Rmult_le_compat_r; lra.
Qed.

Lemma gam_1 : u32 <= gam 1.
Proof.
  pose proof (gam_succ 0) as H. unfold gam in *. simpl pow in *.
  rewrite Rinv_1 in H. lra.
Qed.

Lemma gam_le_1 k : INR k <= 8192 -> gam k <= 1.
Proof. intros H. unfold gam. pose proof (inv_le_2 k H). lra. Qed.

Lemma gam_bound k :
  INR k * (INR k + 1) * u32 <= 1 -> gam k <= (INR k + 1) * u32.
Proof.
  intros H. pose proof (near_high k 1 (/ (1 - u32) ^ k) ltac:(lra) H) as Hh.
  unfold gam. unfold near, Rdiv in Hh. rewrite !Rmult_1_l in Hh.
  pose proof (pu_pos k) as P. pose proof (pu_le_1 k) as L.
  pose proof (inv_pu_ge_1 k) as I.
  assert (/ (1 - u32) ^ k <= 1 + (INR k + 1) * u32); [| lra].
  apply Hh. split; [| lra]. lra.
Qed.

Lemma sacc_mono G j k A s x : (j <= k)%nat -> sacc G j A s x -> sacc G k A s x.
Proof.
  intros Hjk (Hr & Hg & Hs & He & Hb).
  split; [exact Hr |]. split; [exact Hg |]. split; [exact Hs |]. split; [| exact Hb].
  pose proof (gam_mono j k Hjk). pose proof (Rabs_pos s). nra.
Qed.

Lemma sacc_zero G k : sacc G k 0 0 F32.zero.
Proof.
  split; [exact I |]. split; [apply on_grid_0 |].
  change (to_R F32.zero) with 0. rewrite Rminus_diag, Rabs_R0.
  pose proof (bpow_pos 123). repeat split; lra.
Qed.

Lemma sacc_add G k A B s t x y :
  (-125 <= G)%Z -> INR k <= 8192 ->
  sacc G k A s x -> sacc G k B t y -> A + B <= bpow 123 ->
  sacc G (Datatypes.S k) (A + B) (s + t) (F32.add x y).
Proof.
  intros HG Hk (Rx & Gx & Sx & Ex & _) (Ry & Gy & Sy & Ey & _) Hb.
  pose proof (gam_nonneg k) as G0. pose proof (gam_le_1 k Hk) as G1.
  pose proof (Rabs_pos s) as As. pose proof (Rabs_pos t) as At.
  set (X := to_R x) in *. set (Y := to_R y) in *.
  assert (HX : Rabs X <= (1 + gam k) * A).
  { replace X with ((X - s) + s) by ring.
    eapply Rle_trans; [apply Rabs_triang |]. nra. }
  assert (HY : Rabs Y <= (1 + gam k) * B).
  { replace Y with ((Y - t) + t) by ring.
    eapply Rle_trans; [apply Rabs_triang |]. nra. }
  pose proof (Rabs_triang X Y) as HXY.
  pose proof (on_grid_plus _ _ _ Gx Gy) as Gxy.
  assert (Hin : in_range (X + Y)).
  { destruct (Req_dec (X + Y) 0) as [E|E]; [left; exact E | right].
    pose proof (on_grid_nonzero _ _ Gxy E).
    pose proof (bpow_le (-125) G HG).
    pose proof (bpow_succ 123) as H3. change (123 + 1)%Z with 124%Z in H3.
    pose proof (bpow_lt 124 127 ltac:(lia)).
    split; [lra | nra]. }
  destruct (f32_add_rnd x y Rx Ry Hin) as [Rr Er]. fold X Y in Er.
  split; [exact Rr |]. split; [apply f32_add_grid; assumption |].
  split; [eapply Rle_trans; [apply Rabs_triang | lra] |].
  split; [| exact Hb].
  set (r := to_R (F32.add x y)) in *.
  replace (r - (s + t)) with ((r - (X + Y)) + ((X - s) + (Y - t))) by ring.
  eapply Rle_trans; [apply Rabs_triang |].
  pose proof (Rabs_triang (X - s) (Y - t)) as H2.
  pose proof (gam_succ k) as H3. pose proof u32_bounds as U.
  assert (HAB : 0 <= A + B) by lra.
  assert (H4 : u32 * Rabs (X + Y) <= u32 * ((1 + gam k) * (A + B))) by nra.
  nra.
Qed.

(** A loop that adds one term per round. *)
Lemma signed_acc G (term : Z -> float) (T Ta : Z -> R) (c : nat) (step : Z) :
  (-125 <= G)%Z ->
  forall n i k A s acc,
  (c <= k)%nat -> INR k + INR n <= 8192 ->
  sacc G k A s acc -> A + INR n * bpow 110 <= bpow 123 ->
  (forall t, (t < n)%nat ->
     sacc G c (Ta (i + step * Z.of_nat t)%Z) (T (i + step * Z.of_nat t)%Z)
          (term (i + step * Z.of_nat t)%Z) /\
     Ta (i + step * Z.of_nat t)%Z <= bpow 110) ->
  sacc G (k + n)
    (iter_from (fun i a => a + Ta i) step n i A)
    (iter_from (fun i a => a + T i) step n i s)
    (iter_from (fun i a => F32.add a (term i)) step n i acc).
Proof.
  intros HG.
  induction n as [|n IH]; intros i k A s acc Hc Hk Hacc Hb Hterm.
  - simpl. rewrite Nat.add_0_r. exact Hacc.
  - cbn [iter_from]. rewrite S_INR in Hk, Hb.
    pose proof (pos_INR n) as Hn. pose proof (pos_INR k) as Hkp.
    pose proof (bpow_pos 110) as B110.
    destruct (Hterm 0%nat ltac:(lia)) as [H0 H0b].
    replace (i + step * Z.of_nat 0)%Z with i in H0, H0b by lia.
    replace (k + Datatypes.S n)%nat with (Datatypes.S k + n)%nat by lia.
    apply IH.
    + lia.
    + rewrite S_INR. lra.
    + apply sacc_add; [exact HG | lra | exact Hacc | | nra].
      apply sacc_mono with c; assumption.
    + nra.
    + intros t Ht. specialize (Hterm (Datatypes.S t) ltac:(lia)).
      replace (i + step + step * Z.of_nat t)%Z
        with (i + step * Z.of_nat (Datatypes.S t))%Z by lia. exact Hterm.
Qed.

Lemma sacc_size G k A s x : sacc G k A s x -> 0 <= A.
Proof. intros (_ & _ & H & _). pose proof (Rabs_pos s). lra. Qed.

(** The scalar reduction. *)
Lemma serial_sum_signed G (term : Z -> float) (T Ta : Z -> R) (c n : nat) :
  (-125 <= G)%Z -> INR c + INR n <= 8192 -> INR n <= 4096 ->
  (forall j, (0 <= j < Z.of_nat n)%Z ->
     sacc G c (Ta j) (T j) (term j) /\ Ta j <= bpow 110) ->
  sacc G (c + n) (serial_sum Rplus 0 Ta n) (serial_sum Rplus 0 T n)
       (serial_sum F32.add F32.zero term n).
Proof.
  intros HG Hk Hn Hterm. unfold serial_sum.
  apply signed_acc with (c := c).
  - exact HG.
  - lia.
  - exact Hk.
  - apply sacc_zero.
  - pose proof (INR_bpow n 12 ltac:(lia) Hn). pose proof (bpow_le (12 + 110) 123 ltac:(lia)).
    lra.
  - intros t Ht. apply Hterm. lia.
Qed.

(** The 4-lane reduction. *)
Lemma lane_sum_signed G (term : Z -> float) (T Ta : Z -> R) (c g : nat) :
  (-125 <= G)%Z -> INR c + INR g + 3 <= 8192 -> INR g <= 1024 ->
  (forall j, (0 <= j < 4 * Z.of_nat g)%Z ->
     sacc G c (Ta j) (T j) (term j) /\ Ta j <= bpow 110) ->
  sacc G (c + g + 3) (serial_sum Rplus 0 Ta (4 * g)) (serial_sum Rplus 0 T (4 * g))
       (lane_sum F32.add F32.zero term g).
Proof.
  intros HG Hk Hg Hterm.
  rewrite <- (lane_sum_serial_sum Rplus 0 T)
    by (intros; try apply Rplus_assoc; try apply Rplus_comm; try apply Rplus_0_l; ring).
  rewrite <- (lane_sum_serial_sum Rplus 0 Ta)
    by (intros; try apply Rplus_assoc; try apply Rplus_comm; try apply Rplus_0_l; ring).
  unfold lane_sum, lane_sums. rewrite !lanes_split.
  pose proof (INR_bpow g 10 ltac:(lia) Hg) as Hgb.
  change (10 + 110)%Z with 120%Z in Hgb.
  pose proof (bpow_le 120 123 ltac:(lia)) as B1.
  pose proof (pos_INR c) as Pc. pose proof (pos_INR g) as Pg.
  assert (Hlane : forall l, (0 <= l < 4)%Z ->
    sacc G (c + g)
      (iter_from (fun i a => a + Ta (i + l)%Z) 4 g 0%Z 0)
      (iter_from (fun i a => a + T (i + l)%Z) 4 g 0%Z 0)
      (iter_from (fun i a => F32.add a (term (i + l)%Z)) 4 g 0%Z F32.zero) /\
    iter_from (fun i a => a + Ta (i + l)%Z) 4 g 0%Z 0 <= bpow 120).
  { intros l Hl. split.
    - apply (signed_acc G (fun i => term (i + l)%Z) (fun i => T (i + l)%Z)
               (fun i => Ta (i + l)%Z) c 4 HG).
      + lia.
      + lra.
      + apply sacc_zero.
      + lra.
      + intros t Ht. apply Hterm. lia.
    - pose proof (real_sum_bounds (fun i => Ta (i + l)%Z) (bpow 110) 4 g 0%Z 0) as H.
      cbv beta in H. destruct H as [_ H]; [| lra].
      intros t Ht. destruct (Hterm (0 + 4 * Z.of_nat t + l)%Z ltac:(lia)) as [Ha Hb].
      pose proof (sacc_size _ _ _ _ _ Ha). lra. }
  pose proof (Hlane 0%Z ltac:(lia)) as [A0 U0].
  pose proof (Hlane 1%Z ltac:(lia)) as [A1 U1].
  pose proof (Hlane 2%Z ltac:(lia)) as [A2 U2].
  pose proof (Hlane 3%Z ltac:(lia)) as [A3 U3].
  set (Q0 := iter_from (fun i a => a + Ta (i + 0)%Z) 4 g 0%Z 0) in *.
  set (Q1 := iter_from (fun i a => a + Ta (i + 1)%Z) 4 g 0%Z 0) in *.
  set (Q2 := iter_from (fun i a => a + Ta (i + 2)%Z) 4 g 0%Z 0) in *.
  set (Q3 := iter_from (fun i a => a + Ta (i + 3)%Z) 4 g 0%Z 0) in *.
  set (R0 := iter_from (fun i a => a + T (i + 0)%Z) 4 g 0%Z 0) in *.
  set (R1 := iter_from (fun i a => a + T (i + 1)%Z) 4 g 0%Z 0) in *.
  set (R2 := iter_from (fun i a => a + T (i + 2)%Z) 4 g 0%Z 0) in *.
  set (R3 := iter_from (fun i a => a + T (i + 3)%Z) 4 g 0%Z 0) in *.
  set (F0 := iter_from (fun i a => F32.add a (term (i + 0)%Z)) 4 g 0%Z F32.zero) in *.
  set (F1 := iter_from (fun i a => F32.add a (term (i + 1)%Z)) 4 g 0%Z F32.zero) in *.
  set (F2 := iter_from (fun i a => F32.add a (term (i + 2)%Z)) 4 g 0%Z F32.zero) in *.
  set (F3 := iter_from (fun i a => F32.add a (term (i + 3)%Z)) 4 g 0%Z F32.zero) in *.
  rewrite <- (iter_from_shift0 Rplus T), <- (iter_from_shift0 Rplus Ta),
    <- (iter_from_shift0 F32.add term).
  fold R0 Q0 F0.
  assert (B3 : bpow 123 = 8 * bpow 120).
  { change 123%Z with (3 + 120)%Z. rewrite bpow_add. unfold bpow at 1. simpl. lra. }
  pose proof (bpow_pos 120) as P120.
  pose proof (sacc_size _ _ _ _ _ A0) as N0. pose proof (sacc_size _ _ _ _ _ A1) as N1.
  pose proof (sacc_size _ _ _ _ _ A2) as N2. pose proof (sacc_size _ _ _ _ _ A3) as N3.
  assert (Hk0 : INR (c + g) <= 8192 - 3) by (rewrite plus_INR; lra).
  assert (A01 : sacc G (Datatypes.S (c + g)) (Q0 + Q1) (R0 + R1) (F32.add F0 F1))
    by (apply sacc_add; [exact HG | lra | exact A0 | exact A1 | lra]).
  assert (Hk1 : INR (Datatypes.S (c + g)) <= 8192 - 2) by (rewrite S_INR; lra).
  assert (A012 : sacc G (Datatypes.S (Datatypes.S (c + g))) (Q0 + Q1 + Q2) (R0 + R1 + R2)
                   (F32.add (F32.add F0 F1) F2)).
  { apply sacc_add; [exact HG | lra | exact A01 | | lra].
    apply sacc_mono with (c + g)%nat; [lia | exact A2]. }
  assert (Hk2 : INR (Datatypes.S (Datatypes.S (c + g))) <= 8192 - 1)
    by (rewrite S_INR; lra).
  assert (A0123 : sacc G (Datatypes.S (Datatypes.S (Datatypes.S (c + g))))
                    (Q0 + Q1 + Q2 + Q3) (R0 + R1 + R2 + R3)
                    (F32.add (F32.add (F32.add F0 F1) F2) F3)).
  { apply sacc_add; [exact HG | lra | exact A012 | | lra].
    apply sacc_mono with (c + g)%nat; [lia | exact A3]. }
  replace (c + g + 3)%nat with (Datatypes.S (Datatypes.S (Datatypes.S (c + g)))) by lia.
  exact A0123.
Qed.

(** ** Accuracy of the cosine similarity *)

Lemma moderate_well_scaled x : moderate x = true -> well_scaled x = true.
Proof.
  destruct x as [s|s| |s m e]; try discriminate; intros H; [reflexivity |].
  cbn [moderate] in H. apply andb_prop in H as [H H3]. apply andb_prop in H as [H1 H2].
  apply Z.leb_le in H2, H3. cbn [well_scaled]. rewrite H1. simpl.
  apply andb_true_intro. split; apply Z.leb_le; lia.
Qed.

Lemma moderate_buf_scaled m p len : moderate_buf m p len -> scaled_buf m p len.
Proof. intros H i Hi. apply moderate_well_scaled, H, Hi. Qed.

Lemma moderate_range x :
  moderate x = true ->
  (to_R x = 0 \/ bpow (-17) <= Rabs (to_R x) < bpow 16) /\ on_grid (-40) (to_R x).
Proof.
  destruct x as [s|s| |s m e]; try discriminate; intros H.
  { split; [left; reflexivity | apply on_grid_0]. }
  cbn [moderate] in H. apply andb_prop in H as [H H3]. apply andb_prop in H as [H1 H2].
  apply Z.eqb_eq in H1. apply Z.leb_le in H2, H3.
  split.
  - right. rewrite Rabs_to_R. pose proof (F2R_digits_bounds m e) as [L U].
    rewrite H1 in L, U.
    pose proof (bpow_le (-17) (24 - 1 + e) ltac:(lia)).
    pose proof (bpow_le (24 + e) 16 ltac:(lia)). lra.
  - apply on_grid_mono with e; [lia | apply to_R_on_grid].
Qed.

(** One product, as a term of the dot product. *)
Lemma prod_term_ok x y :
  moderate x = true -> moderate y = true ->
  sacc (-80) 1 (Rabs (to_R x * to_R y)) (to_R x * to_R y) (F32.mul x y) /\
  Rabs (to_R x * to_R y) <= bpow 110.
Proof.
  intros Hx Hy.
  pose proof (well_scaled_regular x (moderate_well_scaled x Hx)) as Rx.
  pose proof (well_scaled_regular y (moderate_well_scaled y Hy)) as Ry.
  destruct (moderate_range x Hx) as [Vx Gx]. destruct (moderate_range y Hy) as [Vy Gy].
  set (X := to_R x) in *. set (Y := to_R y) in *.
  pose proof (bpow_add (-17) (-17)) as E1. change (-17 + -17)%Z with (-34)%Z in E1.
  pose proof (bpow_add 16 16) as E2. change (16 + 16)%Z with 32%Z in E2.
  pose proof (bpow_pos (-17)) as P17. pose proof (bpow_pos 16) as P16.
  pose proof (bpow_le (-125) (-34) ltac:(lia)) as B1.
  pose proof (bpow_lt 32 127 ltac:(lia)) as B2.
  pose proof (bpow_le 32 110 ltac:(lia)) as B3.
  pose proof (bpow_le 110 123 ltac:(lia)) as B4.
  pose proof (bpow_pos 32) as P32.
  pose proof (Rabs_pos X) as AX. pose proof (Rabs_pos Y) as AY.
  assert (Hab : X * Y = 0 \/ bpow (-34) <= Rabs (X * Y) < bpow 32).
  { rewrite Rabs_mult.
    destruct Vx as [Vx|Vx]; [left; rewrite Vx; ring |].
    destruct Vy as [Vy|Vy]; [left; rewrite Vy; ring |].
    right. split; nra. }
  assert (Hin : in_range (X * Y)) by (destruct Hab as [H|H]; [left; exact H | right; lra]).
  destruct (f32_mul_rnd x y Rx Ry Hin) as [Rr Er]. fold X Y in Er.
  pose proof (on_grid_mult _ _ _ _ Gx Gy) as Gxy. change (-40 + -40)%Z with (-80)%Z in Gxy.
  assert (Hle : Rabs (X * Y) <= bpow 32).
  { destruct Hab as [H|H]; [rewrite H, Rabs_R0 |]; lra. }
  split; [| lra].
  split; [exact Rr |]. split; [apply f32_mul_grid; assumption |].
  split; [lra |]. split; [| lra].
  pose proof gam_1. pose proof (Rabs_pos (X * Y)). nra.
Qed.

(** Cauchy-Schwarz for the sums of the loops. *)
Lemma cauchy_schwarz_iter (x y : Z -> R) :
  forall n i Sxy Sx Sy,
  0 <= Sxy -> 0 <= Sx -> 0 <= Sy -> Sxy * Sxy <= Sx * Sy ->
  let Sxy' := iter_from (fun i a => a + Rabs (x i * y i)) 1 n i Sxy in
  let Sx' := iter_from (fun i a => a + x i * x i) 1 n i Sx in
  let Sy' := iter_from (fun i a => a + y i * y i) 1 n i Sy in
  0 <= Sxy' /\ 0 <= Sx' /\ 0 <= Sy' /\ Sxy' * Sxy' <= Sx' * Sy'.
Proof.
  induction n as [|n IH]; intros i Sxy Sx Sy H0 Hx Hy H; cbn [iter_from]; [auto |].
  pose proof (Rabs_pos (x i * y i)) as Ha.
  assert (Hsq : Rabs (x i * y i) * Rabs (x i * y i) = (x i * x i) * (y i * y i))
    by (rewrite <- sq_Rabs; ring).
  assert (Hx2 : 0 <= x i * x i) by nra. assert (Hy2 : 0 <= y i * y i) by nra.
  apply IH; try lra.
  set (p := Rabs (x i * y i)) in *. set (a := x i * x i) in *. set (b := y i * y i) in *.
  assert (Hmix : 2 * (Sxy * p) <= Sx * b + Sy * a).
  { apply sq_le_inv; [nra | nra |].
    assert (H1 : (2 * (Sxy * p)) * (2 * (Sxy * p)) = 4 * (Sxy * Sxy) * (p * p)) by ring.
    assert (H2 : 4 * (Sx * Sy) * (a * b) <= (Sx * b + Sy * a) * (Sx * b + Sy * a)).
    { replace ((Sx * b + Sy * a) * (Sx * b + Sy * a))
        with (4 * (Sx * Sy) * (a * b) + (Sx * b - Sy * a) * (Sx * b - Sy * a)) by ring.
      pose proof (Rle_0_sqr (Sx * b - Sy * a)) as Hs. unfold Rsqr in Hs. lra. }
    rewrite H1, Hsq.
    apply Rle_trans with (4 * (Sx * Sy) * (a * b)); [| exact H2].
    apply Rmult_le_compat_r; [nra | lra]. }
  nra.
Qed.

Lemma cauchy_schwarz m a b len :
  0 <= dot_abs_R m a b len /\
  dot_abs_R m a b len * dot_abs_R m a b len <= norm_sq_R m a len * norm_sq_R m b len.
Proof.
  unfold dot_abs_R, norm_sq_R, serial_sum.
  pose proof (cauchy_schwarz_iter (fun i => to_R (cell m (a + i)))
                (fun i => to_R (cell m (b + i))) (Z.to_nat len) 0%Z 0 0 0
                ltac:(lra) ltac:(lra) ltac:(lra) ltac:(lra)) as H.
  cbv zeta beta in H. tauto.
Qed.

Lemma dot_le_abs m a b len : Rabs (dot_R m a b len) <= dot_abs_R m a b len.
Proof.
  unfold dot_R, dot_abs_R, serial_sum.
  assert (H : forall n i s A, Rabs s <= A ->
    Rabs (iter_from (fun i acc => acc + to_R (cell m (a + i)) * to_R (cell m (b + i)))
            1 n i s) <=
    iter_from (fun i acc => acc + Rabs (to_R (cell m (a + i)) * to_R (cell m (b + i))))
      1 n i A).
  { induction n as [|n IH]; intros i s A Hs; [exact Hs |].
    cbn [iter_from]. apply IH.
    eapply Rle_trans; [apply Rabs_triang | lra]. }
  apply H. rewrite Rabs_R0. lra.
Qed.

(** The final division of [cosineSimilarity], from the three computed sums. *)
Lemma cos_assemble kd ka kb Aab dot Sa Sb d x y :
  sacc (-80) kd Aab dot d -> acc_ok ka Sa x -> acc_ok kb Sb y ->
  Aab * Aab <= Sa * Sb ->
  bpow (-34) <= Sa <= bpow 44 -> bpow (-34) <= Sb <= bpow 44 ->
  INR kd <= 2010 -> INR ka + INR kb <= 4010 ->
  regular (F32.div d (F32.mul (F32.sqrt x) (F32.sqrt y))) /\
  Rabs (to_R (F32.div d (F32.mul (F32.sqrt x) (F32.sqrt y))) -
        dot / (sqrt Sa * sqrt Sb)) <=
    (INR kd + (INR ka + INR kb) / 2 + 7) * u32.
Proof.
  intros Hd Hx Hy Hcs [SaL SaU] [SbL SbU] Hkd Hkab.
  pose proof (pos_INR kd) as Pkd. pose proof (pos_INR ka) as Pka.
  pose proof (pos_INR kb) as Pkb. pose proof u32_bounds as U.
  pose proof (bpow_pos (-34)) as P34.
  destruct (norm_of_sum _ _ _ Hx ltac:(lra) ltac:(lra)) as (Ra & Na & NaL & NaU).
  destruct (norm_of_sum _ _ _ Hy ltac:(lra) ltac:(lra)) as (Rb & Nb & NbL & NbU).
  set (ra := F32.sqrt x) in *. set (rb := F32.sqrt y) in *.
  set (A := to_R ra) in *. set (B := to_R rb) in *.
  pose proof (bpow_pos (-51)) as P51. pose proof (bpow_pos 62) as P62.
  (* the product of the two norms *)
  pose proof (bpow_sq (-51)) as E1. change (2 * -51)%Z with (-102)%Z in E1.
  pose proof (bpow_sq 62) as E2. change (2 * 62)%Z with 124%Z in E2.
  assert (Hin1 : in_range (A * B)).
  { right. rewrite Rabs_right by nra.
    pose proof (bpow_le (-125) (-102) ltac:(lia)).
    pose proof (bpow_lt 124 127 ltac:(lia)). split; nra. }
  destruct (f32_mul_rnd ra rb Ra Rb Hin1) as [Rp Ep]. fold A B in Ep.
  set (p := F32.mul ra rb) in *. set (P := to_R p) in *.
  pose proof (sqrt_pos Sa) as Hsa. pose proof (sqrt_pos Sb) as Hsb.
  pose proof (sqrt_sqrt Sa ltac:(lra)) as Esa. pose proof (sqrt_sqrt Sb ltac:(lra)) as Esb.
  set (M := sqrt Sa * sqrt Sb) in *.
  assert (HM2 : M * M = Sa * Sb) by (unfold M; nra).
  assert (HM0 : 0 <= M) by (unfold M; nra).
  assert (HP0 : 0 <= P).
  { rewrite (Rabs_right (A * B)) in Ep by nra. apply Rabs_le_both in Ep. nra. }
  assert (HP2 : near (ka + 2 + (kb + 2) + 2) (M * M) (P * P)).
  { rewrite HM2. eapply near_trans; [| apply (near_sq_rnd _ _ Ep)].
    replace (A * B * (A * B)) with (A * A * (B * B)) by ring.
    apply near_mult; [lra | lra | exact Na | exact Nb]. }
  assert (HK : INR (ka + 2 + (kb + 2) + 2) = INR ka + INR kb + 6).
  { rewrite !plus_INR. simpl INR. lra. }
  pose proof (near_sqrt_tight _ _ _ HM0 HP0 HP2) as HPM. rewrite HK in HPM.
  set (eP := (INR ka + INR kb + 6 + 1) / 2 * u32) in *.
  assert (HeP : 0 <= eP <= 12 / 100000) by (unfold eP; rewrite u32_eq; lra).
  assert (HPM' : Rabs (P - M) <= eP * M).
  { apply HPM. rewrite u32_eq. nra. }
  apply Rabs_le_both in HPM'.
  (* bounds on the exact quantities *)
  pose proof (bpow_sq (-34)) as E3. change (2 * -34)%Z with (-68)%Z in E3.
  pose proof (bpow_sq 44) as E4. change (2 * 44)%Z with 88%Z in E4.
  pose proof (bpow_pos 44) as P44.
  assert (HML : bpow (-34) <= M) by (apply sq_le_inv; nra).
  assert (HMU : M <= bpow 44) by (apply sq_le_inv; nra).
  destruct Hd as (Rd & Gd & Sd & Ed & _).
  assert (HA0 : 0 <= Aab) by (pose proof (Rabs_pos dot); lra).
  assert (HAM : Aab <= M) by (apply sq_le_inv; nra).
  set (D := to_R d) in *.
  pose proof (gam_nonneg kd) as G0.
  assert (Hg : gam kd <= (INR kd + 1) * u32) by (apply gam_bound; rewrite u32_eq; nra).
  assert (Hg1 : gam kd <= 12 / 100000) by (rewrite u32_eq in Hg; lra).
  assert (HD : Rabs D <= 2 * M).
  { replace D with ((D - dot) + dot) by ring.
    eapply Rle_trans; [apply Rabs_triang |]. nra. }
  assert (HPpos : 0 < P) by nra.
  pose proof (Rinv_0_lt_compat _ HPpos) as HiP.
  (* the quotient *)
  assert (Hin2 : in_range (D / P)).
  { destruct (Req_dec D 0) as [E|E]; [left; rewrite E; unfold Rdiv; ring | right].
    pose proof (on_grid_nonzero _ _ Gd E) as HDg.
    unfold Rdiv. rewrite Rabs_mult, (Rabs_right (/ P)) by lra.
    pose proof (bpow_succ 44) as S45. change (44 + 1)%Z with 45%Z in S45.
    assert (HPU : P <= bpow 45) by nra.
    assert (I1 : / bpow 45 <= / P) by (apply Rinv_le_contravar; lra).
    rewrite <- bpow_opp in I1. change (Z.opp 45) with (Zneg 45) in I1.
    pose proof (bpow_add (-80) (-45)) as A1. change (-80 + -45)%Z with (-125)%Z in A1.
    pose proof (bpow_pos (-80)). pose proof (bpow_pos (-45)).
    assert (I2 : Rabs D * / P <= 8).
    { apply Rmult_le_reg_r with P; [exact HPpos |].
      rewrite Rmult_assoc, Rinv_l by lra. nra. }
    assert (8 = bpow 3) by (unfold bpow; simpl; lra).
    pose proof (bpow_lt 3 127 ltac:(lia)).
    split; [nra | lra]. }
  destruct (f32_div_rnd d p Rd Rp ltac:(fold P; lra) Hin2) as [Rq Eq]. fold D P in Eq.
  split; [exact Rq |].
  set (Q := to_R (F32.div d p)) in *.
  set (c := dot / M) in *.
  assert (HMpos : 0 < M) by lra.
  assert (Hc : Rabs c <= 1).
  { unfold c, Rdiv. rewrite Rabs_mult, (Rabs_right (/ M))
      by (apply Rle_ge, Rlt_le, Rinv_0_lt_compat; lra).
    apply Rmult_le_reg_r with M; [exact HMpos |].
    rewrite Rmult_assoc, Rinv_l by lra. lra. }
  assert (Hdot : dot = c * M) by (unfold c; field; lra).
  set (w := Rabs (D / P - c)).
  assert (Hw0 : 0 <= w) by apply Rabs_pos.
  assert (HwP : w * P <= (gam kd + eP) * M).
  { unfold w. rewrite <- (Rabs_right P) at 2 by lra. rewrite <- Rabs_mult.
    replace ((D / P - c) * P) with ((D - dot) + c * (M - P)) by (rewrite Hdot; field; lra).
    eapply Rle_trans; [apply Rabs_triang |]. rewrite Rabs_mult.
    assert (Rabs (M - P) <= eP * M) by (apply Rabs_le; lra).
    pose proof (Rabs_pos c). pose proof (Rabs_pos (M - P)). nra. }
  assert (Hw : w * (1 - eP) <= gam kd + eP).
  { apply Rmult_le_reg_r with M; [exact HMpos |]. nra. }
  assert (Hw1 : w <= 2 * (gam kd + eP)) by nra.
  assert (HDP : Rabs (D / P) <= 1 + w).
  { replace (D / P) with ((D / P - c) + c) by ring.
    eapply Rle_trans; [apply Rabs_triang |]. fold w. lra. }
  replace (Q - c) with ((Q - D / P) + (D / P - c)) by ring.
  eapply Rle_trans; [apply Rabs_triang |]. fold w.
  assert (Hfin : u32 * (1 + w) + w <= (INR kd + (INR ka + INR kb) / 2 + 7) * u32).
  { assert (HwB : w <= gam kd + eP + w * eP) by nra.
    assert (HweP : w * eP <= u32).
    { unfold eP in *. rewrite u32_eq in *. nra. }
    unfold eP in *. rewrite u32_eq in *. nra. }
  pose proof (Rabs_pos (D / P)). nra.
Qed.

Lemma ScalarSpec_cos_sums_serial_from m a b n :
  forall i d na nb,
  iter_from (ScalarSpec.cos_step m a b) 1 n i (ScalarCpp.CosAcc d na nb) =
  ScalarCpp.CosAcc
    (iter_from (fun i acc => F32.add acc (prod_elt m a b i)) 1 n i d)
    (iter_from (fun i acc => F32.add acc (sq_elt m a i)) 1 n i na)
    (iter_from (fun i acc => F32.add acc (sq_elt m b i)) 1 n i nb).
Proof.
  induction n as [|n IH]; intros i d na nb; [reflexivity |].
  cbn [iter_from]. rewrite <- IH. reflexivity.
Qed.

Lemma ScalarSpec_cos_serial m a b len :
  ScalarSpec.cos m a b len =
  F32.div (serial_sum F32.add F32.zero (prod_elt m a b) (Z.to_nat len))
    (F32.mul (F32.sqrt (serial_sum F32.add F32.zero (sq_elt m a) (Z.to_nat len)))
             (F32.sqrt (serial_sum F32.add F32.zero (sq_elt m b) (Z.to_nat len)))).
Proof.
  unfold ScalarSpec.cos, ScalarSpec.cos_sums.
  rewrite ScalarSpec_cos_sums_serial_from. reflexivity.
Qed.

Lemma SimdSpec_cos_sums_split m a b g :
  forall i d na nb,
  iter_from (SimdSpec.cos_step m a b) 4 g i (SimdC.CosAcc d na nb) =
  SimdC.CosAcc (iter_from (dot_step4 m a b) 4 g i d)
               (iter_from (SimdSpec.sq_step m a) 4 g i na)
               (iter_from (SimdSpec.sq_step m b) 4 g i nb).
Proof.
  induction g as [|g IH]; intros i d na nb; [reflexivity |].
  cbn [iter_from]. rewrite <- IH. reflexivity.
Qed.

Lemma dot_step4_lanes_from m a b g :
  forall i l0 l1 l2 l3,
  iter_from (dot_step4 m a b) 4 g i (SimdC.V128 l0 l1 l2 l3) =
  (let '(k0, k1, k2, k3) :=
     iter_from (fun i '(l0, l1, l2, l3) =>
                  (F32.add l0 (prod_elt m a b i), F32.add l1 (prod_elt m a b (i + 1)),
                   F32.add l2 (prod_elt m a b (i + 2)), F32.add l3 (prod_elt m a b (i + 3))))
               4 g i (l0, l1, l2, l3)
   in SimdC.V128 k0 k1 k2 k3).
Proof.
  induction g as [|g IH]; intros i l0 l1 l2 l3; [reflexivity |].
  cbn [iter_from]. rewrite <- IH. f_equal.
  unfold dot_step4, SimdSpec.read4, prod_elt. simd_unfold.
  rewrite !Z.add_assoc. reflexivity.
Qed.

Lemma dot_step4_lanes m a b len :
  SimdC.horizontal_sum (iter_from (dot_step4 m a b) 4 (SimdSpec.groups len) 0%Z
                          SimdSpec.zero4) =
  lane_sum F32.add F32.zero (prod_elt m a b) (SimdSpec.groups len).
Proof.
  unfold lane_sum, lane_sums, SimdSpec.zero4.
  unfold SimdC.wasm_f32x4_splat. rewrite dot_step4_lanes_from.
  change (F32.of_Z 0) with F32.zero.
  destruct (iter_from _ 4 (SimdSpec.groups len) 0%Z (F32.zero, F32.zero, F32.zero, F32.zero))
    as [[[k0 k1] k2] k3].
  reflexivity.
Qed.

Lemma SimdSpec_cos_lanes m a b len :
  SimdSpec.cos m a b len =
  F32.div (lane_sum F32.add F32.zero (prod_elt m a b) (SimdSpec.groups len))
    (F32.mul (F32.sqrt (lane_sum F32.add F32.zero (sq_elt m a) (SimdSpec.groups len)))
             (F32.sqrt (lane_sum F32.add F32.zero (sq_elt m b) (SimdSpec.groups len)))).
Proof.
  unfold SimdSpec.cos, SimdSpec.cos_sums. rewrite SimdSpec_cos_sums_split.
  unfold SimdSpec.cos_result, SimdSpec.cos_denominator.
  cbn [SimdC.dot SimdC.normA SimdC.normB].
  rewrite dot_step4_lanes, !SimdSpec_sq_lanes. reflexivity.
Qed.

Lemma moderate_norm_bounds m v len j :
  (0 <= len <= 4000)%Z -> moderate_buf m v len ->
  (0 <= j < len)%Z -> F32.is_zero (cell m (v + j)) = false ->
  bpow (-34) <= norm_sq_R m v len <= bpow 44.
Proof.
  intros Hlen Hm Hj Hz. unfold norm_sq_R.
  set (T := fun i => to_R (cell m (v + i)) * to_R (cell m (v + i))).
  pose proof (bpow_sq (-17)) as E1. change (2 * -17)%Z with (-34)%Z in E1.
  pose proof (bpow_sq 16) as E2. change (2 * 16)%Z with 32%Z in E2.
  pose proof (bpow_pos (-17)) as P17. pose proof (bpow_pos 16) as P16.
  pose proof (bpow_pos 32) as P32.
  assert (HT : forall i, (0 <= i < len)%Z -> 0 <= T i <= bpow 32).
  { intros i Hi. unfold T. destruct (moderate_range _ (Hm i Hi)) as [[V|V] _].
    - rewrite V. lra.
    - rewrite sq_Rabs. pose proof (Rabs_pos (to_R (cell m (v + i)))). split; nra. }
  split.
  - apply Rle_trans with (T j).
    + unfold T. destruct (moderate_range _ (Hm j Hj)) as [[V|V] _].
      * exfalso. pose proof (well_scaled_regular _ (moderate_well_scaled _ (Hm j Hj))) as Hr.
        destruct (cell m (v + j)) as [s0|s0| |s0 m0 e0]; try discriminate; try contradiction.
        cbn [to_R] in V. pose proof (F2R_pos m0 e0). destruct s0; unfold sgn in V; lra.
      * rewrite sq_Rabs. nra.
    + apply serial_ge_term; [| rewrite Z2Nat.id by lia; exact Hj].
      intros t Ht. rewrite Z2Nat.id in Ht by lia. apply HT. exact Ht.
  - unfold serial_sum.
    pose proof (real_sum_bounds T (bpow 32) 1 (Z.to_nat len) 0%Z 0) as H.
    destruct H as [_ H].
    { intros t Ht. apply HT. lia. }
    rewrite INR_to_nat in H by lia.
    assert (HL : IZR len <= 4096) by (apply IZR_le; lia).
    pose proof (bpow_add 12 32) as A1. change (12 + 32)%Z with 44%Z in A1.
    assert (E12 : bpow 12 = 4096) by (unfold bpow; simpl; lra).
    pose proof (bpow_pos 32). nra.
Qed.

Lemma cos_R_le_1 m a b len ja jb :
  (0 < len <= 2000)%Z ->
  moderate_buf m a len -> moderate_buf m b len ->
  (0 <= ja < len)%Z -> F32.is_zero (cell m (a + ja)) = false ->
  (0 <= jb < len)%Z -> F32.is_zero (cell m (b + jb)) = false ->
  Rabs (cos_R m a b len) <= 1.
Proof.
  intros Hlen Hma Hmb Hja Hza Hjb Hzb.
  assert (Hlen' : (0 <= len <= 4000)%Z) by lia.
  pose proof (moderate_norm_bounds _ _ _ _ Hlen' Hma Hja Hza) as HSa.
  pose proof (moderate_norm_bounds _ _ _ _ Hlen' Hmb Hjb Hzb) as HSb.
  destruct (cauchy_schwarz m a b len) as [HA0 Hcs].
  pose proof (dot_le_abs m a b len) as Hda.
  pose proof (bpow_pos (-34)) as P34.
  unfold cos_R.
  pose proof (sqrt_pos (norm_sq_R m a len)) as Hsa.
  pose proof (sqrt_pos (norm_sq_R m b len)) as Hsb.
  pose proof (sqrt_sqrt (norm_sq_R m a len) ltac:(lra)) as Esa.
  pose proof (sqrt_sqrt (norm_sq_R m b len) ltac:(lra)) as Esb.
  set (M := sqrt (norm_sq_R m a len) * sqrt (norm_sq_R m b len)) in *.
  assert (HM2 : M * M = norm_sq_R m a len * norm_sq_R m b len)
    by (unfold M; nra).
  assert (HM0 : 0 <= M) by (unfold M; nra).
  assert (HMpos : 0 < M).
  { destruct (Req_dec M 0) as [E|E]; [| lra]. rewrite E in HM2. nra. }
  assert (HAM : dot_abs_R m a b len <= M) by (apply sq_le_inv; nra).
  unfold Rdiv. rewrite Rabs_mult, (Rabs_right (/ M))
    by (apply Rle_ge, Rlt_le, Rinv_0_lt_compat; lra).
  apply Rmult_le_reg_r with M; [exact HMpos |].
  rewrite Rmult_assoc, Rinv_l by lra. lra.
Qed.

Lemma prod_terms_ok m a b len :
  moderate_buf m a len -> moderate_buf m b len ->
  forall j, (0 <= j < len)%Z ->
    sacc (-80) 1
      (Rabs (to_R (cell m (a + j)) * to_R (cell m (b + j))))
      (to_R (cell m (a + j)) * to_R (cell m (b + j)))
      (prod_elt m a b j) /\
    Rabs (to_R (cell m (a + j)) * to_R (cell m (b + j))) <= bpow 110.
Proof.
  intros Hma Hmb j Hj. apply prod_term_ok; [apply Hma | apply Hmb]; exact Hj.
Qed.

Lemma ScalarCpp_cosineSimilarity_error (s : state) (a b len : Z) :
  (0 < len <= 2000)%Z ->
  valid_buf (mem s) a len -> valid_buf (mem s) b len ->
  moderate_buf (mem s) a len -> moderate_buf (mem s) b len ->
  (exists j, (0 <= j < len)%Z /\ F32.is_zero (cell (mem s) (a + j)) = false) ->
  (exists j, (0 <= j < len)%Z /\ F32.is_zero (cell (mem s) (b + j)) = false) ->
  exists r new,
    ScalarCpp.cosineSimilarity a b len s =
      Ok (r, mkState (mem s) (new ++ trace s)) /\
    regular r /\
    Rabs (to_R r - cos_R (mem s) a b len) <= (2 * IZR len + 9) * u32.
Proof.
  intros Hlen Hva Hvb Hma Hmb (ja & Hja & Hza) (jb & Hjb & Hzb).
  assert (Hmax : (0 <= len <= INT_MAX)%Z) by (unfold INT_MAX; lia).
  assert (HL : 1 <= IZR len <= 2000) by (split; apply IZR_le; lia).
  assert (Hlen' : (0 <= len <= 4000)%Z) by lia.
  pose proof (moderate_norm_bounds _ _ _ _ Hlen' Hma Hja Hza) as HSa.
  pose proof (moderate_norm_bounds _ _ _ _ Hlen' Hmb Hjb Hzb) as HSb.
  destruct (cauchy_schwarz (mem s) a b len) as [HA0 Hcs].
  assert (HI : INR (Z.to_nat len) = IZR len) by (apply INR_to_nat; lia).
  pose proof (prod_terms_ok (mem s) a b len Hma Hmb) as Hterm.
  destruct (ScalarCpp_cosineSimilarity_run s a b len Hmax Hva Hvb) as (new & Hrun & _).
  eexists _, new. split; [exact Hrun |].
  rewrite ScalarSpec_cos_serial. unfold cos_R.
  pose proof (cos_assemble (1 + Z.to_nat len) (1 + Z.to_nat len) (1 + Z.to_nat len)
                (dot_abs_R (mem s) a b len) (dot_R (mem s) a b len)
                (norm_sq_R (mem s) a len) (norm_sq_R (mem s) b len)) as H.
  rewrite !plus_INR, HI in H. simpl INR in H.
  edestruct H as [Rr H'].
  + unfold dot_abs_R, dot_R. apply serial_sum_signed.
    * lia.
    * rewrite HI. simpl INR. lra.
    * rewrite HI. lra.
    * intros j Hj. rewrite Z2Nat.id in Hj by lia. apply Hterm. exact Hj.
  + apply sum_sq_scalar; [lia | apply moderate_buf_scaled; exact Hma].
  + apply sum_sq_scalar; [lia | apply moderate_buf_scaled; exact Hmb].
  + exact Hcs.
  + exact HSa.
  + exact HSb.
  + lra.
  + lra.
  + split; [exact Rr |]. eapply Rle_trans; [exact H' |]. apply Req_le. field.
Qed.

Lemma SimdC_cosineSimilarity_error (s : state) (a b len : Z) :
  (0 < len <= 2000)%Z -> (len mod 4 = 0)%Z ->
  valid_buf (mem s) a len -> valid_buf (mem s) b len ->
  moderate_buf (mem s) a len -> moderate_buf (mem s) b len ->
  (exists j, (0 <= j < len)%Z /\ F32.is_zero (cell (mem s) (a + j)) = false) ->
  (exists j, (0 <= j < len)%Z /\ F32.is_zero (cell (mem s) (b + j)) = false) ->
  exists r new,
    SimdC.cosineSimilarity a b len s =
      Ok (r, mkState (mem s) (new ++ trace s)) /\
    regular r /\
    Rabs (to_R r - cos_R (mem s) a b len) <= (IZR len / 2 + 15) * u32.
Proof.
  intros Hlen Hmod Hva Hvb Hma Hmb (ja & Hja & Hza) (jb & Hjb & Hzb).
  assert (Hmax : (0 <= len <= INT_MAX)%Z) by (unfold INT_MAX; lia).
  assert (HL : 1 <= IZR len <= 2000) by (split; apply IZR_le; lia).
  assert (Hlen' : (0 <= len <= 4000)%Z) by lia.
  pose proof (moderate_norm_bounds _ _ _ _ Hlen' Hma Hja Hza) as HSa.
  pose proof (moderate_norm_bounds _ _ _ _ Hlen' Hmb Hjb Hzb) as HSb.
  destruct (cauchy_schwarz (mem s) a b len) as [HA0 Hcs].
  pose proof (prod_terms_ok (mem s) a b len Hma Hmb) as Hterm.
  destruct (SimdC_cosineSimilarity_run s a b len Hmax Hmod Hva Hvb) as (new & Hrun & _).
  eexists _, new. split; [exact Hrun |].
  rewrite SimdSpec_cos_lanes. unfold cos_R.
  destruct (groups_multiple len ltac:(lia) Hmod) as [E1 E2].
  pose proof (cos_assemble (1 + SimdSpec.groups len + 3) (1 + SimdSpec.groups len + 3)
                (1 + SimdSpec.groups len + 3)
                (dot_abs_R (mem s) a b len) (dot_R (mem s) a b len)
                (norm_sq_R (mem s) a len) (norm_sq_R (mem s) b len)) as H.
  rewrite !plus_INR, E2 in H. simpl INR in H.
  edestruct H as [Rr H'].
  + unfold dot_abs_R, dot_R. rewrite <- E1. apply lane_sum_signed.
    * lia.
    * rewrite E2. simpl INR. lra.
    * rewrite E2. lra.
    * intros j Hj. apply Hterm. lia.
  + apply sum_sq_simd; [lia | exact Hmod | apply moderate_buf_scaled; exact Hma].
  + apply sum_sq_simd; [lia | exact Hmod | apply moderate_buf_scaled; exact Hmb].
  + exact Hcs.
  + exact HSa.
  + exact HSb.
  + lra.
  + lra.
  + split; [exact Rr |]. eapply Rle_trans; [exact H' |]. apply Req_le. field.
Qed.

(** X14: for vectors of at most 2000 elements of moderate size (each zero
    or of magnitude in [[2^-17, 2^16)]), neither of them zero,
    [cosineSimilarity] returns a finite number (a zero or a normal number,
    never NaN or an infinity), and this number is the exact cosine of the
    angle between them, which lies in [[-1, 1]], up to the absolute error
    [(2 len + 9) 2^-24] (scalar) and [(len / 2 + 15) 2^-24] (SIMD). *)
Theorem X14_cosineSimilarity_accuracy (s : state) (a b len : Z) :
  (0 < len <= 2000)%Z ->
  valid_buf (mem s) a len -> valid_buf (mem s) b len ->
  moderate_buf (mem s) a len -> moderate_buf (mem s) b len ->
  (exists j, (0 <= j < len)%Z /\ F32.is_zero (cell (mem s) (a + j)) = false) ->
  (exists j, (0 <= j < len)%Z /\ F32.is_zero (cell (mem s) (b + j)) = false) ->
  Rabs (cos_R (mem s) a b len) <= 1 /\
  (exists r new,
     ScalarCpp.cosineSimilarity a b len s =
       Ok (r, mkState (mem s) (new ++ trace s)) /\
     regular r /\
     Rabs (to_R r - cos_R (mem s) a b len) <= (2 * IZR len + 9) * u32) /\
  ((len mod 4 = 0)%Z ->
   exists r new,
     SimdC.cosineSimilarity a b len s =
       Ok (r, mkState (mem s) (new ++ trace s)) /\
     regular r /\
     Rabs (to_R r - cos_R (mem s) a b len) <= (IZR len / 2 + 15) * u32).
Proof.
  intros Hlen Hva Hvb Hma Hmb Hza Hzb. split; [| split].
  - destruct Hza as (ja & Hja & Hza). destruct Hzb as (jb & Hjb & Hzb).
    apply (cos_R_le_1 (mem s) a b len ja jb); assumption.
  - apply ScalarCpp_cosineSimilarity_error; assumption.
  - intros Hmod. apply SimdC_cosineSimilarity_error; assumption.
Qed.

Lemma X14_cosineSimilarity_accuracy_witness :
  ((0 < 4 <= 2000)%Z /\
   valid_buf (mem state_e1_e2) 0 4 /\ valid_buf (mem state_e1_e2) 4 4 /\
   moderate_buf (mem state_e1_e2) 0 4 /\ moderate_buf (mem state_e1_e2) 4 4 /\
   (exists j, (0 <= j < 4)%Z /\ F32.is_zero (cell (mem state_e1_e2) (0 + j)) = false) /\
   (exists j, (0 <= j < 4)%Z /\ F32.is_zero (cell (mem state_e1_e2) (4 + j)) = false)) /\
  Rabs (cos_R (mem state_e1_e2) 0 4 4) <= 1 /\
  exists r new,
    ScalarCpp.cosineSimilarity 0 4 4 state_e1_e2 =
      Ok (r, mkState (mem state_e1_e2) (new ++ trace state_e1_e2)) /\
    regular r /\
    Rabs (to_R r - cos_R (mem state_e1_e2) 0 4 4) <= (2 * IZR 4 + 9) * u32.
Proof.
  assert (H1 : (0 < 4 <= 2000)%Z) by lia.
  assert (H2 : valid_buf (mem state_e1_e2) 0 4) by (unfold valid_buf; simpl; lia).
  assert (H3 : valid_buf (mem state_e1_e2) 4 4) by (unfold valid_buf; simpl; lia).
  assert (H4 : moderate_buf (mem state_e1_e2) 0 4).
  { intros i Hi.
    assert (i = 0 \/ i = 1 \/ i = 2 \/ i = 3)%Z as [-> | [-> | [-> | ->]]] by lia;
      reflexivity. }
  assert (H5 : moderate_buf (mem state_e1_e2) 4 4).
  { intros i Hi.
    assert (i = 0 \/ i = 1 \/ i = 2 \/ i = 3)%Z as [-> | [-> | [-> | ->]]] by lia;
      reflexivity. }
  assert (H6 : exists j, (0 <= j < 4)%Z /\
                 F32.is_zero (cell (mem state_e1_e2) (0 + j)) = false)
    by (exists 0%Z; split; [lia | reflexivity]).
  assert (H7 : exists j, (0 <= j < 4)%Z /\
                 F32.is_zero (cell (mem state_e1_e2) (4 + j)) = false)
    by (exists 1%Z; split; [lia | reflexivity]).
  split; [auto 8 |].
  pose proof (X14_cosineSimilarity_accuracy state_e1_e2 0 4 4 H1 H2 H3 H4 H5 H6 H7) as H.
  split; [exact (proj1 H) | exact (proj1 (proj2 H))].
Defined.

(** ** Normalising twice *)

Lemma regular_scaled x :
  regular x -> to_R x = 0 \/ bpow (-50) <= Rabs (to_R x) < bpow 54 ->
  well_scaled x = true.
Proof.
  destruct x as [s|s| |s m e]; try contradiction; intros Hr Hv; [reflexivity |].
  cbn [regular] in Hr. destruct Hr as [Hd He].
  pose proof (F2R_pos m e) as HP.
  pose proof (F2R_digits_bounds m e) as [L U]. rewrite Hd in L, U.
  destruct Hv as [Hv | [V1 V2]].
  - exfalso. cbn [to_R] in Hv. destruct s; unfold sgn in Hv; lra.
  - rewrite Rabs_to_R in V1, V2. cbn [well_scaled].
    assert (H1 : (24 - 1 + e < 54)%Z) by (apply bpow_lt_inv; lra).
    assert (H2 : (-50 < 24 + e)%Z) by (apply bpow_lt_inv; lra).
    apply andb_true_intro. split; [apply andb_true_intro; split |].
    + apply Z.eqb_eq. exact Hd.
    + apply Z.leb_le. lia.
    + apply Z.leb_le. lia.
Qed.

Lemma nonzero_value x : to_R x <> 0 -> F32.is_zero x = false.
Proof. destruct x; cbn [to_R]; intros H; try reflexivity. contradiction. Qed.

Lemma moderate_nonzero x :
  moderate x = true -> F32.is_zero x = false ->
  bpow (-17) <= Rabs (to_R x) < bpow 16.
Proof.
  intros Hm Hz. destruct (moderate_range _ Hm) as [[V|V] _]; [| exact V].
  exfalso. pose proof (well_scaled_regular _ (moderate_well_scaled _ Hm)) as Hr.
  destruct x as [s0|s0| |s0 m0 e0]; try discriminate; try contradiction.
  cbn [to_R] in V. pose proof (F2R_pos m0 e0). destruct s0; unfold sgn in V; lra.
Qed.

Lemma ScalarCpp_normalize_valid s v len s1 :
  (0 <= len <= INT_MAX)%Z -> valid_buf (mem s) v len ->
  ScalarCpp.normalize v len s = Ok (tt, s1) -> valid_buf (mem s1) v len.
Proof.
  intros Hlen Hv Hrun.
  destruct (ScalarCpp_normalize_run s v len Hlen Hv) as (new & Hrun' & _).
  rewrite Hrun in Hrun'. injection Hrun' as ->. cbn [mem].
  unfold valid_buf, ScalarSpec.normalized in *.
  destruct (F32.ltb _ _); [rewrite length_map_region |]; exact Hv.
Qed.

Lemma SimdC_normalize_valid s v len s1 :
  (0 <= len <= INT_MAX)%Z -> (len mod 4 = 0)%Z -> valid_buf (mem s) v len ->
  SimdC.normalize v len s = Ok (tt, s1) -> valid_buf (mem s1) v len.
Proof.
  intros Hlen Hmod Hv Hrun.
  destruct (SimdC_normalize_run s v len Hlen Hmod Hv) as (new & Hrun' & _).
  rewrite Hrun in Hrun'. injection Hrun' as ->. cbn [mem].
  unfold valid_buf, SimdSpec.normalized in *.
  rewrite length_map_region. exact Hv.
Qed.

(** An element of a moderate vector divided by the norm stays well inside the
    range of the normal numbers. *)
Lemma quotient_range m v len j i y e :
  (0 <= len <= 4000)%Z -> moderate_buf m v len ->
  (0 <= j < len)%Z -> F32.is_zero (cell m (v + j)) = false ->
  (0 <= i < len)%Z -> 0 <= e <= / 2 ->
  Rabs (y - to_R (cell m (v + i)) / sqrt (norm_sq_R m v len)) <=
    e * Rabs (to_R (cell m (v + i)) / sqrt (norm_sq_R m v len)) ->
  (y = 0 \/ bpow (-50) <= Rabs y < bpow 54) /\
  (F32.is_zero (cell m (v + i)) = false -> y <> 0).
Proof.
  intros Hlen Hm Hj Hz Hi He H.
  destruct (moderate_norm_bounds m v len j Hlen Hm Hj Hz) as [SL SU].
  set (S := norm_sq_R m v len) in *. set (X := to_R (cell m (v + i))) in *.
  pose proof (bpow_sq (-17)) as E1. change (2 * -17)%Z with (-34)%Z in E1.
  pose proof (bpow_sq 22) as E2. change (2 * 22)%Z with 44%Z in E2.
  pose proof (bpow_pos (-17)) as P17. pose proof (bpow_pos 22) as P22.
  pose proof (bpow_pos (-34)) as P34.
  assert (N1 : bpow (-17) <= sqrt S).
  { rewrite <- (sqrt_square (bpow (-17))) by lra. apply sqrt_le_1; lra. }
  assert (N2 : sqrt S <= bpow 22).
  { rewrite <- (sqrt_square (bpow 22)) by lra. apply sqrt_le_1; lra. }
  set (N := sqrt S) in *.
  assert (HN : 0 < N) by lra.
  assert (HQ : Rabs (X / N) = Rabs X / N).
  { unfold Rdiv. rewrite Rabs_mult, (Rabs_right (/ N)); [reflexivity |].
    apply Rle_ge, Rlt_le, Rinv_0_lt_compat. exact HN. }
  rewrite HQ in H.
  assert (HY : (1 - e) * (Rabs X / N) <= Rabs y <= (1 + e) * (Rabs X / N)).
  { assert (HA : Rabs (X / N) = Rabs X / N) by exact HQ.
    pose proof (Rabs_triang (y - X / N) (X / N)) as T1.
    replace (y - X / N + X / N) with y in T1 by ring.
    pose proof (Rabs_triang (X / N - y) y) as T2.
    replace (X / N - y + y) with (X / N) in T2 by ring.
    rewrite (Rabs_minus_sym (X / N) y) in T2. rewrite HA in T1, T2. lra. }
  assert (I1 : / bpow 22 <= / N) by (apply Rinv_le_contravar; lra).
  assert (I2 : / N <= / bpow (-17)) by (apply Rinv_le_contravar; lra).
  rewrite <- bpow_opp in I1, I2.
  change (Z.opp 22) with (Zneg 22) in I1. change (Z.opp (Zneg 17)) with (Zpos 17) in I2.
  pose proof (Rinv_0_lt_compat _ HN) as HiN.
  pose proof (bpow_pos (-22)) as P22'.
  assert (Hnz : bpow (-17) <= Rabs X < bpow 16 ->
                bpow (-50) <= Rabs y < bpow 54).
  { intros [V1 V2].
    pose proof (bpow_add (-17) (-22)) as A1. change (-17 + -22)%Z with (-39)%Z in A1.
    pose proof (bpow_add 16 17) as A2. change (16 + 17)%Z with 33%Z in A2.
    pose proof (bpow_succ (-40)) as A3. change (-40 + 1)%Z with (-39)%Z in A3.
    pose proof (bpow_succ 33) as A4. change (33 + 1)%Z with 34%Z in A4.
    pose proof (bpow_le (-50) (-40) ltac:(lia)).
    pose proof (bpow_lt 34 54 ltac:(lia)).
    pose proof (bpow_pos (-40)). pose proof (bpow_pos 16). pose proof (bpow_pos 17).
    assert (Q1 : bpow (-39) <= Rabs X / N) by (unfold Rdiv; nra).
    assert (Q2 : Rabs X / N <= bpow 33) by (unfold Rdiv; nra).
    split; nra. }
  split.
  - destruct (moderate_range _ (Hm i Hi)) as [[V|V] _].
    + left. fold X in V. rewrite V, Rabs_R0 in HY.
      unfold Rdiv in HY. rewrite Rmult_0_l, !Rmult_0_r in HY.
      pose proof (Rabs_pos y). destruct (Req_dec y 0) as [E|E]; [exact E |].
      pose proof (Rabs_pos_lt y E). lra.
    + right. apply Hnz. exact V.
  - intros Hzi. pose proof (moderate_nonzero _ (Hm i Hi) Hzi) as V.
    apply Hnz in V. pose proof (bpow_pos (-50)). intros E. rewrite E, Rabs_R0 in V. lra.
Qed.

(** The combination: [o] is an element after the first pass, [nu] the exact
    norm of the first result and [o'] the element after the second pass. *)
Lemma twice_bound a o o' nu :
  0 <= a <= / 2 -> a * a <= u32 ->
  Rabs (nu - 1) <= a / 2 ->
  Rabs (o' - o / nu) <= a / 2 * Rabs (o / nu) ->
  Rabs (o' - o) <= (a + u32) * Rabs o.
Proof.
  intros Ha Haa Hnu H.
  apply Rabs_le_both in Hnu.
  assert (HN : 0 < nu) by lra.
  pose proof (Rinv_0_lt_compat _ HN) as HiN.
  assert (HQ : Rabs (o / nu) = Rabs o / nu).
  { unfold Rdiv. rewrite Rabs_mult, (Rabs_right (/ nu)); [reflexivity |].
    apply Rle_ge, Rlt_le. exact HiN. }
  rewrite HQ in H.
  assert (H2 : Rabs (o / nu - o) <= a / 2 * (Rabs o / nu)).
  { replace (o / nu - o) with (o / nu * (1 - nu)) by (field; apply Rgt_not_eq; lra).
    rewrite Rabs_mult, HQ.
    assert (Rabs (1 - nu) <= a / 2) by (apply Rabs_le; lra).
    pose proof (Rabs_pos o).
    assert (0 <= Rabs o / nu) by (unfold Rdiv; nra).
    rewrite Rmult_comm. apply Rmult_le_compat_r; assumption. }
  pose proof (Rabs_triang (o' - o / nu) (o / nu - o)) as T.
  replace (o' - o / nu + (o / nu - o)) with (o' - o) in T by ring.
  assert (H3 : Rabs o / nu <= (1 + a) * Rabs o).
  { pose proof (Rabs_pos o).
    unfold Rdiv. apply Rmult_le_reg_r with nu; [exact HN |].
    rewrite Rmult_assoc, Rinv_l by (apply Rgt_not_eq; lra).
    assert (1 <= (1 + a) * nu) by nra. nra. }
  pose proof (Rabs_pos o). pose proof u32_bounds.
  assert (H4 : a * (Rabs o / nu) <= a * ((1 + a) * Rabs o))
    by (apply Rmult_le_compat_l; lra).
  nra.
Qed.

Lemma ScalarCpp_normalize_twice (s : state) (v len : Z) :
  (0 < len <= 4000)%Z -> valid_buf (mem s) v len -> moderate_buf (mem s) v len ->
  (exists j, (0 <= j < len)%Z /\ F32.is_zero (cell (mem s) (v + j)) = false) ->
  exists s1 s2,
    ScalarCpp.normalize v len s = Ok (tt, s1) /\
    ScalarCpp.normalize v len s1 = Ok (tt, s2) /\
    forall i, (0 <= i < len)%Z ->
      regular (cell (mem s1) (v + i)) /\ regular (cell (mem s2) (v + i)) /\
      Rabs (to_R (cell (mem s2) (v + i)) - to_R (cell (mem s1) (v + i))) <=
      (IZR len + 7) * u32 * Rabs (to_R (cell (mem s1) (v + i))).
Proof.
  intros Hlen Hv Hm Hnz.
  pose proof (moderate_buf_scaled _ _ _ Hm) as Hs.
  assert (Hmax : (0 <= len <= INT_MAX)%Z) by (unfold INT_MAX; lia).
  assert (HL : 1 <= IZR len <= 4000) by (split; apply IZR_le; lia).
  pose proof u32_bounds as HU. pose proof u32_eq as EU.
  assert (He : 0 <= (IZR len + 6) / 2 * u32 <= / 2) by (rewrite EU; lra).
  destruct (ScalarCpp_normalize_elements s v len Hlen Hv Hs Hnz) as (s1 & Hrun1 & Hel1).
  destruct (ScalarCpp_normalize_unit_norm s v len Hlen Hv Hs Hnz) as (s1' & Hrun1' & _ & Hn).
  rewrite Hrun1 in Hrun1'. injection Hrun1' as <-.
  pose proof (ScalarCpp_normalize_valid s v len s1 Hmax Hv Hrun1) as Hv1.
  destruct Hnz as (j & Hj & Hz).
  assert (Hs1 : scaled_buf (mem s1) v len).
  { intros i Hi. destruct (Hel1 i Hi) as [Rr Hb]. apply regular_scaled; [exact Rr |].
    exact (proj1 (quotient_range (mem s) v len j i _ _ ltac:(lia) Hm Hj Hz Hi He Hb)). }
  assert (Hnz1 : exists j, (0 <= j < len)%Z /\
                   F32.is_zero (cell (mem s1) (v + j)) = false).
  { exists j. split; [exact Hj |]. apply nonzero_value.
    destruct (Hel1 j Hj) as [_ Hb].
    exact (proj2 (quotient_range (mem s) v len j j _ _ ltac:(lia) Hm Hj Hz Hj He Hb) Hz). }
  destruct (ScalarCpp_normalize_elements s1 v len Hlen Hv1 Hs1 Hnz1) as (s2 & Hrun2 & Hel2).
  exists s1, s2. split; [exact Hrun1 |]. split; [exact Hrun2 |].
  intros i Hi. destruct (Hel2 i Hi) as [R2 Hb].
  split; [exact (proj1 (Hel1 i Hi)) |]. split; [exact R2 |].
  assert (HK : INR (Z.to_nat len + 5) = IZR len + 5).
  { rewrite plus_INR, INR_to_nat by lia. simpl INR. lra. }
  assert (H1 : Rabs (sqrt (norm_sq_R (mem s1) v len) - 1) <= (IZR len + 6) / 2 * u32).
  { replace (IZR len + 6) with (INR (Z.to_nat len + 5) + 1) by lra.
    apply sqrt_near_one; [exact Hn |]. rewrite HK, u32_eq. nra. }
  replace ((IZR len + 7) * u32) with ((IZR len + 6) * u32 + u32) by ring.
  apply twice_bound with (nu := sqrt (norm_sq_R (mem s1) v len)).
  - rewrite EU. lra.
  - rewrite EU. nra.
  - eapply Rle_trans; [exact H1 |]. apply Req_le. field.
  - eapply Rle_trans; [exact Hb |]. apply Req_le. field.
Qed.

Lemma SimdC_normalize_twice (s : state) (v len : Z) :
  (0 < len <= 4000)%Z -> (len mod 4 = 0)%Z ->
  valid_buf (mem s) v len -> moderate_buf (mem s) v len ->
  (exists j, (0 <= j < len)%Z /\ F32.is_zero (cell (mem s) (v + j)) = false) ->
  exists s1 s2,
    SimdC.normalize v len s = Ok (tt, s1) /\
    SimdC.normalize v len s1 = Ok (tt, s2) /\
    forall i, (0 <= i < len)%Z ->
      regular (cell (mem s1) (v + i)) /\ regular (cell (mem s2) (v + i)) /\
      Rabs (to_R (cell (mem s2) (v + i)) - to_R (cell (mem s1) (v + i))) <=
      (IZR len / 4 + 12) * u32 * Rabs (to_R (cell (mem s1) (v + i))).
Proof.
  intros Hlen Hmod Hv Hm Hnz.
  pose proof (moderate_buf_scaled _ _ _ Hm) as Hs.
  assert (Hmax : (0 <= len <= INT_MAX)%Z) by (unfold INT_MAX; lia).
  assert (HL : 1 <= IZR len <= 4000) by (split; apply IZR_le; lia).
  pose proof u32_bounds as HU. pose proof u32_eq as EU.
  assert (He : 0 <= (IZR len / 4 + 11) / 2 * u32 <= / 2) by (rewrite EU; lra).
  destruct (SimdC_normalize_elements s v len Hlen Hmod Hv Hs Hnz) as (s1 & Hrun1 & Hel1).
  destruct (SimdC_normalize_unit_norm s v len Hlen Hmod Hv Hs Hnz) as (s1' & Hrun1' & _ & Hn).
  rewrite Hrun1 in Hrun1'. injection Hrun1' as <-.
  pose proof (SimdC_normalize_valid s v len s1 Hmax Hmod Hv Hrun1) as Hv1.
  destruct Hnz as (j & Hj & Hz).
  assert (Hs1 : scaled_buf (mem s1) v len).
  { intros i Hi. destruct (Hel1 i Hi) as [Rr Hb]. apply regular_scaled; [exact Rr |].
    exact (proj1 (quotient_range (mem s) v len j i _ _ ltac:(lia) Hm Hj Hz Hi He Hb)). }
  assert (Hnz1 : exists j, (0 <= j < len)%Z /\
                   F32.is_zero (cell (mem s1) (v + j)) = false).
  { exists j. split; [exact Hj |]. apply nonzero_value.
    destruct (Hel1 j Hj) as [_ Hb].
    exact (proj2 (quotient_range (mem s) v len j j _ _ ltac:(lia) Hm Hj Hz Hj He Hb) Hz). }
  destruct (SimdC_normalize_elements s1 v len Hlen Hmod Hv1 Hs1 Hnz1)
    as (s2 & Hrun2 & Hel2).
  exists s1, s2. split; [exact Hrun1 |]. split; [exact Hrun2 |].
  intros i Hi. destruct (Hel2 i Hi) as [R2 Hb].
  split; [exact (proj1 (Hel1 i Hi)) |]. split; [exact R2 |].
  destruct (groups_multiple len ltac:(lia) Hmod) as [_ E2].
  assert (HK : INR (SimdSpec.groups len + 10) = IZR len / 4 + 10).
  { rewrite plus_INR, E2. simpl INR. lra. }
  assert (H1 : Rabs (sqrt (norm_sq_R (mem s1) v len) - 1) <=
               (IZR len / 4 + 11) / 2 * u32).
  { replace (IZR len / 4 + 11) with (INR (SimdSpec.groups len + 10) + 1) by lra.
    apply sqrt_near_one; [exact Hn |]. rewrite HK, u32_eq. nra. }
  replace ((IZR len / 4 + 12) * u32) with ((IZR len / 4 + 11) * u32 + u32) by field.
  apply twice_bound with (nu := sqrt (norm_sq_R (mem s1) v len)).
  - rewrite EU. lra.
  - rewrite EU. nra.
  - eapply Rle_trans; [exact H1 |]. apply Req_le. field.
  - eapply Rle_trans; [exact Hb |]. apply Req_le. field.
Qed.

(** X15: normalising a second time changes almost nothing.  For a vector of
    at most 4000 moderate elements, not all zero, two calls of [normalize] in
    a row both return, every element is a finite number after each call (a
    zero or a normal number, never NaN or an infinity), and the second call
    changes each element by at most the relative amount [(len + 7) 2^-24]
    (scalar) and [(len / 4 + 12) 2^-24] (SIMD, [len] a multiple of four). *)
Theorem X15_normalize_twice (s : state) (v len : Z) :
  (0 < len <= 4000)%Z -> valid_buf (mem s) v len -> moderate_buf (mem s) v len ->
  (exists j, (0 <= j < len)%Z /\ F32.is_zero (cell (mem s) (v + j)) = false) ->
  (exists s1 s2,
     ScalarCpp.normalize v len s = Ok (tt, s1) /\
     ScalarCpp.normalize v len s1 = Ok (tt, s2) /\
     forall i, (0 <= i < len)%Z ->
       regular (cell (mem s1) (v + i)) /\ regular (cell (mem s2) (v + i)) /\
       Rabs (to_R (cell (mem s2) (v + i)) - to_R (cell (mem s1) (v + i))) <=
       (IZR len + 7) * u32 * Rabs (to_R (cell (mem s1) (v + i)))) /\
  ((len mod 4 = 0)%Z ->
   exists s1 s2,
     SimdC.normalize v len s = Ok (tt, s1) /\
     SimdC.normalize v len s1 = Ok (tt, s2) /\
     forall i, (0 <= i < len)%Z ->
       regular (cell (mem s1) (v + i)) /\ regular (cell (mem s2) (v + i)) /\
       Rabs (to_R (cell (mem s2) (v + i)) - to_R (cell (mem s1) (v + i))) <=
       (IZR len / 4 + 12) * u32 * Rabs (to_R (cell (mem s1) (v + i)))).
Proof.
  intros Hlen Hv Hm Hnz. split.
  - apply ScalarCpp_normalize_twice; assumption.
  - intros Hmod. apply SimdC_normalize_twice; assumption.
Qed.

Lemma X15_normalize_twice_witness :
  ((0 < 4 <= 4000)%Z /\ valid_buf (mem state_3_4_0_0) 0 4 /\
   moderate_buf (mem state_3_4_0_0) 0 4 /\
   (exists j, (0 <= j < 4)%Z /\
      F32.is_zero (cell (mem state_3_4_0_0) (0 + j)) = false)) /\
  exists s1 s2,
    ScalarCpp.normalize 0 4 state_3_4_0_0 = Ok (tt, s1) /\
    ScalarCpp.normalize 0 4 s1 = Ok (tt, s2) /\
    forall i, (0 <= i < 4)%Z ->
      regular (cell (mem s1) (0 + i)) /\ regular (cell (mem s2) (0 + i)) /\
      Rabs (to_R (cell (mem s2) (0 + i)) - to_R (cell (mem s1) (0 + i))) <=
      (IZR 4 + 7) * u32 * Rabs (to_R (cell (mem s1) (0 + i))).
Proof.
  assert (H1 : (0 < 4 <= 4000)%Z) by lia.
  assert (H2 : valid_buf (mem state_3_4_0_0) 0 4) by (unfold valid_buf; simpl; lia).
  assert (H3 : moderate_buf (mem state_3_4_0_0) 0 4).
  { intros i Hi.
    assert (i = 0 \/ i = 1 \/ i = 2 \/ i = 3)%Z as [-> | [-> | [-> | ->]]] by lia;
      reflexivity. }
  assert (H4 : exists j, (0 <= j < 4)%Z /\
                 F32.is_zero (cell (mem state_3_4_0_0) (0 + j)) = false)
    by (exists 0%Z; split; [lia | reflexivity]).
  split; [auto |].
  exact (proj1 (X15_normalize_twice state_3_4_0_0 0 4 H1 H2 H3 H4)).
Defined.

(** ** How far the two implementations are apart *)

Lemma both_close e1 e2 t x y :
  Rabs (x - t) <= e1 -> Rabs (y - t) <= e2 -> Rabs (x - y) <= e1 + e2.
Proof.
  intros H1 H2. apply Rabs_le_both in H1, H2. apply Rabs_le. lra.
Qed.

Lemma diff_scaled_buf_scaled m p len : diff_scaled_buf m p len -> scaled_buf m p len.
Proof. intros H i Hi. apply diff_scaled_well_scaled, H. exact Hi. Qed.

(** X16: the SIMD and the scalar implementation agree up to rounding.  On
    vectors of at most 4000 elements, [len] a multiple of four, each element
    zero or of magnitude in [[2^-27, 2^54)], all results below are finite
    numbers (zeros or normal numbers, never NaN or an infinity) and: the two
    results of
    [euclideanDistance] differ by at most [(5 len / 4 + 15) 2^-25] times the
    exact distance; the elements written by the two [normalize] differ by at
    most that factor (with 17 for 15) times the exact quotient; and, for
    moderate nonzero vectors of at most 2000 elements, the two results of
    [cosineSimilarity] differ by at most [(5 len / 2 + 24) 2^-24]. *)
Theorem X16_implementations_agree (s : state) (a b len : Z) :
  (0 < len <= 4000)%Z -> (len mod 4 = 0)%Z ->
  valid_buf (mem s) a len -> valid_buf (mem s) b len ->
  diff_scaled_buf (mem s) a len -> diff_scaled_buf (mem s) b len ->
  (exists r1 r2 new1 new2,
     ScalarCpp.euclideanDistance a b len s =
       Ok (r1, mkState (mem s) (new1 ++ trace s)) /\
     SimdC.euclideanDistance a b len s =
       Ok (r2, mkState (mem s) (new2 ++ trace s)) /\
     regular r1 /\ regular r2 /\
     Rabs (to_R r1 - to_R r2) <=
       (5 * IZR len / 4 + 15) / 2 * u32 * sqrt (dist_sq_R (mem s) a b len)) /\
  ((exists j, (0 <= j < len)%Z /\ F32.is_zero (cell (mem s) (a + j)) = false) ->
   exists s1 s2,
     ScalarCpp.normalize a len s = Ok (tt, s1) /\
     SimdC.normalize a len s = Ok (tt, s2) /\
     forall i, (0 <= i < len)%Z ->
       regular (cell (mem s1) (a + i)) /\ regular (cell (mem s2) (a + i)) /\
       Rabs (to_R (cell (mem s1) (a + i)) - to_R (cell (mem s2) (a + i))) <=
       (5 * IZR len / 4 + 17) / 2 * u32 *
       Rabs (to_R (cell (mem s) (a + i)) / sqrt (norm_sq_R (mem s) a len))) /\
  ((len <= 2000)%Z ->
   moderate_buf (mem s) a len -> moderate_buf (mem s) b len ->
   (exists j, (0 <= j < len)%Z /\ F32.is_zero (cell (mem s) (a + j)) = false) ->
   (exists j, (0 <= j < len)%Z /\ F32.is_zero (cell (mem s) (b + j)) = false) ->
   exists r1 r2 new1 new2,
     ScalarCpp.cosineSimilarity a b len s =
       Ok (r1, mkState (mem s) (new1 ++ trace s)) /\
     SimdC.cosineSimilarity a b len s =
       Ok (r2, mkState (mem s) (new2 ++ trace s)) /\
     regular r1 /\ regular r2 /\
     Rabs (to_R r1 - to_R r2) <= (5 * IZR len / 2 + 24) * u32).
Proof.
  intros Hlen Hmod Hva Hvb Ha Hb. split; [| split].
  - destruct (ScalarCpp_euclideanDistance_error s a b len ltac:(lia) Hva Hvb Ha Hb)
      as (r1 & new1 & Hrun1 & R1 & H1).
    destruct (SimdC_euclideanDistance_error s a b len ltac:(lia) Hmod Hva Hvb Ha Hb)
      as (r2 & new2 & Hrun2 & R2 & H2).
    exists r1, r2, new1, new2. split; [exact Hrun1 |]. split; [exact Hrun2 |].
    split; [exact R1 |]. split; [exact R2 |].
    eapply Rle_trans; [exact (both_close _ _ _ _ _ H1 H2) |].
    apply Req_le. field.
  - intros Hnz. pose proof (diff_scaled_buf_scaled _ _ _ Ha) as Hs.
    destruct (ScalarCpp_normalize_elements s a len Hlen Hva Hs Hnz) as (s1 & Hrun1 & H1).
    destruct (SimdC_normalize_elements s a len Hlen Hmod Hva Hs Hnz) as (s2 & Hrun2 & H2).
    exists s1, s2. split; [exact Hrun1 |]. split; [exact Hrun2 |].
    intros i Hi. destruct (H1 i Hi) as [R1 B1]. destruct (H2 i Hi) as [R2 B2].
    split; [exact R1 |]. split; [exact R2 |].
    eapply Rle_trans; [exact (both_close _ _ _ _ _ B1 B2) |].
    apply Req_le. field.
  - intros Hlen2 Hma Hmb Hza Hzb.
    destruct (ScalarCpp_cosineSimilarity_error s a b len ltac:(lia) Hva Hvb Hma Hmb Hza Hzb)
      as (r1 & new1 & Hrun1 & R1 & H1).
    destruct (SimdC_cosineSimilarity_error s a b len ltac:(lia) Hmod Hva Hvb Hma Hmb Hza Hzb)
      as (r2 & new2 & Hrun2 & R2 & H2).
    exists r1, r2, new1, new2. split; [exact Hrun1 |]. split; [exact Hrun2 |].
    split; [exact R1 |]. split; [exact R2 |].
    eapply Rle_trans; [exact (both_close _ _ _ _ _ H1 H2) |].
    apply Req_le. field.
Qed.

Lemma X16_implementations_agree_witness :
  ((0 < 4 <= 4000)%Z /\ (4 mod 4 = 0)%Z /\
   valid_buf (mem state_e1_e2) 0 4 /\ valid_buf (mem state_e1_e2) 4 4 /\
   diff_scaled_buf (mem state_e1_e2) 0 4 /\ diff_scaled_buf (mem state_e1_e2) 4 4) /\
  exists r1 r2 new1 new2,
    ScalarCpp.euclideanDistance 0 4 4 state_e1_e2 =
      Ok (r1, mkState (mem state_e1_e2) (new1 ++ trace state_e1_e2)) /\
    SimdC.euclideanDistance 0 4 4 state_e1_e2 =
      Ok (r2, mkState (mem state_e1_e2) (new2 ++ trace state_e1_e2)) /\
    regular r1 /\ regular r2 /\
    Rabs (to_R r1 - to_R r2) <=
      (5 * IZR 4 / 4 + 15) / 2 * u32 * sqrt (dist_sq_R (mem state_e1_e2) 0 4 4).
Proof.
  assert (H1 : (0 < 4 <= 4000)%Z) by lia.
  assert (H2 : (4 mod 4 = 0)%Z) by reflexivity.
  assert (H3 : valid_buf (mem state_e1_e2) 0 4) by (unfold valid_buf; simpl; lia).
  assert (H4 : valid_buf (mem state_e1_e2) 4 4) by (unfold valid_buf; simpl; lia).
  assert (H5 : diff_scaled_buf (mem state_e1_e2) 0 4).
  { intros i Hi.
    assert (i = 0 \/ i = 1 \/ i = 2 \/ i = 3)%Z as [-> | [-> | [-> | ->]]] by lia;
      reflexivity. }
  assert (H6 : diff_scaled_buf (mem state_e1_e2) 4 4).
  { intros i Hi.
    assert (i = 0 \/ i = 1 \/ i = 2 \/ i = 3)%Z as [-> | [-> | [-> | ->]]] by lia;
      reflexivity. }
  split; [auto 8 |].
  exact (proj1 (X16_implementations_agree state_e1_e2 0 4 4 H1 H2 H3 H4 H5 H6)).
Defined.

(** ** When the distance is zero *)

Lemma shr_1_m mrs : (0 <= shr_m mrs)%Z -> shr_m (shr_1 mrs) = (shr_m mrs / 2)%Z.
Proof.
  destruct mrs as [m r s]. cbn [shr_m]. intros Hm.
  destruct m as [|p|p]; [reflexivity | | lia].
  destruct p as [p|p|]; cbn [shr_1 shr_m].
  - rewrite Pos2Z.inj_xI. apply (Z.div_unique _ 2 _ 1); lia.
  - rewrite Pos2Z.inj_xO. apply (Z.div_unique _ 2 _ 0); lia.
  - reflexivity.
Qed.

Lemma shr_iter_m k : forall mrs,
  (0 <= shr_m mrs)%Z ->
  shr_m (Nat.iter k shr_1 mrs) = (shr_m mrs / 2 ^ Z.of_nat k)%Z.
Proof.
  induction k as [|k IH]; intros mrs Hm.
  - simpl Nat.iter. change (Z.of_nat 0) with 0%Z. rewrite Z.pow_0_r, Z.div_1_r.
    reflexivity.
  - change (Nat.iter (S k) shr_1 mrs) with (shr_1 (Nat.iter k shr_1 mrs)).
    assert (Hnn : (0 <= shr_m mrs / 2 ^ Z.of_nat k)%Z)
      by (apply Z.div_pos; [lia | apply Z.pow_pos_nonneg; lia]).
    rewrite shr_1_m by (rewrite IH by exact Hm; exact Hnn).
    rewrite IH by exact Hm.
    rewrite Nat2Z.inj_succ, Z.pow_succ_r by lia.
    rewrite Z.div_div by (try apply Z.pow_pos_nonneg; lia).
    f_equal; lia.
Qed.

Lemma shr_record_of_loc_m m l : shr_m (shr_record_of_loc m l) = m.
Proof. destruct l as [|[]]; reflexivity. Qed.

Lemma digits2_pos_le p q :
  (Zpos p <= Zpos q)%Z -> (Zpos (digits2_pos p) <= Zpos (digits2_pos q))%Z.
Proof.
  intros H. pose proof (digits2_pos_bounds p) as [B1 _].
  pose proof (digits2_pos_bounds q) as [_ B2].
  destruct (Z_lt_le_dec (Zpos (digits2_pos q)) (Zpos (digits2_pos p))) as [Hlt|Hle];
    [| exact Hle].
  assert (2 ^ Zpos (digits2_pos q) <= 2 ^ (Zpos (digits2_pos p) - 1))%Z
    by (apply Z.pow_le_mono_r; lia).
  lia.
Qed.

(** The first step of rounding keeps the magnitude of a number that is at
    least the least positive number [2^-149]. *)
Lemma shr_fexp_large p e l :
  (-149 < Zpos (digits2_pos p) + e)%Z ->
  exists mrs p1 e1,
    shr_fexp 24 128 (Zpos p) e l = (mrs, e1) /\ shr_m mrs = Zpos p1 /\
    (Zpos (digits2_pos p1) + e1 = Zpos (digits2_pos p) + e)%Z /\ (-149 <= e1)%Z.
Proof.
  intros HD. unfold shr_fexp. rewrite Zdigits2_pos.
  set (d := Zpos (digits2_pos p)) in *.
  assert (Hf : fexp 24 128 (d + e) = Z.max (d + e - 24) (-149))
    by reflexivity.
  rewrite Hf. set (n := (Z.max (d + e - 24) (-149) - e)%Z).
  assert (Hn : (n < d)%Z) by (unfold n; lia).
  unfold shr. destruct n as [|q|q] eqn:En.
  - exists (shr_record_of_loc (Zpos p) l), p, e.
    split; [reflexivity |]. split; [apply shr_record_of_loc_m |].
    split; [reflexivity | lia].
  - rewrite iter_pos_nat.
    pose proof (shr_iter_m (Pos.to_nat q) (shr_record_of_loc (Zpos p) l)) as Hm.
    rewrite shr_record_of_loc_m, positive_nat_Z in Hm. specialize (Hm ltac:(lia)).
    pose proof (digits2_pos_bounds p) as [Bl Bu]. fold d in Bl, Bu.
    assert (Hpow : (0 < 2 ^ Zpos q)%Z) by (apply Z.pow_pos_nonneg; lia).
    assert (Hlo : (2 ^ (d - Zpos q - 1) <= Zpos p / 2 ^ Zpos q)%Z).
    { apply Z.div_le_lower_bound; [lia |].
      rewrite <- Z.pow_add_r by lia.
      replace (Zpos q + (d - Zpos q - 1))%Z with (d - 1)%Z by lia. exact Bl. }
    assert (Hhi : (Zpos p / 2 ^ Zpos q < 2 ^ (d - Zpos q))%Z).
    { apply Z.div_lt_upper_bound; [lia |].
      rewrite <- Z.pow_add_r by lia.
      replace (Zpos q + (d - Zpos q))%Z with d by lia. exact Bu. }
    assert (Hone : (1 <= 2 ^ (d - Zpos q - 1))%Z)
      by (apply (Z.pow_le_mono_r 2 0); lia).
    destruct (Zpos p / 2 ^ Zpos q)%Z as [|p1|p1] eqn:Ediv; try lia.
    exists (Nat.iter (Pos.to_nat q) shr_1 (shr_record_of_loc (Zpos p) l)), p1,
      (e + Zpos q)%Z.
    split; [reflexivity |]. split; [exact Hm |]. split; [| lia].
    rewrite (digits2_pos_unique p1 (d - Zpos q)); lia.
  - exists (shr_record_of_loc (Zpos p) l), p, e.
    split; [reflexivity |]. split; [apply shr_record_of_loc_m |].
    split; [reflexivity | lia].
Qed.

Lemma round_nearest_even_pos p l :
  exists p2, round_nearest_even (Zpos p) l = Zpos p2 /\ (Zpos p <= Zpos p2)%Z.
Proof.
  unfold round_nearest_even. destruct l as [|[]].
  - exists p. split; [reflexivity | lia].
  - destruct (Z.even (Zpos p)).
    + exists p. split; [reflexivity | lia].
    + exists (p + 1)%positive. split; [reflexivity | lia].
  - exists p. split; [reflexivity | lia].
  - exists (p + 1)%positive. split; [reflexivity | lia].
Qed.

(** Rounding never takes a number of magnitude at least [2^-149] to zero,
    nor below the power of two under it. *)
Lemma binary_round_aux_large s p e l :
  (-149 < Zpos (digits2_pos p) + e)%Z ->
  rounded_from s (Zpos (digits2_pos p) + e) (binary_round_aux 24 128 s (Zpos p) e l).
Proof.
  intros HD. unfold binary_round_aux.
  destruct (shr_fexp_large p e l HD) as (mrs & p1 & e1 & -> & Hm1 & Hd1 & He1).
  rewrite Hm1.
  destruct (round_nearest_even_pos p1 (loc_of_shr_record mrs)) as (p2 & -> & Hp2).
  pose proof (digits2_pos_le _ _ Hp2) as Hd2.
  destruct (shr_fexp_large p2 e1 loc_Exact ltac:(lia)) as (mrs3 & p3 & e3 & -> & Hm3 & Hd3 & He3).
  rewrite Hm3. destruct (e3 <=? 128 - 24)%Z; cbn [rounded_from].
  - split; [reflexivity |]. split; [exact He3 | lia].
  - reflexivity.
Qed.

Lemma binary_round_large s p e :
  (-149 < Zpos (digits2_pos p) + e)%Z ->
  rounded_from s (Zpos (digits2_pos p) + e) (binary_round 24 128 s p e).
Proof.
  intros HD. unfold binary_round.
  set (d := Zpos (digits2_pos p)) in *.
  set (f := fexp 24 128 (d + e)).
  destruct (Z_le_gt_dec f e) as [Hle|Hgt].
  - destruct (shl_align_value p e f Hle) as (-> & _ & Hp).
    pose proof (digits2_pos_shift p (e - f) ltac:(lia)) as Hdig. fold d in Hdig.
    replace (d + e)%Z with (Zpos (digits2_pos (Z.to_pos (Zpos p * 2 ^ (e - f)))) + f)%Z
      by lia.
    apply binary_round_aux_large. lia.
  - unfold shl_align. destruct (f - e)%Z as [|q|q] eqn:E; try lia.
    apply binary_round_aux_large. exact HD.
Qed.

Lemma rounded_from_at_least s D D' x :
  (D' <= D)%Z -> rounded_from s D x -> at_least s D' x.
Proof.
  intros HD. destruct x as [| | |s' m e]; cbn [rounded_from at_least]; try tauto.
  intros (-> & _ & H). split; [reflexivity | lia].
Qed.

Lemma rounded_from_positive D x : rounded_from false D x -> positive_float x.
Proof.
  destruct x as [|[]| |[] m e]; cbn [rounded_from positive_float];
    try tauto; try discriminate; intros (H & _); discriminate.
Qed.

Lemma positive_float_not_zero x : positive_float x -> F32.is_zero x = false.
Proof. destruct x as [| | |[] m e]; cbn [positive_float]; try tauto; reflexivity. Qed.

(** The sum of two positive numbers is positive: it is rounded, but never
    to zero, and an overflow gives plus infinity. *)
Lemma f32_add_positive x y :
  positive_float x -> positive_float y -> positive_float (F32.add x y).
Proof.
  destruct x as [|[]| |[] mx ex]; cbn [positive_float]; try tauto;
    destruct y as [|[]| |[] my ey]; cbn [positive_float]; try tauto;
    intros Hx Hy; try exact I.
  unfold F32.add, SFadd. fold F32.prec F32.emax. unfold F32.prec, F32.emax.
  cbn [cond_Zopp].
  set (ez := Z.min ex ey).
  destruct (shl_align mx ex ez) as [ax ?]. destruct (shl_align my ey ez) as [ay ?].
  cbn [fst]. change (Zpos ax + Zpos ay)%Z with (Zpos (ax + ay)).
  cbn [binary_normalize].
  apply (rounded_from_positive (Zpos (digits2_pos (ax + ay)) + ez)).
  apply binary_round_large.
  pose proof (Pos2Z.is_pos (digits2_pos (ax + ay))). unfold ez. lia.
Qed.

(** Sums of numbers that are [+0] or positive: the sum is [+0] exactly when
    both are. *)
Lemma f32_add_pzp x y :
  pzero_or_positive x -> pzero_or_positive y ->
  pzero_or_positive (F32.add x y) /\
  (F32.add x y = F32.zero <-> x = F32.zero /\ y = F32.zero).
Proof.
  intros [-> | Hx] [-> | Hy].
  - split; [left; reflexivity |]. split; [intros _; split; reflexivity | reflexivity].
  - assert (E : F32.add F32.zero y = y).
    { destruct y as [| | |[] my ey]; cbn [positive_float] in Hy; try tauto;
        reflexivity. }
    rewrite E. split; [right; exact Hy |].
    pose proof (positive_float_not_zero _ Hy) as Hz.
    split; [intros ->; discriminate | intros [_ ->]; discriminate].
  - assert (E : F32.add x F32.zero = x).
    { destruct x as [| | |[] mx ex]; cbn [positive_float] in Hx; try tauto;
        reflexivity. }
    rewrite E. split; [right; exact Hx |].
    pose proof (positive_float_not_zero _ Hx) as Hz.
    split; [intros ->; discriminate | intros [-> _]; discriminate].
  - pose proof (f32_add_positive _ _ Hx Hy) as Hp.
    split; [right; exact Hp |].
    pose proof (positive_float_not_zero _ Hp) as Hz.
    pose proof (positive_float_not_zero _ Hx) as Hzx.
    split; [intros E; rewrite E in Hz; discriminate | intros [-> _]; discriminate].
Qed.

(** The square of a number of magnitude at least [2^-74] is positive: it
    does not underflow to zero. *)
Lemma f32_square_large s d :
  at_least s (-73) d -> positive_float (F32.mul d d).
Proof.
  destruct d as [|s'| |s' m e]; cbn [at_least]; try tauto.
  - intros _. unfold F32.mul, SFmul. destruct s'; exact I.
  - intros [_ HD]. unfold F32.mul, SFmul. fold F32.prec F32.emax.
    unfold F32.prec, F32.emax. rewrite xorb_nilpotent.
    apply (rounded_from_positive (Zpos (digits2_pos (m * m)) + (e + e))).
    apply binary_round_aux_large.
    pose proof (digits2_pos_bounds m) as [Bl _].
    set (k := Zpos (digits2_pos m)) in *.
    assert (Hk : (0 < k)%Z) by (unfold k; lia).
    assert (Hsq : (2 ^ (2 * k - 1 - 1) <= Zpos (m * m))%Z).
    { replace (2 * k - 1 - 1)%Z with ((k - 1) + (k - 1))%Z by lia.
      rewrite Z.pow_add_r by lia. rewrite Pos2Z.inj_mul.
      assert (0 < 2 ^ (k - 1))%Z by (apply Z.pow_pos_nonneg; lia).
      nia. }
    pose proof (digits2_pos_ge (m * m) (2 * k - 1) Hsq ltac:(lia)). lia.
Qed.

(** Two equal finite numbers: the difference is a zero and its square [+0]. *)
Lemma sq_diff_equal x y :
  F32.is_finite x = true -> F32.is_finite y = true -> F32.eqb x y = true ->
  F32.mul (F32.sub x y) (F32.sub x y) = F32.zero.
Proof.
  intros Hx Hy He.
  destruct x as [sx| | |sx mx ex]; try discriminate;
    destruct y as [sy| | |sy my ey]; try discriminate.
  - destruct sx, sy; reflexivity.
  - unfold F32.eqb, SFeqb, SFcompare in He. destruct sy; discriminate.
  - unfold F32.eqb, SFeqb, SFcompare in He. destruct sx; discriminate.
  - assert (E : S754_finite sx mx ex = S754_finite sy my ey).
    { unfold F32.eqb, SFeqb, SFcompare in He.
      destruct sx, sy; try discriminate;
        destruct (ex ?= ey)%Z eqn:Ec; try discriminate;
        apply Z.compare_eq in Ec; subst ey;
        destruct (Pos.compare_cont Eq mx my) eqn:Em; try discriminate;
        apply Pos.compare_eq in Em; subst my; reflexivity. }
    rewrite <- E. rewrite f32_sub_diag by reflexivity. reflexivity.
Qed.

Lemma F2R_digits_lower p e D :
  bpow D <= F2R (Zpos p) e -> (D < Zpos (digits2_pos p) + e)%Z.
Proof.
  intros H. pose proof (F2R_digits_bounds p e) as [_ U].
  apply bpow_lt_inv. lra.
Qed.

(** The difference of two finite numbers that are at least [2^-74] apart
    has magnitude at least [2^-74]. *)
Lemma f32_sub_large x y :
  F32.is_finite x = true -> F32.is_finite y = true ->
  bpow (-74) <= Rabs (to_R x - to_R y) ->
  exists s, at_least s (-73) (F32.sub x y).
Proof.
  intros Hx Hy H. pose proof (bpow_pos (-74)) as P74.
  destruct x as [sx| | |sx mx ex]; try discriminate;
    destruct y as [sy| | |sy my ey]; try discriminate.
  - exfalso. cbn [to_R] in H. rewrite Rminus_diag, Rabs_R0 in H. lra.
  - exists (negb sy). cbn [F32.sub SFsub at_least]. split; [reflexivity |].
    replace (to_R (S754_zero sx)) with 0 in H by reflexivity.
    rewrite Rminus_0_l, Rabs_Ropp, Rabs_to_R in H.
    pose proof (F2R_digits_lower _ _ _ H). lia.
  - exists sx. cbn [F32.sub SFsub at_least]. split; [reflexivity |].
    replace (to_R (S754_zero sy)) with 0 in H by reflexivity.
    rewrite Rminus_0_r, Rabs_to_R in H.
    pose proof (F2R_digits_lower _ _ _ H). lia.
  - unfold F32.sub, SFsub. fold F32.prec F32.emax. unfold F32.prec, F32.emax.
    set (ez := Z.min ex ey) in *.
    rewrite <- (aligned_value sx mx ex ez), <- (aligned_value sy my ey ez) in H by lia.
    rewrite <- F2R_minus in H.
    set (M := (cond_Zopp sx (Zpos (fst (shl_align mx ex ez))) -
               cond_Zopp sy (Zpos (fst (shl_align my ey ez))))%Z) in *.
    destruct M as [|q|q].
    + exfalso. rewrite F2R_0, Rabs_R0 in H. lra.
    + exists false. cbn [binary_normalize].
      pose proof (F2R_pos q ez).
      rewrite Rabs_right in H by lra.
      pose proof (F2R_digits_lower _ _ _ H) as HD.
      apply (rounded_from_at_least false (Zpos (digits2_pos q) + ez)); [lia |].
      apply binary_round_large. lia.
    + exists true. cbn [binary_normalize].
      pose proof (F2R_pos q ez).
      rewrite F2R_neg, Rabs_Ropp, Rabs_right in H by lra.
      pose proof (F2R_digits_lower _ _ _ H) as HD.
      apply (rounded_from_at_least true (Zpos (digits2_pos q) + ez)); [lia |].
      apply binary_round_large. lia.
Qed.

(** The term [(x - y)^2] of two finite numbers that are equal or at least
    [2^-74] apart: [+0] when they are equal, positive otherwise. *)
Lemma sq_diff_sign x y :
  F32.is_finite x = true -> F32.is_finite y = true ->
  F32.eqb x y = true \/ bpow (-74) <= Rabs (to_R x - to_R y) ->
  pzero_or_positive (F32.mul (F32.sub x y) (F32.sub x y)) /\
  (F32.mul (F32.sub x y) (F32.sub x y) = F32.zero <-> F32.eqb x y = true).
Proof.
  intros Hx Hy H. destruct (F32.eqb x y) eqn:E.
  - rewrite (sq_diff_equal x y Hx Hy E). split; [left; reflexivity | tauto].
  - destruct H as [H | H]; [discriminate |].
    destruct (f32_sub_large x y Hx Hy H) as [s Hs].
    pose proof (f32_square_large s _ Hs) as Hp.
    split; [right; exact Hp |].
    pose proof (positive_float_not_zero _ Hp) as Hz.
    split; [intros E0; rewrite E0 in Hz; discriminate | discriminate].
Qed.

(** The square root of a positive number is not zero. *)
Lemma f32_sqrt_positive x : positive_float x -> F32.is_zero (F32.sqrt x) = false.
Proof.
  destruct x as [|[]| |[] m e]; cbn [positive_float]; try tauto; intros He;
    try reflexivity.
  unfold F32.sqrt, SFsqrt. fold F32.prec F32.emax. unfold F32.prec, F32.emax.
  unfold SFsqrt_core_binary. rewrite Zdigits2_pos.
  set (d := Zpos (digits2_pos m)).
  set (e' := Z.min (fexp 24 128 (Z.div2 (d + e + 1))) (Z.div2 e)).
  pose proof (Zdiv2_odd_eqn e) as He2.
  assert (Hb : (0 <= (if Z.odd e then 1 else 0) <= 1)%Z) by (destruct (Z.odd e); lia).
  assert (Hf : (-149 <= fexp 24 128 (Z.div2 (d + e + 1)))%Z)
    by (unfold fexp, emin; lia).
  assert (He' : (-149 <= e')%Z) by (unfold e'; lia).
  assert (Hs : (0 <= e - 2 * e')%Z) by (unfold e'; lia).
  set (m' := match (e - 2 * e')%Z with
             | 0%Z => Zpos m
             | Zpos _ => Z.shiftl (Zpos m) (e - 2 * e')
             | Zneg _ => 0%Z
             end).
  assert (Hm' : (1 <= m')%Z).
  { unfold m'. destruct (e - 2 * e')%Z as [|q|q] eqn:E; [lia | | lia].
    rewrite Z.shiftl_mul_pow2 by lia.
    assert (0 < 2 ^ Zpos q)%Z by (apply Z.pow_pos_nonneg; lia). nia. }
  pose proof (Z.sqrtrem_spec m' ltac:(lia)) as Hspec.
  destruct (Z.sqrtrem m') as [q r]. destruct Hspec as [Hqr Hrb].
  destruct q as [|pq|pq]; [lia | | lia].
  apply positive_float_not_zero.
  apply (rounded_from_positive (Zpos (digits2_pos pq) + e')).
  apply binary_round_aux_large.
  pose proof (Pos2Z.is_pos (digits2_pos pq)). lia.
Qed.

(** A running sum of terms that are [+0] or positive is [+0] or positive,
    and it is [+0] exactly when it started there and every term is [+0]. *)
Lemma iter_sum_pzp (term : Z -> float) n : forall i acc,
  pzero_or_positive acc ->
  (forall k, (i <= k < i + Z.of_nat n)%Z -> pzero_or_positive (term k)) ->
  pzero_or_positive (iter_from (fun i acc => F32.add acc (term i)) 1 n i acc) /\
  (iter_from (fun i acc => F32.add acc (term i)) 1 n i acc = F32.zero <->
   acc = F32.zero /\ forall k, (i <= k < i + Z.of_nat n)%Z -> term k = F32.zero).
Proof.
  induction n as [|n IH]; intros i acc Hacc Ht.
  - cbn [iter_from]. split; [exact Hacc |].
    split; [intros H; split; [exact H | intros k Hk; lia] | tauto].
  - cbn [iter_from].
    destruct (f32_add_pzp acc (term i) Hacc (Ht i ltac:(lia))) as [Hp Hz].
    destruct (IH (i + 1)%Z (F32.add acc (term i)) Hp
                (fun k Hk => Ht k ltac:(lia))) as [Hp' Hz'].
    split; [exact Hp' |]. rewrite Hz', Hz. split.
    + intros [[Ha Hi] Hk]. split; [exact Ha |]. intros k Hr.
      destruct (Z.eq_dec k i) as [-> | Hne]; [exact Hi | apply Hk; lia].
    + intros [Ha Hk]. split; [split; [exact Ha | apply Hk; lia] |].
      intros k Hr. apply Hk. lia.
Qed.

Lemma serial_sum_pzp (term : Z -> float) n :
  (forall k, (0 <= k < Z.of_nat n)%Z -> pzero_or_positive (term k)) ->
  pzero_or_positive (serial_sum F32.add F32.zero term n) /\
  (serial_sum F32.add F32.zero term n = F32.zero <->
   forall k, (0 <= k < Z.of_nat n)%Z -> term k = F32.zero).
Proof.
  intros Ht. unfold serial_sum.
  destruct (iter_sum_pzp term n 0 F32.zero (or_introl eq_refl) Ht) as [Hp Hz].
  split; [exact Hp |]. rewrite Hz. split; [intros [_ H]; exact H | intros H; split; [reflexivity | exact H]].
Qed.

Lemma lane_sums_pzp (term : Z -> float) g : forall i l0 l1 l2 l3,
  pzero_or_positive l0 -> pzero_or_positive l1 ->
  pzero_or_positive l2 -> pzero_or_positive l3 ->
  (forall k, (i <= k < i + 4 * Z.of_nat g)%Z -> pzero_or_positive (term k)) ->
  let '(k0, k1, k2, k3) :=
    iter_from (fun i '(l0, l1, l2, l3) =>
                 (F32.add l0 (term i), F32.add l1 (term (i + 1)%Z),
                  F32.add l2 (term (i + 2)%Z), F32.add l3 (term (i + 3)%Z)))
              4 g i (l0, l1, l2, l3) in
  (pzero_or_positive k0 /\ pzero_or_positive k1 /\
   pzero_or_positive k2 /\ pzero_or_positive k3) /\
  (k0 = F32.zero /\ k1 = F32.zero /\ k2 = F32.zero /\ k3 = F32.zero <->
   (l0 = F32.zero /\ l1 = F32.zero /\ l2 = F32.zero /\ l3 = F32.zero) /\
   forall k, (i <= k < i + 4 * Z.of_nat g)%Z -> term k = F32.zero).
Proof.
  induction g as [|g IH]; intros i l0 l1 l2 l3 H0 H1 H2 H3 Ht.
  - cbn [iter_from]. split; [tauto |].
    split; [intros H; split; [exact H | intros k Hk; lia] | tauto].
  - cbn [iter_from].
    destruct (f32_add_pzp l0 (term i) H0 (Ht i ltac:(lia))) as [P0 Z0].
    destruct (f32_add_pzp l1 (term (i + 1)%Z) H1 (Ht (i + 1)%Z ltac:(lia))) as [P1 Z1].
    destruct (f32_add_pzp l2 (term (i + 2)%Z) H2 (Ht (i + 2)%Z ltac:(lia))) as [P2 Z2].
    destruct (f32_add_pzp l3 (term (i + 3)%Z) H3 (Ht (i + 3)%Z ltac:(lia))) as [P3 Z3].
    specialize (IH (i + 4)%Z _ _ _ _ P0 P1 P2 P3 (fun k Hk => Ht k ltac:(lia))).
    destruct (iter_from _ 4 g (i + 4)%Z _) as [[[k0 k1] k2] k3].
    destruct IH as [HP HZ]. split; [exact HP |].
    rewrite HZ, Z0, Z1, Z2, Z3. split.
    + intros [([A0 T0] & [A1 T1] & [A2 T2] & [A3 T3]) Hk].
      split; [tauto |]. intros k Hr.
      assert (k = i \/ k = i + 1 \/ k = i + 2 \/ k = i + 3 \/ i + 4 <= k)%Z
        as [-> | [-> | [-> | [-> | Hge]]]] by lia; try assumption.
      apply Hk. lia.
    + intros [(A0 & A1 & A2 & A3) Hk].
      split; [repeat split; try assumption; apply Hk; lia |].
      intros k Hr. apply Hk. lia.
Qed.

Lemma lane_sum_pzp (term : Z -> float) g :
  (forall k, (0 <= k < 4 * Z.of_nat g)%Z -> pzero_or_positive (term k)) ->
  pzero_or_positive (lane_sum F32.add F32.zero term g) /\
  (lane_sum F32.add F32.zero term g = F32.zero <->
   forall k, (0 <= k < 4 * Z.of_nat g)%Z -> term k = F32.zero).
Proof.
  intros Ht. unfold lane_sum, lane_sums.
  pose proof (lane_sums_pzp term g 0 F32.zero F32.zero F32.zero F32.zero
                (or_introl eq_refl) (or_introl eq_refl)
                (or_introl eq_refl) (or_introl eq_refl) Ht) as H.
  destruct (iter_from _ 4 g 0 _) as [[[k0 k1] k2] k3].
  destruct H as [(P0 & P1 & P2 & P3) HZ].
  destruct (f32_add_pzp k0 k1 P0 P1) as [Q1 E1].
  destruct (f32_add_pzp _ k2 Q1 P2) as [Q2 E2].
  destruct (f32_add_pzp _ k3 Q2 P3) as [Q3 E3].
  split; [exact Q3 |]. rewrite E3, E2, E1. split.
  + intros [[[A0 A1] A2] A3]. apply HZ. tauto.
  + intros Hk. destruct HZ as [_ HZ]. specialize (HZ (conj (conj eq_refl (conj eq_refl (conj eq_refl eq_refl))) Hk)).
    tauto.
Qed.

(** A NaN term makes the sum NaN, in either order of summation. *)
Lemma serial_sum_nan (term : Z -> float) n j :
  (0 <= j < Z.of_nat n)%Z -> term j = F32.nan ->
  serial_sum F32.add F32.zero term n = F32.nan.
Proof.
  intros Hj Hnan. unfold serial_sum.
  apply (iter_from_poison (fun x => x = F32.nan)
           (fun i acc => F32.add acc (term i)) 1 j).
  - intros i x ->. reflexivity.
  - intros x. rewrite Hnan. apply f32_add_nan_r.
  - exists (Z.to_nat j). split; lia.
Qed.

Lemma lane_sum_nan (term : Z -> float) g j :
  (0 <= j < 4 * Z.of_nat g)%Z -> term j = F32.nan ->
  lane_sum F32.add F32.zero term g = F32.nan.
Proof.
  intros Hj Hnan. unfold lane_sum, lane_sums.
  pose proof (iter_from_poison
    (fun t : float * float * float * float =>
       let '(l0, l1, l2, l3) := t in
       l0 = F32.nan \/ l1 = F32.nan \/ l2 = F32.nan \/ l3 = F32.nan)
    (fun i '(l0, l1, l2, l3) =>
       (F32.add l0 (term i), F32.add l1 (term (i + 1)%Z),
        F32.add l2 (term (i + 2)%Z), F32.add l3 (term (i + 3)%Z)))
    4 (4 * (j / 4))%Z) as H.
  specialize (H ltac:(intros i [[[l0 l1] l2] l3] [-> | [-> | [-> | ->]]]; tauto)).
  assert (Hhit : forall x : float * float * float * float,
            let '(l0, l1, l2, l3) :=
              (let '(l0, l1, l2, l3) := x in
               (F32.add l0 (term (4 * (j / 4))%Z),
                F32.add l1 (term (4 * (j / 4) + 1)%Z),
                F32.add l2 (term (4 * (j / 4) + 2)%Z),
                F32.add l3 (term (4 * (j / 4) + 3)%Z))) in
            l0 = F32.nan \/ l1 = F32.nan \/ l2 = F32.nan \/ l3 = F32.nan).
  { intros [[[l0 l1] l2] l3].
    pose proof (Z.div_mod j 4 ltac:(lia)) as E.
    pose proof (Z.mod_pos_bound j 4 ltac:(lia)) as B.
    assert (C : (j mod 4 = 0 \/ j mod 4 = 1 \/ j mod 4 = 2 \/ j mod 4 = 3)%Z) by lia.
    destruct C as [C|[C|[C|C]]]; rewrite C in E.
    - left. replace (4 * (j / 4))%Z with j by lia. rewrite Hnan. apply f32_add_nan_r.
    - right; left. replace (4 * (j / 4) + 1)%Z with j by lia. rewrite Hnan.
      apply f32_add_nan_r.
    - right; right; left. replace (4 * (j / 4) + 2)%Z with j by lia. rewrite Hnan.
      apply f32_add_nan_r.
    - right; right; right. replace (4 * (j / 4) + 3)%Z with j by lia. rewrite Hnan.
      apply f32_add_nan_r. }
  specialize (H Hhit g 0%Z (F32.zero, F32.zero, F32.zero, F32.zero)).
  destruct (iter_from _ 4 g 0 _) as [[[k0 k1] k2] k3].
  destruct H as [-> | [-> | [-> | ->]]].
  - exists (Z.to_nat (j / 4)).
    assert (0 <= j / 4)%Z by (apply Z.div_pos; lia).
    assert (j / 4 < Z.of_nat g)%Z by (apply Z.div_lt_upper_bound; lia).
    split; lia.
  - reflexivity.
  - rewrite f32_add_nan_r. reflexivity.
  - rewrite f32_add_nan_r. reflexivity.
  - apply f32_add_nan_r.
Qed.

Lemma f32_sqrt_zero_iff x :
  pzero_or_positive x -> (F32.sqrt x = F32.zero <-> x = F32.zero).
Proof.
  intros [-> | Hp]; [tauto |].
  pose proof (f32_sqrt_positive x Hp) as Hs. pose proof (positive_float_not_zero x Hp) as Hx.
  split; intros E; rewrite E in *; discriminate.
Qed.

Lemma sq_diff_terms m a b len :
  finite_buf m a len -> finite_buf m b len -> apart_buf m a b len ->
  forall k, (0 <= k < len)%Z ->
    pzero_or_positive (sq_diff m a b k) /\
    (sq_diff m a b k = F32.zero <-> F32.eqb (cell m (a + k)) (cell m (b + k)) = true).
Proof.
  intros Ha Hb Hap k Hk. unfold sq_diff.
  apply sq_diff_sign; [apply Ha | apply Hb | apply Hap]; exact Hk.
Qed.

(** The scalar distance of finite vectors whose pairs are equal or at least
    [2^-74] apart is [+0] exactly when the vectors are equal. *)
Lemma ScalarSpec_dist_zero_iff m a b len :
  (0 <= len)%Z ->
  finite_buf m a len -> finite_buf m b len -> apart_buf m a b len ->
  (ScalarSpec.dist m a b len = F32.zero <-> equal_buf m a b len).
Proof.
  intros Hlen Ha Hb Hap. rewrite ScalarSpec_dist_serial.
  pose proof (sq_diff_terms m a b len Ha Hb Hap) as Ht.
  destruct (serial_sum_pzp (sq_diff m a b) (Z.to_nat len)) as [Hp Hz].
  { intros k Hk. apply Ht. lia. }
  rewrite (f32_sqrt_zero_iff _ Hp), Hz. unfold equal_buf. split.
  - intros H i Hi. apply Ht; [exact Hi |]. apply H. lia.
  - intros H k Hk. apply Ht; [lia |]. apply H. lia.
Qed.

Lemma SimdSpec_dist_zero_iff m a b len :
  (0 <= len)%Z -> (len mod 4 = 0)%Z ->
  finite_buf m a len -> finite_buf m b len -> apart_buf m a b len ->
  (SimdSpec.dist m a b len = F32.zero <-> equal_buf m a b len).
Proof.
  intros Hlen Hmod Ha Hb Hap. rewrite SimdSpec_dist_lanes.
  pose proof (sq_diff_terms m a b len Ha Hb Hap) as Ht.
  destruct (groups_multiple len Hlen Hmod) as [E1 _].
  assert (E : (4 * Z.of_nat (SimdSpec.groups len) = len)%Z) by lia.
  destruct (lane_sum_pzp (sq_diff m a b) (SimdSpec.groups len)) as [Hp Hz].
  { intros k Hk. apply Ht. lia. }
  rewrite (f32_sqrt_zero_iff _ Hp), Hz. unfold equal_buf. split.
  - intros H i Hi. apply Ht; [exact Hi |]. apply H. lia.
  - intros H k Hk. apply Ht; [lia |]. apply H. lia.
Qed.

(** An infinity or a NaN met with itself: the difference is NaN. *)
Lemma sq_diff_nonfinite m a b j :
  F32.is_finite (cell m (a + j)) = false ->
  cell m (b + j) = cell m (a + j) ->
  sq_diff m a b j = F32.nan.
Proof.
  intros Hf E. unfold sq_diff. rewrite E.
  destruct (cell m (a + j)) as [|[]| |]; try discriminate; reflexivity.
Qed.

Lemma ScalarSpec_dist_nonfinite m a b len j :
  (0 <= j < len)%Z ->
  F32.is_finite (cell m (a + j)) = false -> cell m (b + j) = cell m (a + j) ->
  ScalarSpec.dist m a b len = F32.nan.
Proof.
  intros Hj Hf E. rewrite ScalarSpec_dist_serial.
  rewrite (serial_sum_nan _ _ j); [reflexivity | lia |].
  apply sq_diff_nonfinite; assumption.
Qed.

Lemma SimdSpec_dist_nonfinite m a b len j :
  (0 <= j < len)%Z -> (len mod 4 = 0)%Z ->
  F32.is_finite (cell m (a + j)) = false -> cell m (b + j) = cell m (a + j) ->
  SimdSpec.dist m a b len = F32.nan.
Proof.
  intros Hj Hmod Hf E. rewrite SimdSpec_dist_lanes.
  destruct (groups_multiple len ltac:(lia) Hmod) as [E1 _].
  rewrite (lane_sum_nan _ _ j); [reflexivity | lia |].
  apply sq_diff_nonfinite; assumption.
Qed.

(** C2 (as amended): on buffers of [len] elements lying in the memory,
    [euclideanDistance] returns a value that is never below zero (it is NaN,
    a zero, or positive), and returns [+0] whenever the two vectors agree
    element by element and their elements are finite -- in particular for
    [b = a].  When all elements are finite and the elements of every pair
    are equal or at least [2^-74] apart, so that no squared difference
    underflows to zero, the result is [+0] exactly when the vectors are
    equal element by element ([==]).  When some pair consists of the same
    infinity or of NaN, the result is NaN.  Scalar implementation: every
    length; SIMD implementation: every multiple of 4. *)
Theorem C2_euclideanDistance_sign_and_zero (s : state) (a b len : Z) :
  (0 <= len <= INT_MAX)%Z ->
  valid_buf (mem s) a len -> valid_buf (mem s) b len ->
  (exists r new,
     ScalarCpp.euclideanDistance a b len s = Ok (r, mkState (mem s) (new ++ trace s)) /\
     F32.is_negative r = false /\
     (finite_buf (mem s) a len -> same_buf (mem s) a b len -> r = F32.zero) /\
     (finite_buf (mem s) a len -> finite_buf (mem s) b len ->
      apart_buf (mem s) a b len ->
      (r = F32.zero <-> equal_buf (mem s) a b len)) /\
     (forall j, (0 <= j < len)%Z ->
        F32.is_finite (cell (mem s) (a + j)) = false ->
        cell (mem s) (b + j) = cell (mem s) (a + j) -> r = F32.nan)) /\
  ((len mod 4 = 0)%Z ->
   exists r new,
     SimdC.euclideanDistance a b len s = Ok (r, mkState (mem s) (new ++ trace s)) /\
     F32.is_negative r = false /\
     (finite_buf (mem s) a len -> same_buf (mem s) a b len -> r = F32.zero) /\
     (finite_buf (mem s) a len -> finite_buf (mem s) b len ->
      apart_buf (mem s) a b len ->
      (r = F32.zero <-> equal_buf (mem s) a b len)) /\
     (forall j, (0 <= j < len)%Z ->
        F32.is_finite (cell (mem s) (a + j)) = false ->
        cell (mem s) (b + j) = cell (mem s) (a + j) -> r = F32.nan)).
Proof.
  intros Hlen Ha Hb. split.
  - destruct (ScalarCpp_euclideanDistance_run s a b len Hlen Ha Hb) as (new & Hrun & _).
    eexists _, new. split; [exact Hrun |]. split; [| split; [| split]].
    + apply f32_sqrt_not_negative.
    + intros Hf Hs. apply ScalarSpec_dist_same; [lia | exact Hf | exact Hs].
    + intros Hfa Hfb Hap. apply ScalarSpec_dist_zero_iff; [lia | assumption ..].
    + intros j Hj Hf E. apply (ScalarSpec_dist_nonfinite _ _ _ _ j); assumption.
  - intros Hmod.
    destruct (SimdC_euclideanDistance_run s a b len Hlen Hmod Ha Hb) as (new & Hrun & _).
    eexists _, new. split; [exact Hrun |]. split; [| split; [| split]].
    + apply f32_sqrt_not_negative.
    + intros Hf Hs. apply SimdSpec_dist_same; [lia | exact Hmod | exact Hf | exact Hs].
    + intros Hfa Hfb Hap. apply SimdSpec_dist_zero_iff; [lia | assumption ..].
    + intros j Hj Hf E. apply (SimdSpec_dist_nonfinite _ _ _ _ j); assumption.
Qed.

Lemma C2_euclideanDistance_sign_and_zero_witness :
  ((0 <= 4 <= INT_MAX)%Z /\
   valid_buf (mem state_e1_e2) 0 4 /\ valid_buf (mem state_e1_e2) 4 4 /\
   finite_buf (mem state_e1_e2) 0 4 /\ finite_buf (mem state_e1_e2) 4 4 /\
   apart_buf (mem state_e1_e2) 0 4 4) /\
  exists r new,
    ScalarCpp.euclideanDistance 0 4 4 state_e1_e2 =
      Ok (r, mkState (mem state_e1_e2) (new ++ trace state_e1_e2)) /\
    F32.is_negative r = false /\
    (r = F32.zero <-> equal_buf (mem state_e1_e2) 0 4 4).
Proof.
  assert (H1 : (0 <= 4 <= INT_MAX)%Z) by (unfold INT_MAX; lia).
  assert (H2 : valid_buf (mem state_e1_e2) 0 4) by (unfold valid_buf; simpl; lia).
  assert (H3 : valid_buf (mem state_e1_e2) 4 4) by (unfold valid_buf; simpl; lia).
  assert (H4 : finite_buf (mem state_e1_e2) 0 4).
  { intros i Hi.
    assert (i = 0 \/ i = 1 \/ i = 2 \/ i = 3)%Z as [-> | [-> | [-> | ->]]] by lia;
      reflexivity. }
  assert (H5 : finite_buf (mem state_e1_e2) 4 4).
  { intros i Hi.
    assert (i = 0 \/ i = 1 \/ i = 2 \/ i = 3)%Z as [-> | [-> | [-> | ->]]] by lia;
      reflexivity. }
  assert (E1 : to_R (S754_finite false 8388608 (-23)) = 1).
  { unfold to_R, sgn, F2R, bpow. simpl. lra. }
  assert (B : bpow (-74) <= 1).
  { pose proof (bpow_le (-74) 0 ltac:(lia)) as H. unfold bpow at 2 in H. simpl in H.
    exact H. }
  assert (H6 : apart_buf (mem state_e1_e2) 0 4 4).
  { intros i Hi.
    assert (i = 0 \/ i = 1 \/ i = 2 \/ i = 3)%Z as [-> | [-> | [-> | ->]]] by lia.
    - right. change (cell (mem state_e1_e2) (0 + 0)) with (S754_finite false 8388608 (-23)).
      change (cell (mem state_e1_e2) (4 + 0)) with (S754_zero false).
      rewrite E1. cbn [to_R]. rewrite Rminus_0_r, Rabs_R1. exact B.
    - right. change (cell (mem state_e1_e2) (0 + 1)) with (S754_zero false).
      change (cell (mem state_e1_e2) (4 + 1)) with (S754_finite false 8388608 (-23)).
      rewrite E1. cbn [to_R]. rewrite Rminus_0_l, Rabs_Ropp, Rabs_R1. exact B.
    - left. reflexivity.
    - left. reflexivity. }
  split; [auto 8 |].
  destruct (proj1 (C2_euclideanDistance_sign_and_zero state_e1_e2 0 4 4 H1 H2 H3))
    as (r & new & Hrun & Hneg & _ & Hiff & _).
  exists r, new. split; [exact Hrun |]. split; [exact Hneg |].
  apply Hiff; assumption.
Defined.

(** ** The unit norm, within tolerance *)

(** No element exceeds the norm. *)
Lemma quotient_le_1 m v len i :
  (0 <= i < len)%Z -> 0 < norm_sq_R m v len ->
  Rabs (to_R (cell m (v + i)) / sqrt (norm_sq_R m v len)) <= 1.
Proof.
  intros Hi HS. set (X := to_R (cell m (v + i))). set (S := norm_sq_R m v len) in *.
  assert (HX : X * X <= S).
  { unfold S, norm_sq_R, X.
    apply (serial_ge_term (fun i => to_R (cell m (v + i)) * to_R (cell m (v + i)))).
    - intros t _. nra.
    - lia. }
  pose proof (sqrt_lt_R0 S HS) as Hs. pose proof (sqrt_sqrt S ltac:(lra)) as Es.
  unfold Rdiv. rewrite Rabs_mult, (Rabs_right (/ sqrt S))
    by (apply Rle_ge, Rlt_le, Rinv_0_lt_compat; exact Hs).
  apply Rmult_le_reg_r with (sqrt S); [exact Hs |].
  rewrite Rmult_assoc, Rinv_l by (apply Rgt_not_eq; lra). rewrite Rmult_1_r, Rmult_1_l.
  apply sq_le_inv; [apply Rabs_pos | lra |]. rewrite <- sq_Rabs, Es. exact HX.
Qed.

(** A change that is small relative to an element that is about 1 at most. *)
Lemma small_change e1 e2 q o o' :
  0 <= e1 <= 83 * u32 -> 0 <= e2 <= 167 * u32 ->
  Rabs q <= 1 -> Rabs (o - q) <= e1 * Rabs q ->
  Rabs (o' - o) <= e2 * Rabs o ->
  Rabs (o' - o) <= / 100000.
Proof.
  intros H1 H2 Hq Ho Hd. pose proof u32_eq as EU.
  pose proof (Rabs_pos q) as Pq. pose proof (Rabs_pos o) as Po.
  assert (Hob : Rabs o <= 1 + e1).
  { replace o with ((o - q) + q) by ring.
    eapply Rle_trans; [apply Rabs_triang |]. nra. }
  rewrite EU in *. nra.
Qed.

(** C6 (as amended): [normalize] returns with every element [v[i]]
    replaced by the binary32 product [v[i] * (1 / n)] (SIMD, length a
    multiple of 4) or by the binary32 quotient [v[i] / n] when [n > 0] and
    left as it was otherwise (scalar), [n] being the computed norm, and with
    the rest of the memory untouched.  For a nonzero vector of at most 4000
    elements, each zero or of magnitude in [[2^-50, 2^54)] so that the sum
    of squares stays in range, every element of the result is a finite
    number and the L2 norm of the result is 1 up to [(len + 6) 2^-25]
    (scalar) and [(len / 4 + 11) 2^-25] (SIMD): within [1e-5] for up to 320
    and 1200 elements.  When the elements are moreover zero or of magnitude
    in [[2^-17, 2^16)], a second [normalize] returns finite numbers again
    and changes each element by at most the relative amount
    [(len + 7) 2^-24] (scalar) and [(len / 4 + 12) 2^-24] (SIMD): by at most
    [1e-5] for up to 160 and 620 elements.  The family of the nonzero
    vectors of four integers between -4 and 4 is checked by evaluation. *)
Theorem C6_normalize_scales_by_computed_norm (s : state) (v len : Z) :
  (0 <= len <= INT_MAX)%Z -> valid_buf (mem s) v len ->
  ((len mod 4 = 0)%Z ->
   exists s',
     SimdC.normalize v len s = Ok (tt, s') /\
     (forall i, (0 <= i < len)%Z ->
        cell (mem s') (v + i) =
        F32.mul (cell (mem s) (v + i))
                (F32.div (F32.of_Z 1) (SimdSpec.norm (mem s) v len))) /\
     (forall addr, ~ in_buf v len addr -> cell (mem s') addr = cell (mem s) addr)) /\
  (exists s',
     ScalarCpp.normalize v len s = Ok (tt, s') /\
     (forall i, (0 <= i < len)%Z ->
        cell (mem s') (v + i) =
        if F32.ltb (F32.of_Z 0) (ScalarSpec.norm (mem s) v len)
        then F32.div (cell (mem s) (v + i)) (ScalarSpec.norm (mem s) v len)
        else cell (mem s) (v + i)) /\
     (forall addr, ~ in_buf v len addr -> cell (mem s') addr = cell (mem s) addr)) /\
  (forall x0 x1 x2 x3,
     (-4 <= x0 <= 4)%Z -> (-4 <= x1 <= 4)%Z -> (-4 <= x2 <= 4)%Z -> (-4 <= x3 <= 4)%Z ->
     (x0, x1, x2, x3) <> (0, 0, 0, 0)%Z ->
     normalize_twice_ok SimdC.normalize [x0; x1; x2; x3] = true /\
     normalize_twice_ok ScalarCpp.normalize [x0; x1; x2; x3] = true) /\
  ((0 < len <= 4000)%Z -> scaled_buf (mem s) v len ->
   (exists j, (0 <= j < len)%Z /\ F32.is_zero (cell (mem s) (v + j)) = false) ->
   (exists s1,
      ScalarCpp.normalize v len s = Ok (tt, s1) /\
      (forall i, (0 <= i < len)%Z -> regular (cell (mem s1) (v + i))) /\
      Rabs (sqrt (norm_sq_R (mem s1) v len) - 1) <= (IZR len + 6) / 2 * u32 /\
      ((len <= 320)%Z -> Rabs (sqrt (norm_sq_R (mem s1) v len) - 1) <= / 100000)) /\
   ((len mod 4 = 0)%Z ->
    exists s2,
      SimdC.normalize v len s = Ok (tt, s2) /\
      (forall i, (0 <= i < len)%Z -> regular (cell (mem s2) (v + i))) /\
      Rabs (sqrt (norm_sq_R (mem s2) v len) - 1) <= (IZR len / 4 + 11) / 2 * u32 /\
      ((len <= 1200)%Z -> Rabs (sqrt (norm_sq_R (mem s2) v len) - 1) <= / 100000))) /\
  ((0 < len <= 4000)%Z -> moderate_buf (mem s) v len ->
   (exists j, (0 <= j < len)%Z /\ F32.is_zero (cell (mem s) (v + j)) = false) ->
   (exists s1 s2,
      ScalarCpp.normalize v len s = Ok (tt, s1) /\
      ScalarCpp.normalize v len s1 = Ok (tt, s2) /\
      forall i, (0 <= i < len)%Z ->
        regular (cell (mem s1) (v + i)) /\ regular (cell (mem s2) (v + i)) /\
        Rabs (to_R (cell (mem s2) (v + i)) - to_R (cell (mem s1) (v + i))) <=
          (IZR len + 7) * u32 * Rabs (to_R (cell (mem s1) (v + i))) /\
        ((len <= 160)%Z ->
         Rabs (to_R (cell (mem s2) (v + i)) - to_R (cell (mem s1) (v + i))) <=
           / 100000)) /\
   ((len mod 4 = 0)%Z ->
    exists s1 s2,
      SimdC.normalize v len s = Ok (tt, s1) /\
      SimdC.normalize v len s1 = Ok (tt, s2) /\
      forall i, (0 <= i < len)%Z ->
        regular (cell (mem s1) (v + i)) /\ regular (cell (mem s2) (v + i)) /\
        Rabs (to_R (cell (mem s2) (v + i)) - to_R (cell (mem s1) (v + i))) <=
          (IZR len / 4 + 12) * u32 * Rabs (to_R (cell (mem s1) (v + i))) /\
        ((len <= 620)%Z ->
         Rabs (to_R (cell (mem s2) (v + i)) - to_R (cell (mem s1) (v + i))) <=
           / 100000))).
Proof.
  intros Hlen Hv. split; [| split; [| split; [| split]]].
  - intros Hmod. apply SimdC_normalize_cells; assumption.
  - apply ScalarCpp_normalize_cells; assumption.
  - intros x0 x1 x2 x3 H0 H1 H2 H3 Hnz. split.
    + apply (box4_spec 4); try assumption. vm_compute. reflexivity.
    + apply (box4_spec 4); try assumption. vm_compute. reflexivity.
  - intros Hl Hs Hnz. split.
    + apply ScalarCpp_normalize_norm_error; assumption.
    + intros Hmod. apply SimdC_normalize_norm_error; assumption.
  - intros Hl Hm Hnz. pose proof u32_bounds as HU.
    pose proof (moderate_buf_scaled _ _ _ Hm) as Hs.
    assert (HL : 1 <= IZR len <= 4000) by (split; apply IZR_le; lia).
    assert (HS : bpow (-100) <= norm_sq_R (mem s) v len).
    { destruct Hnz as (j & Hj & Hz). exact (norm_sq_R_pos _ _ _ _ Hj Hs Hz). }
    pose proof (bpow_pos (-100)) as P100.
    split.
    + destruct (ScalarCpp_normalize_twice s v len Hl Hv Hm Hnz)
        as (s1 & s2 & Hrun1 & Hrun2 & H).
      exists s1, s2. split; [exact Hrun1 |]. split; [exact Hrun2 |].
      intros i Hi. destruct (H i Hi) as (R1 & R2 & B).
      split; [exact R1 |]. split; [exact R2 |]. split; [exact B |].
      intros H160. apply IZR_le in H160.
      destruct (ScalarCpp_normalize_elements s v len Hl Hv Hs Hnz)
        as (s1' & Hrun1' & Hel).
      rewrite Hrun1 in Hrun1'. injection Hrun1' as <-.
      destruct (Hel i Hi) as [_ Bq].
      apply (small_change ((IZR len + 6) / 2 * u32) ((IZR len + 7) * u32)
               (to_R (cell (mem s) (v + i)) / sqrt (norm_sq_R (mem s) v len)));
        [split; nra | split; nra | | exact Bq | exact B].
      apply quotient_le_1; [exact Hi | lra].
    + intros Hmod.
      destruct (SimdC_normalize_twice s v len Hl Hmod Hv Hm Hnz)
        as (s1 & s2 & Hrun1 & Hrun2 & H).
      exists s1, s2. split; [exact Hrun1 |]. split; [exact Hrun2 |].
      intros i Hi. destruct (H i Hi) as (R1 & R2 & B).
      split; [exact R1 |]. split; [exact R2 |]. split; [exact B |].
      intros H620. apply IZR_le in H620.
      destruct (SimdC_normalize_elements s v len Hl Hmod Hv Hs Hnz)
        as (s1' & Hrun1' & Hel).
      rewrite Hrun1 in Hrun1'. injection Hrun1' as <-.
      destruct (Hel i Hi) as [_ Bq].
      apply (small_change ((IZR len / 4 + 11) / 2 * u32) ((IZR len / 4 + 12) * u32)
               (to_R (cell (mem s) (v + i)) / sqrt (norm_sq_R (mem s) v len)));
        [split; nra | split; nra | | exact Bq | exact B].
      apply quotient_le_1; [exact Hi | lra].
Qed.

Lemma C6_normalize_scales_by_computed_norm_witness :
  ((0 <= 4 <= INT_MAX)%Z /\ valid_buf (mem state_3_4_0_0) 0 4 /\
   (0 < 4 <= 4000)%Z /\ moderate_buf (mem state_3_4_0_0) 0 4 /\
   scaled_buf (mem state_3_4_0_0) 0 4 /\
   (exists j, (0 <= j < 4)%Z /\
      F32.is_zero (cell (mem state_3_4_0_0) (0 + j)) = false)) /\
  (exists s1,
     ScalarCpp.normalize 0 4 state_3_4_0_0 = Ok (tt, s1) /\
     (forall i, (0 <= i < 4)%Z -> regular (cell (mem s1) (0 + i))) /\
     Rabs (sqrt (norm_sq_R (mem s1) 0 4) - 1) <= (IZR 4 + 6) / 2 * u32 /\
     ((4 <= 320)%Z -> Rabs (sqrt (norm_sq_R (mem s1) 0 4) - 1) <= / 100000)) /\
  (exists s1 s2,
     ScalarCpp.normalize 0 4 state_3_4_0_0 = Ok (tt, s1) /\
     ScalarCpp.normalize 0 4 s1 = Ok (tt, s2) /\
     forall i, (0 <= i < 4)%Z ->
       regular (cell (mem s1) (0 + i)) /\ regular (cell (mem s2) (0 + i)) /\
       Rabs (to_R (cell (mem s2) (0 + i)) - to_R (cell (mem s1) (0 + i))) <=
         (IZR 4 + 7) * u32 * Rabs (to_R (cell (mem s1) (0 + i))) /\
       ((4 <= 160)%Z ->
        Rabs (to_R (cell (mem s2) (0 + i)) - to_R (cell (mem s1) (0 + i))) <=
          / 100000)).
Proof.
  assert (H1 : (0 <= 4 <= INT_MAX)%Z) by (unfold INT_MAX; lia).
  assert (H2 : valid_buf (mem state_3_4_0_0) 0 4) by (unfold valid_buf; simpl; lia).
  assert (H3 : (0 < 4 <= 4000)%Z) by lia.
  assert (H4 : moderate_buf (mem state_3_4_0_0) 0 4).
  { intros i Hi.
    assert (i = 0 \/ i = 1 \/ i = 2 \/ i = 3)%Z as [-> | [-> | [-> | ->]]] by lia;
      reflexivity. }
  assert (H5 : scaled_buf (mem state_3_4_0_0) 0 4).
  { intros i Hi.
    assert (i = 0 \/ i = 1 \/ i = 2 \/ i = 3)%Z as [-> | [-> | [-> | ->]]] by lia;
      reflexivity. }
  assert (H6 : exists j, (0 <= j < 4)%Z /\
                 F32.is_zero (cell (mem state_3_4_0_0) (0 + j)) = false)
    by (exists 0%Z; split; [lia | reflexivity]).
  split; [auto 8 |].
  destruct (C6_normalize_scales_by_computed_norm state_3_4_0_0 0 4 H1 H2)
    as (_ & _ & _ & HD & HE).
  split.
  - exact (proj1 (HD H3 H5 H6)).
  - exact (proj1 (HE H3 H4 H6)).
Defined.
